(** * version-to-regex: the constraint compiler and its digit-range synthesizer

    A shallow embedding of package [convert] of ildyria/version-to-regex
    (constants and [NumGreaterOrEqual] / [NumLessOrEqual] of
    [convert/regexes.go], the constraint parser and compiler, the NuGet, Go
    module and Maven formatters), together with the part of Go's standard
    library the package calls: [strings], [strconv], [fmt.Sprintf],
    [regexp.QuoteMeta], and a model of [regexp.Compile] / [MatchString]
    for the RE2 syntax the generated patterns use. *)

From Stdlib Require Import List Ascii ZArith Lia Bool Arith.
Import ListNotations.

(** ** Go strings

    A Go [string] is an immutable sequence of bytes; it is modelled as a list
    of [ascii] (8-bit) characters, so that [len], slicing [s[:i]] and
    concatenation are [length], [firstn] and [++]. *)

Definition gostring := list ascii.

Inductive lascii := lnil | lcons (a : ascii) (l : lascii).

Fixpoint lascii_of_bytes (l : list Byte.byte) : lascii :=
  match l with
  | [] => lnil
  | b :: l' => lcons (ascii_of_byte b) (lascii_of_bytes l')
  end.

Fixpoint bytes_of_lascii (s : lascii) : list Byte.byte :=
  match s with
  | lnil => []
  | lcons a l => byte_of_ascii a :: bytes_of_lascii l
  end.

Declare Scope gs_scope.
Delimit Scope gs_scope with gs.
#[warnings="-via-type-remapping,-via-type-mismatch"]
String Notation gostring lascii_of_bytes bytes_of_lascii
  (via lascii mapping [[nil] => lnil, [cons] => lcons]) : gs_scope.
Bind Scope gs_scope with gostring.
Open Scope gs_scope.
Open Scope Z_scope.

(** The numeric value of a byte, and the byte of a decimal digit. *)
Definition byte_val (c : ascii) : Z := Z.of_N (N_of_ascii c).

Definition byte_of_Z (z : Z) : ascii := ascii_of_N (Z.to_N (z mod 256)).

Definition is_digit (c : ascii) : bool :=
  (48 <=? byte_val c) && (byte_val c <=? 57).

Definition digit_char (d : Z) : ascii := byte_of_Z (48 + d).

Fixpoint gs_eqb (a b : gostring) : bool :=
  match a, b with
  | [], [] => true
  | x :: a', y :: b' => Ascii.eqb x y && gs_eqb a' b'
  | _, _ => false
  end.

Definition isnil {A} (l : list A) : bool :=
  match l with [] => true | _ => false end.

(** Go's [int] is 64 bits wide on the platforms the package targets;
    arithmetic wraps around. *)
Definition MinInt64 : Z := - 2 ^ 63.
Definition MaxInt64 : Z := 2 ^ 63 - 1.

Definition wrap64 (z : Z) : Z := (z + 2 ^ 63) mod 2 ^ 64 - 2 ^ 63.

Definition in_int64 (z : Z) : bool := (MinInt64 <=? z) && (z <=? MaxInt64).

(** Results of fallible functions: Go's [(value, error)] pair, the error
    being the message [fmt.Errorf] builds. *)
Inductive result (A : Type) : Type :=
| Ok (a : A)
| Err (msg : gostring).
Arguments Ok {A} a.
Arguments Err {A} msg.

Definition is_ok {A} (r : result A) : bool :=
  match r with Ok _ => true | Err _ => false end.

(** ** Package [strconv] *)
Module strconv.

(** The decimal digits of a non-negative number, most significant first
    (20 digits are more than an [int] ever has). *)
Fixpoint utoa (fuel : nat) (n : Z) : gostring :=
  match fuel with
  | O => []
  | S f =>
      if n <? 10 then [digit_char n]
      else utoa f (n / 10) ++ [digit_char (n mod 10)]
  end.

Definition Itoa (n : Z) : gostring :=
  if n <? 0 then "-"%char :: utoa 20 (- n) else utoa 20 n.

(** The value of a string of decimal digits. *)
Definition decimal_value (s : gostring) : Z :=
  fold_left (fun acc c => 10 * acc + (byte_val c - 48)) s 0.

Definition clamp64 (z : Z) : Z := Z.max MinInt64 (Z.min MaxInt64 z).

(** The decimal digits a string begins with. *)
Fixpoint leading_digits (s : gostring) : gostring :=
  match s with
  | c :: r => if is_digit c then c :: leading_digits r else []
  | [] => []
  end.

(** [Atoi]: an optional sign, then one or more decimal digits, the value
    within the range of [int]. The second component tells whether the
    error is [nil]; with a syntax error the value is 0, with a range error
    the nearest [int]. Go reads the digits from the left into 64 unsigned
    bits and stops where they overflow: digits worth [2 ^ 64] or more give
    the range error even when a byte that is no digit follows them. *)
Definition Atoi (s : gostring) : Z * bool :=
  let '(neg, body) :=
    match s with
    | "-"%char :: r => (true, r)
    | "+"%char :: r => (false, r)
    | _ => (false, s)
    end in
  if isnil body then (0, false)
  else if forallb is_digit body then
    let v := if neg : bool then - decimal_value body else decimal_value body in
    (clamp64 v, in_int64 v)
  else if 2 ^ 64 <=? decimal_value (leading_digits body) then
    (if neg : bool then MinInt64 else MaxInt64, false)
  else (0, false).

End strconv.

(** ** Package [strings] *)
Module strings.

Fixpoint HasPrefix (s prefix : gostring) {struct prefix} : bool :=
  match prefix with
  | [] => true
  | p :: prefix' =>
      match s with
      | [] => false
      | c :: s' => Ascii.eqb c p && HasPrefix s' prefix'
      end
  end.

Definition HasSuffix (s suffix : gostring) : bool :=
  HasPrefix (rev s) (rev suffix).

(** Index of the first occurrence of [substr] in [s], or -1. *)
Fixpoint Index (s substr : gostring) : Z :=
  if HasPrefix s substr then 0
  else match s with
       | [] => -1
       | _ :: s' => let i := Index s' substr in if i <? 0 then -1 else i + 1
       end.

Definition Contains (s substr : gostring) : bool := 0 <=? Index s substr.

(** Go's slice expressions [s[:i]] and [s[i:]]. *)
Definition slice_to (s : gostring) (i : Z) : gostring := firstn (Z.to_nat i) s.
Definition slice_from (s : gostring) (i : Z) : gostring := skipn (Z.to_nat i) s.

Fixpoint split_byte (sep : ascii) (s : gostring) : list gostring :=
  match s with
  | [] => [[]]
  | c :: s' =>
      let r := split_byte sep s' in
      if Ascii.eqb c sep then [] :: r
      else match r with
           | p :: ps => (c :: p) :: ps
           | [] => [[c]]
           end
  end.

Fixpoint split_general (fuel : nat) (s sep : gostring) : list gostring :=
  match fuel with
  | O => [s]
  | S f =>
      let m := Index s sep in
      if m <? 0 then [s]
      else slice_to s m :: split_general f (slice_from s (m + Z.of_nat (length sep))) sep
  end.

(** [Split]: the substrings between the occurrences of [sep]. The package
    only splits on one-byte separators; an empty separator explodes the
    string into its bytes. *)
Definition Split (s sep : gostring) : list gostring :=
  match sep with
  | [] => map (fun c => [c]) s
  | [c] => split_byte c s
  | _ => split_general (length s) s sep
  end.

Fixpoint Join (elems : list gostring) (sep : gostring) : gostring :=
  match elems with
  | [] => []
  | [e] => e
  | e :: rest => e ++ sep ++ Join rest sep
  end.

Definition TrimPrefix (s prefix : gostring) : gostring :=
  if HasPrefix s prefix then skipn (length prefix) s else s.

Definition TrimSuffix (s suffix : gostring) : gostring :=
  if HasSuffix s suffix then firstn (length s - length suffix) s else s.

(** White space as Unicode defines it, in UTF-8: the ASCII ones, U+0085,
    U+00A0, U+1680, U+2000..U+200A, U+2028, U+2029, U+202F, U+205F and
    U+3000. *)
Definition space_encodings : list gostring :=
  map (map byte_of_Z)
    ([[9]; [10]; [11]; [12]; [13]; [32]; [194; 133]; [194; 160]; [225; 154; 128]]
     ++ map (fun k => [226; 128; 128 + Z.of_nat k]) (seq 0 11)
     ++ [[226; 128; 168]; [226; 128; 169]; [226; 128; 175]; [226; 129; 159];
         [227; 128; 128]]).

Definition leading_space (s : gostring) : nat :=
  match find (HasPrefix s) space_encodings with
  | Some e => length e
  | None => O
  end.

Fixpoint trim_left (fuel : nat) (s : gostring) : gostring :=
  match fuel with
  | O => s
  | S f =>
      match leading_space s with
      | O => s
      | k => trim_left f (skipn k s)
      end
  end.

Definition trailing_space (s : gostring) : nat :=
  match find (HasSuffix s) space_encodings with
  | Some e => length e
  | None => O
  end.

Fixpoint trim_right (fuel : nat) (s : gostring) : gostring :=
  match fuel with
  | O => s
  | S f =>
      match trailing_space s with
      | O => s
      | k => trim_right f (firstn (length s - k) s)
      end
  end.

Definition TrimSpace (s : gostring) : gostring :=
  let t := trim_left (length s) s in
  trim_right (length t) t.

End strings.

(** ** Package [fmt]: [Sprintf] with the verbs the package uses *)
Module fmt.

Inductive arg :=
| Int (z : Z)
| Str (s : gostring).

Definition describe (a : arg) : gostring :=
  match a with
  | Int z => "int=" ++ strconv.Itoa z
  | Str s => "string=" ++ s
  end.

Definition format_verb (v : ascii) (a : arg) : gostring :=
  match a with
  | Int z =>
      if Ascii.eqb v "d" || Ascii.eqb v "v" then strconv.Itoa z
      else "%!" ++ [v] ++ "(" ++ describe a ++ ")"
  | Str s =>
      if Ascii.eqb v "s" || Ascii.eqb v "v" || Ascii.eqb v "w" then s
      else "%!" ++ [v] ++ "(" ++ describe a ++ ")"
  end.

Fixpoint Sprintf (format : gostring) (args : list arg) : gostring :=
  match format with
  | [] =>
      match args with
      | [] => []
      | _ => "%!(EXTRA " ++ strings.Join (map describe args) ", " ++ ")"
      end
  | c :: rest =>
      if Ascii.eqb c "%" then
        match rest with
        | [] => "%!(NOVERB)"
        | v :: rest' =>
            if Ascii.eqb v "%" then "%"%char :: Sprintf rest' args
            else match args with
                 | [] => "%!" ++ [v] ++ "(MISSING)" ++ Sprintf rest' []
                 | a :: args' => format_verb v a ++ Sprintf rest' args'
                 end
        end
      else c :: Sprintf rest args
  end.

(** [Errorf] yields an error with the formatted message; [%w] prints the
    wrapped error's message. *)
Definition Errorf {A} (format : gostring) (args : list arg) : result A :=
  Err (Sprintf format args).

End fmt.

(** ** Package [regexp]

    [regexp.Compile] parses RE2 syntax with Go's Perl flags ([^] and [$]
    match at the ends of the text only, [.] does not match a newline).
    Go's parser is a loop over the pattern that keeps a stack of open
    groups; the model is the same machine, one byte at a time, for the part
    of the syntax the package generates: literals, escaped punctuation, [\d],
    [.], character classes with ranges, groups, alternation, the repetition
    operators and the anchors. A construct of RE2 outside this part is
    answered with [ErrNotModelled]; the other error codes are Go's.

    The flag [lookahead] selects the dialect: RE2 rejects [(?!] with
    [ErrInvalidPerlOp]; with the flag set, [(?!r)] is the negative lookahead
    of Perl-compatible engines. Candidate strings are read byte by byte,
    which is what Go does on ASCII text. *)
Module regexp.

Definition special (c : ascii) : bool :=
  existsb (Ascii.eqb c) "\.+*?()|[]{}^$".

Definition QuoteMeta (s : gostring) : gostring :=
  flat_map (fun c => if special c then ["\"%char; c] else [c]) s.

Inductive regex :=
| Eps
| Fail
| Bol
| Eol
| Chr (c : ascii)
| Any
| Cls (neg : bool) (ranges : list (ascii * ascii))
| Cat (r1 r2 : regex)
| Alt (r1 r2 : regex)
| Rep (r : regex) (min : nat) (max : option nat)
| NegLook (r : regex).

Definition Digit : regex := Cls false [("0"%char, "9"%char)].

Definition mkCat (items : list regex) : regex := fold_right Cat Eps items.
Definition mkAlt (alts : list regex) : regex := fold_right Alt Fail alts.

Inductive parse_error :=
| ErrInvalidPerlOp
| ErrMissingParen
| ErrUnexpectedParen
| ErrMissingRepeatArgument
| ErrInvalidRepeatOp
| ErrInvalidRepeatSize
| ErrInvalidCharRange
| ErrMissingBracket
| ErrTrailingBackslash
| ErrNotModelled.

Inductive group_kind := GCapture | GNonCapture | GNegLook.

(** An open group: the alternatives completed so far and the items of the
    alternative being read, both most recent first. *)
Record frame := Frame {
  alts : list regex;
  cur : list regex
}.

(** What stands before the cursor: nothing a repetition could apply to, an
    operand, a repetition operator, or a repetition operator with its
    non-greedy mark. *)
Inductive last_item := LNone | LAtom | LRepeat | LLazy.

Inductive cpos :=
| PStart
| PFirst
| PNext
| PLo (lo : ascii)
| PDash (lo : ascii)
| PEsc
| PDashEsc (lo : ascii).

Inductive mode :=
| MNormal (last : last_item)
| MEscape
| MGroup
| MGroupQ
| MClass (neg : bool) (ranges : list (ascii * ascii)) (pos : cpos)
| MRepMin (last : last_item) (digits : option nat)
| MRepMax (last : last_item) (min : nat) (digits : option nat).

Record pstate := PState {
  st_mode : mode;
  st_top : frame;
  st_stack : list (group_kind * frame)
}.

Definition presult := sum parse_error pstate.

Definition is_punct (c : ascii) : bool :=
  let v := byte_val c in
  (v <? 128) && negb (is_digit c)
  && negb ((65 <=? v) && (v <=? 90)) && negb ((97 <=? v) && (v <=? 122))
  && negb (v =? 95).

Definition push_item (r : regex) (top : frame) (stack : list (group_kind * frame)) : presult :=
  inr (PState (MNormal LAtom) (Frame (alts top) (r :: cur top)) stack).

Definition frame_regex (f : frame) : regex :=
  mkAlt (rev (mkCat (rev (cur f)) :: alts f)).

Definition open_group (k : group_kind) (top : frame) (stack : list (group_kind * frame)) : pstate :=
  PState (MNormal LNone) (Frame [] []) ((k, top) :: stack).

Definition apply_repeat (last : last_item) (mn : nat) (mx : option nat)
    (top : frame) (stack : list (group_kind * frame)) : presult :=
  match last with
  | LNone => inl ErrMissingRepeatArgument
  | LRepeat | LLazy => inl ErrInvalidRepeatOp
  | LAtom =>
      match cur top with
      | [] => inl ErrMissingRepeatArgument
      | r :: items =>
          inr (PState (MNormal LRepeat) (Frame (alts top) (Rep r mn mx :: items)) stack)
      end
  end.

Definition step_normal (last : last_item) (top : frame)
    (stack : list (group_kind * frame)) (c : ascii) : presult :=
  if Ascii.eqb c "(" then inr (PState MGroup top stack)
  else if Ascii.eqb c ")" then
    match stack with
    | [] => inl ErrUnexpectedParen
    | (k, parent) :: stack' =>
        let inner := frame_regex top in
        push_item (match k with GNegLook => NegLook inner | _ => inner end) parent stack'
    end
  else if Ascii.eqb c "|" then
    inr (PState (MNormal LNone) (Frame (mkCat (rev (cur top)) :: alts top) []) stack)
  else if Ascii.eqb c "^" then push_item Bol top stack
  else if Ascii.eqb c "$" then push_item Eol top stack
  else if Ascii.eqb c "." then push_item Any top stack
  else if Ascii.eqb c "[" then inr (PState (MClass false [] PStart) top stack)
  else if Ascii.eqb c "\" then inr (PState MEscape top stack)
  else if Ascii.eqb c "*" then apply_repeat last 0 None top stack
  else if Ascii.eqb c "+" then apply_repeat last 1 None top stack
  else if Ascii.eqb c "?" then
    match last with
    | LRepeat => inr (PState (MNormal LLazy) top stack)
    | _ => apply_repeat last 0 (Some 1%nat) top stack
    end
  else if Ascii.eqb c "{" then inr (PState (MRepMin last None) top stack)
  else if byte_val c <? 128 then push_item (Chr c) top stack
  else inl ErrNotModelled.

Definition digit_nat (c : ascii) : nat := Z.to_nat (byte_val c - 48).

Definition add_digit (digits : option nat) (c : ascii) : parse_error + nat :=
  match digits with
  | None => inr (digit_nat c)
  | Some O => inl ErrNotModelled
  | Some n =>
      let n' := (10 * n + digit_nat c)%nat in
      if (1000 <? n')%nat then inl ErrInvalidRepeatSize else inr n'
  end.

Definition close_class (neg : bool) (ranges : list (ascii * ascii))
    (top : frame) (stack : list (group_kind * frame)) : presult :=
  push_item (Cls neg (rev ranges)) top stack.

Definition step_class (neg : bool) (ranges : list (ascii * ascii)) (pos : cpos)
    (top : frame) (stack : list (group_kind * frame)) (c : ascii) : presult :=
  let goto rs p := inr (PState (MClass neg rs p) top stack) in
  let item rs :=
    if Ascii.eqb c "\" then goto rs PEsc
    else if Ascii.eqb c "[" then inl ErrNotModelled
    else if byte_val c <? 128 then goto rs (PLo c)
    else inl ErrNotModelled in
  match pos with
  | PStart =>
      if Ascii.eqb c "^" then inr (PState (MClass true ranges PFirst) top stack)
      else item ranges
  | PFirst => item ranges
  | PNext =>
      if Ascii.eqb c "]" then close_class neg ranges top stack
      else item ranges
  | PLo lo =>
      if Ascii.eqb c "]" then close_class neg ((lo, lo) :: ranges) top stack
      else if Ascii.eqb c "-" then goto ranges (PDash lo)
      else item ((lo, lo) :: ranges)
  | PDash lo =>
      if Ascii.eqb c "]" then
        close_class neg (("-"%char, "-"%char) :: (lo, lo) :: ranges) top stack
      else if Ascii.eqb c "\" then goto ranges (PDashEsc lo)
      else if Ascii.eqb c "[" then inl ErrNotModelled
      else if byte_val c <? 128 then
        if byte_val c <? byte_val lo then inl ErrInvalidCharRange
        else goto ((lo, c) :: ranges) PNext
      else inl ErrNotModelled
  | PEsc =>
      if Ascii.eqb c "d" then goto (("0"%char, "9"%char) :: ranges) PNext
      else if is_punct c then goto ranges (PLo c)
      else inl ErrNotModelled
  | PDashEsc lo =>
      if Ascii.eqb c "d" then inl ErrInvalidCharRange
      else if is_punct c then
        if byte_val c <? byte_val lo then inl ErrInvalidCharRange
        else goto ((lo, c) :: ranges) PNext
      else inl ErrNotModelled
  end.

Definition step (lookahead : bool) (st : pstate) (c : ascii) : presult :=
  let top := st_top st in
  let stack := st_stack st in
  match st_mode st with
  | MNormal last => step_normal last top stack c
  | MEscape =>
      if Ascii.eqb c "d" then push_item Digit top stack
      else if is_punct c then push_item (Chr c) top stack
      else inl ErrNotModelled
  | MGroup =>
      if Ascii.eqb c "?" then inr (PState MGroupQ top stack)
      else
        let st' := open_group GCapture top stack in
        step_normal LNone (st_top st') (st_stack st') c
  | MGroupQ =>
      if Ascii.eqb c ":" then inr (open_group GNonCapture top stack)
      else if Ascii.eqb c "!" then
        if lookahead then inr (open_group GNegLook top stack)
        else inl ErrInvalidPerlOp
      else if Ascii.eqb c "=" then inl ErrInvalidPerlOp
      else if existsb (Ascii.eqb c) "imsU-P<" then inl ErrNotModelled
      else inl ErrInvalidPerlOp
  | MClass neg ranges pos => step_class neg ranges pos top stack c
  | MRepMin last digits =>
      if is_digit c then
        match add_digit digits c with
        | inl e => inl e
        | inr n => inr (PState (MRepMin last (Some n)) top stack)
        end
      else
        match digits with
        | None => inl ErrNotModelled
        | Some mn =>
            if Ascii.eqb c "," then inr (PState (MRepMax last mn None) top stack)
            else if Ascii.eqb c "}" then apply_repeat last mn (Some mn) top stack
            else inl ErrNotModelled
        end
  | MRepMax last mn digits =>
      if is_digit c then
        match add_digit digits c with
        | inl e => inl e
        | inr n => inr (PState (MRepMax last mn (Some n)) top stack)
        end
      else if Ascii.eqb c "}" then
        match digits with
        | Some mx =>
            if (mx <? mn)%nat then inl ErrInvalidRepeatSize
            else apply_repeat last mn (Some mx) top stack
        | None => apply_repeat last mn None top stack
        end
      else inl ErrNotModelled
  end.

(** Feeding a pattern to the machine. *)
Fixpoint feed (lookahead : bool) (st : pstate) (pattern : gostring) : presult :=
  match pattern with
  | [] => inr st
  | c :: pattern' =>
      match step lookahead st c with
      | inl e => inl e
      | inr st' => feed lookahead st' pattern'
      end
  end.

Definition initial : pstate := PState (MNormal LNone) (Frame [] []) [].

Definition finish (st : pstate) : parse_error + regex :=
  match st_mode st with
  | MNormal _ =>
      match st_stack st with
      | [] => inr (frame_regex (st_top st))
      | _ => inl ErrMissingParen
      end
  | MEscape => inl ErrTrailingBackslash
  | MGroup | MGroupQ => inl ErrMissingParen
  | MClass _ _ _ => inl ErrMissingBracket
  | MRepMin _ _ | MRepMax _ _ _ => inl ErrNotModelled
  end.

Definition parse (lookahead : bool) (pattern : gostring) : parse_error + regex :=
  match feed lookahead initial pattern with
  | inl e => inl e
  | inr st => finish st
  end.

(** A compiled expression keeps its source text. *)
Record Regexp := mkRegexp {
  expr : gostring;
  prog : regex
}.

Definition compile_with (lookahead : bool) (pattern : gostring) : parse_error + Regexp :=
  match parse lookahead pattern with
  | inl e => inl e
  | inr r => inr (mkRegexp pattern r)
  end.

(** Go's [regexp.Compile]: RE2, no lookahead. *)
Definition Compile (pattern : gostring) : parse_error + Regexp :=
  compile_with false pattern.

Definition error_code (e : parse_error) : gostring :=
  match e with
  | ErrInvalidPerlOp => "invalid or unsupported Perl syntax"
  | ErrMissingParen => "missing closing )"
  | ErrUnexpectedParen => "unexpected )"
  | ErrMissingRepeatArgument => "missing argument to repetition operator"
  | ErrInvalidRepeatOp => "invalid nested repetition operator"
  | ErrInvalidRepeatSize => "invalid repeat count"
  | ErrInvalidCharRange => "invalid character class range"
  | ErrMissingBracket => "missing closing ]"
  | ErrTrailingBackslash => "trailing backslash at end of expression"
  | ErrNotModelled => "syntax outside the modelled part of RE2"
  end.

(** The text of a parse error, without the offending piece of the pattern
    that Go appends to it. *)
Definition Error (e : parse_error) : gostring :=
  "error parsing regexp: " ++ error_code e.

Definition in_class (neg : bool) (ranges : list (ascii * ascii)) (c : ascii) : bool :=
  xorb neg
    (existsb (fun r => (byte_val (fst r) <=? byte_val c) && (byte_val c <=? byte_val (snd r)))
       ranges).

(** All the ways to cut a string in two. *)
Fixpoint splits (w : gostring) : list (gostring * gostring) :=
  match w with
  | [] => [([], [])]
  | c :: w' => ([], w) :: map (fun p => (c :: fst p, snd p)) (splits w')
  end.

Definition matcher := bool -> gostring -> gostring -> bool.

(** [iter f fuel mn mx]: between [mn] and [mx] pieces in a row that [f]
    accepts. A piece may be empty only while it counts towards [mn]. *)
Fixpoint iter (f : matcher) (fuel : nat) (mn : nat) (mx : option nat)
    (b : bool) (w rest : gostring) : bool :=
  if (mn =? 0)%nat && isnil w then true
  else
    match fuel with
    | O => false
    | S fuel' =>
        match mx with
        | Some O => false
        | _ =>
            existsb
              (fun p =>
                 if negb (isnil (fst p)) || (0 <? mn)%nat then
                   if f b (fst p) (snd p ++ rest) then
                     iter f fuel' (pred mn) (option_map pred mx)
                       (b && isnil (fst p)) (snd p) rest
                   else false
                 else false)
              (splits w)
        end
    end.

(** [matches r b w rest]: [r] matches the piece [w] of the text, which
    is followed by [rest]; [b] tells whether [w] starts at the beginning of
    the text. *)
Fixpoint matches (r : regex) (b : bool) (w rest : gostring) {struct r} : bool :=
  match r with
  | Eps => isnil w
  | Fail => false
  | Bol => b && isnil w
  | Eol => isnil w && isnil rest
  | Chr c => match w with [x] => Ascii.eqb x c | _ => false end
  | Any => match w with [x] => negb (Ascii.eqb x "010") | _ => false end
  | Cls neg ranges => match w with [x] => in_class neg ranges x | _ => false end
  | Cat r1 r2 =>
      existsb
        (fun p =>
           if matches r1 b (fst p) (snd p ++ rest)
           then matches r2 (b && isnil (fst p)) (snd p) rest
           else false)
        (splits w)
  | Alt r1 r2 => if matches r1 b w rest then true else matches r2 b w rest
  | Rep r1 mn mx => iter (matches r1) (length w + mn) mn mx b w rest
  | NegLook r1 =>
      isnil w && negb (existsb (fun p => matches r1 b (fst p) (snd p)) (splits rest))
  end.

(** Does the text contain a match of [r]? *)
Definition search (r : regex) (s : gostring) : bool :=
  existsb
    (fun p =>
       existsb (fun q => matches r (isnil (fst p)) (fst q) (snd q)) (splits (snd p)))
    (splits s).

Definition MatchString (re : Regexp) (s : gostring) : bool := search (prog re) s.

End regexp.

(** ** Package [convert]: constants of [regexes.go] *)

Definition REGEX_START : gostring := "^".
Definition REGEX_END : gostring := "$".
Definition REGEX_OR : gostring := "|".
Definition VERSION_DIGITS : gostring := "\d+".
Definition VERSION_DOT : gostring := "\.".
Definition PRE_RELEASE_PATTERN : gostring := "(?:-[a-zA-Z0-9\-\.]+)?".
Definition BUILD_META_PATTERN : gostring := "(?:\+[a-zA-Z0-9\-\.]+)?".
Definition VERSION_SUFFIX_PATTERN : gostring := PRE_RELEASE_PATTERN ++ BUILD_META_PATTERN.
Definition SEMANTIC_VERSION_CORE : gostring :=
  VERSION_DIGITS ++ VERSION_DOT ++ VERSION_DIGITS ++ VERSION_DOT ++ VERSION_DIGITS.

Definition EXACT_VERSION_TEMPLATE : gostring :=
  REGEX_START ++ SEMANTIC_VERSION_CORE ++ VERSION_SUFFIX_PATTERN ++ REGEX_END.
Definition CARET_RANGE_TEMPLATE : gostring :=
  REGEX_START ++ "%d" ++ VERSION_DOT ++ VERSION_DIGITS ++ VERSION_DOT ++ VERSION_DIGITS
  ++ VERSION_SUFFIX_PATTERN ++ REGEX_END.
Definition CARET_RANGE_ZERO_MAJOR_TEMPLATE : gostring :=
  REGEX_START ++ "0" ++ VERSION_DOT ++ "%d" ++ VERSION_DOT ++ VERSION_DIGITS
  ++ VERSION_SUFFIX_PATTERN ++ REGEX_END.
Definition TILDE_RANGE_TEMPLATE : gostring :=
  REGEX_START ++ "%d" ++ VERSION_DOT ++ "%d" ++ VERSION_DOT ++ VERSION_DIGITS
  ++ VERSION_SUFFIX_PATTERN ++ REGEX_END.

Definition NOT_EQUAL_BASE_PATTERN : gostring :=
  REGEX_START ++ "(?!%s" ++ REGEX_END ++ ")" ++ "\d+(?:\.\d+)?(?:\.\d+)?"
  ++ "(?:-[a-zA-Z0-9\\-\\.]+)?(?:\\+[a-zA-Z0-9\\-\\.]+)?" ++ REGEX_END.

Definition EMPTY_MATCH_PATTERN : gostring := REGEX_START ++ "(?!.*)" ++ REGEX_END.

(** ** The digit-range synthesizer of [regexes.go] *)

(** The indices of a [for i := lo; i < hi; i++] loop. *)
Definition indices (lo hi : Z) : list Z :=
  map (fun k => lo + Z.of_nat k) (seq 0 (Z.to_nat (hi - lo))).

(** The byte [s[i]]. *)
Definition byte_at (s : gostring) (i : Z) : ascii := nth (Z.to_nat i) s zero.

Definition digitRangeUp (d : Z) : gostring :=
  if d =? 9 then "9" else fmt.Sprintf "[%d-9]" [fmt.Int d].

Definition digitRangeDown (d : Z) : gostring :=
  if d =? 0 then "0" else fmt.Sprintf "[0-%d]" [fmt.Int d].

Definition joinPatterns (patterns : list gostring) : gostring :=
  if (length patterns =? 1)%nat then nth 0 patterns []
  else "(?:" ++ strings.Join patterns REGEX_OR ++ ")".

(** One turn of the loop of [NumGreaterOrEqual] over the digit positions. *)
Definition greater_turn (s : gostring) (numDigits : Z) (patterns : list gostring) (i : Z)
    : list gostring :=
  let digit := (byte_val (byte_at s i) - 48) mod 256 in
  let prefix := strings.slice_to s i in
  let suffixLen := numDigits - i - 1 in
  if i =? numDigits - 1 then patterns ++ [prefix ++ digitRangeUp digit]
  else if digit <? 9 then
    patterns ++ [prefix ++ digitRangeUp (digit + 1) ++ fmt.Sprintf "\d{%d}" [fmt.Int suffixLen]]
  else patterns.

Definition NumGreaterOrEqual (n : Z) : gostring :=
  if n <=? 0 then VERSION_DIGITS
  else
    let s := strconv.Itoa n in
    let numDigits := Z.of_nat (length s) in
    let patterns :=
      if numDigits <? 10 then [fmt.Sprintf "\d{%d,}" [fmt.Int (numDigits + 1)]] else [] in
    let patterns := fold_left (greater_turn s numDigits) (indices 0 numDigits) patterns in
    joinPatterns patterns.

(** One turn of the first loop of [NumLessOrEqual], over the smaller digit
    counts, and one of the second, over the digit positions. *)
Definition fewer_turn (patterns : list gostring) (d : Z) : list gostring :=
  if d =? 1 then patterns ++ ["\d"]
  else patterns ++ [fmt.Sprintf "\d{%d}" [fmt.Int d]].

Definition less_turn (s : gostring) (numDigits : Z) (patterns : list gostring) (i : Z)
    : list gostring :=
  let digit := (byte_val (byte_at s i) - 48) mod 256 in
  let prefix := strings.slice_to s i in
  let suffixLen := numDigits - i - 1 in
  if i =? numDigits - 1 then patterns ++ [prefix ++ digitRangeDown digit]
  else if 0 <? digit then
    patterns ++ [prefix ++ digitRangeDown (digit - 1) ++ fmt.Sprintf "\d{%d}" [fmt.Int suffixLen]]
  else patterns.

Definition NumLessOrEqual (n : Z) : gostring :=
  if n <? 0 then EMPTY_MATCH_PATTERN
  else
    let s := strconv.Itoa n in
    let numDigits := Z.of_nat (length s) in
    let patterns := fold_left fewer_turn (indices 1 numDigits) [] in
    let patterns := fold_left (less_turn s numDigits) (indices 0 numDigits) patterns in
    joinPatterns patterns.

(** ** Operators and constraints *)

Definition OP_GREATER_EQUAL : gostring := ">=".
Definition OP_LESS_EQUAL : gostring := "<=".
Definition OP_NOT_EQUAL : gostring := "!=".
Definition OP_EQUAL_EQUAL : gostring := "==".
Definition OP_PESSIMISTIC : gostring := "~>".
Definition OP_COMPATIBLE : gostring := "~=".
Definition OP_GREATER : gostring := ">".
Definition OP_LESS : gostring := "<".
Definition OP_EQUAL : gostring := "=".
Definition OP_CARET : gostring := "^".
Definition OP_TILDE : gostring := "~".
Definition OP_MAVEN_RANGE : gostring := "maven-range".

Record VersionConstraint := mkConstraint {
  Operator : gostring;
  Version : gostring
}.

(** ** NuGet versions ([csharp.go]) *)

Definition containsCSharpPreRelease (version : gostring) : bool :=
  strings.Contains version "-alpha"
  || strings.Contains version "-beta"
  || strings.Contains version "-rc"
  || strings.Contains version "-preview".

Definition isCSharpVersion (version : gostring) : bool :=
  let parts := strings.Split version "." in
  (length parts =? 4)%nat || containsCSharpPreRelease version.

(** The elements of a slice with their indices, as [for i, part := range parts]
    visits them. *)
Definition enumerate {A} (l : list A) : list (Z * A) :=
  combine (indices 0 (Z.of_nat (length l))) l.

(** The loop that writes the quoted parts, separated by [\.]. *)
Definition quote_part (pattern : gostring) (ip : Z * gostring) : gostring :=
  let pattern := if 0 <? fst ip then pattern ++ VERSION_DOT else pattern in
  pattern ++ regexp.QuoteMeta (snd ip).

Definition csharpVersionRegex (version : gostring) : gostring :=
  let pattern := REGEX_START in
  let idx := strings.Index version "-" in
  let preRelease := if negb (idx =? -1) then strings.slice_from version idx else "" in
  let mainVersion := if negb (idx =? -1) then strings.slice_to version idx else version in
  let parts := strings.Split mainVersion "." in
  let pattern := fold_left quote_part (enumerate parts) pattern in
  let pattern :=
    if negb (isnil preRelease) then pattern ++ regexp.QuoteMeta preRelease
    else pattern ++ "(?:-(?:alpha|beta|rc|preview)(?:\d+)?(?:\.\d+)?)?" in
  pattern ++ REGEX_END.

(** ** Go module versions ([golang.go]) *)

Definition isGoModuleVersion (version : gostring) : bool :=
  strings.HasPrefix version "v" && (1 <? length version)%nat.

Definition go_part (pattern : gostring) (ip : Z * gostring) : gostring :=
  let pattern := if 0 <? fst ip then pattern ++ VERSION_DOT else pattern in
  let part := snd ip in
  if strings.Contains part "-" then
    let preParts := strings.Split part "-" in
    let pattern := pattern ++ regexp.QuoteMeta (nth 0 preParts []) in
    if (1 <? length preParts)%nat then
      pattern ++ "(?:-" ++ regexp.QuoteMeta (strings.Join (skipn 1 preParts) "-") ++ ".*)?"
    else pattern
  else pattern ++ regexp.QuoteMeta part.

Definition goModuleVersionRegex (version : gostring) : gostring :=
  let cleanVersion := skipn 1 version in
  let pattern := REGEX_START ++ "v" in
  let parts := strings.Split cleanVersion "-" in
  if strings.Contains cleanVersion "-" && (3 <=? length parts)%nat
     && ((3 <=? length parts)%nat && gs_eqb (nth 0 parts []) "0.0.0"
         && (length (nth 1 parts []) =? 14)%nat && (length (nth 2 parts []) =? 12)%nat)
  then REGEX_START ++ regexp.QuoteMeta version ++ REGEX_END
  else
    let parts := strings.Split cleanVersion "." in
    let pattern := fold_left go_part (enumerate parts) pattern in
    let pattern :=
      if negb (strings.Contains cleanVersion "-") then pattern ++ PRE_RELEASE_PATTERN
      else pattern in
    pattern ++ REGEX_END.

(** ** Maven ranges *)

Definition parseMavenRange (versionStr : gostring) : result VersionConstraint :=
  if (length versionStr <? 3)%nat then
    fmt.Errorf "invalid Maven range format: %s" [fmt.Str versionStr]
  else
    let openChar := byte_at versionStr 0 in
    let closeChar := byte_at versionStr (Z.of_nat (length versionStr) - 1) in
    if (negb (Ascii.eqb openChar "[") && negb (Ascii.eqb openChar "("))
       || (negb (Ascii.eqb closeChar "]") && negb (Ascii.eqb closeChar ")"))
    then fmt.Errorf "invalid Maven range brackets: %s" [fmt.Str versionStr]
    else
      let rangeContent :=
        strings.slice_to (strings.slice_from versionStr 1) (Z.of_nat (length versionStr) - 2) in
      Ok (mkConstraint "maven-range" rangeContent).

Definition parseMavenRangeBounds (rangeStr : gostring) : result (gostring * gostring) :=
  let parts := strings.Split rangeStr "," in
  if negb (length parts =? 2)%nat then
    fmt.Errorf "invalid Maven range format: %s" [fmt.Str rangeStr]
  else Ok (strings.TrimSpace (nth 0 parts []), strings.TrimSpace (nth 1 parts [])).

Definition extractMajorVersion (version : gostring) : Z :=
  let parts := strings.Split version "." in
  fst (strconv.Atoi (nth 0 parts [])).

Definition mavenBothBoundsPattern (lowerBound upperBound : gostring) : gostring :=
  let lowerMajor := extractMajorVersion lowerBound in
  let upperMajor := extractMajorVersion upperBound in
  if lowerMajor =? upperMajor then
    fmt.Sprintf
      (REGEX_START ++ "%d" ++ VERSION_DOT ++ VERSION_DIGITS ++ VERSION_DOT ++ VERSION_DIGITS
       ++ VERSION_SUFFIX_PATTERN ++ REGEX_END)
      [fmt.Int lowerMajor]
  else
    fmt.Sprintf
      (REGEX_START ++ "[%d-%d]" ++ VERSION_DOT ++ VERSION_DIGITS ++ VERSION_DOT ++ VERSION_DIGITS
       ++ VERSION_SUFFIX_PATTERN ++ REGEX_END)
      [fmt.Int lowerMajor; fmt.Int upperMajor].

Definition mavenLowerBoundPattern (lowerBound : gostring) : gostring :=
  let lowerMajor := extractMajorVersion lowerBound in
  fmt.Sprintf
    (REGEX_START ++ "(?:[%d-9]|\d{2,})" ++ VERSION_DOT ++ VERSION_DIGITS ++ VERSION_DOT
     ++ VERSION_DIGITS ++ VERSION_SUFFIX_PATTERN ++ REGEX_END)
    [fmt.Int lowerMajor].

Definition mavenUpperBoundPattern (upperBound : gostring) : gostring :=
  let upperMajor := extractMajorVersion upperBound in
  if 0 <? upperMajor then
    fmt.Sprintf
      (REGEX_START ++ "[0-%d]" ++ VERSION_DOT ++ VERSION_DIGITS ++ VERSION_DOT ++ VERSION_DIGITS
       ++ VERSION_SUFFIX_PATTERN ++ REGEX_END)
      [fmt.Int upperMajor]
  else
    REGEX_START ++ "0" ++ VERSION_DOT ++ VERSION_DIGITS ++ VERSION_DOT ++ VERSION_DIGITS
    ++ VERSION_SUFFIX_PATTERN ++ REGEX_END.

Definition mavenRangeRegex (rangeStr : gostring) : result gostring :=
  match parseMavenRangeBounds rangeStr with
  | Err e => Err e
  | Ok (lowerBound, upperBound) =>
      if negb (isnil lowerBound) && negb (isnil upperBound) then
        Ok (mavenBothBoundsPattern lowerBound upperBound)
      else if negb (isnil lowerBound) then Ok (mavenLowerBoundPattern lowerBound)
      else if negb (isnil upperBound) then Ok (mavenUpperBoundPattern upperBound)
      else Ok EXACT_VERSION_TEMPLATE
  end.

(** ** The constraint parser and compiler *)

Definition operators : list gostring :=
  [OP_GREATER_EQUAL; OP_LESS_EQUAL; OP_NOT_EQUAL; OP_EQUAL_EQUAL; OP_PESSIMISTIC;
   OP_COMPATIBLE; OP_GREATER; OP_LESS; OP_EQUAL; OP_CARET; OP_TILDE].

Definition parseVersionConstraint (versionStr : gostring) : result VersionConstraint :=
  let versionStr := strings.TrimSpace versionStr in
  if strings.HasPrefix versionStr "[" || strings.HasPrefix versionStr "(" then
    parseMavenRange versionStr
  else
    match find (strings.HasPrefix versionStr) operators with
    | Some op =>
        let version := strings.TrimSpace (skipn (length op) versionStr) in
        Ok (mkConstraint op version)
    | None => Ok (mkConstraint OP_EQUAL_EQUAL versionStr)
    end.

Definition convertWildcardParts (parts : list gostring) : list gostring :=
  map (fun part => if gs_eqb part "*" then VERSION_DIGITS else regexp.QuoteMeta part) parts.

(** [for len(patternParts) < 3 { patternParts = append(patternParts, VERSION_DIGITS) }] *)
Fixpoint pad_loop (turns : nat) (patternParts : list gostring) : list gostring :=
  match turns with
  | O => patternParts
  | S turns' =>
      if (length patternParts <? 3)%nat
      then pad_loop turns' (patternParts ++ [VERSION_DIGITS])
      else patternParts
  end.

Definition padToSemanticVersion (patternParts originalParts : list gostring) : list gostring :=
  if (length originalParts =? 0)%nat then patternParts
  else
    let lastPart := nth (length originalParts - 1) originalParts [] in
    if negb (gs_eqb lastPart "*") then patternParts
    else pad_loop 3 patternParts.

Definition wildcardToRegex (version : gostring) : gostring :=
  let parts := strings.Split version "." in
  let patternParts := convertWildcardParts parts in
  let patternParts := padToSemanticVersion patternParts parts in
  REGEX_START ++ strings.Join patternParts VERSION_DOT ++ VERSION_SUFFIX_PATTERN ++ REGEX_END.

Definition exactMatchRegex (version : gostring) : gostring :=
  if strings.Contains version "*" then wildcardToRegex version
  else if isGoModuleVersion version then goModuleVersionRegex version
  else if isCSharpVersion version then csharpVersionRegex version
  else
    let idx := strings.Index version "+" in
    let buildMeta := if negb (idx =? -1) then strings.slice_from version idx else "" in
    let mainVersion := if negb (idx =? -1) then strings.slice_to version idx else version in
    let idx := strings.Index mainVersion "-" in
    let preRelease := if negb (idx =? -1) then strings.slice_from mainVersion idx else "" in
    let mainVersion := if negb (idx =? -1) then strings.slice_to mainVersion idx else mainVersion in
    let parts := strings.Split mainVersion "." in
    let pattern := "^" in
    let pattern := fold_left quote_part (enumerate parts) pattern in
    let pattern :=
      if negb (isnil preRelease) then pattern ++ regexp.QuoteMeta preRelease
      else pattern ++ PRE_RELEASE_PATTERN in
    let pattern :=
      if negb (isnil buildMeta) then pattern ++ regexp.QuoteMeta buildMeta
      else pattern ++ BUILD_META_PATTERN in
    pattern ++ "$".

(** The dot-separated parts of a version with its pre-release and build tags
    cut off: the slice [parts] of [parseVersionParts]. *)
Definition version_parts (version : gostring) : list gostring :=
  let idx := strings.Index version "-" in
  let cleanVersion := if negb (idx =? -1) then strings.slice_to version idx else version in
  let idx := strings.Index cleanVersion "+" in
  let cleanVersion := if negb (idx =? -1) then strings.slice_to cleanVersion idx else cleanVersion in
  strings.Split cleanVersion ".".

Definition parseVersionParts (version : gostring) : result (Z * Z * Z) :=
  let parts := version_parts version in
  let '(major, ok1) :=
    if (1 <=? length parts)%nat then strconv.Atoi (nth 0 parts []) else (0, true) in
  if negb ok1 then fmt.Errorf "invalid major version: %s" [fmt.Str (nth 0 parts [])]
  else
    let '(minor, ok2) :=
      if (2 <=? length parts)%nat then strconv.Atoi (nth 1 parts []) else (0, true) in
    if negb ok2 then fmt.Errorf "invalid minor version: %s" [fmt.Str (nth 1 parts [])]
    else
      let '(patch, ok3) :=
        if (3 <=? length parts)%nat then strconv.Atoi (nth 2 parts []) else (0, true) in
      if negb ok3 then fmt.Errorf "invalid patch version: %s" [fmt.Str (nth 2 parts [])]
      else Ok (major, minor, patch).

(** [fmt.Sprintf("%d", n)] *)
Definition dec (n : Z) : gostring := fmt.Sprintf "%d" [fmt.Int n].

Definition bounded (patterns : list gostring) : gostring :=
  REGEX_START ++ "(?:" ++ strings.Join patterns REGEX_OR ++ ")" ++ VERSION_SUFFIX_PATTERN
  ++ REGEX_END.

Definition greaterThanEqualRegex (version : gostring) : result gostring :=
  match parseVersionParts version with
  | Err e => Err e
  | Ok (major, minor, patch) =>
      let patterns := [] in
      let patterns := patterns ++
        [NumGreaterOrEqual (wrap64 (major + 1)) ++ VERSION_DOT ++ VERSION_DIGITS ++ VERSION_DOT
         ++ VERSION_DIGITS] in
      let patterns := patterns ++
        [dec major ++ VERSION_DOT ++ NumGreaterOrEqual (wrap64 (minor + 1)) ++ VERSION_DOT
         ++ VERSION_DIGITS] in
      let patterns := patterns ++
        [dec major ++ VERSION_DOT ++ dec minor ++ VERSION_DOT ++ NumGreaterOrEqual patch] in
      Ok (bounded patterns)
  end.

Definition lessThanEqualRegex (version : gostring) : result gostring :=
  match parseVersionParts version with
  | Err e => Err e
  | Ok (major, minor, patch) =>
      let patterns := [] in
      let patterns :=
        if 0 <? major then patterns ++
          [NumLessOrEqual (wrap64 (major - 1)) ++ VERSION_DOT ++ VERSION_DIGITS ++ VERSION_DOT
           ++ VERSION_DIGITS]
        else patterns in
      let patterns :=
        if 0 <? minor then patterns ++
          [dec major ++ VERSION_DOT ++ NumLessOrEqual (wrap64 (minor - 1)) ++ VERSION_DOT
           ++ VERSION_DIGITS]
        else patterns in
      let patterns := patterns ++
        [dec major ++ VERSION_DOT ++ dec minor ++ VERSION_DOT ++ NumLessOrEqual patch] in
      Ok (bounded patterns)
  end.

Definition greaterThanRegex (version : gostring) : result gostring :=
  match parseVersionParts version with
  | Err e => Err e
  | Ok (major, minor, patch) =>
      let patterns := [] in
      let patterns := patterns ++
        [NumGreaterOrEqual (wrap64 (major + 1)) ++ VERSION_DOT ++ VERSION_DIGITS ++ VERSION_DOT
         ++ VERSION_DIGITS] in
      let patterns := patterns ++
        [dec major ++ VERSION_DOT ++ NumGreaterOrEqual (wrap64 (minor + 1)) ++ VERSION_DOT
         ++ VERSION_DIGITS] in
      let patterns := patterns ++
        [dec major ++ VERSION_DOT ++ dec minor ++ VERSION_DOT
         ++ NumGreaterOrEqual (wrap64 (patch + 1))] in
      Ok (bounded patterns)
  end.

(** The clauses [lessThanRegex] collects for a version triple. *)
Definition lessThan_patterns (major minor patch : Z) : list gostring :=
  let patterns := [] in
  let patterns :=
    if 0 <? major then patterns ++
      [NumLessOrEqual (wrap64 (major - 1)) ++ VERSION_DOT ++ VERSION_DIGITS ++ VERSION_DOT
       ++ VERSION_DIGITS]
    else patterns in
  let patterns :=
    if 0 <? minor then patterns ++
      [dec major ++ VERSION_DOT ++ NumLessOrEqual (wrap64 (minor - 1)) ++ VERSION_DOT
       ++ VERSION_DIGITS]
    else patterns in
  if 0 <? patch then patterns ++
    [dec major ++ VERSION_DOT ++ dec minor ++ VERSION_DOT ++ NumLessOrEqual (wrap64 (patch - 1))]
  else patterns.

Definition lessThanRegex (version : gostring) : result gostring :=
  match parseVersionParts version with
  | Err e => Err e
  | Ok (major, minor, patch) =>
      let patterns := lessThan_patterns major minor patch in
      if (length patterns =? 0)%nat then Ok EMPTY_MATCH_PATTERN
      else Ok (bounded patterns)
  end.

Definition notEqualRegex (version : gostring) : result gostring :=
  let exactPattern := exactMatchRegex version in
  let exactCore := strings.TrimPrefix (strings.TrimSuffix exactPattern REGEX_END) REGEX_START in
  Ok (fmt.Sprintf NOT_EQUAL_BASE_PATTERN [fmt.Str exactCore]).

Definition caretRangeRegex (version : gostring) : result gostring :=
  match parseVersionParts version with
  | Err e => Err e
  | Ok (major, minor, _) =>
      let pattern := fmt.Sprintf CARET_RANGE_TEMPLATE [fmt.Int major] in
      let pattern :=
        if major =? 0 then fmt.Sprintf CARET_RANGE_ZERO_MAJOR_TEMPLATE [fmt.Int minor]
        else pattern in
      Ok pattern
  end.

Definition tildeRangeRegex (version : gostring) : result gostring :=
  match parseVersionParts version with
  | Err e => Err e
  | Ok (major, minor, _) =>
      Ok (fmt.Sprintf TILDE_RANGE_TEMPLATE [fmt.Int major; fmt.Int minor])
  end.

Definition compatibleReleaseRegex (version : gostring) : result gostring :=
  tildeRangeRegex version.

Definition constraintToRegex (constraint : VersionConstraint) : result gostring :=
  let version := Version constraint in
  let op := Operator constraint in
  if gs_eqb op OP_EQUAL_EQUAL || gs_eqb op OP_EQUAL then Ok (exactMatchRegex version)
  else if gs_eqb op OP_GREATER_EQUAL then greaterThanEqualRegex version
  else if gs_eqb op OP_LESS_EQUAL then lessThanEqualRegex version
  else if gs_eqb op OP_GREATER then greaterThanRegex version
  else if gs_eqb op OP_LESS then lessThanRegex version
  else if gs_eqb op OP_NOT_EQUAL then notEqualRegex version
  else if gs_eqb op OP_CARET then caretRangeRegex version
  else if gs_eqb op OP_TILDE || gs_eqb op OP_PESSIMISTIC then tildeRangeRegex version
  else if gs_eqb op OP_COMPATIBLE then compatibleReleaseRegex version
  else if gs_eqb op OP_MAVEN_RANGE then mavenRangeRegex version
  else fmt.Errorf "unsupported operator: %s" [fmt.Str op].

Definition VersionToRegex (versionStr : gostring) : result regexp.Regexp :=
  match parseVersionConstraint versionStr with
  | Err e => fmt.Errorf "failed to parse version constraint: %w" [fmt.Str e]
  | Ok constraint =>
      match constraintToRegex constraint with
      | Err e => fmt.Errorf "failed to convert to regex: %w" [fmt.Str e]
      | Ok pattern =>
          match regexp.Compile pattern with
          | inl e => fmt.Errorf "failed to compile regex: %w" [fmt.Str (regexp.Error e)]
          | inr regex => Ok regex
          end
      end
  end.

Definition VersionMatches (versionStr constraint : gostring) : result bool :=
  match VersionToRegex constraint with
  | Err e => Err e
  | Ok regex => Ok (regexp.MatchString regex versionStr)
  end.

(** ** Vocabulary of the properties *)

(** The way the package's tests try a fragment: anchored at both ends. *)
Definition anchored (fragment : gostring) : gostring := "^" ++ fragment ++ "$".

(** A decimal numeral without leading zeros: ASCII digits only, and no
    leading ["0"] unless it is ["0"] itself. *)
Definition is_canonical (s : gostring) : bool :=
  match s with
  | [] => false
  | c :: r => forallb is_digit s && (isnil r || negb (Ascii.eqb c "0"))
  end.

(** Version strings: three numerals joined by dots; [ver] writes the one of
    a triple of numbers. *)
Definition dotted (xs ys zs : gostring) : gostring := xs ++ "." ++ ys ++ "." ++ zs.

Definition ver (major minor patch : Z) : gostring :=
  dotted (strconv.Itoa major) (strconv.Itoa minor) (strconv.Itoa patch).

(** The tail of a version string: an optional pre-release tag [-tag] and an
    optional build tag [+tag], a tag being one or more letters, digits,
    hyphens and dots. *)
Definition is_tag_char (c : ascii) : bool :=
  let v := byte_val c in
  ((97 <=? v) && (v <=? 122)) || ((65 <=? v) && (v <=? 90)) || is_digit c
  || Ascii.eqb c "-" || Ascii.eqb c ".".

Definition is_tag (lead : ascii) (s : gostring) : bool :=
  match s with
  | [] => false
  | c :: t => Ascii.eqb c lead && negb (isnil t) && forallb is_tag_char t
  end.

Definition is_suffix (s : gostring) : bool :=
  existsb
    (fun p => (isnil (fst p) || is_tag "-" (fst p)) && (isnil (snd p) || is_tag "+" (snd p)))
    (regexp.splits s).

(** The order of version triples, as the spec spells it: major above, or
    major equal and minor above, or both equal and patch at least. *)
Definition version_geb (x y z major minor patch : Z) : bool :=
  (major <? x) || ((x =? major) && (minor <? y))
  || ((x =? major) && (y =? minor) && (patch <=? z)).

(** The largest threshold the synthesizer is written for. *)
Definition MAX_THRESHOLD : Z := 9999999999.

(** * Properties *)

(** ** Lists and booleans *)

Lemma existsb_false {A} (f : A -> bool) (l : list A) :
  existsb f l = false <-> forall x, In x l -> f x = false.
Proof.
  induction l as [|a l IH]; simpl.
  - split; [intros _ x []|reflexivity].
  - rewrite orb_false_iff, IH. split.
    + intros [Ha Hl] x [<-|Hx]; auto.
    + intros H; split; [apply H; now left|intros x Hx; apply H; now right].
Qed.

Lemma isnil_true {A} (l : list A) : isnil l = true <-> l = [].
Proof. destruct l; simpl; split; congruence. Qed.

Lemma in_splits (w a b : gostring) :
  In (a, b) (regexp.splits w) <-> w = a ++ b.
Proof.
  revert a b; induction w as [|c w IH]; intros a b; simpl.
  - split.
    + intros [H|[]]. now inversion H.
    + intros H. symmetry in H. apply app_eq_nil in H as [-> ->]. now left.
  - rewrite in_map_iff. split.
    + intros [H|[[a' b'] [H Hin]]].
      * now inversion H.
      * simpl in H. inversion H; subst. apply IH in Hin. now subst.
    + destruct a as [|x a]; simpl; intros H.
      * left. now subst.
      * right. inversion H; subst. exists (a, b). split; [reflexivity|]. now apply IH.
Qed.

(** ** The matcher, in terms of decompositions of the text *)

Import regexp.

Lemma matches_Cat r1 r2 b w rest :
  matches (Cat r1 r2) b w rest = true <->
  exists w1 w2, w = w1 ++ w2
    /\ matches r1 b w1 (w2 ++ rest) = true
    /\ matches r2 (b && isnil w1) w2 rest = true.
Proof.
  simpl. rewrite existsb_exists. split.
  - intros [[w1 w2] [Hin H]]. simpl in H. apply in_splits in Hin.
    exists w1, w2. destruct (matches r1 b w1 (w2 ++ rest)); [auto|discriminate].
  - intros (w1 & w2 & -> & H1 & H2). exists (w1, w2). split.
    + now apply in_splits.
    + simpl. now rewrite H1.
Qed.

Lemma matches_Cat_fail_l r1 r2 b w rest :
  (forall b' w' rest', matches r1 b' w' rest' = false) ->
  matches (Cat r1 r2) b w rest = false.
Proof.
  intros H. simpl. apply existsb_false. intros p _. now rewrite H.
Qed.

Lemma matches_Cat_fail_r r1 r2 b w rest :
  (forall b' w' rest', matches r2 b' w' rest' = false) ->
  matches (Cat r1 r2) b w rest = false.
Proof.
  intros H. simpl. apply existsb_false. intros p _. rewrite H. now destruct matches.
Qed.

Lemma matches_Alt r1 r2 b w rest :
  matches (Alt r1 r2) b w rest = matches r1 b w rest || matches r2 b w rest.
Proof. simpl. now destruct (matches r1 b w rest). Qed.

Lemma search_true r s :
  search r s = true <->
  exists pre w post, s = pre ++ w ++ post /\ matches r (isnil pre) w post = true.
Proof.
  unfold search. rewrite existsb_exists. split.
  - intros [[pre tl] [Hin H]]. simpl in H. apply in_splits in Hin.
    apply existsb_exists in H as [[w post] [Hin' H]]. apply in_splits in Hin'.
    exists pre, w, post. subst. auto.
  - intros (pre & w & post & -> & H). exists (pre, w ++ post). split.
    + now apply in_splits.
    + simpl. apply existsb_exists. exists (w, post). split; [now apply in_splits|exact H].
Qed.

Lemma search_fail r s :
  (forall b w rest, matches r b w rest = false) -> search r s = false.
Proof.
  intros H. unfold search. apply existsb_false. intros p _.
  apply existsb_false. intros q _. apply H.
Qed.

(** ** The contradiction fragment *)

Lemma lookahead_any_fails b w rest :
  matches (NegLook (mkAlt [mkCat [Rep Any 0 None]])) b w rest = false.
Proof.
  simpl. destruct (isnil w); [|reflexivity]. simpl.
  destruct rest; reflexivity.
Qed.

Lemma parse_EMPTY_MATCH_PATTERN :
  parse true EMPTY_MATCH_PATTERN
  = inr (mkAlt [mkCat [Bol; NegLook (mkAlt [mkCat [Rep Any 0 None]]); Eol]]).
Proof. reflexivity. Qed.

Lemma parse_anchored_EMPTY_MATCH_PATTERN :
  parse true (anchored EMPTY_MATCH_PATTERN)
  = inr (mkAlt [mkCat [Bol; Bol; NegLook (mkAlt [mkCat [Rep Any 0 None]]); Eol; Eol]]).
Proof. reflexivity. Qed.

Lemma EMPTY_MATCH_PATTERN_matches_nothing re s :
  compile_with true EMPTY_MATCH_PATTERN = inr re -> MatchString re s = false.
Proof.
  unfold compile_with. rewrite parse_EMPTY_MATCH_PATTERN. intros H. inversion H; subst.
  unfold MatchString. simpl prog. apply search_fail. intros b w rest.
  unfold mkAlt, mkCat, fold_right. rewrite matches_Alt, orb_false_r.
  apply matches_Cat_fail_r. intros. apply matches_Cat_fail_l. intros.
  apply lookahead_any_fails.
Qed.

Lemma anchored_EMPTY_MATCH_PATTERN_matches_nothing re s :
  compile_with true (anchored EMPTY_MATCH_PATTERN) = inr re -> MatchString re s = false.
Proof.
  unfold compile_with. rewrite parse_anchored_EMPTY_MATCH_PATTERN.
  intros H. inversion H; subst.
  unfold MatchString. simpl prog. apply search_fail. intros b w rest.
  unfold mkAlt, mkCat, fold_right. rewrite matches_Alt, orb_false_r.
  apply matches_Cat_fail_r. intros. apply matches_Cat_fail_r. intros.
  apply matches_Cat_fail_l. intros. apply lookahead_any_fails.
Qed.

(** C8. For a negative [n], [NumLessOrEqual n] is the contradiction fragment
    [EMPTY_MATCH_PATTERN] and no error. That fragment matches no string at
    all, the empty one included: in a dialect with negative lookahead it
    compiles to an expression that rejects every text, and Go's RE2 refuses
    to compile it. The same holds of the fragment anchored at both ends. *)
Theorem NumLessOrEqual_negative (n : Z) (Hneg : n < 0) :
  NumLessOrEqual n = EMPTY_MATCH_PATTERN
  /\ (exists re, compile_with true (NumLessOrEqual n) = inr re
        /\ forall s, MatchString re s = false)
  /\ (exists re, compile_with true (anchored (NumLessOrEqual n)) = inr re
        /\ forall s, MatchString re s = false)
  /\ Compile (NumLessOrEqual n) = inl ErrInvalidPerlOp
  /\ Compile (anchored (NumLessOrEqual n)) = inl ErrInvalidPerlOp.
Proof.
  assert (E : NumLessOrEqual n = EMPTY_MATCH_PATTERN).
  { unfold NumLessOrEqual. destruct (Z.ltb_spec n 0); [reflexivity|lia]. }
  rewrite E. split; [reflexivity|]. split; [|split; [|split; reflexivity]].
  - destruct (compile_with true EMPTY_MATCH_PATTERN) as [e|re] eqn:C; [discriminate C|].
    exists re. split; [reflexivity|]. intros s.
    now apply EMPTY_MATCH_PATTERN_matches_nothing.
  - destruct (compile_with true (anchored EMPTY_MATCH_PATTERN)) as [e|re] eqn:C;
      [discriminate C|].
    exists re. split; [reflexivity|]. intros s.
    now apply anchored_EMPTY_MATCH_PATTERN_matches_nothing.
Qed.

Lemma NumLessOrEqual_negative_witness :
  NumLessOrEqual (-1) = EMPTY_MATCH_PATTERN
  /\ (exists re, compile_with true (NumLessOrEqual (-1)) = inr re
        /\ forall s, MatchString re s = false)
  /\ (exists re, compile_with true (anchored (NumLessOrEqual (-1))) = inr re
        /\ forall s, MatchString re s = false)
  /\ Compile (NumLessOrEqual (-1)) = inl ErrInvalidPerlOp
  /\ Compile (anchored (NumLessOrEqual (-1))) = inl ErrInvalidPerlOp.
Proof. apply (NumLessOrEqual_negative (-1)). lia. Defined.

(** ** Bytes and decimal digits *)

Lemma byte_val_range c : 0 <= byte_val c < 256.
Proof.
  unfold byte_val. pose proof (N_ascii_bounded c). lia.
Qed.

Lemma byte_of_Z_val c : byte_of_Z (byte_val c) = c.
Proof.
  unfold byte_of_Z. rewrite Z.mod_small by apply byte_val_range.
  unfold byte_val. rewrite N2Z.id. apply ascii_N_embedding.
Qed.

Lemma byte_val_of_Z z : 0 <= z < 256 -> byte_val (byte_of_Z z) = z.
Proof.
  intros H. unfold byte_val, byte_of_Z. rewrite Z.mod_small by lia.
  rewrite N_ascii_embedding by lia. lia.
Qed.

Lemma byte_val_inj a b : byte_val a = byte_val b -> a = b.
Proof.
  intros H. rewrite <- (byte_of_Z_val a), <- (byte_of_Z_val b). now rewrite H.
Qed.

Lemma eqb_byte_val a b : Ascii.eqb a b = (byte_val a =? byte_val b).
Proof.
  destruct (Ascii.eqb_spec a b) as [->|N].
  - now rewrite Z.eqb_refl.
  - symmetry. apply Z.eqb_neq. intros H. now apply N, byte_val_inj.
Qed.

Lemma is_digit_spec c : is_digit c = true <-> 48 <= byte_val c <= 57.
Proof. unfold is_digit. rewrite andb_true_iff, !Z.leb_le. tauto. Qed.

Lemma digit_char_val d : 0 <= d <= 9 -> byte_val (digit_char d) = 48 + d.
Proof. intros H. unfold digit_char. apply byte_val_of_Z. lia. Qed.

Lemma is_digit_digit_char d : 0 <= d <= 9 -> is_digit (digit_char d) = true.
Proof. intros H. apply is_digit_spec. rewrite digit_char_val; lia. Qed.

Lemma digit_char_of_digit c : is_digit c = true -> digit_char (byte_val c - 48) = c.
Proof.
  intros H. unfold digit_char. replace (48 + (byte_val c - 48)) with (byte_val c) by lia.
  apply byte_of_Z_val.
Qed.

Lemma digit_cases c :
  is_digit c = true ->
  In c ["0"; "1"; "2"; "3"; "4"; "5"; "6"; "7"; "8"; "9"]%char.
Proof.
  intros H. rewrite <- (digit_char_of_digit _ H). apply is_digit_spec in H.
  assert (E : byte_val c - 48 = 0 \/ byte_val c - 48 = 1 \/ byte_val c - 48 = 2
              \/ byte_val c - 48 = 3 \/ byte_val c - 48 = 4 \/ byte_val c - 48 = 5
              \/ byte_val c - 48 = 6 \/ byte_val c - 48 = 7 \/ byte_val c - 48 = 8
              \/ byte_val c - 48 = 9) by lia.
  simpl. repeat (destruct E as [->|E]; [tauto|]). rewrite E. tauto.
Qed.

Lemma digit_range_cases d :
  0 <= d <= 9 ->
  d = 0 \/ d = 1 \/ d = 2 \/ d = 3 \/ d = 4 \/ d = 5 \/ d = 6 \/ d = 7 \/ d = 8 \/ d = 9.
Proof. lia. Qed.

(** ** Decimal numerals *)

Import strconv.

Definition all_digits (s : gostring) : Prop := forallb is_digit s = true.

Lemma all_digits_app a b : all_digits (a ++ b) <-> all_digits a /\ all_digits b.
Proof. unfold all_digits. rewrite forallb_app, andb_true_iff. tauto. Qed.

Lemma all_digits_cons c s : all_digits (c :: s) <-> is_digit c = true /\ all_digits s.
Proof. unfold all_digits. simpl. rewrite andb_true_iff. tauto. Qed.

Lemma fold_decimal s acc :
  fold_left (fun acc c => 10 * acc + (byte_val c - 48)) s acc
  = acc * 10 ^ Z.of_nat (length s) + decimal_value s.
Proof.
  unfold decimal_value. revert acc. induction s as [|c s IH]; intros acc.
  - simpl. lia.
  - cbn [fold_left length]. rewrite IH, (IH (10 * 0 + _)).
    rewrite Nat2Z.inj_succ, Z.pow_succ_r by lia. lia.
Qed.

Lemma decimal_value_cons c s :
  decimal_value (c :: s) = (byte_val c - 48) * 10 ^ Z.of_nat (length s) + decimal_value s.
Proof.
  unfold decimal_value at 1. cbn [fold_left]. rewrite fold_decimal. lia.
Qed.

Lemma decimal_value_app a b :
  decimal_value (a ++ b) = decimal_value a * 10 ^ Z.of_nat (length b) + decimal_value b.
Proof.
  unfold decimal_value at 1. rewrite fold_left_app.
  fold (decimal_value a). apply fold_decimal.
Qed.

Lemma decimal_value_bound s :
  all_digits s -> 0 <= decimal_value s < 10 ^ Z.of_nat (length s).
Proof.
  induction s as [|c s IH]; intros H.
  - cbn. lia.
  - apply all_digits_cons in H as [Hc Hs]. apply is_digit_spec in Hc.
    rewrite decimal_value_cons. cbn [length]. rewrite Nat2Z.inj_succ, Z.pow_succ_r by lia.
    specialize (IH Hs). nia.
Qed.

Lemma is_canonical_digits s : is_canonical s = true -> all_digits s.
Proof.
  destruct s as [|c r]; [discriminate|]. unfold is_canonical.
  rewrite andb_true_iff. tauto.
Qed.

Lemma is_canonical_nonempty s : is_canonical s = true -> s <> [].
Proof. destruct s; [discriminate|congruence]. Qed.

(** A numeral of two or more digits without a leading zero is at least the
    power of ten of its length. *)
Lemma canonical_lower_bound s :
  is_canonical s = true -> (2 <= length s)%nat ->
  10 ^ (Z.of_nat (length s) - 1) <= decimal_value s.
Proof.
  destruct s as [|c r]; [discriminate|]. intros H Hlen.
  unfold is_canonical in H. apply andb_true_iff in H as [Hd Hz].
  apply all_digits_cons in Hd as [Hc Hr].
  destruct r as [|c' r']; [simpl in Hlen; lia|].
  simpl in Hz. apply negb_true_iff in Hz. rewrite eqb_byte_val in Hz.
  apply Z.eqb_neq in Hz. change (byte_val "0") with 48 in Hz.
  apply is_digit_spec in Hc. rewrite decimal_value_cons.
  pose proof (decimal_value_bound _ Hr) as B.
  replace (Z.of_nat (length (c :: c' :: r')) - 1) with (Z.of_nat (length (c' :: r')))
    by (cbn [length]; lia).
  nia.
Qed.

Lemma utoa_all_digits fuel n : 0 <= n -> all_digits (utoa fuel n).
Proof.
  revert n. induction fuel as [|f IH]; intros n Hn; [reflexivity|].
  simpl. destruct (Z.ltb_spec n 10).
  - apply all_digits_cons. split; [|reflexivity]. apply is_digit_digit_char. lia.
  - apply all_digits_app. split.
    + apply IH. apply Z.div_pos; lia.
    + apply all_digits_cons. split; [|reflexivity].
      apply is_digit_digit_char. pose proof (Z.mod_pos_bound n 10). lia.
Qed.

Lemma utoa_value fuel n :
  0 <= n < 10 ^ Z.of_nat fuel -> decimal_value (utoa fuel n) = n.
Proof.
  revert n. induction fuel as [|f IH]; intros n Hn.
  - simpl in Hn. cbn. lia.
  - simpl utoa. destruct (Z.ltb_spec n 10).
    + rewrite decimal_value_cons. cbn [length decimal_value fold_left].
      rewrite digit_char_val by lia. lia.
    + rewrite decimal_value_app. cbn [length].
      rewrite Nat2Z.inj_succ, Z.pow_succ_r in Hn by lia.
      rewrite IH.
      * rewrite decimal_value_cons. cbn [length decimal_value fold_left].
        pose proof (Z.mod_pos_bound n 10).
        rewrite digit_char_val by lia.
        pose proof (Z.div_mod n 10). change (10 ^ Z.of_nat 1) with 10.
        change (10 ^ Z.of_nat 0) with 1. lia.
      * split; [apply Z.div_pos; lia|]. apply Z.div_lt_upper_bound; lia.
Qed.

Lemma utoa_canonical fuel n :
  0 <= n < 10 ^ Z.of_nat fuel -> (0 < fuel)%nat -> is_canonical (utoa fuel n) = true.
Proof.
  revert n. induction fuel as [|f IH]; intros n Hn Hf.
  - lia.
  - simpl utoa. destruct (Z.ltb_spec n 10).
    + unfold is_canonical. cbn [forallb isnil]. rewrite is_digit_digit_char by lia.
      reflexivity.
    + rewrite Nat2Z.inj_succ, Z.pow_succ_r in Hn by lia.
      assert (Hq : 0 < n / 10 < 10 ^ Z.of_nat f).
      { split; [apply Z.div_str_pos; lia|apply Z.div_lt_upper_bound; lia]. }
      assert (Hf' : (0 < f)%nat).
      { destruct f; [simpl in Hq; lia|lia]. }
      assert (IHq := IH (n / 10) ltac:(lia) Hf').
      assert (Hv := utoa_value f (n / 10) ltac:(lia)).
      destruct (utoa f (n / 10)) as [|c r] eqn:E; [discriminate|].
      unfold is_canonical in *. cbn [app].
      apply andb_true_iff in IHq as [Hd Hz]. apply andb_true_iff. split.
      * change (all_digits ((c :: r) ++ [digit_char (n mod 10)])).
        apply all_digits_app. split; [exact Hd|].
        apply all_digits_cons. split; [|reflexivity].
        apply is_digit_digit_char. pose proof (Z.mod_pos_bound n 10). lia.
      * destruct r as [|c' r'].
        -- cbn [app isnil orb]. simpl in Hd. rewrite andb_true_r in Hd.
           rewrite decimal_value_cons in Hv. cbn in Hv.
           rewrite eqb_byte_val. change (byte_val "0") with 48.
           apply negb_true_iff, Z.eqb_neq. lia.
        -- simpl in Hz. cbn [app isnil orb]. exact Hz.
Qed.

Lemma Itoa_nonneg n : 0 <= n -> Itoa n = utoa 20 n.
Proof. intros H. unfold Itoa. destruct (Z.ltb_spec n 0); [lia|reflexivity]. Qed.

Definition small (n : Z) : Prop := 0 <= n < 10 ^ 20.

Lemma Itoa_canonical n : small n -> is_canonical (Itoa n) = true.
Proof.
  intros H. rewrite Itoa_nonneg by apply H. apply utoa_canonical; [exact H|lia].
Qed.

Lemma Itoa_all_digits n : 0 <= n -> all_digits (Itoa n).
Proof. intros H. rewrite Itoa_nonneg by exact H. now apply utoa_all_digits. Qed.

Lemma Itoa_value n : small n -> decimal_value (Itoa n) = n.
Proof. intros H. rewrite Itoa_nonneg by apply H. apply utoa_value. exact H. Qed.

Lemma Itoa_nonempty n : small n -> Itoa n <> [].
Proof. intros H. apply is_canonical_nonempty, Itoa_canonical, H. Qed.

(** The length of a numeral is the number of digits of its value. *)
Lemma canonical_length_value s k :
  is_canonical s = true -> (1 <= k)%nat ->
  (length s <= k)%nat <-> decimal_value s < 10 ^ Z.of_nat k.
Proof.
  intros H Hk. pose proof (decimal_value_bound _ (is_canonical_digits _ H)) as B.
  split; intros L.
  - apply Z.lt_le_trans with (10 ^ Z.of_nat (length s)); [apply B|].
    apply Z.pow_le_mono_r; lia.
  - destruct (Nat.le_gt_cases (length s) k) as [|G]; [assumption|exfalso].
    assert (2 <= length s)%nat.
    { destruct s as [|c [|c' r]]; [discriminate|simpl in G; lia|simpl; lia]. }
    pose proof (canonical_lower_bound _ H ltac:(assumption)) as LB.
    assert (10 ^ Z.of_nat k <= 10 ^ (Z.of_nat (length s) - 1))
      by (apply Z.pow_le_mono_r; lia).
    lia.
Qed.

Lemma Itoa_length n k :
  small n -> (1 <= k)%nat -> (length (Itoa n) <= k)%nat <-> n < 10 ^ Z.of_nat k.
Proof.
  intros H Hk. rewrite (canonical_length_value _ k (Itoa_canonical _ H) Hk).
  now rewrite Itoa_value.
Qed.

(** ** The parser, fragment by fragment *)

Lemma feed_app la st a b :
  feed la st (a ++ b)
  = match feed la st a with
    | inl e => inl e
    | inr st' => feed la st' b
    end.
Proof.
  revert st. induction a as [|c a IH]; intros st; simpl.
  - reflexivity.
  - destruct (step la st c); [reflexivity|apply IH].
Qed.

(** [pushes la F items]: read in a concatenation, the pattern text [F]
    adds [items] to it, whatever stands before and wherever it occurs. *)
Definition pushes (la : bool) (F : gostring) (items : list regex) : Prop :=
  forall last alts cur stack,
  exists last',
    feed la (PState (MNormal last) (Frame alts cur) stack) F
    = inr (PState (MNormal last') (Frame alts (rev items ++ cur)) stack).

Lemma pushes_app la F1 F2 i1 i2 :
  pushes la F1 i1 -> pushes la F2 i2 -> pushes la (F1 ++ F2) (i1 ++ i2).
Proof.
  intros H1 H2 last alts cur stack.
  destruct (H1 last alts cur stack) as [l1 E1].
  destruct (H2 l1 alts (rev i1 ++ cur) stack) as [l2 E2].
  exists l2. rewrite feed_app, E1, E2, rev_app_distr, app_assoc. reflexivity.
Qed.

Lemma pushes_nil la : pushes la [] [].
Proof. intros last alts cur stack. exists last. reflexivity. Qed.

Lemma parse_pushes la F items :
  pushes la F items -> parse la F = inr (mkAlt [mkCat items]).
Proof.
  intros H. unfold parse, initial. destruct (H LNone [] [] []) as [l E].
  rewrite E. unfold finish, frame_regex. simpl.
  now rewrite app_nil_r, rev_involutive.
Qed.

(** The alternatives of a group, separated by [|]. *)
Lemma feed_alternatives la ps itemss :
  Forall2 (pushes la) ps itemss -> ps <> [] ->
  forall l0 alts stack,
  exists l1,
    feed la (PState (MNormal l0) (Frame alts []) stack) (strings.Join ps "|")
    = inr (PState (MNormal l1)
             (Frame (rev (map mkCat (removelast itemss)) ++ alts) (rev (last itemss [])))
             stack).
Proof.
  induction 1 as [|p items ps itemss Hp Hps IH]; intros Hne last0 alts stack.
  - congruence.
  - destruct ps as [|p' ps'].
    + inversion Hps; subst. simpl.
      destruct (Hp last0 alts [] stack) as [l E]. exists l.
      rewrite E, app_nil_r. reflexivity.
    + inversion Hps as [|? items' ? itemss' ? ? E1 E2]; subst.
      destruct (Hp last0 alts [] stack) as [l E].
      destruct (IH ltac:(discriminate) LNone (mkCat items :: alts) stack) as [l' E'].
      exists l'.
      change (strings.Join (p :: p' :: ps') "|")
        with (p ++ "|" ++ strings.Join (p' :: ps') "|").
      rewrite feed_app, E. cbn [app feed].
      rewrite app_nil_r.
      change (step la (PState (MNormal l) (Frame alts (rev items)) stack) "|")
        with (@inr parse_error _
                (PState (MNormal LNone) (Frame (mkCat (rev (rev items)) :: alts) []) stack)).
      rewrite rev_involutive, E'.
      change (removelast (items :: items' :: itemss'))
        with (items :: removelast (items' :: itemss')).
      change (last (items :: items' :: itemss') [])
        with (last (items' :: itemss') []).
      cbn [map rev]. rewrite <- app_assoc. reflexivity.
Qed.

Lemma removelast_last_map {A B} (f : A -> B) (l : list A) (d : A) :
  l <> [] -> map f (removelast l) ++ [f (last l d)] = map f l.
Proof.
  intros H. rewrite (app_removelast_last d H) at 3.
  now rewrite map_app.
Qed.

Lemma feed_open_group la l0 alts cur stack rest :
  feed la (PState (MNormal l0) (Frame alts cur) stack) ("(?:" ++ rest)
  = feed la (PState (MNormal LNone) (Frame [] []) ((GNonCapture, Frame alts cur) :: stack)) rest.
Proof. reflexivity. Qed.

Lemma feed_close_group la l0 alts cur k alts' cur' stack :
  feed la (PState (MNormal l0) (Frame alts cur) ((k, Frame alts' cur') :: stack)) ")"
  = inr (PState (MNormal LAtom)
           (Frame alts'
              (match k with
               | GNegLook => NegLook (frame_regex (Frame alts cur))
               | _ => frame_regex (Frame alts cur)
               end :: cur'))
           stack).
Proof. reflexivity. Qed.

(** A non-capturing group of alternatives is one item: their alternation. *)
Lemma pushes_group la ps itemss :
  Forall2 (pushes la) ps itemss -> ps <> [] ->
  pushes la ("(?:" ++ strings.Join ps "|" ++ ")") [mkAlt (map mkCat itemss)].
Proof.
  intros H Hne last0 alts cur stack.
  destruct (feed_alternatives la ps itemss H Hne LNone [] ((GNonCapture, Frame alts cur) :: stack))
    as [l E].
  exists LAtom.
  rewrite feed_open_group, feed_app, E, feed_close_group.
  assert (Hi : itemss <> []).
  { intros ->. inversion H. congruence. }
  unfold frame_regex. cbn [regexp.alts regexp.cur].
  rewrite app_nil_r, rev_involutive.
  change (mkCat (last itemss []) :: rev (map mkCat (removelast itemss)))
    with (rev [mkCat (last itemss [])] ++ rev (map mkCat (removelast itemss))).
  rewrite <- rev_app_distr, rev_involutive, removelast_last_map by exact Hi.
  reflexivity.
Qed.

(** ** Expressions without anchors or lookahead

    Such an expression accepts a piece of text whatever surrounds it;
    [lang r w] tells whether it accepts [w]. *)

Fixpoint pure (r : regex) : Prop :=
  match r with
  | Bol | Eol | NegLook _ => False
  | Cat r1 r2 | Alt r1 r2 => pure r1 /\ pure r2
  | Rep r1 _ _ => pure r1
  | _ => True
  end.

Definition lang (r : regex) (w : gostring) : bool := matches r false w [].

Lemma existsb_ext {A} (f g : A -> bool) (l : list A) :
  (forall x, f x = g x) -> existsb f l = existsb g l.
Proof. intros H. induction l as [|a l IH]; simpl; [reflexivity|]. now rewrite H, IH. Qed.

Lemma forallb_same {A} (f g : A -> bool) (l : list A) :
  (forall x, f x = g x) -> forallb f l = forallb g l.
Proof. intros H. induction l as [|a l IH]; simpl; [reflexivity|]. now rewrite H, IH. Qed.

Lemma iter_ext (f g : matcher) fuel mn mx b b' w rest rest' :
  (forall b1 w1 r1 b2 r2, f b1 w1 r1 = g b2 w1 r2) ->
  iter f fuel mn mx b w rest = iter g fuel mn mx b' w rest'.
Proof.
  intros H. revert mn mx b b' w. induction fuel as [|fuel IH]; intros mn mx b b' w; simpl.
  - reflexivity.
  - destruct ((mn =? 0)%nat && isnil w); [reflexivity|].
    destruct mx as [[|mx]|]; [reflexivity| |]; apply existsb_ext; intros p;
      destruct (negb (isnil (fst p)) || (0 <? mn)%nat); try reflexivity;
      rewrite (H b (fst p) (snd p ++ rest) b' (snd p ++ rest'));
      destruct (g b' (fst p) (snd p ++ rest')); try reflexivity; apply IH.
Qed.

Lemma matches_pure r :
  pure r -> forall b w rest, matches r b w rest = lang r w.
Proof.
  unfold lang. induction r; simpl; intros P b w rest; try tauto; try reflexivity.
  - destruct P as [P1 P2]. apply existsb_ext. intros p.
    rewrite (IHr1 P1 b (fst p) (snd p ++ rest)), (IHr1 P1 false (fst p) (snd p ++ [])).
    destruct (matches r1 false (fst p) []); [|reflexivity].
    now rewrite (IHr2 P2 (b && isnil (fst p)) (snd p) rest).
  - destruct P as [P1 P2]. rewrite (IHr1 P1 b w rest), (IHr2 P2 b w rest). reflexivity.
  - apply iter_ext. intros b1 w1 r1 b2 r2. now rewrite (IHr P b1 w1 r1), (IHr P b2 w1 r2).
Qed.

Lemma lang_Cat r1 r2 w :
  pure r1 -> pure r2 ->
  lang (Cat r1 r2) w = true <->
  exists w1 w2, w = w1 ++ w2 /\ lang r1 w1 = true /\ lang r2 w2 = true.
Proof.
  intros P1 P2. unfold lang at 1. rewrite matches_Cat. split.
  - intros (w1 & w2 & E & H1 & H2). exists w1, w2.
    rewrite matches_pure in H1, H2 by assumption. auto.
  - intros (w1 & w2 & E & H1 & H2). exists w1, w2.
    rewrite !matches_pure by assumption. auto.
Qed.

Lemma pure_mkCat items : Forall pure items -> pure (mkCat items).
Proof. induction 1; simpl; auto. Qed.

Lemma pure_mkAlt rs : Forall pure rs -> pure (mkAlt rs).
Proof. induction 1; simpl; auto. Qed.

Lemma lang_Eps w : lang Eps w = true <-> w = [].
Proof. unfold lang. simpl. apply isnil_true. Qed.

Lemma lang_mkCat_nil w : lang (mkCat []) w = true <-> w = [].
Proof. apply lang_Eps. Qed.

Lemma lang_mkCat_cons r items w :
  pure r -> Forall pure items ->
  lang (mkCat (r :: items)) w = true <->
  exists w1 w2, w = w1 ++ w2 /\ lang r w1 = true /\ lang (mkCat items) w2 = true.
Proof. intros P Ps. apply lang_Cat; [exact P|now apply pure_mkCat]. Qed.

Lemma lang_mkCat_app i1 i2 w :
  Forall pure i1 -> Forall pure i2 ->
  lang (mkCat (i1 ++ i2)) w = true <->
  exists w1 w2, w = w1 ++ w2 /\ lang (mkCat i1) w1 = true /\ lang (mkCat i2) w2 = true.
Proof.
  intros P1 P2. revert w. induction P1 as [|r i1 Pr P1 IH]; intros w.
  - cbn [app]. split.
    + intros H. exists [], w. split; [reflexivity|]. split; [|exact H].
      now apply lang_mkCat_nil.
    + intros (w1 & w2 & -> & H1 & H2). apply lang_mkCat_nil in H1. now subst.
  - cbn [app]. rewrite lang_mkCat_cons by (try apply Forall_app; auto). split.
    + intros (w1 & w2 & -> & H1 & H2). apply IH in H2 as (u & v & -> & Hu & Hv).
      exists (w1 ++ u), v. rewrite app_assoc. split; [reflexivity|]. split; [|exact Hv].
      apply lang_mkCat_cons; [assumption..|]. now exists w1, u.
    + intros (w1 & w2 & -> & H1 & H2).
      apply lang_mkCat_cons in H1 as (u & v & -> & Hu & Hv); [|assumption..].
      exists u, (v ++ w2). rewrite app_assoc. split; [reflexivity|]. split; [exact Hu|].
      apply IH. now exists v, w2.
Qed.

Lemma lang_mkCat_single r w : pure r -> lang (mkCat [r]) w = lang r w.
Proof.
  intros P. apply eq_true_iff_eq. rewrite lang_mkCat_cons by auto. split.
  - intros (w1 & w2 & -> & H1 & H2). apply lang_mkCat_nil in H2. subst.
    now rewrite app_nil_r.
  - intros H. exists w, []. rewrite app_nil_r. split; [reflexivity|]. split; [exact H|].
    now apply lang_mkCat_nil.
Qed.

Lemma lang_mkAlt rs w : lang (mkAlt rs) w = existsb (fun r => lang r w) rs.
Proof.
  unfold lang. induction rs as [|r rs IH]; [reflexivity|].
  cbn [mkAlt fold_right existsb]. rewrite matches_Alt. fold (mkAlt rs). now rewrite IH.
Qed.

Lemma lang_Chr c w : lang (Chr c) w = true <-> w = [c].
Proof.
  unfold lang. simpl. destruct w as [|x [|y w]]; try (split; congruence).
  rewrite Ascii.eqb_eq. split; congruence.
Qed.

Lemma lang_Cls neg rs w :
  lang (Cls neg rs) w = true <-> exists x, w = [x] /\ in_class neg rs x = true.
Proof.
  unfold lang. simpl. destruct w as [|x [|y w]].
  - split; [discriminate|]. intros (x & H & _). discriminate.
  - split; [intros H; now exists x|]. intros (y & H & Hy). now inversion H; subst.
  - split; [discriminate|]. intros (x' & H & _). discriminate.
Qed.

(** A string of literal characters accepts itself only. *)
Lemma lang_literal s w : lang (mkCat (map Chr s)) w = true <-> w = s.
Proof.
  revert w. induction s as [|c s IH]; intros w.
  - apply lang_mkCat_nil.
  - cbn [map]. rewrite lang_mkCat_cons.
    + split.
      * intros (w1 & w2 & -> & H1 & H2). apply lang_Chr in H1. apply IH in H2. now subst.
      * intros ->. exists [c], s. split; [reflexivity|].
        split; [now apply lang_Chr|now apply IH].
    + exact I.
    + apply Forall_forall. intros r Hr. apply in_map_iff in Hr as (x & <- & _). exact I.
Qed.

Lemma pure_literal s : Forall pure (map Chr s).
Proof. apply Forall_forall. intros r Hr. apply in_map_iff in Hr as (x & <- & _). exact I. Qed.

(** Repetition of a character class. *)
Definition le_opt (n : nat) (mx : option nat) : Prop :=
  match mx with Some m => (n <= m)%nat | None => True end.

Lemma iter_class neg rs fuel mn mx b w rest :
  (length w + mn <= fuel)%nat ->
  iter (matches (Cls neg rs)) fuel mn mx b w rest = true <->
  (mn <= length w)%nat /\ le_opt (length w) mx /\ forallb (in_class neg rs) w = true.
Proof.
  revert mn mx b w. induction fuel as [|fuel IH]; intros mn mx b w Hf.
  - assert (w = []) by (destruct w; [reflexivity|simpl in Hf; lia]).
    assert (mn = 0)%nat by lia. subst. simpl. destruct mx; simpl; intuition lia.
  - cbn [iter]. destruct ((mn =? 0)%nat && isnil w) eqn:E0.
    + apply andb_true_iff in E0 as [Em Ew]. apply Nat.eqb_eq in Em. apply isnil_true in Ew.
      subst. simpl. destruct mx; simpl; intuition lia.
    + assert (Hnz : ~ (mn = 0%nat /\ w = [])).
      { intros [-> ->]. discriminate. }
      destruct mx as [[|mx]|].
      * split; [discriminate|]. intros (H1 & H2 & _). simpl in H2. exfalso.
        destruct w; [|simpl in H2; lia]. simpl in H1. apply Hnz. split; [lia|reflexivity].
      * rewrite existsb_exists. split.
        -- intros [[w1 w2] [Hin H]]. apply in_splits in Hin. subst w. cbn [fst snd] in H.
           destruct (negb (isnil w1) || (0 <? mn)%nat); [|discriminate].
           destruct w1 as [|x [|y w1]]; try discriminate.
           simpl matches in H. destruct (in_class neg rs x) eqn:Hx; [|discriminate].
           cbn [option_map] in H. apply IH in H; [|simpl in Hf; simpl; lia].
           destruct H as (H1 & H2 & H3). simpl in H2. cbn [app length forallb].
           rewrite Hx, H3. simpl. repeat split; lia.
        -- intros (H1 & H2 & H3). destruct w as [|x w].
           ++ simpl in H1. exfalso. apply Hnz. split; [lia|reflexivity].
           ++ exists ([x], w). split; [now apply in_splits|]. cbn [fst snd isnil negb orb].
              cbn [forallb] in H3. apply andb_true_iff in H3 as [Hx H3].
              simpl matches. rewrite Hx. cbn [option_map]. apply IH.
              ** simpl in Hf. simpl. lia.
              ** simpl in H1, H2. simpl. repeat split; try lia. exact H3.
      * rewrite existsb_exists. split.
        -- intros [[w1 w2] [Hin H]]. apply in_splits in Hin. subst w. cbn [fst snd] in H.
           destruct (negb (isnil w1) || (0 <? mn)%nat); [|discriminate].
           destruct w1 as [|x [|y w1]]; try discriminate.
           simpl matches in H. destruct (in_class neg rs x) eqn:Hx; [|discriminate].
           cbn [option_map] in H. apply IH in H; [|simpl in Hf; simpl; lia].
           destruct H as (H1 & H2 & H3). cbn [app length forallb].
           rewrite Hx, H3. simpl. repeat split; lia.
        -- intros (H1 & H2 & H3). destruct w as [|x w].
           ++ simpl in H1. exfalso. apply Hnz. split; [lia|reflexivity].
           ++ exists ([x], w). split; [now apply in_splits|]. cbn [fst snd isnil negb orb].
              cbn [forallb] in H3. apply andb_true_iff in H3 as [Hx H3].
              simpl matches. rewrite Hx. cbn [option_map]. apply IH.
              ** simpl in Hf. simpl. lia.
              ** simpl in H1. simpl. repeat split; try lia. exact H3.
Qed.

Lemma lang_Rep_class neg rs mn mx w :
  lang (Rep (Cls neg rs) mn mx) w = true <->
  (mn <= length w)%nat /\ le_opt (length w) mx /\ forallb (in_class neg rs) w = true.
Proof. unfold lang. cbn [matches]. apply iter_class. lia. Qed.

Lemma in_class_Digit x : in_class false [("0"%char, "9"%char)] x = is_digit x.
Proof.
  unfold in_class, is_digit. simpl. now rewrite orb_false_r.
Qed.

Lemma forallb_in_class_Digit w : forallb (in_class false [("0"%char, "9"%char)]) w = forallb is_digit w.
Proof.
  induction w as [|x w IH]; cbn [forallb]; [reflexivity|]. now rewrite in_class_Digit, IH.
Qed.

Lemma lang_Rep_Digit mn mx w :
  lang (Rep Digit mn mx) w = true <->
  (mn <= length w)%nat /\ le_opt (length w) mx /\ all_digits w.
Proof. unfold Digit. rewrite lang_Rep_class, forallb_in_class_Digit. reflexivity. Qed.

(** ** Anchored patterns *)

Lemma matches_until_Eol items b w post :
  Forall pure items ->
  matches (mkCat (items ++ [Eol])) b w post = true <->
  lang (mkCat items) w = true /\ post = [].
Proof.
  intros P. revert b w. induction P as [|r items Pr P IH]; intros b w.
  - cbn [app mkCat fold_right]. rewrite matches_Cat. split.
    + intros (w1 & w2 & -> & H1 & H2). simpl in H1, H2.
      apply andb_true_iff in H1 as [H1 H1']. apply isnil_true in H1, H1', H2. subst.
      simpl in H1'. subst. split; [reflexivity|reflexivity].
    + intros [H ->]. apply lang_mkCat_nil in H. subst. exists [], []. now simpl.
  - cbn [app mkCat fold_right]. fold (mkCat (items ++ [Eol])). fold (mkCat items).
    rewrite matches_Cat. split.
    + intros (w1 & w2 & -> & H1 & H2). rewrite matches_pure in H1 by exact Pr.
      apply IH in H2 as [H2 ->]. split; [|reflexivity].
      apply lang_Cat; [exact Pr|now apply pure_mkCat|]. now exists w1, w2.
    + intros [H ->]. apply lang_Cat in H as (w1 & w2 & -> & H1 & H2);
        [|exact Pr|now apply pure_mkCat].
      exists w1, w2. split; [reflexivity|]. rewrite matches_pure by exact Pr.
      split; [exact H1|]. now apply IH.
Qed.

(** A pattern [^...$] accepts a text when its body accepts the whole of it. *)
Lemma search_anchored items s :
  Forall pure items ->
  search (mkAlt [mkCat (Bol :: items ++ [Eol])]) s = lang (mkCat items) s.
Proof.
  intros P. apply eq_true_iff_eq. rewrite search_true. split.
  - intros (pre & w & post & -> & H).
    cbn [mkAlt fold_right] in H. rewrite matches_Alt in H. simpl (matches Fail _ _ _) in H.
    rewrite orb_false_r in H. cbn [mkCat fold_right] in H. fold (mkCat (items ++ [Eol])) in H.
    apply matches_Cat in H as (w1 & w2 & -> & H1 & H2).
    simpl in H1. apply andb_true_iff in H1 as [Hp Hw]. apply isnil_true in Hp, Hw. subst.
    apply matches_until_Eol in H2 as [H2 ->]; [|exact P].
    now rewrite app_nil_r.
  - intros H. exists [], s, []. rewrite app_nil_r. split; [reflexivity|].
    cbn [mkAlt fold_right]. rewrite matches_Alt.
    cbn [mkCat fold_right]. fold (mkCat (items ++ [Eol])).
    apply orb_true_iff. left. apply matches_Cat. exists [], s. split; [reflexivity|].
    split; [reflexivity|]. apply matches_until_Eol; [exact P|]. now split.
Qed.

Lemma pushes_anchored la F items :
  pushes la F items -> pushes la ("^" ++ F ++ "$") (Bol :: items ++ [Eol]).
Proof.
  intros H. change (Bol :: items ++ [Eol]) with ([Bol] ++ items ++ [Eol]).
  apply pushes_app; [|apply pushes_app; [exact H|]];
    intros l0 alts cur stack; eexists; reflexivity.
Qed.

(** Matching against a compiled, anchored pattern. *)
Lemma MatchString_anchored la F items :
  pushes la F items -> Forall pure items ->
  exists re, compile_with la ("^" ++ F ++ "$") = inr re
    /\ forall s, MatchString re s = lang (mkCat items) s.
Proof.
  intros H P. unfold compile_with.
  rewrite (parse_pushes _ _ _ (pushes_anchored _ _ _ H)).
  eexists. split; [reflexivity|]. intros s. unfold MatchString. simpl prog.
  now apply search_anchored.
Qed.

(** ** The pieces the synthesizer writes *)

Ltac by_reading := intros ? ? ? ?; eexists; cbv; reflexivity.

Lemma pushes_digit la c : is_digit c = true -> pushes la [c] [Chr c].
Proof.
  intros H. apply digit_cases in H. simpl in H.
  repeat (destruct H as [<-|H]; [by_reading|]). destruct H.
Qed.

Lemma pushes_digits la s : all_digits s -> pushes la s (map Chr s).
Proof.
  induction s as [|c s IH]; intros H.
  - apply pushes_nil.
  - apply all_digits_cons in H as [Hc Hs].
    change (c :: s) with ([c] ++ s). rewrite map_app.
    apply pushes_app; [now apply pushes_digit|now apply IH].
Qed.

Lemma pushes_VERSION_DIGITS la : pushes la VERSION_DIGITS [Rep Digit 1 None].
Proof. by_reading. Qed.

Lemma pushes_VERSION_DOT la : pushes la VERSION_DOT [Chr "."].
Proof. by_reading. Qed.

(** The class of the characters a pre-release or build tag is made of. *)
Definition TagChar : regex :=
  Cls false
    [("a"%char, "z"%char); ("A"%char, "Z"%char); ("0"%char, "9"%char);
     ("-"%char, "-"%char); ("."%char, "."%char)].

Definition optional_tag (lead : ascii) : regex :=
  Rep (mkAlt [mkCat [Chr lead; Rep TagChar 1 None]]) 0 (Some 1%nat).

Definition suffix_items : list regex := [optional_tag "-"; optional_tag "+"].

Lemma pushes_VERSION_SUFFIX_PATTERN la : pushes la VERSION_SUFFIX_PATTERN suffix_items.
Proof. by_reading. Qed.

(** A digit between [lo] and [hi]: what [digitRangeUp] and [digitRangeDown]
    write, a class or, when the range is one digit, that digit. *)
Definition range_item (lo hi : Z) : regex :=
  if lo =? hi then Chr (digit_char lo) else Cls false [(digit_char lo, digit_char hi)].

Lemma pushes_digitRangeUp la d :
  0 <= d <= 9 -> pushes la (digitRangeUp d) [range_item d 9].
Proof.
  intros H. apply digit_range_cases in H.
  repeat (destruct H as [->|H]; [by_reading|]). subst. by_reading.
Qed.

Lemma pushes_digitRangeDown la d :
  0 <= d <= 9 -> pushes la (digitRangeDown d) [range_item 0 d].
Proof.
  intros H. apply digit_range_cases in H.
  repeat (destruct H as [->|H]; [by_reading|]). subst. by_reading.
Qed.

Lemma pure_range_item lo hi : pure (range_item lo hi).
Proof. unfold range_item. destruct (lo =? hi); exact I. Qed.

Lemma lang_range_item lo hi w :
  0 <= lo <= hi -> hi <= 9 ->
  lang (range_item lo hi) w = true <->
  exists x, w = [x] /\ lo <= byte_val x - 48 <= hi.
Proof.
  intros H1 H2. unfold range_item. destruct (Z.eqb_spec lo hi) as [->|N].
  - rewrite lang_Chr. split.
    + intros ->. exists (digit_char hi). rewrite digit_char_val by lia. split; [reflexivity|lia].
    + intros (x & -> & Hx). f_equal. apply byte_val_inj. rewrite digit_char_val by lia. lia.
  - rewrite lang_Cls. unfold in_class. cbn [existsb fst snd xorb].
    rewrite !digit_char_val by lia. split.
    + intros (x & -> & Hx). exists x. split; [reflexivity|].
      rewrite orb_false_r in Hx. apply andb_true_iff in Hx as [Ha Hb].
      apply Z.leb_le in Ha, Hb. lia.
    + intros (x & -> & Hx). exists x. split; [reflexivity|].
      rewrite orb_false_r. apply andb_true_iff. rewrite !Z.leb_le. lia.
Qed.

Lemma count_cases k :
  1 <= k <= 11 ->
  k = 1 \/ k = 2 \/ k = 3 \/ k = 4 \/ k = 5 \/ k = 6 \/ k = 7 \/ k = 8 \/ k = 9 \/ k = 10
  \/ k = 11.
Proof. lia. Qed.

Lemma pushes_exactly la k :
  1 <= k <= 11 ->
  pushes la (fmt.Sprintf "\d{%d}" [fmt.Int k]) [Rep Digit (Z.to_nat k) (Some (Z.to_nat k))].
Proof.
  intros H. apply count_cases in H.
  repeat (destruct H as [->|H]; [by_reading|]). subst. by_reading.
Qed.

Lemma pushes_at_least la k :
  1 <= k <= 11 ->
  pushes la (fmt.Sprintf "\d{%d,}" [fmt.Int k]) [Rep Digit (Z.to_nat k) None].
Proof.
  intros H. apply count_cases in H.
  repeat (destruct H as [->|H]; [by_reading|]). subst. by_reading.
Qed.

Lemma pushes_one_digit la : pushes la "\d" [Digit].
Proof. by_reading. Qed.

(** ** The loops of the synthesizer, as recursions over the digits *)

Definition digit_of (c : ascii) : Z := (byte_val c - 48) mod 256.

Lemma digit_of_digit c : is_digit c = true -> digit_of c = byte_val c - 48 /\ 0 <= digit_of c <= 9.
Proof.
  intros H. apply is_digit_spec in H. unfold digit_of. rewrite Z.mod_small; lia.
Qed.

(** [up] tells the direction: [true] for [NumGreaterOrEqual], [false] for
    [NumLessOrEqual]. *)
Definition rangeStr (up : bool) (d : Z) : gostring :=
  if up then digitRangeUp d else digitRangeDown d.

Definition mid_ok (up : bool) (d : Z) : bool := if up then d <? 9 else 0 <? d.
Definition mid_digit (up : bool) (d : Z) : Z := if up then d + 1 else d - 1.
Definition bounds (up : bool) (d : Z) : Z * Z := if up then (d, 9) else (0, d).

Definition turn (up : bool) := if up then greater_turn else less_turn.

(** The patterns the loop over the positions adds for the digits [ds] that
    follow the prefix [p]. *)
Fixpoint pos_strs (up : bool) (p ds : gostring) : list gostring :=
  match ds with
  | [] => []
  | c :: t =>
      let d := digit_of c in
      (if isnil t then [p ++ rangeStr up d]
       else if mid_ok up d then
         [p ++ rangeStr up (mid_digit up d)
            ++ fmt.Sprintf "\d{%d}" [fmt.Int (Z.of_nat (length t))]]
       else [])
      ++ pos_strs up (p ++ [c]) t
  end.

(** The same alternatives as lists of items. *)
Fixpoint pos_alts (up : bool) (p ds : gostring) : list (list regex) :=
  match ds with
  | [] => []
  | c :: t =>
      let d := digit_of c in
      (if isnil t then
         [map Chr p ++ [range_item (fst (bounds up d)) (snd (bounds up d))]]
       else if mid_ok up d then
         [map Chr p
            ++ [range_item (fst (bounds up (mid_digit up d))) (snd (bounds up (mid_digit up d)));
                Rep Digit (length t) (Some (length t))]]
       else [])
      ++ pos_alts up (p ++ [c]) t
  end.

Lemma indices_cons lo hi : lo < hi -> indices lo hi = lo :: indices (lo + 1) hi.
Proof.
  intros H. unfold indices. replace (Z.to_nat (hi - lo)) with (S (Z.to_nat (hi - (lo + 1)))) by lia.
  cbn [seq map]. f_equal; [lia|]. rewrite <- seq_shift, map_map.
  apply map_ext. intros k. lia.
Qed.

Lemma indices_nil lo hi : hi <= lo -> indices lo hi = [].
Proof. intros H. unfold indices. now replace (Z.to_nat (hi - lo)) with O by lia. Qed.

Lemma byte_at_app p c t : byte_at (p ++ c :: t) (Z.of_nat (length p)) = c.
Proof. unfold byte_at. rewrite Nat2Z.id. now rewrite nth_middle. Qed.

Lemma slice_to_app p r : strings.slice_to (p ++ r) (Z.of_nat (length p)) = p.
Proof.
  unfold strings.slice_to. rewrite Nat2Z.id, firstn_app, Nat.sub_diag, firstn_all.
  simpl. apply app_nil_r.
Qed.

Lemma turn_fold up p ds acc :
  fold_left (turn up (p ++ ds) (Z.of_nat (length (p ++ ds))))
    (indices (Z.of_nat (length p)) (Z.of_nat (length (p ++ ds)))) acc
  = acc ++ pos_strs up p ds.
Proof.
  revert p acc. induction ds as [|c t IH]; intros p acc.
  - rewrite app_nil_r, indices_nil by lia. simpl. now rewrite app_nil_r.
  - rewrite indices_cons by (rewrite length_app; simpl; lia).
    cbn [fold_left].
    pose proof (IH (p ++ [c])) as IH'.
    rewrite <- app_assoc in IH'. cbn [app] in IH'.
    replace (Z.of_nat (length (p ++ [c]))) with (Z.of_nat (length p) + 1) in IH'
      by (rewrite length_app; simpl; lia).
    rewrite IH'. cbn [pos_strs]. rewrite app_assoc. f_equal.
    assert (Hi : (Z.of_nat (length p) =? Z.of_nat (length (p ++ c :: t)) - 1) = isnil t).
    { rewrite length_app. cbn [length]. destruct t; simpl.
      - apply Z.eqb_eq. lia.
      - apply Z.eqb_neq. lia. }
    assert (Hs : Z.of_nat (length (p ++ c :: t)) - Z.of_nat (length p) - 1
                 = Z.of_nat (length t)).
    { rewrite length_app. cbn [length]. lia. }
    destruct up; unfold turn, greater_turn, less_turn, rangeStr, mid_ok, mid_digit;
      rewrite byte_at_app, slice_to_app, Hi, Hs; fold (digit_of c);
      destruct (isnil t); try reflexivity;
      match goal with |- context [if ?b then _ else _] => destruct b end;
      try reflexivity; now rewrite app_nil_r.
Qed.

Lemma pushes_pos_alts la up p ds :
  all_digits p -> all_digits ds -> (length ds <= 12)%nat ->
  Forall2 (pushes la) (pos_strs up p ds) (pos_alts up p ds).
Proof.
  revert p. induction ds as [|c t IH]; intros p Hp Hds Hlen.
  - constructor.
  - apply all_digits_cons in Hds as [Hc Ht].
    destruct (digit_of_digit c Hc) as [_ Hd].
    cbn [pos_strs pos_alts]. apply Forall2_app.
    + destruct (isnil t) eqn:Et.
      * constructor; [|constructor]. apply pushes_app; [now apply pushes_digits|].
        destruct up; cbn [rangeStr bounds fst snd];
          [now apply pushes_digitRangeUp|now apply pushes_digitRangeDown].
      * destruct (mid_ok up (digit_of c)) eqn:Em; [|constructor].
        constructor; [|constructor]. apply pushes_app; [now apply pushes_digits|].
        change [range_item (fst (bounds up (mid_digit up (digit_of c))))
                  (snd (bounds up (mid_digit up (digit_of c))));
                Rep Digit (length t) (Some (length t))]
          with ([range_item (fst (bounds up (mid_digit up (digit_of c))))
                   (snd (bounds up (mid_digit up (digit_of c))))]
                ++ [Rep Digit (length t) (Some (length t))]).
        apply pushes_app.
        -- destruct up; cbn [rangeStr bounds fst snd mid_digit mid_ok] in *.
           ++ apply pushes_digitRangeUp. apply Z.ltb_lt in Em. lia.
           ++ apply pushes_digitRangeDown. apply Z.ltb_lt in Em. lia.
        -- rewrite <- (Nat2Z.id (length t)) at 2 3. apply pushes_exactly.
           destruct t; [discriminate|]. simpl in Hlen. simpl length. lia.
    + apply IH.
      * apply all_digits_app. split; [exact Hp|]. apply all_digits_cons. now split.
      * exact Ht.
      * simpl in Hlen. lia.
Qed.

(** ** What the alternatives of the synthesizer accept *)

Lemma pure_Digit_rep mn mx : pure (Rep Digit mn mx).
Proof. exact I. Qed.

Lemma lang_prefix_range p lo hi w :
  0 <= lo <= hi -> hi <= 9 ->
  lang (mkCat (map Chr p ++ [range_item lo hi])) w = true <->
  exists x, w = p ++ [x] /\ lo <= byte_val x - 48 <= hi.
Proof.
  intros H1 H2. rewrite lang_mkCat_app.
  - split.
    + intros (w1 & w2 & -> & Hp & Hr). apply lang_literal in Hp. subst.
      rewrite lang_mkCat_single in Hr by apply pure_range_item.
      apply lang_range_item in Hr as (x & -> & Hx); [|assumption..]. now exists x.
    + intros (x & -> & Hx). exists p, [x]. split; [reflexivity|].
      split; [now apply lang_literal|].
      rewrite lang_mkCat_single by apply pure_range_item.
      apply lang_range_item; [assumption..|]. now exists x.
  - apply pure_literal.
  - constructor; [apply pure_range_item|constructor].
Qed.

Lemma lang_prefix_range_any p lo hi k w :
  0 <= lo <= hi -> hi <= 9 ->
  lang (mkCat (map Chr p ++ [range_item lo hi; Rep Digit k (Some k)])) w = true <->
  exists x u, w = p ++ x :: u /\ lo <= byte_val x - 48 <= hi
              /\ length u = k /\ all_digits u.
Proof.
  intros H1 H2. rewrite lang_mkCat_app.
  - split.
    + intros (w1 & w2 & -> & Hp & Hr). apply lang_literal in Hp. subst.
      apply lang_mkCat_cons in Hr as (a & b & -> & Ha & Hb);
        [|apply pure_range_item|repeat constructor].
      apply lang_range_item in Ha as (x & -> & Hx); [|assumption..].
      rewrite lang_mkCat_single in Hb by exact I.
      apply lang_Rep_Digit in Hb as (L1 & L2 & L3). simpl in L2.
      exists x, b. repeat split; try assumption; lia.
    + intros (x & u & -> & Hx & Hk & Hu). exists p, (x :: u). split; [reflexivity|].
      split; [now apply lang_literal|].
      apply lang_mkCat_cons; [apply pure_range_item|repeat constructor|].
      exists [x], u. split; [reflexivity|]. split.
      * apply lang_range_item; [assumption..|]. now exists x.
      * rewrite lang_mkCat_single by exact I. apply lang_Rep_Digit. simpl.
        repeat split; try assumption; lia.
  - apply pure_literal.
  - repeat constructor. apply pure_range_item.
Qed.

Lemma pure_pos_alts up p ds : Forall (Forall pure) (pos_alts up p ds).
Proof.
  revert p. induction ds as [|c t IH]; intros p; cbn [pos_alts]; [constructor|].
  apply Forall_app. split; [|apply IH].
  destruct (isnil t).
  - repeat constructor. apply Forall_app. split; [apply pure_literal|].
    repeat constructor. apply pure_range_item.
  - destruct (mid_ok up (digit_of c)); [|constructor].
    repeat constructor. apply Forall_app. split; [apply pure_literal|].
    repeat constructor. apply pure_range_item.
Qed.

Definition accepts (alts : list (list regex)) (w : gostring) : bool :=
  existsb (fun items => lang (mkCat items) w) alts.

Lemma accepts_app a b w : accepts (a ++ b) w = accepts a w || accepts b w.
Proof. apply existsb_app. Qed.

Lemma accepts_one items w : accepts [items] w = lang (mkCat items) w.
Proof. unfold accepts. simpl. apply orb_false_r. Qed.

(** Numerals of the same length compare digit by digit: the alternatives
    for the digits [ds] after the prefix [p] accept [p] followed by the
    numerals of that length on the right side of [ds]. *)
Lemma pos_alts_spec up p ds w :
  all_digits ds -> ds <> [] ->
  accepts (pos_alts up p ds) w = true <->
  exists xs, w = p ++ xs /\ all_digits xs /\ length xs = length ds
    /\ (if up then decimal_value ds <= decimal_value xs
        else decimal_value xs <= decimal_value ds).
Proof.
  revert p. induction ds as [|c t IH]; intros p Hds Hne; [congruence|].
  apply all_digits_cons in Hds as [Hc Ht].
  destruct (digit_of_digit c Hc) as [Ed Hd].
  cbn [pos_alts]. rewrite accepts_app, orb_true_iff.
  destruct t as [|c' t'].
  - (* the last position *)
    cbn [isnil pos_alts]. rewrite accepts_one. change (accepts [] w) with false.
    rewrite lang_prefix_range
      by (destruct up; cbn [bounds fst snd]; lia).
    split.
    + intros [(x & -> & Hx)|F]; [|discriminate].
      exists [x]. split; [reflexivity|].
      assert (is_digit x = true).
      { apply is_digit_spec. destruct up; cbn [bounds fst snd] in Hx; lia. }
      split; [apply all_digits_cons; now split|]. split; [reflexivity|].
      rewrite !decimal_value_cons. cbn [length decimal_value fold_left].
      change (10 ^ Z.of_nat 0) with 1. rewrite <- Ed.
      destruct up; cbn [bounds fst snd] in Hx; lia.
    + intros (xs & -> & Hxs & Hlen & Hcmp). left.
      destruct xs as [|x [|y xs]]; try discriminate. exists x. split; [reflexivity|].
      apply all_digits_cons in Hxs as [Hx _]. apply is_digit_spec in Hx.
      rewrite !decimal_value_cons in Hcmp. cbn [length decimal_value fold_left] in Hcmp.
      change (10 ^ Z.of_nat 0) with 1 in Hcmp. rewrite <- Ed in Hcmp.
      destruct up; cbn [bounds fst snd]; lia.
  - (* a position before the last *)
    cbn [isnil]. set (t := c' :: t') in *.
    assert (Htne : t <> []) by discriminate.
    specialize (IH (p ++ [c]) Ht Htne).
    pose proof (decimal_value_bound t Ht) as Bt.
    set (P := 10 ^ Z.of_nat (length t)) in *.
    assert (HP : 0 < P) by (apply Z.pow_pos_nonneg; lia).
    split.
    + intros [Hmid|Hrest].
      * destruct (mid_ok up (digit_of c)) eqn:Em; [|discriminate].
        rewrite accepts_one in Hmid.
        apply lang_prefix_range_any in Hmid as (x & u & -> & Hx & Hlen & Hu).
        2,3: destruct up; cbn [bounds fst snd mid_digit mid_ok] in *;
             apply Z.ltb_lt in Em; lia.
        exists (x :: u).
        assert (is_digit x = true).
        { apply is_digit_spec.
          destruct up; cbn [bounds fst snd mid_digit mid_ok] in *;
            apply Z.ltb_lt in Em; lia. }
        split; [reflexivity|]. split; [apply all_digits_cons; now split|].
        split; [cbn [length]; now rewrite Hlen|].
        rewrite !decimal_value_cons, Hlen. fold P. rewrite <- Ed.
        pose proof (decimal_value_bound u Hu) as Bu. rewrite Hlen in Bu. fold P in Bu.
        destruct up; cbn [bounds fst snd mid_digit mid_ok] in *; nia.
      * apply IH in Hrest as (xs & -> & Hxs & Hlen & Hcmp).
        exists (c :: xs). rewrite <- app_assoc. split; [reflexivity|].
        split; [apply all_digits_cons; now split|].
        split; [cbn [length]; now rewrite Hlen|].
        rewrite !decimal_value_cons, Hlen. destruct up; lia.
    + intros (xs & -> & Hxs & Hlen & Hcmp).
      destruct xs as [|x u]; [discriminate|]. cbn [length] in Hlen.
      assert (Hlu : length u = length t) by lia.
      apply all_digits_cons in Hxs as [Hx Hu].
      pose proof (decimal_value_bound u Hu) as Bu. rewrite Hlu in Bu. fold P in Bu.
      rewrite !decimal_value_cons, Hlu in Hcmp. fold P in Hcmp. rewrite <- Ed in Hcmp.
      pose proof Hx as Hx'. apply is_digit_spec in Hx'.
      destruct (Z.eq_dec (byte_val x - 48) (digit_of c)) as [Heq|Hneq].
      * right. apply IH. exists u.
        assert (x = c) by (apply byte_val_inj; lia). subst x.
        rewrite <- app_assoc. split; [reflexivity|]. split; [exact Hu|].
        split; [exact Hlu|]. destruct up; lia.
      * left.
        assert (Em : mid_ok up (digit_of c) = true).
        { destruct up; cbn [mid_ok]; apply Z.ltb_lt; nia. }
        rewrite Em, accepts_one. apply lang_prefix_range_any.
        1,2: destruct up; cbn [bounds fst snd mid_digit mid_ok] in *;
             apply Z.ltb_lt in Em; lia.
        exists x, u. split; [reflexivity|]. split; [|now split].
        destruct up; cbn [bounds fst snd mid_digit]; nia.
Qed.

(** ** [joinPatterns] *)

Definition join_items (alts : list (list regex)) : list regex :=
  match alts with
  | [a] => a
  | _ => [mkAlt (map mkCat alts)]
  end.

Lemma pushes_joinPatterns la P A :
  Forall2 (pushes la) P A -> P <> [] -> pushes la (joinPatterns P) (join_items A).
Proof.
  intros H Hne. unfold joinPatterns, join_items, REGEX_OR.
  destruct H as [|p a P' A' Hp H']; [congruence|].
  destruct H' as [|p' a' P'' A'' Hp' H''].
  - exact Hp.
  - replace ((length (p :: p' :: P'') =? 1)%nat) with false by reflexivity.
    apply pushes_group; [|discriminate]. now repeat constructor.
Qed.

Lemma pure_join_items A : Forall (Forall pure) A -> Forall pure (join_items A).
Proof.
  intros H. unfold join_items. destruct A as [|a [|a' A']].
  - constructor; [exact I|constructor].
  - now inversion H.
  - constructor; [|constructor]. apply pure_mkAlt. apply Forall_forall. intros r Hr.
    apply in_map_iff in Hr as (items & <- & Hin). apply pure_mkCat.
    rewrite Forall_forall in H. now apply H.
Qed.

Lemma lang_mkAlt_mkCat A w : lang (mkAlt (map mkCat A)) w = accepts A w.
Proof.
  rewrite lang_mkAlt. unfold accepts. induction A as [|a A IH]; [reflexivity|].
  cbn [map existsb]. now rewrite IH.
Qed.

Lemma lang_join_items A w :
  Forall (Forall pure) A -> lang (mkCat (join_items A)) w = accepts A w.
Proof.
  intros H. unfold join_items. destruct A as [|a [|a' A']].
  - rewrite lang_mkCat_single; [apply lang_mkAlt_mkCat|exact I].
  - now rewrite accepts_one.
  - rewrite lang_mkCat_single; [apply lang_mkAlt_mkCat|].
    apply pure_mkAlt. apply Forall_forall. intros r Hr.
    apply in_map_iff in Hr as (items & <- & Hin). apply pure_mkCat.
    rewrite Forall_forall in H. now apply H.
Qed.

(** ** [NumGreaterOrEqual] *)

Definition ge_alts (n : Z) : list (list regex) :=
  if n <=? 0 then [[Rep Digit 1 None]]
  else
    let s := Itoa n in
    (if Z.of_nat (length s) <? 10 then [[Rep Digit (S (length s)) None]] else [])
    ++ pos_alts true [] s.

Definition ge_items (n : Z) : list regex := join_items (ge_alts n).

Definition ge_patterns (n : Z) : list gostring :=
  let s := Itoa n in
  (if Z.of_nat (length s) <? 10
   then [fmt.Sprintf "\d{%d,}" [fmt.Int (Z.of_nat (length s) + 1)]] else [])
  ++ pos_strs true [] s.

Lemma NumGreaterOrEqual_patterns n :
  0 < n -> NumGreaterOrEqual n = joinPatterns (ge_patterns n).
Proof.
  intros H. unfold NumGreaterOrEqual, ge_patterns.
  destruct (Z.leb_spec n 0); [lia|]. cbv zeta. f_equal.
  exact (turn_fold true [] (Itoa n) _).
Qed.

Lemma Itoa_length_11 n : 0 <= n <= 10 ^ 10 -> (1 <= length (Itoa n) <= 11)%nat.
Proof.
  intros H. assert (Hs : small n) by (unfold small; lia). split.
  - pose proof (Itoa_nonempty n Hs). destruct (Itoa n); [congruence|simpl; lia].
  - apply Itoa_length; [exact Hs|lia|]. change (10 ^ Z.of_nat 11) with (10 ^ 10 * 10). lia.
Qed.

Lemma pos_strs_nonempty up p ds : ds <> [] -> pos_strs up p ds <> [].
Proof.
  revert p. induction ds as [|c t IH]; intros p H; [congruence|].
  cbn [pos_strs]. destruct t as [|c' t'].
  - discriminate.
  - intros E. apply app_eq_nil in E as [_ E]. revert E. apply IH. discriminate.
Qed.

Lemma pushes_NumGreaterOrEqual la n :
  n <= 10 ^ 10 -> pushes la (NumGreaterOrEqual n) (ge_items n).
Proof.
  intros H. unfold ge_items, ge_alts. destruct (Z.leb_spec n 0) as [Hn|Hn].
  - unfold NumGreaterOrEqual. destruct (Z.leb_spec n 0); [|lia].
    apply pushes_VERSION_DIGITS.
  - rewrite NumGreaterOrEqual_patterns by exact Hn. unfold ge_patterns. cbv zeta.
    pose proof (Itoa_length_11 n ltac:(lia)) as L.
    apply pushes_joinPatterns.
    + apply Forall2_app.
      * destruct (Z.ltb_spec (Z.of_nat (length (Itoa n))) 10); [|constructor].
        constructor; [|constructor].
        replace (S (length (Itoa n))) with (Z.to_nat (Z.of_nat (length (Itoa n)) + 1)) by lia.
        apply pushes_at_least. lia.
      * apply pushes_pos_alts; [reflexivity|apply Itoa_all_digits; lia|lia].
    + intros E. apply app_eq_nil in E as [_ E]. revert E. apply pos_strs_nonempty.
      intros E. rewrite E in L. simpl in L. lia.
Qed.

Lemma pure_ge_alts n : Forall (Forall pure) (ge_alts n).
Proof.
  unfold ge_alts. destruct (n <=? 0); [repeat constructor|].
  apply Forall_app. split; [|apply pure_pos_alts].
  destruct (_ <? 10); repeat constructor.
Qed.

Lemma pure_ge_items n : Forall pure (ge_items n).
Proof. apply pure_join_items, pure_ge_alts. Qed.

Lemma lang_ge_items n w : lang (mkCat (ge_items n)) w = accepts (ge_alts n) w.
Proof. apply lang_join_items, pure_ge_alts. Qed.

(** Whatever a fragment of the synthesizer accepts is a string of digits. *)
Lemma pos_alts_digits up ds w :
  all_digits ds -> ds <> [] -> accepts (pos_alts up [] ds) w = true ->
  all_digits w /\ w <> [].
Proof.
  intros Hd Hne H. apply pos_alts_spec in H as (xs & -> & Hxs & Hlen & _); try assumption.
  cbn [app]. split; [exact Hxs|]. intros ->. destruct ds; [congruence|discriminate].
Qed.

Lemma ge_items_digits n w :
  n <= 10 ^ 10 -> lang (mkCat (ge_items n)) w = true -> all_digits w /\ w <> [].
Proof.
  intros Hn. rewrite lang_ge_items. unfold ge_alts. destruct (Z.leb_spec n 0) as [H0|H0].
  - rewrite accepts_one, lang_mkCat_single by exact I. intros H.
    apply lang_Rep_Digit in H as (H1 & _ & H3). split; [exact H3|].
    intros ->. simpl in H1. lia.
  - rewrite accepts_app, orb_true_iff. intros [H|H].
    + destruct (_ <? 10); [|discriminate]. rewrite accepts_one in H.
      rewrite lang_mkCat_single in H by exact I.
      apply lang_Rep_Digit in H as (H1 & _ & H3). split; [exact H3|].
      intros ->. simpl in H1. lia.
    + revert H. apply pos_alts_digits; [apply Itoa_all_digits; lia|].
      apply Itoa_nonempty. unfold small. lia.
Qed.

(** The numerals a [NumGreaterOrEqual] fragment accepts. The alternative
    for longer numerals is there when [n] has fewer than ten digits;
    otherwise only numerals as long as [n] are accepted. *)
Lemma ge_items_spec n w :
  n <= 10 ^ 10 -> is_canonical w = true ->
  (Z.of_nat (length (Itoa n)) < 10 \/ (length w <= length (Itoa n))%nat) ->
  lang (mkCat (ge_items n)) w = (n <=? decimal_value w).
Proof.
  intros Hn Hw Hlen. rewrite lang_ge_items. apply eq_true_iff_eq. rewrite Z.leb_le.
  pose proof (is_canonical_digits w Hw) as Dw.
  pose proof (decimal_value_bound w Dw) as Bw.
  pose proof (is_canonical_nonempty w Hw) as Nw.
  unfold ge_alts. destruct (Z.leb_spec n 0) as [H0|H0].
  - rewrite accepts_one, lang_mkCat_single by exact I. rewrite lang_Rep_Digit.
    split; [lia|]. intros _. destruct w; [congruence|]. simpl. repeat split; [lia|exact Dw].
  - assert (Hs : small n) by (unfold small; lia).
    pose proof (Itoa_canonical n Hs) as Cs. pose proof (Itoa_value n Hs) as Vs.
    pose proof (Itoa_all_digits n ltac:(lia)) as Ds.
    pose proof (Itoa_nonempty n Hs) as Ns.
    pose proof (decimal_value_bound _ Ds) as Bs. rewrite Vs in Bs.
    set (s := Itoa n) in *.
    rewrite accepts_app, orb_true_iff. split.
    + intros [H|H].
      * destruct (Z.ltb_spec (Z.of_nat (length s)) 10) as [Hlt10|Hge10]; [|discriminate].
        rewrite accepts_one, lang_mkCat_single in H by exact I.
        apply lang_Rep_Digit in H as (H1 & _ & _).
        assert (L2 : (2 <= length w)%nat).
        { destruct s; [congruence|]. simpl in H1. lia. }
        pose proof (canonical_lower_bound w Hw L2) as LB.
        assert (10 ^ Z.of_nat (length s) <= 10 ^ (Z.of_nat (length w) - 1))
          by (apply Z.pow_le_mono_r; lia).
        lia.
      * apply pos_alts_spec in H as (xs & E & _ & _ & Hcmp); [|assumption..].
        cbn [app] in E. subst xs. lia.
    + intros Hle. destruct (Nat.lt_trichotomy (length w) (length s)) as [Hlt|[Heq|Hgt]].
      * exfalso.
        assert (L2 : (2 <= length s)%nat).
        { destruct w; [congruence|]. simpl in Hlt. lia. }
        pose proof (canonical_lower_bound s Cs L2) as LB. rewrite Vs in LB.
        assert (10 ^ Z.of_nat (length w) <= 10 ^ (Z.of_nat (length s) - 1))
          by (apply Z.pow_le_mono_r; lia).
        lia.
      * right. apply pos_alts_spec; [assumption..|]. exists w.
        split; [reflexivity|]. split; [exact Dw|]. split; [exact Heq|]. lia.
      * left. destruct (Z.ltb_spec (Z.of_nat (length s)) 10) as [Hlt10|Hge10]; [|lia].
        rewrite accepts_one, lang_mkCat_single by exact I. apply lang_Rep_Digit.
        split; [lia|]. split; [exact I|exact Dw].
Qed.

(** ** [NumLessOrEqual] *)

Definition fewer_str (d : Z) : gostring :=
  if d =? 1 then "\d" else fmt.Sprintf "\d{%d}" [fmt.Int d].

Definition fewer_item (d : Z) : list regex :=
  [if d =? 1 then Digit else Rep Digit (Z.to_nat d) (Some (Z.to_nat d))].

Definition le_alts (n : Z) : list (list regex) :=
  let s := Itoa n in
  map fewer_item (indices 1 (Z.of_nat (length s))) ++ pos_alts false [] s.

Definition le_items (n : Z) : list regex := join_items (le_alts n).

Definition le_patterns (n : Z) : list gostring :=
  let s := Itoa n in
  map fewer_str (indices 1 (Z.of_nat (length s))) ++ pos_strs false [] s.

Lemma fewer_fold l acc : fold_left fewer_turn l acc = acc ++ map fewer_str l.
Proof.
  revert acc. induction l as [|d l IH]; intros acc; cbn [fold_left map].
  - now rewrite app_nil_r.
  - rewrite IH. unfold fewer_turn, fewer_str. destruct (d =? 1); now rewrite <- app_assoc.
Qed.

Lemma NumLessOrEqual_patterns n :
  0 <= n -> NumLessOrEqual n = joinPatterns (le_patterns n).
Proof.
  intros H. unfold NumLessOrEqual, le_patterns.
  destruct (Z.ltb_spec n 0); [lia|]. cbv zeta. f_equal.
  rewrite fewer_fold. cbn [app].
  exact (turn_fold false [] (Itoa n) _).
Qed.

Lemma pushes_fewer la l :
  Forall (fun d => 1 <= d <= 11) l ->
  Forall2 (pushes la) (map fewer_str l) (map fewer_item l).
Proof.
  induction 1 as [|d l Hd Hl IH]; cbn [map]; constructor; [|exact IH].
  unfold fewer_str, fewer_item. destruct (d =? 1).
  - apply pushes_one_digit.
  - now apply pushes_exactly.
Qed.

Lemma in_indices lo hi d : In d (indices lo hi) <-> lo <= d < hi.
Proof.
  unfold indices. rewrite in_map_iff. split.
  - intros (k & <- & Hk). apply in_seq in Hk. lia.
  - intros H. exists (Z.to_nat (d - lo)). split; [lia|]. apply in_seq. lia.
Qed.

Lemma pushes_NumLessOrEqual la n :
  0 <= n <= 10 ^ 10 -> pushes la (NumLessOrEqual n) (le_items n).
Proof.
  intros H. rewrite NumLessOrEqual_patterns by lia. unfold le_items, le_alts, le_patterns.
  cbv zeta. pose proof (Itoa_length_11 n H) as L.
  apply pushes_joinPatterns.
  - apply Forall2_app.
    + apply pushes_fewer. apply Forall_forall. intros d Hd. apply in_indices in Hd. lia.
    + apply pushes_pos_alts; [reflexivity|apply Itoa_all_digits; lia|lia].
  - intros E. apply app_eq_nil in E as [_ E]. revert E. apply pos_strs_nonempty.
    intros E. rewrite E in L. simpl in L. lia.
Qed.

Lemma pure_le_alts n : Forall (Forall pure) (le_alts n).
Proof.
  unfold le_alts. apply Forall_app. split; [|apply pure_pos_alts].
  apply Forall_forall. intros a Ha. apply in_map_iff in Ha as (d & <- & _).
  unfold fewer_item. destruct (d =? 1); repeat constructor.
Qed.

Lemma pure_le_items n : Forall pure (le_items n).
Proof. apply pure_join_items, pure_le_alts. Qed.

Lemma lang_le_items n w : lang (mkCat (le_items n)) w = accepts (le_alts n) w.
Proof. apply lang_join_items, pure_le_alts. Qed.

Lemma lang_Digit w : lang Digit w = true <-> exists x, w = [x] /\ is_digit x = true.
Proof.
  unfold Digit. rewrite lang_Cls. split; intros (x & -> & Hx); exists x;
    (split; [reflexivity|]); now rewrite in_class_Digit in *.
Qed.

Lemma accepts_fewer hi w :
  accepts (map fewer_item (indices 1 hi)) w = true <->
  all_digits w /\ 1 <= Z.of_nat (length w) < hi.
Proof.
  unfold accepts. rewrite existsb_exists. split.
  - intros (a & Ha & H). apply in_map_iff in Ha as (d & <- & Hd).
    apply in_indices in Hd. unfold fewer_item in H.
    rewrite lang_mkCat_single in H by (destruct (d =? 1); exact I).
    destruct (Z.eqb_spec d 1) as [->|N].
    + apply lang_Digit in H as (x & -> & Hx). split; [|simpl; lia].
      apply all_digits_cons. now split.
    + apply lang_Rep_Digit in H as (H1 & H2 & H3). simpl in H2. split; [exact H3|lia].
  - intros [Hw Hl]. exists (fewer_item (Z.of_nat (length w))). split.
    + apply in_map. apply in_indices. lia.
    + unfold fewer_item.
      rewrite lang_mkCat_single by (destruct (_ =? 1); exact I).
      destruct (Z.eqb_spec (Z.of_nat (length w)) 1) as [E|N].
      * destruct w as [|x [|y w]]; try (simpl in E; lia).
        apply lang_Digit. exists x. split; [reflexivity|].
        now apply all_digits_cons in Hw.
      * apply lang_Rep_Digit. rewrite Nat2Z.id. simpl. repeat split; [lia|lia|exact Hw].
Qed.

Lemma le_items_digits n w :
  0 <= n <= 10 ^ 10 -> lang (mkCat (le_items n)) w = true -> all_digits w /\ w <> [].
Proof.
  intros Hn. rewrite lang_le_items. unfold le_alts. cbv zeta.
  rewrite accepts_app, orb_true_iff. intros [H|H].
  - apply accepts_fewer in H as [H1 H2]. split; [exact H1|]. intros ->. simpl in H2. lia.
  - revert H. apply pos_alts_digits; [apply Itoa_all_digits; lia|].
    apply Itoa_nonempty. unfold small. lia.
Qed.

(** The numerals a [NumLessOrEqual] fragment accepts. *)
Lemma le_items_spec n w :
  0 <= n <= 10 ^ 10 -> is_canonical w = true ->
  lang (mkCat (le_items n)) w = (decimal_value w <=? n).
Proof.
  intros Hn Hw. rewrite lang_le_items. apply eq_true_iff_eq. rewrite Z.leb_le.
  pose proof (is_canonical_digits w Hw) as Dw.
  pose proof (decimal_value_bound w Dw) as Bw.
  pose proof (is_canonical_nonempty w Hw) as Nw.
  assert (Hs : small n) by (unfold small; lia).
  pose proof (Itoa_canonical n Hs) as Cs. pose proof (Itoa_value n Hs) as Vs.
  pose proof (Itoa_all_digits n ltac:(lia)) as Ds.
  pose proof (Itoa_nonempty n Hs) as Ns.
  pose proof (decimal_value_bound _ Ds) as Bs. rewrite Vs in Bs.
  unfold le_alts. cbv zeta. set (s := Itoa n) in *.
  rewrite accepts_app, orb_true_iff, accepts_fewer. split.
  - intros [[_ H]|H].
    + assert (L2 : (2 <= length s)%nat) by lia.
      pose proof (canonical_lower_bound s Cs L2) as LB. rewrite Vs in LB.
      assert (10 ^ Z.of_nat (length w) <= 10 ^ (Z.of_nat (length s) - 1))
        by (apply Z.pow_le_mono_r; lia).
      lia.
    + apply pos_alts_spec in H as (xs & E & _ & _ & Hcmp); [|assumption..].
      cbn [app] in E. subst xs. lia.
  - intros Hle. destruct (Nat.lt_trichotomy (length w) (length s)) as [Hlt|[Heq|Hgt]].
    + left. split; [exact Dw|]. destruct w; [congruence|]. simpl length in *. lia.
    + right. apply pos_alts_spec; [assumption..|]. exists w.
      split; [reflexivity|]. split; [exact Dw|]. split; [exact Heq|]. lia.
    + exfalso.
      assert (L2 : (2 <= length w)%nat).
      { destruct s; [congruence|]. simpl in Hgt. lia. }
      pose proof (canonical_lower_bound w Hw L2) as LB.
      assert (10 ^ Z.of_nat (length s) <= 10 ^ (Z.of_nat (length w) - 1))
        by (apply Z.pow_le_mono_r; lia).
      lia.
Qed.

(** ** The digit-range synthesizer is correct *)

Lemma NumGreaterOrEqual_anchored n :
  n <= 10 ^ 10 ->
  exists re, Compile (anchored (NumGreaterOrEqual n)) = inr re
    /\ forall s, MatchString re s = lang (mkCat (ge_items n)) s.
Proof.
  intros H. apply MatchString_anchored; [now apply pushes_NumGreaterOrEqual|apply pure_ge_items].
Qed.

Lemma NumLessOrEqual_anchored n :
  0 <= n <= 10 ^ 10 ->
  exists re, Compile (anchored (NumLessOrEqual n)) = inr re
    /\ forall s, MatchString re s = lang (mkCat (le_items n)) s.
Proof.
  intros H. apply MatchString_anchored; [now apply pushes_NumLessOrEqual|apply pure_le_items].
Qed.

(** C1, as the spec states it, fails: the threshold 1000000000 has ten
    digits, so [NumGreaterOrEqual] writes no alternative for longer numerals,
    and the numeral 10000000000, which is greater, is rejected. *)
Lemma NumGreaterOrEqual_rejects_eleven_digits :
  0 <= 1000000000 <= MAX_THRESHOLD
  /\ is_canonical "10000000000" = true
  /\ (1000000000 <=? decimal_value "10000000000") = true
  /\ exists re, Compile (anchored (NumGreaterOrEqual 1000000000)) = inr re
       /\ MatchString re "10000000000" = false.
Proof.
  split; [unfold MAX_THRESHOLD; lia|]. split; [reflexivity|]. split; [reflexivity|].
  eexists. split; [vm_compute; reflexivity|]. vm_compute. reflexivity.
Qed.

(** C1 (amended). For [0 <= n <= 9999999999] the fragment
    [NumGreaterOrEqual n], anchored at both ends, compiles, and it matches a
    decimal numeral [x] without leading zeros exactly when the value of [x]
    is at least [n], provided [x] has at most ten digits or [n] has fewer
    than ten. In particular [NumGreaterOrEqual 0] matches every such numeral,
    ["0"] included, and at a power of ten [n] the numerals of [n - 1] and [n]
    fall on the two sides. *)
Theorem NumGreaterOrEqual_correct (n : Z) (x : gostring)
    (Hn : 0 <= n <= MAX_THRESHOLD)
    (Hx : is_canonical x = true)
    (Hlen : n < 10 ^ 9 \/ (length x <= 10)%nat) :
  exists re, Compile (anchored (NumGreaterOrEqual n)) = inr re
    /\ MatchString re x = (n <=? decimal_value x).
Proof.
  unfold MAX_THRESHOLD in Hn.
  destruct (NumGreaterOrEqual_anchored n ltac:(lia)) as (re & C & M).
  exists re. split; [exact C|]. rewrite M. apply ge_items_spec; [lia|exact Hx|].
  assert (Hs : small n) by (unfold small; lia).
  destruct (Z.lt_ge_cases n (10 ^ 9)) as [Hlt|Hge].
  - left. assert ((length (Itoa n) <= 9)%nat); [|lia].
    apply Itoa_length; [exact Hs|lia|exact Hlt].
  - right. destruct Hlen as [Hlen|Hlen]; [lia|].
    destruct (Nat.le_gt_cases (length (Itoa n)) 9) as [L|L]; [|lia].
    apply Itoa_length in L; [|exact Hs|lia]. change (Z.of_nat 9) with 9 in L. lia.
Qed.

Lemma NumGreaterOrEqual_correct_witness :
  exists re, Compile (anchored (NumGreaterOrEqual 100)) = inr re
    /\ MatchString re "99" = (100 <=? decimal_value "99").
Proof.
  apply (NumGreaterOrEqual_correct 100 "99");
    [unfold MAX_THRESHOLD; lia|reflexivity|right; simpl; lia].
Defined.

(** C2. For [0 <= n <= 9999999999] the fragment [NumLessOrEqual n], anchored
    at both ends, compiles, and it matches a decimal numeral [x] without
    leading zeros exactly when the value of [x] is at most [n]; and
    [NumLessOrEqual 0] matches the string ["0"] only. *)
Theorem NumLessOrEqual_correct (n : Z) (x : gostring)
    (Hn : 0 <= n <= MAX_THRESHOLD)
    (Hx : is_canonical x = true) :
  exists re, Compile (anchored (NumLessOrEqual n)) = inr re
    /\ MatchString re x = (decimal_value x <=? n)
    /\ (n = 0 -> forall s, MatchString re s = true <-> s = "0").
Proof.
  unfold MAX_THRESHOLD in Hn.
  destruct (NumLessOrEqual_anchored n ltac:(lia)) as (re & C & M).
  exists re. split; [exact C|]. split.
  - rewrite M. apply le_items_spec; [lia|exact Hx].
  - intros -> s. rewrite M. change (le_items 0) with (map Chr "0"). apply lang_literal.
Qed.

Lemma NumLessOrEqual_correct_witness :
  exists re, Compile (anchored (NumLessOrEqual 123)) = inr re
    /\ MatchString re "124" = (decimal_value "124" <=? 123)
    /\ (123 = 0 -> forall s, MatchString re s = true <-> s = "0").
Proof.
  apply (NumLessOrEqual_correct 123 "124"); [unfold MAX_THRESHOLD; lia|reflexivity].
Defined.

(** ** Optional groups and the version suffix *)

Lemma iter_at_most_zero f fuel b w rest :
  iter f fuel 0 (Some 0%nat) b w rest = isnil w.
Proof. destruct fuel, w; reflexivity. Qed.

Lemma lang_optional r w :
  lang (Rep r 0 (Some 1%nat)) w = true <-> w = [] \/ lang r w = true.
Proof.
  unfold lang. cbn [matches]. rewrite Nat.add_0_r.
  destruct w as [|c w]; [simpl; tauto|].
  cbn [length iter Nat.eqb andb isnil]. rewrite existsb_exists. split.
  - intros [[w1 w2] [Hin H]]. apply in_splits in Hin. cbn [fst snd] in H.
    destruct (negb (isnil w1) || (0 <? 0)%nat); [|discriminate].
    destruct (matches r false w1 (w2 ++ [])) eqn:E; [|discriminate].
    cbn [option_map Nat.pred] in H. rewrite iter_at_most_zero in H.
    apply isnil_true in H. subst w2. rewrite app_nil_r in Hin. subst w1. now right.
  - intros [F|H]; [discriminate|]. exists (c :: w, []). split.
    + apply in_splits. now rewrite app_nil_r.
    + cbn [fst snd isnil negb orb app]. rewrite H. cbn [option_map Nat.pred].
      now rewrite iter_at_most_zero.
Qed.

Lemma in_class_TagChar c :
  in_class false
    [("a"%char, "z"%char); ("A"%char, "Z"%char); ("0"%char, "9"%char);
     ("-"%char, "-"%char); ("."%char, "."%char)] c
  = is_tag_char c.
Proof.
  unfold in_class, is_tag_char, is_digit. cbn [existsb fst snd xorb].
  rewrite !eqb_byte_val.
  change (byte_val "a") with 97. change (byte_val "z") with 122.
  change (byte_val "A") with 65. change (byte_val "Z") with 90.
  change (byte_val "0") with 48. change (byte_val "9") with 57.
  change (byte_val "-") with 45. change (byte_val ".") with 46.
  rewrite orb_false_r.
  replace ((45 <=? byte_val c) && (byte_val c <=? 45)) with (byte_val c =? 45)
    by (destruct (Z.eqb_spec (byte_val c) 45), (Z.leb_spec 45 (byte_val c)),
          (Z.leb_spec (byte_val c) 45); simpl; try reflexivity; lia).
  replace ((46 <=? byte_val c) && (byte_val c <=? 46)) with (byte_val c =? 46)
    by (destruct (Z.eqb_spec (byte_val c) 46), (Z.leb_spec 46 (byte_val c)),
          (Z.leb_spec (byte_val c) 46); simpl; try reflexivity; lia).
  now rewrite !orb_assoc.
Qed.

Lemma lang_tag lead w :
  lang (mkAlt [mkCat [Chr lead; Rep TagChar 1 None]]) w = is_tag lead w.
Proof.
  rewrite lang_mkAlt. cbn [existsb]. rewrite orb_false_r.
  apply eq_true_iff_eq. rewrite lang_mkCat_cons by (repeat constructor).
  unfold is_tag. split.
  - intros (w1 & w2 & -> & H1 & H2). apply lang_Chr in H1. subst w1.
    rewrite lang_mkCat_single in H2 by exact I. unfold TagChar in H2.
    apply lang_Rep_class in H2 as (L1 & _ & L3). cbn [app].
    rewrite (forallb_same _ _ w2 in_class_TagChar) in L3.
    rewrite Ascii.eqb_refl. destruct w2; [simpl in L1; lia|]. cbn [isnil negb andb].
    exact L3.
  - destruct w as [|c t]; [discriminate|]. intros H.
    apply andb_true_iff in H as [H H3]. apply andb_true_iff in H as [H1 H2].
    apply Ascii.eqb_eq in H1. subst c. exists [lead], t. split; [reflexivity|].
    split; [now apply lang_Chr|]. rewrite lang_mkCat_single by exact I.
    unfold TagChar. apply lang_Rep_class. split.
    + destruct t; [discriminate|simpl; lia].
    + split; [exact I|]. now rewrite (forallb_same _ _ t in_class_TagChar).
Qed.

Lemma pure_optional_tag lead : pure (optional_tag lead).
Proof. simpl. tauto. Qed.

Lemma pure_suffix_items : Forall pure suffix_items.
Proof. repeat constructor. Qed.

Lemma lang_optional_tag lead w :
  lang (optional_tag lead) w = isnil w || is_tag lead w.
Proof.
  apply eq_true_iff_eq. unfold optional_tag. rewrite lang_optional, lang_tag.
  rewrite orb_true_iff, isnil_true. reflexivity.
Qed.

(** The suffix pattern accepts exactly the version tails. *)
Lemma lang_suffix_items w : lang (mkCat suffix_items) w = is_suffix w.
Proof.
  apply eq_true_iff_eq. unfold suffix_items, is_suffix.
  rewrite lang_mkCat_cons
    by first [apply pure_optional_tag
             |constructor; [apply pure_optional_tag|constructor]].
  rewrite existsb_exists. split.
  - intros (w1 & w2 & -> & H1 & H2). exists (w1, w2). split; [now apply in_splits|].
    cbn [fst snd]. rewrite lang_mkCat_single in H2 by apply pure_optional_tag.
    rewrite lang_optional_tag in H1, H2. now rewrite H1, H2.
  - intros [[w1 w2] [Hin H]]. apply in_splits in Hin. cbn [fst snd] in H.
    apply andb_true_iff in H as [H1 H2]. exists w1, w2. split; [exact Hin|].
    rewrite lang_mkCat_single by apply pure_optional_tag. now rewrite !lang_optional_tag.
Qed.

(** A string that is empty or begins with a character other than a digit. *)
Definition nodigit_head (w : gostring) : Prop :=
  match w with
  | [] => True
  | c :: _ => is_digit c = false
  end.

Lemma is_tag_head lead w : is_digit lead = false -> is_tag lead w = true -> nodigit_head w.
Proof.
  intros Hl. destruct w as [|c t]; [discriminate|]. simpl. intros H.
  apply andb_true_iff in H as [H _]. apply andb_true_iff in H as [H _].
  apply Ascii.eqb_eq in H. now subst.
Qed.

Lemma is_suffix_head w : is_suffix w = true -> nodigit_head w.
Proof.
  unfold is_suffix. rewrite existsb_exists. intros [[w1 w2] [Hin H]].
  apply in_splits in Hin. subst. cbn [fst snd] in H.
  apply andb_true_iff in H as [H1 H2]. apply orb_true_iff in H1, H2.
  destruct H1 as [H1|H1].
  - apply isnil_true in H1. subst. cbn [app]. destruct H2 as [H2|H2].
    + apply isnil_true in H2. now subst.
    + revert H2. now apply is_tag_head.
  - assert (H := is_tag_head "-" w1 eq_refl H1).
    destruct w1; [discriminate H1|]. exact H.
Qed.

Lemma is_suffix_nil : is_suffix [] = true.
Proof. reflexivity. Qed.

(** ** Splitting a text at its first character that is not a digit *)

Lemma digits_prefix_unique a a' r r' :
  all_digits a -> all_digits a' -> nodigit_head r -> nodigit_head r' ->
  a ++ r = a' ++ r' -> a = a' /\ r = r'.
Proof.
  revert a'. induction a as [|c a IH]; intros a' Ha Ha' Hr Hr' E.
  - destruct a' as [|c' a']; [now split|]. cbn [app] in E. subst r.
    apply all_digits_cons in Ha' as [Hc _]. simpl in Hr. congruence.
  - apply all_digits_cons in Ha as [Hc Ha]. destruct a' as [|c' a'].
    + cbn [app] in E. subst r'. simpl in Hr'. congruence.
    + apply all_digits_cons in Ha' as [Hc' Ha']. cbn [app] in E. inversion E; subst.
      destruct (IH a' Ha Ha' Hr Hr' ltac:(assumption)) as [-> ->]. now split.
Qed.

Lemma digits_value_inj a b :
  all_digits a -> all_digits b -> length a = length b ->
  decimal_value a = decimal_value b -> a = b.
Proof.
  revert b. induction a as [|c a IH]; intros b Ha Hb Hl Hv.
  - destruct b; [reflexivity|discriminate].
  - destruct b as [|c' b]; [discriminate|]. cbn [length] in Hl.
    apply all_digits_cons in Ha as [Hc Ha]. apply all_digits_cons in Hb as [Hc' Hb].
    rewrite !decimal_value_cons in Hv.
    assert (Hl' : length a = length b) by lia. rewrite Hl' in Hv.
    pose proof (decimal_value_bound a Ha) as Ba. rewrite Hl' in Ba.
    pose proof (decimal_value_bound b Hb) as Bb.
    apply is_digit_spec in Hc, Hc'.
    assert (byte_val c = byte_val c') by nia.
    assert (c = c') by now apply byte_val_inj. subst c'.
    f_equal. apply IH; try assumption. lia.
Qed.

(** Numerals without leading zeros are determined by their value. *)
Lemma canonical_inj a b :
  is_canonical a = true -> is_canonical b = true ->
  decimal_value a = decimal_value b -> a = b.
Proof.
  intros Ha Hb Hv.
  apply digits_value_inj; try (now apply is_canonical_digits); [|exact Hv].
  pose proof (is_canonical_nonempty a Ha). pose proof (is_canonical_nonempty b Hb).
  assert (La : (1 <= length a)%nat) by (destruct a; [congruence|simpl; lia]).
  assert (Lb : (1 <= length b)%nat) by (destruct b; [congruence|simpl; lia]).
  apply Nat.le_antisymm.
  - apply (canonical_length_value a (length b) Ha Lb). rewrite Hv.
    now apply (canonical_length_value b (length b) Hb Lb).
  - apply (canonical_length_value b (length a) Hb La). rewrite <- Hv.
    now apply (canonical_length_value a (length a) Ha La).
Qed.

Lemma canonical_is_Itoa x n :
  is_canonical x = true -> small n -> (x = Itoa n <-> decimal_value x = n).
Proof.
  intros Hx Hn. split.
  - intros ->. now apply Itoa_value.
  - intros <-. apply canonical_inj; [exact Hx|now apply Itoa_canonical|].
    symmetry. now apply Itoa_value.
Qed.

(** ** Clauses of the form [A\.B\.C] followed by the suffix *)

Definition digits_only (items : list regex) : Prop :=
  forall w, lang (mkCat items) w = true -> all_digits w.

Definition Dot : regex := Chr ".".
Definition Digits : regex := Rep Digit 1 None.

Lemma lang_Dot w : lang (mkCat [Dot]) w = true <-> w = ".".
Proof. apply (lang_literal "."). Qed.

Lemma nodigit_dot r : nodigit_head ("." ++ r).
Proof. reflexivity. Qed.

Lemma dotted_app xs ys zs sfx :
  dotted xs ys zs ++ sfx = xs ++ "." ++ ys ++ "." ++ zs ++ sfx.
Proof.
  unfold dotted. rewrite <- app_assoc. f_equal. cbn [app]. f_equal.
  rewrite <- app_assoc. reflexivity.
Qed.

Lemma lang_clause A B C T xs ys zs sfx :
  Forall pure A -> Forall pure B -> Forall pure C -> Forall pure T ->
  digits_only A -> digits_only B -> digits_only C ->
  (forall w, lang (mkCat T) w = true -> nodigit_head w) ->
  all_digits xs -> all_digits ys -> all_digits zs -> nodigit_head sfx ->
  lang (mkCat (A ++ [Dot] ++ B ++ [Dot] ++ C ++ T)) (dotted xs ys zs ++ sfx)
  = lang (mkCat A) xs && lang (mkCat B) ys && lang (mkCat C) zs && lang (mkCat T) sfx.
Proof.
  intros PA PB PC PT DA DB DC DT Hx Hy Hz Hs.
  assert (PD : Forall pure [Dot]) by (constructor; [exact I|constructor]).
  assert (P4 : Forall pure (C ++ T)) by (apply Forall_app; auto).
  assert (P3 : Forall pure ([Dot] ++ C ++ T)) by (apply Forall_app; auto).
  assert (P2 : Forall pure (B ++ [Dot] ++ C ++ T)) by (apply Forall_app; auto).
  assert (P1 : Forall pure ([Dot] ++ B ++ [Dot] ++ C ++ T)) by (apply Forall_app; auto).
  rewrite dotted_app.
  apply eq_true_iff_eq. rewrite !andb_true_iff.
  rewrite (lang_mkCat_app A _ _ PA P1).
  split.
  - intros (a & r1 & E1 & Ha & H).
    apply (lang_mkCat_app [Dot] _ _ PD P2) in H as (d1 & r2 & -> & Hd1 & H).
    apply lang_Dot in Hd1. subst d1.
    apply (lang_mkCat_app B _ _ PB P3) in H as (b & r3 & -> & Hb & H).
    apply (lang_mkCat_app [Dot] _ _ PD P4) in H as (d2 & r4 & -> & Hd2 & H).
    apply lang_Dot in Hd2. subst d2.
    apply (lang_mkCat_app C _ _ PC PT) in H as (c & t & -> & Hc & Ht).
    destruct (digits_prefix_unique xs a _ _ Hx (DA _ Ha) (nodigit_dot _) (nodigit_dot _) E1)
      as [-> E2].
    apply app_inv_head in E2.
    destruct (digits_prefix_unique ys b _ _ Hy (DB _ Hb) (nodigit_dot _) (nodigit_dot _) E2)
      as [-> E4].
    apply app_inv_head in E4.
    destruct (digits_prefix_unique zs c _ _ Hz (DC _ Hc) Hs (DT _ Ht) E4) as [-> ->].
    auto.
  - intros [[[Ha Hb] Hc] Ht]. exists xs, ("." ++ ys ++ "." ++ zs ++ sfx). 
    split; [reflexivity|].
    split; [exact Ha|].
    apply (lang_mkCat_app [Dot] _ _ PD P2).
    exists ".", (ys ++ "." ++ zs ++ sfx). split; [reflexivity|].
    split; [now apply lang_Dot|].
    apply (lang_mkCat_app B _ _ PB P3).
    exists ys, ("." ++ zs ++ sfx). split; [reflexivity|]. split; [exact Hb|].
    apply (lang_mkCat_app [Dot] _ _ PD P4).
    exists ".", (zs ++ sfx). split; [reflexivity|]. split; [now apply lang_Dot|].
    apply (lang_mkCat_app C _ _ PC PT). now exists zs, sfx.
Qed.

(** A group of alternatives followed by more items: some alternative,
    followed by those items, accepts the text. *)
Lemma lang_group_then cls T w :
  Forall (Forall pure) cls -> Forall pure T ->
  lang (mkCat ([mkAlt (map mkCat cls)] ++ T)) w
  = existsb (fun cl => lang (mkCat (cl ++ T)) w) cls.
Proof.
  intros Pc PT.
  assert (PA : pure (mkAlt (map mkCat cls))).
  { apply pure_mkAlt. apply Forall_forall. intros r Hr.
    apply in_map_iff in Hr as (cl & <- & Hin). apply pure_mkCat.
    rewrite Forall_forall in Pc. now apply Pc. }
  apply eq_true_iff_eq. cbn [app]. rewrite lang_mkCat_cons by assumption.
  rewrite existsb_exists. split.
  - intros (w1 & w2 & -> & H1 & H2). rewrite lang_mkAlt_mkCat in H1.
    unfold accepts in H1. apply existsb_exists in H1 as (cl & Hin & Hcl).
    exists cl. split; [exact Hin|]. apply lang_mkCat_app; [|exact PT|now exists w1, w2].
    rewrite Forall_forall in Pc. now apply Pc.
  - intros (cl & Hin & H).
    assert (Pcl : Forall pure cl) by (rewrite Forall_forall in Pc; now apply Pc).
    apply lang_mkCat_app in H as (w1 & w2 & -> & H1 & H2); [|assumption..].
    exists w1, w2. split; [reflexivity|]. split; [|exact H2].
    rewrite lang_mkAlt_mkCat. unfold accepts. apply existsb_exists. now exists cl.
Qed.

Lemma digits_only_literal s : all_digits s -> digits_only (map Chr s).
Proof. intros H w Hw. apply lang_literal in Hw. now subst. Qed.

Lemma digits_only_Digits : digits_only [Digits].
Proof.
  intros w H. rewrite lang_mkCat_single in H by exact I.
  now apply lang_Rep_Digit in H as (_ & _ & H).
Qed.

Lemma digits_only_ge n : n <= 10 ^ 10 -> digits_only (ge_items n).
Proof. intros H w Hw. now apply (ge_items_digits n w H) in Hw as [Hw _]. Qed.

Lemma digits_only_le n : 0 <= n <= 10 ^ 10 -> digits_only (le_items n).
Proof. intros H w Hw. now apply (le_items_digits n w H) in Hw as [Hw _]. Qed.

Lemma lang_Digits w : lang (mkCat [Digits]) w = true <-> all_digits w /\ w <> [].
Proof.
  rewrite lang_mkCat_single by exact I. unfold Digits. rewrite lang_Rep_Digit. split.
  - intros (H1 & _ & H3). split; [exact H3|]. intros ->. simpl in H1. lia.
  - intros [H1 H2]. destruct w; [congruence|]. simpl. repeat split; [lia|exact H1].
Qed.

Lemma lang_Digits_canonical w : is_canonical w = true -> lang (mkCat [Digits]) w = true.
Proof.
  intros H. apply lang_Digits. split; [now apply is_canonical_digits|].
  now apply is_canonical_nonempty.
Qed.

Lemma suffix_tail w : lang (mkCat suffix_items) w = true -> nodigit_head w.
Proof. rewrite lang_suffix_items. apply is_suffix_head. Qed.

(** ** Reading back a version literal *)

Lemma HasPrefix_char c s x : strings.HasPrefix (c :: s) [x] = Ascii.eqb c x.
Proof. simpl. apply andb_true_r. Qed.

Lemma Index_absent s x : ~ In x s -> strings.Index s [x] = -1.
Proof.
  induction s as [|c s IH]; intros H; [reflexivity|].
  cbn [strings.Index]. rewrite HasPrefix_char.
  destruct (Ascii.eqb_spec c x) as [->|N]; [exfalso; apply H; now left|].
  rewrite IH by (intros Hin; apply H; now right). reflexivity.
Qed.

Lemma digits_exclude s x : all_digits s -> is_digit x = false -> ~ In x s.
Proof.
  intros Hs Hx Hin. unfold all_digits in Hs. rewrite forallb_forall in Hs.
  specialize (Hs x Hin). congruence.
Qed.

Lemma split_byte_absent sep a : ~ In sep a -> strings.split_byte sep a = [a].
Proof.
  induction a as [|c a IH]; intros H; [reflexivity|].
  cbn [strings.split_byte]. destruct (Ascii.eqb_spec c sep) as [->|N].
  - exfalso. apply H. now left.
  - rewrite IH by (intros Hin; apply H; now right). reflexivity.
Qed.

Lemma split_byte_app sep a b :
  ~ In sep a -> strings.split_byte sep (a ++ sep :: b) = a :: strings.split_byte sep b.
Proof.
  induction a as [|c a IH]; intros H.
  - cbn [app strings.split_byte]. now rewrite Ascii.eqb_refl.
  - cbn [app strings.split_byte]. destruct (Ascii.eqb_spec c sep) as [->|N].
    + exfalso. apply H. now left.
    + rewrite IH by (intros Hin; apply H; now right). reflexivity.
Qed.

Lemma version_parts_dotted xs ys zs :
  all_digits xs -> all_digits ys -> all_digits zs ->
  version_parts (dotted xs ys zs) = [xs; ys; zs].
Proof.
  intros Hx Hy Hz. unfold version_parts.
  assert (A : forall x, is_digit x = false -> x <> "."%char -> ~ In x (dotted xs ys zs)).
  { intros x Hd Hdot Hin. unfold dotted in Hin.
    apply in_app_or in Hin as [Hin|Hin]; [now apply (digits_exclude xs x)|].
    cbn [app In] in Hin. destruct Hin as [E|Hin]; [congruence|].
    apply in_app_or in Hin as [Hin|Hin]; [now apply (digits_exclude ys x)|].
    cbn [app In] in Hin. destruct Hin as [E|Hin]; [congruence|].
    now apply (digits_exclude zs x). }
  rewrite (Index_absent _ "-") by (apply A; [reflexivity|discriminate]).
  change (negb (-1 =? -1)) with false. cbv iota.
  rewrite (Index_absent _ "+") by (apply A; [reflexivity|discriminate]).
  change (negb (-1 =? -1)) with false. cbv iota.
  unfold strings.Split, dotted. cbn [app].
  rewrite split_byte_app by (now apply digits_exclude).
  rewrite split_byte_app by (now apply digits_exclude).
  rewrite split_byte_absent by (now apply digits_exclude). reflexivity.
Qed.

Definition fits_int (n : Z) : Prop := 0 <= n <= MaxInt64.

Lemma Atoi_unsigned c r :
  is_digit c = true ->
  Atoi (c :: r)
  = if forallb is_digit (c :: r)
    then (clamp64 (decimal_value (c :: r)), in_int64 (decimal_value (c :: r)))
    else if 2 ^ 64 <=? decimal_value (leading_digits (c :: r))
         then (MaxInt64, false) else (0, false).
Proof.
  intros Hc. apply digit_cases in Hc. simpl in Hc.
  repeat (destruct Hc as [<-|Hc]; [reflexivity|]). destruct Hc.
Qed.

Lemma Atoi_digits s :
  all_digits s -> s <> [] -> fits_int (decimal_value s) ->
  Atoi s = (decimal_value s, true).
Proof.
  intros Hd Hne Hv. destruct s as [|c r]; [congruence|].
  assert (Hc : is_digit c = true) by (now apply all_digits_cons in Hd).
  rewrite Atoi_unsigned by exact Hc. unfold all_digits in Hd. rewrite Hd.
  unfold fits_int, MaxInt64 in Hv. unfold in_int64, clamp64, MinInt64, MaxInt64.
  f_equal; [lia|]. apply andb_true_iff. rewrite !Z.leb_le. lia.
Qed.

Lemma Atoi_Itoa n : fits_int n -> Atoi (Itoa n) = (n, true).
Proof.
  intros H. assert (Hs : small n) by (unfold fits_int, MaxInt64, small in *; lia).
  rewrite Atoi_digits.
  - now rewrite Itoa_value.
  - apply Itoa_all_digits. apply H.
  - now apply Itoa_nonempty.
  - now rewrite Itoa_value.
Qed.

Lemma parseVersionParts_ver major minor patch :
  fits_int major -> fits_int minor -> fits_int patch ->
  parseVersionParts (ver major minor patch) = Ok (major, minor, patch).
Proof.
  intros H1 H2 H3. unfold parseVersionParts, ver.
  rewrite version_parts_dotted by (apply Itoa_all_digits; apply H1 || apply H2 || apply H3).
  cbn [length Nat.leb nth]. rewrite !Atoi_Itoa by assumption. reflexivity.
Qed.

Lemma dec_Itoa n : dec n = Itoa n.
Proof. unfold dec. cbn. apply app_nil_r. Qed.

Lemma wrap64_small z : MinInt64 <= z <= MaxInt64 -> wrap64 z = z.
Proof.
  unfold wrap64, MinInt64, MaxInt64. intros H. rewrite Z.mod_small; lia.
Qed.

(** ** Reading back a constraint *)

(** Printable ASCII other than the space: no white-space encoding begins or
    ends with such a byte. *)
Definition plain (c : ascii) : bool := (33 <=? byte_val c) && (byte_val c <=? 127).

Lemma find_none_intro {A} (f : A -> bool) (l : list A) :
  (forall x, In x l -> f x = false) -> find f l = None.
Proof.
  induction l as [|a l IH]; intros H; [reflexivity|]. simpl.
  rewrite (H a) by now left. apply IH. intros x Hx. apply H. now right.
Qed.

Lemma plain_neq c e : plain c = true -> plain e = false -> Ascii.eqb c e = false.
Proof.
  intros Hc He. destruct (Ascii.eqb_spec c e) as [->|N]; [congruence|reflexivity].
Qed.

Lemma space_encodings_heads :
  forallb (fun e => match e with e1 :: _ => negb (plain e1) | [] => false end)
    strings.space_encodings = true.
Proof. vm_compute. reflexivity. Qed.

Lemma space_encodings_lasts :
  forallb (fun e => match rev e with e1 :: _ => negb (plain e1) | [] => false end)
    strings.space_encodings = true.
Proof. vm_compute. reflexivity. Qed.

Lemma leading_space_plain c r : plain c = true -> strings.leading_space (c :: r) = O.
Proof.
  intros Hc. unfold strings.leading_space. rewrite find_none_intro; [reflexivity|].
  intros e He. pose proof space_encodings_heads as H. rewrite forallb_forall in H.
  specialize (H e He). destruct e as [|e1 e']; [discriminate|].
  apply negb_true_iff in H. cbn [strings.HasPrefix]. now rewrite (plain_neq c e1).
Qed.

Lemma trailing_space_plain r d : plain d = true -> strings.trailing_space (r ++ [d]) = O.
Proof.
  intros Hd. unfold strings.trailing_space. rewrite find_none_intro; [reflexivity|].
  intros e He. pose proof space_encodings_lasts as H. rewrite forallb_forall in H.
  specialize (H e He). unfold strings.HasSuffix. rewrite rev_app_distr. cbn [rev app].
  destruct (rev e) as [|e1 e']; [discriminate|].
  apply negb_true_iff in H. cbn [strings.HasPrefix]. now rewrite (plain_neq d e1).
Qed.

Lemma TrimSpace_plain c r r' d :
  c :: r = r' ++ [d] -> plain c = true -> plain d = true ->
  strings.TrimSpace (c :: r) = c :: r.
Proof.
  intros E Hc Hd. unfold strings.TrimSpace.
  assert (L : strings.trim_left (length (c :: r)) (c :: r) = c :: r).
  { cbn [length strings.trim_left]. now rewrite leading_space_plain. }
  rewrite L. cbn [length strings.trim_right].
  rewrite E at 1. now rewrite trailing_space_plain.
Qed.

Lemma digit_plain c : is_digit c = true -> plain c = true.
Proof.
  intros H. apply is_digit_spec in H. unfold plain. apply andb_true_iff.
  rewrite !Z.leb_le. lia.
Qed.

Lemma last_digit zs : all_digits zs -> zs <> [] -> is_digit (last zs zero) = true.
Proof.
  intros H Hne. unfold all_digits in H. rewrite forallb_forall in H. apply H.
  destruct (exists_last Hne) as (l & a & ->). rewrite last_last. apply in_or_app.
  right. now left.
Qed.

(** A text that begins with a plain character and ends with digits is left
    alone by [TrimSpace]. *)
Lemma TrimSpace_ends_digits c a zs :
  plain c = true -> all_digits zs -> zs <> [] ->
  strings.TrimSpace (c :: a ++ zs) = c :: a ++ zs.
Proof.
  intros Hc Hz Hne.
  apply (TrimSpace_plain c (a ++ zs) (c :: a ++ removelast zs) (last zs zero)).
  - cbn [app]. f_equal. rewrite <- app_assoc. f_equal.
    now apply app_removelast_last.
  - exact Hc.
  - apply digit_plain. now apply last_digit.
Qed.

Lemma TrimSpace_operator o op w zs :
  plain o = true -> all_digits zs -> zs <> [] ->
  strings.TrimSpace ((o :: op) ++ w ++ zs) = (o :: op) ++ w ++ zs.
Proof.
  intros Ho Hz Nz. cbn [app]. rewrite app_assoc. now apply TrimSpace_ends_digits.
Qed.

Definition numeric_literal (v : gostring) : Prop :=
  exists xs ys zs, v = dotted xs ys zs
    /\ all_digits xs /\ all_digits ys /\ all_digits zs /\ xs <> [] /\ zs <> [].

Lemma numeric_literal_ver major minor patch :
  0 <= major -> 0 <= minor -> 0 <= patch -> small major -> small patch ->
  numeric_literal (ver major minor patch).
Proof.
  intros H1 H2 H3 S1 S3. exists (Itoa major), (Itoa minor), (Itoa patch).
  split; [reflexivity|]. repeat split; try (now apply Itoa_all_digits);
    now apply Itoa_nonempty.
Qed.

Lemma numeric_literal_shape v :
  numeric_literal v ->
  exists c a zs, v = c :: a ++ zs /\ is_digit c = true /\ all_digits zs /\ zs <> [].
Proof.
  intros (xs & ys & zs & -> & Hx & Hy & Hz & Nx & Nz).
  destruct xs as [|c xs']; [congruence|]. apply all_digits_cons in Hx as [Hc _].
  exists c, (xs' ++ "." ++ ys ++ "."), zs. split.
  - unfold dotted. cbn [app]. f_equal. rewrite <- app_assoc. f_equal.
    cbn [app]. f_equal. rewrite <- app_assoc. reflexivity.
  - auto.
Qed.

(** The operators that compare or bound a numeric version. *)
Definition numeric_operators : list gostring :=
  [OP_EQUAL_EQUAL; OP_EQUAL; OP_GREATER_EQUAL; OP_LESS_EQUAL; OP_GREATER; OP_LESS;
   OP_CARET; OP_TILDE; OP_PESSIMISTIC; OP_COMPATIBLE].

Lemma TrimSpace_numeric v : numeric_literal v -> strings.TrimSpace v = v.
Proof.
  intros H. apply numeric_literal_shape in H as (c & a & zs & -> & Hc & Hz & Nz).
  apply TrimSpace_ends_digits; [now apply digit_plain|exact Hz|exact Nz].
Qed.

Lemma parseVersionConstraint_numeric op v :
  In op numeric_operators -> numeric_literal v ->
  parseVersionConstraint (op ++ v) = Ok (mkConstraint op v).
Proof.
  intros Hop Hv. pose proof (TrimSpace_numeric v Hv) as Tv.
  apply numeric_literal_shape in Hv as (c & a & zs & E & Hc & Hz & Nz).
  unfold parseVersionConstraint.
  assert (T : strings.TrimSpace (op ++ v) = op ++ v).
  { subst v.
    cbv [numeric_operators OP_EQUAL_EQUAL OP_EQUAL OP_GREATER_EQUAL OP_LESS_EQUAL OP_GREATER
         OP_LESS OP_CARET OP_TILDE OP_PESSIMISTIC OP_COMPATIBLE In] in Hop.
    repeat (destruct Hop as [<-|Hop];
            [refine (TrimSpace_operator _ _ (c :: a) zs _ Hz Nz); reflexivity|]).
    destruct Hop. }
  rewrite T. clear T.
  assert (F : strings.HasPrefix (op ++ v) "[" || strings.HasPrefix (op ++ v) "(" = false
              /\ find (strings.HasPrefix (op ++ v)) operators = Some op
              /\ skipn (length op) (op ++ v) = v).
  { rewrite E. apply digit_cases in Hc. unfold numeric_operators in Hop.
    simpl in Hop, Hc.
    repeat (destruct Hop as [<-|Hop];
            [repeat (destruct Hc as [<-|Hc]; [repeat split; reflexivity|]); destruct Hc|]).
    destruct Hop. }
  destruct F as (F1 & F2 & F3). rewrite F1, F2, F3, Tv. reflexivity.
Qed.

(** ** Version patterns: clauses, the alternation of clauses, the suffix *)

Definition clause (A B C : list regex) : list regex := A ++ [Dot] ++ B ++ [Dot] ++ C.

Lemma pure_clause A B C :
  Forall pure A -> Forall pure B -> Forall pure C -> Forall pure (clause A B C).
Proof.
  intros PA PB PC. unfold clause.
  apply Forall_app. split; [exact PA|]. apply Forall_app. split; [repeat constructor|].
  apply Forall_app. split; [exact PB|]. apply Forall_app. split; [repeat constructor|exact PC].
Qed.

Lemma pushes_clause la FA FB FC A B C :
  pushes la FA A -> pushes la FB B -> pushes la FC C ->
  pushes la (FA ++ VERSION_DOT ++ FB ++ VERSION_DOT ++ FC) (clause A B C).
Proof.
  intros HA HB HC. unfold clause.
  apply pushes_app; [exact HA|]. apply pushes_app; [apply pushes_VERSION_DOT|].
  apply pushes_app; [exact HB|]. apply pushes_app; [apply pushes_VERSION_DOT|exact HC].
Qed.

Lemma clause_then A B C T : clause A B C ++ T = A ++ [Dot] ++ B ++ [Dot] ++ C ++ T.
Proof.
  unfold clause. rewrite <- app_assoc. f_equal. cbn [app]. f_equal.
  rewrite <- app_assoc. f_equal.
Qed.

(** A clause followed by the suffix accepts a version string when its three
    parts accept the three numerals and the rest is a version tail. *)
Lemma lang_clause_suffix A B C xs ys zs sfx :
  Forall pure A -> Forall pure B -> Forall pure C ->
  digits_only A -> digits_only B -> digits_only C ->
  all_digits xs -> all_digits ys -> all_digits zs -> nodigit_head sfx ->
  lang (mkCat (clause A B C ++ suffix_items)) (dotted xs ys zs ++ sfx)
  = lang (mkCat A) xs && lang (mkCat B) ys && lang (mkCat C) zs && is_suffix sfx.
Proof.
  intros. rewrite clause_then, <- lang_suffix_items.
  apply lang_clause; try assumption; [apply pure_suffix_items|apply suffix_tail].
Qed.

Lemma anchored_app a b : anchored (a ++ b) = "^" ++ a ++ b ++ "$".
Proof. unfold anchored. now rewrite <- app_assoc. Qed.

Lemma bounded_shape ps :
  bounded ps = anchored ("(?:" ++ strings.Join ps "|" ++ ")" ++ VERSION_SUFFIX_PATTERN).
Proof.
  unfold bounded. rewrite anchored_app. unfold REGEX_START, REGEX_OR, REGEX_END.
  f_equal. f_equal. rewrite <- app_assoc. reflexivity.
Qed.

Lemma pushes_bounded_body la ps cls :
  Forall2 (pushes la) ps cls -> ps <> [] ->
  pushes la ("(?:" ++ strings.Join ps "|" ++ ")" ++ VERSION_SUFFIX_PATTERN)
    ([mkAlt (map mkCat cls)] ++ suffix_items).
Proof.
  intros H Hne.
  replace ("(?:" ++ strings.Join ps "|" ++ ")" ++ VERSION_SUFFIX_PATTERN)
    with (("(?:" ++ strings.Join ps "|" ++ ")") ++ VERSION_SUFFIX_PATTERN).
  - apply pushes_app; [now apply pushes_group|apply pushes_VERSION_SUFFIX_PATTERN].
  - rewrite <- app_assoc. f_equal. rewrite <- app_assoc. reflexivity.
Qed.

Lemma pure_group_suffix cls :
  Forall (Forall pure) cls -> Forall pure ([mkAlt (map mkCat cls)] ++ suffix_items).
Proof.
  intros H. apply Forall_app. split; [|apply pure_suffix_items].
  constructor; [|constructor]. apply pure_mkAlt. apply Forall_forall. intros r Hr.
  apply in_map_iff in Hr as (cl & <- & Hin). apply pure_mkCat.
  rewrite Forall_forall in H. now apply H.
Qed.

(** What a compiled alternation of clauses matches. *)
Lemma bounded_match la ps cls :
  Forall2 (pushes la) ps cls -> ps <> [] -> Forall (Forall pure) cls ->
  exists re, compile_with la (bounded ps) = inr re
    /\ forall s, MatchString re s
                 = existsb (fun cl => lang (mkCat (cl ++ suffix_items)) s) cls.
Proof.
  intros H Hne P. rewrite bounded_shape.
  destruct (MatchString_anchored la _ _ (pushes_bounded_body la ps cls H Hne)
              (pure_group_suffix cls P)) as (re & C & M).
  exists re. split; [exact C|]. intros s. rewrite M.
  apply lang_group_then; [exact P|apply pure_suffix_items].
Qed.

(** The patterns of one clause: [^A\.B\.C] followed by the suffix and [$]. *)
Definition version_pattern (FA FB FC : gostring) : gostring :=
  anchored (FA ++ VERSION_DOT ++ FB ++ VERSION_DOT ++ FC ++ VERSION_SUFFIX_PATTERN).

Lemma version_pattern_match la FA FB FC A B C :
  pushes la FA A -> pushes la FB B -> pushes la FC C ->
  Forall pure A -> Forall pure B -> Forall pure C ->
  exists re, compile_with la (version_pattern FA FB FC) = inr re
    /\ forall s, MatchString re s = lang (mkCat (clause A B C ++ suffix_items)) s.
Proof.
  intros HA HB HC PA PB PC. unfold version_pattern.
  apply MatchString_anchored.
  - rewrite clause_then.
    apply pushes_app; [exact HA|]. apply pushes_app; [apply pushes_VERSION_DOT|].
    apply pushes_app; [exact HB|]. apply pushes_app; [apply pushes_VERSION_DOT|].
    apply pushes_app; [exact HC|apply pushes_VERSION_SUFFIX_PATTERN].
  - apply Forall_app. split; [now apply pure_clause|apply pure_suffix_items].
Qed.

(** A literal numeral accepts the numerals of the same value. *)
Lemma lang_numeral n xs :
  small n -> is_canonical xs = true ->
  lang (mkCat (map Chr (Itoa n))) xs = (decimal_value xs =? n).
Proof.
  intros Hn Hx. apply eq_true_iff_eq. rewrite lang_literal, Z.eqb_eq.
  now apply canonical_is_Itoa.
Qed.

Lemma fits_small n : fits_int n -> small n.
Proof. unfold fits_int, MaxInt64, small. lia. Qed.

Lemma version_pattern_unfold FA FB FC :
  version_pattern FA FB FC
  = "^" ++ FA ++ "\." ++ FB ++ "\." ++ FC ++ "(?:-[a-zA-Z0-9\-\.]+)?(?:\+[a-zA-Z0-9\-\.]+)?$".
Proof.
  unfold version_pattern. rewrite anchored_app. f_equal. f_equal.
  rewrite <- (app_assoc VERSION_DOT). f_equal.
  rewrite <- (app_assoc FB). f_equal.
  rewrite <- (app_assoc VERSION_DOT). f_equal.
  rewrite <- (app_assoc FC). reflexivity.
Qed.

Lemma caret_template major :
  fmt.Sprintf CARET_RANGE_TEMPLATE [fmt.Int major]
  = version_pattern (Itoa major) VERSION_DIGITS VERSION_DIGITS.
Proof. rewrite version_pattern_unfold. reflexivity. Qed.

Lemma caret_zero_template minor :
  fmt.Sprintf CARET_RANGE_ZERO_MAJOR_TEMPLATE [fmt.Int minor]
  = version_pattern "0" (Itoa minor) VERSION_DIGITS.
Proof. rewrite version_pattern_unfold. reflexivity. Qed.

Lemma tilde_template major minor :
  fmt.Sprintf TILDE_RANGE_TEMPLATE [fmt.Int major; fmt.Int minor]
  = version_pattern (Itoa major) (Itoa minor) VERSION_DIGITS.
Proof. rewrite version_pattern_unfold. reflexivity. Qed.

(** ** From a constraint to a compiled expression *)

Lemma VersionToRegex_numeric op v pattern re :
  In op numeric_operators -> numeric_literal v ->
  constraintToRegex (mkConstraint op v) = Ok pattern ->
  Compile pattern = inr re ->
  VersionToRegex (op ++ v) = Ok re.
Proof.
  intros Hop Hv Hc Hre. unfold VersionToRegex.
  now rewrite (parseVersionConstraint_numeric op v Hop Hv), Hc, Hre.
Qed.

Lemma VersionMatches_numeric op v pattern re s :
  In op numeric_operators -> numeric_literal v ->
  constraintToRegex (mkConstraint op v) = Ok pattern ->
  Compile pattern = inr re ->
  VersionMatches s (op ++ v) = Ok (MatchString re s).
Proof.
  intros Hop Hv Hc Hre. unfold VersionMatches.
  now rewrite (VersionToRegex_numeric op v pattern re Hop Hv Hc Hre).
Qed.

Definition in_range (n : Z) : Prop := 0 <= n <= MAX_THRESHOLD.

Lemma in_range_fits n : in_range n -> fits_int n.
Proof. unfold in_range, MAX_THRESHOLD, fits_int, MaxInt64. lia. Qed.

Lemma numeric_literal_in_range major minor patch :
  in_range major -> in_range minor -> in_range patch ->
  numeric_literal (ver major minor patch).
Proof.
  unfold in_range, MAX_THRESHOLD. intros H1 H2 H3.
  apply numeric_literal_ver; unfold small; lia.
Qed.

(** ** The operator [>=] *)

Definition ge_clauses (major minor patch : Z) : list (list regex) :=
  [clause (ge_items (major + 1)) [Digits] [Digits];
   clause (map Chr (Itoa major)) (ge_items (minor + 1)) [Digits];
   clause (map Chr (Itoa major)) (map Chr (Itoa minor)) (ge_items patch)].

Definition ge_strings (major minor patch : Z) : list gostring :=
  [NumGreaterOrEqual (major + 1) ++ VERSION_DOT ++ VERSION_DIGITS ++ VERSION_DOT
     ++ VERSION_DIGITS;
   Itoa major ++ VERSION_DOT ++ NumGreaterOrEqual (minor + 1) ++ VERSION_DOT
     ++ VERSION_DIGITS;
   Itoa major ++ VERSION_DOT ++ Itoa minor ++ VERSION_DOT ++ NumGreaterOrEqual patch].

Lemma greaterThanEqualRegex_ver major minor patch :
  in_range major -> in_range minor -> in_range patch ->
  greaterThanEqualRegex (ver major minor patch)
  = Ok (bounded (ge_strings major minor patch)).
Proof.
  intros H1 H2 H3. unfold greaterThanEqualRegex.
  rewrite parseVersionParts_ver by (now apply in_range_fits).
  unfold in_range, MAX_THRESHOLD in *.
  cbn [app]. rewrite !dec_Itoa.
  rewrite !wrap64_small by (unfold MinInt64, MaxInt64; lia). reflexivity.
Qed.

Lemma pushes_ge_clauses la major minor patch :
  in_range major -> in_range minor -> in_range patch ->
  Forall2 (pushes la)
    (ge_strings major minor patch) (ge_clauses major minor patch).
Proof.
  unfold in_range, MAX_THRESHOLD. intros H1 H2 H3.
  repeat constructor; apply pushes_clause;
    try apply pushes_VERSION_DIGITS;
    try (apply pushes_NumGreaterOrEqual; lia);
    apply pushes_digits; apply Itoa_all_digits; lia.
Qed.

Lemma pure_ge_clauses major minor patch : Forall (Forall pure) (ge_clauses major minor patch).
Proof.
  repeat constructor; apply pure_clause;
    try apply pure_ge_items; try apply pure_literal; repeat constructor.
Qed.

Lemma ge_fragment n xs :
  0 <= n <= 10 ^ 10 -> is_canonical xs = true -> (length xs <= 10)%nat ->
  lang (mkCat (ge_items n)) xs = (n <=? decimal_value xs).
Proof.
  intros Hn Hx Hl. apply ge_items_spec; [lia|exact Hx|].
  assert (Hs : small n) by (unfold small; lia).
  destruct (Nat.le_gt_cases (length (Itoa n)) 9) as [L|L]; [left; lia|right; lia].
Qed.

Lemma VersionMatches_ge major minor patch s :
  in_range major -> in_range minor -> in_range patch ->
  VersionMatches s (OP_GREATER_EQUAL ++ ver major minor patch)
  = Ok (existsb (fun cl => lang (mkCat (cl ++ suffix_items)) s)
          (ge_clauses major minor patch)).
Proof.
  intros H1 H2 H3.
  destruct (bounded_match false _ _ (pushes_ge_clauses false major minor patch H1 H2 H3)
              ltac:(discriminate) (pure_ge_clauses major minor patch)) as (re & C & M).
  rewrite (VersionMatches_numeric OP_GREATER_EQUAL (ver major minor patch)
             (bounded (ge_strings major minor patch)) re s).
  - now rewrite M.
  - unfold numeric_operators. simpl. tauto.
  - now apply numeric_literal_in_range.
  - change (constraintToRegex (mkConstraint OP_GREATER_EQUAL (ver major minor patch)))
      with (greaterThanEqualRegex (ver major minor patch)).
    now apply greaterThanEqualRegex_ver.
  - exact C.
Qed.

(** C3, as the spec states it, fails for the same reason as C1: the
    pattern for [>=999999999.0.0] has no alternative for a major of eleven
    digits, so it rejects 10000000000.0.0, a later version. *)
Lemma greaterOrEqual_rejects_eleven_digit_major :
  in_range 999999999 /\ in_range 0
  /\ is_canonical "10000000000" = true /\ is_canonical "0" = true
  /\ version_geb 10000000000 0 0 999999999 0 0 = true
  /\ VersionMatches (dotted "10000000000" "0" "0") (OP_GREATER_EQUAL ++ ver 999999999 0 0)
     = Ok false.
Proof.
  unfold in_range, MAX_THRESHOLD.
  split; [lia|]. split; [lia|]. repeat split; vm_compute; reflexivity.
Qed.

(** C3 (amended). For a version triple with components in
    [0 .. 9999999999], the pattern compiled for [>=major.minor.patch] matches
    a version string [x.y.z], its numerals without leading zeros and of at
    most ten digits each, followed by an optional pre-release and build tag,
    exactly when [x > major], or [x = major] and [y > minor], or
    [x = major], [y = minor] and [z >= patch]. *)
Theorem greaterOrEqual_correct (major minor patch : Z) (xs ys zs sfx : gostring)
    (HM : in_range major) (Hm : in_range minor) (Hp : in_range patch)
    (Hx : is_canonical xs = true) (Hy : is_canonical ys = true) (Hz : is_canonical zs = true)
    (Lx : (length xs <= 10)%nat) (Ly : (length ys <= 10)%nat) (Lz : (length zs <= 10)%nat)
    (Hs : is_suffix sfx = true) :
  VersionMatches (dotted xs ys zs ++ sfx) (OP_GREATER_EQUAL ++ ver major minor patch)
  = Ok (version_geb (decimal_value xs) (decimal_value ys) (decimal_value zs)
          major minor patch).
Proof.
  rewrite VersionMatches_ge by assumption. f_equal.
  pose proof (is_canonical_digits _ Hx) as Dx.
  pose proof (is_canonical_digits _ Hy) as Dy.
  pose proof (is_canonical_digits _ Hz) as Dz.
  pose proof (is_suffix_head _ Hs) as Ns.
  assert (SM : small major) by (now apply fits_small, in_range_fits).
  assert (Sm : small minor) by (now apply fits_small, in_range_fits).
  unfold in_range, MAX_THRESHOLD in *.
  unfold ge_clauses. cbn [existsb].
  rewrite !lang_clause_suffix; try assumption;
    try apply pure_ge_items; try apply pure_literal; try (repeat constructor; fail);
    try apply digits_only_Digits; try (apply digits_only_ge; lia);
    try (apply digits_only_literal; apply Itoa_all_digits; lia).
  rewrite Hs, !(lang_Digits_canonical) by assumption.
  rewrite !lang_numeral by assumption.
  rewrite (ge_fragment (major + 1) xs), (ge_fragment (minor + 1) ys), (ge_fragment patch zs)
    by first [change (10 ^ 10) with 10000000000; lia | assumption].
  unfold version_geb. rewrite !andb_true_r, orb_false_r.
  replace (major + 1 <=? decimal_value xs) with (major <? decimal_value xs)
    by (destruct (Z.ltb_spec major (decimal_value xs)), (Z.leb_spec (major + 1) (decimal_value xs));
        try reflexivity; lia).
  replace (minor + 1 <=? decimal_value ys) with (minor <? decimal_value ys)
    by (destruct (Z.ltb_spec minor (decimal_value ys)), (Z.leb_spec (minor + 1) (decimal_value ys));
        try reflexivity; lia).
  now rewrite orb_assoc.
Qed.

Lemma greaterOrEqual_correct_witness :
  VersionMatches (dotted "1" "2" "4" ++ "") (OP_GREATER_EQUAL ++ ver 1 2 3)
  = Ok (version_geb (decimal_value "1") (decimal_value "2") (decimal_value "4") 1 2 3).
Proof.
  apply (greaterOrEqual_correct 1 2 3 "1" "2" "4" "");
    try (unfold in_range, MAX_THRESHOLD; lia); try reflexivity; simpl; lia.
Defined.

(** ** The caret and tilde operators *)

Lemma lang_clause_suffix_inv A B C s :
  Forall pure A -> Forall pure B -> Forall pure C ->
  lang (mkCat (clause A B C ++ suffix_items)) s = true ->
  exists a b c t, s = dotted a b c ++ t
    /\ lang (mkCat A) a = true /\ lang (mkCat B) b = true /\ lang (mkCat C) c = true
    /\ is_suffix t = true.
Proof.
  intros PA PB PC H. rewrite clause_then in H.
  assert (PT : Forall pure suffix_items) by apply pure_suffix_items.
  assert (PD : Forall pure [Dot]) by (constructor; [exact I|constructor]).
  assert (P4 : Forall pure (C ++ suffix_items)) by (apply Forall_app; auto).
  assert (P3 : Forall pure ([Dot] ++ C ++ suffix_items)) by (apply Forall_app; auto).
  assert (P2 : Forall pure (B ++ [Dot] ++ C ++ suffix_items)) by (apply Forall_app; auto).
  assert (P1 : Forall pure ([Dot] ++ B ++ [Dot] ++ C ++ suffix_items))
    by (apply Forall_app; auto).
  apply (lang_mkCat_app A _ _ PA P1) in H as (a & r1 & -> & Ha & H).
  apply (lang_mkCat_app [Dot] _ _ PD P2) in H as (d1 & r2 & -> & Hd1 & H).
  apply lang_Dot in Hd1. subst d1.
  apply (lang_mkCat_app B _ _ PB P3) in H as (b & r3 & -> & Hb & H).
  apply (lang_mkCat_app [Dot] _ _ PD P4) in H as (d2 & r4 & -> & Hd2 & H).
  apply lang_Dot in Hd2. subst d2.
  apply (lang_mkCat_app C _ _ PC PT) in H as (c & t & -> & Hc & Ht).
  exists a, b, c, t. rewrite dotted_app. rewrite lang_suffix_items in Ht. auto.
Qed.

Lemma caretRangeRegex_ver major minor patch :
  fits_int major -> fits_int minor -> fits_int patch ->
  caretRangeRegex (ver major minor patch)
  = Ok (if major =? 0 then version_pattern (Itoa 0) (Itoa minor) VERSION_DIGITS
        else version_pattern (Itoa major) VERSION_DIGITS VERSION_DIGITS).
Proof.
  intros H1 H2 H3. unfold caretRangeRegex. rewrite parseVersionParts_ver by assumption.
  rewrite caret_template, caret_zero_template. reflexivity.
Qed.

Definition caret_clause (major minor : Z) : list regex :=
  if major =? 0 then clause (map Chr (Itoa 0)) (map Chr (Itoa minor)) [Digits]
  else clause (map Chr (Itoa major)) [Digits] [Digits].

Lemma numeral_fragment la n : 0 <= n -> pushes la (Itoa n) (map Chr (Itoa n)).
Proof. intros H. apply pushes_digits. now apply Itoa_all_digits. Qed.

Lemma numeric_literal_fits major minor patch :
  fits_int major -> fits_int minor -> fits_int patch ->
  numeric_literal (ver major minor patch).
Proof.
  intros H1 H2 H3. apply numeric_literal_ver; try apply fits_small; 
    try assumption; (apply H1 || apply H2 || apply H3).
Qed.

Lemma VersionMatches_caret major minor patch s :
  fits_int major -> fits_int minor -> fits_int patch ->
  VersionMatches s (OP_CARET ++ ver major minor patch)
  = Ok (lang (mkCat (caret_clause major minor ++ suffix_items)) s).
Proof.
  intros H1 H2 H3.
  assert (C : exists re,
             Compile (if major =? 0 then version_pattern (Itoa 0) (Itoa minor) VERSION_DIGITS
                      else version_pattern (Itoa major) VERSION_DIGITS VERSION_DIGITS)
             = inr re
             /\ forall s, MatchString re s
                          = lang (mkCat (caret_clause major minor ++ suffix_items)) s).
  { unfold caret_clause. destruct (major =? 0).
    - apply version_pattern_match;
        try apply pure_literal; try (constructor; [exact I|constructor]);
        try apply pushes_VERSION_DIGITS; apply numeral_fragment; [lia|apply H2].
    - apply version_pattern_match;
        try apply pure_literal; try (constructor; [exact I|constructor]);
        try apply pushes_VERSION_DIGITS; apply numeral_fragment; apply H1. }
  destruct C as (re & C & M).
  rewrite (VersionMatches_numeric OP_CARET (ver major minor patch)
             (if major =? 0 then version_pattern (Itoa 0) (Itoa minor) VERSION_DIGITS
              else version_pattern (Itoa major) VERSION_DIGITS VERSION_DIGITS) re s).
  - now rewrite M.
  - unfold numeric_operators. simpl. tauto.
  - now apply numeric_literal_fits.
  - change (constraintToRegex (mkConstraint OP_CARET (ver major minor patch)))
      with (caretRangeRegex (ver major minor patch)).
    now apply caretRangeRegex_ver.
  - exact C.
Qed.

(** C6. For a caret constraint [^major.minor.patch] with [major > 0], the
    compiled pattern matches a version string [x.y.z] with an optional
    pre-release and build tag exactly when [x = major], whatever [y] and [z];
    for [major = 0], exactly when [x = 0] and [y = minor]. Every text it
    matches is such a version string: the decimal [major] (and, for major 0,
    [minor]), digits for the open parts, and a version tail. *)
Theorem caret_correct (major minor patch : Z) (xs ys zs sfx : gostring)
    (HM : fits_int major) (Hm : fits_int minor) (Hp : fits_int patch)
    (Hx : is_canonical xs = true) (Hy : is_canonical ys = true) (Hz : is_canonical zs = true)
    (Hs : is_suffix sfx = true) :
  VersionMatches (dotted xs ys zs ++ sfx) (OP_CARET ++ ver major minor patch)
  = Ok (if 0 <? major then decimal_value xs =? major
        else (decimal_value xs =? 0) && (decimal_value ys =? minor))
  /\ forall s,
       VersionMatches s (OP_CARET ++ ver major minor patch) = Ok true ->
       exists ys' zs' t,
         s = dotted (Itoa major) ys' zs' ++ t
         /\ all_digits ys' /\ ys' <> [] /\ all_digits zs' /\ zs' <> []
         /\ is_suffix t = true
         /\ (major = 0 -> ys' = Itoa minor).
Proof.
  pose proof (is_canonical_digits _ Hx) as Dx.
  pose proof (is_canonical_digits _ Hy) as Dy.
  pose proof (is_canonical_digits _ Hz) as Dz.
  pose proof (is_suffix_head _ Hs) as Ns.
  assert (S0 : small 0) by (unfold small; lia).
  split.
  - rewrite VersionMatches_caret by assumption. f_equal. unfold caret_clause.
    destruct (Z.eqb_spec major 0) as [->|N].
    + rewrite lang_clause_suffix; try assumption;
        try apply pure_literal; try (constructor; [exact I|constructor]);
        try apply digits_only_Digits;
        try (apply digits_only_literal; apply Itoa_all_digits; (lia || apply Hm)).
      rewrite Hs, (lang_Digits_canonical zs Hz), !lang_numeral
        by (assumption || now apply fits_small).
      cbn [Z.ltb Z.compare]. rewrite !andb_true_r. reflexivity.
    + rewrite lang_clause_suffix; try assumption;
        try apply pure_literal; try (constructor; [exact I|constructor]);
        try apply digits_only_Digits;
        try (apply digits_only_literal; apply Itoa_all_digits; apply HM).
      rewrite Hs, (lang_Digits_canonical zs Hz), (lang_Digits_canonical ys Hy), lang_numeral
        by (assumption || now apply fits_small).
      destruct (Z.ltb_spec 0 major); [rewrite !andb_true_r; reflexivity|].
      unfold fits_int in HM. lia.
  - intros s H. rewrite VersionMatches_caret in H by assumption.
    injection H as H'. unfold caret_clause in H'.
    destruct (Z.eqb_spec major 0) as [->|N].
    + apply lang_clause_suffix_inv in H' as (a & b & c & t & -> & Ha & Hb & Hc & Ht);
        try apply pure_literal; try (constructor; [exact I|constructor]).
      apply lang_literal in Ha, Hb. apply lang_Digits in Hc as [Hc1 Hc2]. subst a b.
      exists (Itoa minor), c, t. split; [reflexivity|].
      split; [apply Itoa_all_digits; apply Hm|].
      split; [apply Itoa_nonempty; now apply fits_small|].
      split; [exact Hc1|]. split; [exact Hc2|]. split; [exact Ht|reflexivity].
    + apply lang_clause_suffix_inv in H' as (a & b & c & t & -> & Ha & Hb & Hc & Ht);
        try apply pure_literal; try (constructor; [exact I|constructor]).
      apply lang_literal in Ha. apply lang_Digits in Hb as [Hb1 Hb2].
      apply lang_Digits in Hc as [Hc1 Hc2]. subst a.
      exists b, c, t. split; [reflexivity|].
      split; [exact Hb1|]. split; [exact Hb2|]. split; [exact Hc1|]. split; [exact Hc2|].
      split; [exact Ht|]. intros E. contradiction.
Qed.

Lemma caret_correct_witness :
  VersionMatches (dotted "1" "9" "9" ++ "-rc.1") (OP_CARET ++ ver 1 2 3)
  = Ok (if 0 <? 1 then decimal_value "1" =? 1
        else (decimal_value "1" =? 0) && (decimal_value "9" =? 2))
  /\ forall s,
       VersionMatches s (OP_CARET ++ ver 1 2 3) = Ok true ->
       exists ys' zs' t,
         s = dotted (Itoa 1) ys' zs' ++ t
         /\ all_digits ys' /\ ys' <> [] /\ all_digits zs' /\ zs' <> []
         /\ is_suffix t = true
         /\ (1 = 0 -> ys' = Itoa 2).
Proof.
  apply (caret_correct 1 2 3 "1" "9" "9" "-rc.1");
    try (unfold fits_int, MaxInt64; lia); reflexivity.
Defined.

(** ** The exact-match pattern of a numeric literal *)

Lemma Index_absent_head s x sub : ~ In x s -> strings.Index s (x :: sub) = -1.
Proof.
  induction s as [|c s IH]; intros H; [reflexivity|].
  cbn [strings.Index strings.HasPrefix].
  destruct (Ascii.eqb_spec c x) as [->|N]; [exfalso; apply H; now left|].
  cbn [andb]. rewrite IH by (intros Hin; apply H; now right). reflexivity.
Qed.

Lemma Contains_absent s x sub : ~ In x s -> strings.Contains s (x :: sub) = false.
Proof. intros H. unfold strings.Contains. now rewrite Index_absent_head. Qed.

Lemma special_digit c : is_digit c = true -> special c = false.
Proof.
  intros H. apply digit_cases in H. cbn [In] in H.
  repeat (destruct H as [<-|H]; [reflexivity|]). contradiction.
Qed.

Lemma QuoteMeta_digits s : all_digits s -> QuoteMeta s = s.
Proof.
  induction s as [|c s IH]; intros H; [reflexivity|].
  apply all_digits_cons in H as [Hc Hs]. unfold QuoteMeta. cbn [flat_map].
  rewrite (special_digit c Hc). cbn [app]. f_equal. now apply IH.
Qed.

Lemma dotted_excludes xs ys zs x :
  all_digits xs -> all_digits ys -> all_digits zs ->
  is_digit x = false -> x <> "."%char -> ~ In x (dotted xs ys zs).
Proof.
  intros Hx Hy Hz Hd Hdot Hin. unfold dotted in Hin.
  apply in_app_or in Hin as [Hin|Hin]; [now apply (digits_exclude xs x)|].
  cbn [app In] in Hin. destruct Hin as [E|Hin]; [congruence|].
  apply in_app_or in Hin as [Hin|Hin]; [now apply (digits_exclude ys x)|].
  cbn [app In] in Hin. destruct Hin as [E|Hin]; [congruence|].
  now apply (digits_exclude zs x).
Qed.

Lemma Split_dotted xs ys zs :
  all_digits xs -> all_digits ys -> all_digits zs ->
  strings.Split (dotted xs ys zs) "." = [xs; ys; zs].
Proof.
  intros Hx Hy Hz. unfold strings.Split, dotted. cbn [app].
  rewrite split_byte_app by (now apply digits_exclude).
  rewrite split_byte_app by (now apply digits_exclude).
  rewrite split_byte_absent by (now apply digits_exclude). reflexivity.
Qed.

Lemma isGoModuleVersion_digit c r : is_digit c = true -> isGoModuleVersion (c :: r) = false.
Proof.
  intros H. unfold isGoModuleVersion. rewrite HasPrefix_char.
  destruct (Ascii.eqb_spec c "v") as [->|N]; [discriminate H|reflexivity].
Qed.

Lemma exactMatchRegex_dotted xs ys zs :
  all_digits xs -> all_digits ys -> all_digits zs -> xs <> [] ->
  exactMatchRegex (dotted xs ys zs) = version_pattern xs ys zs.
Proof.
  intros Hx Hy Hz Nx.
  assert (A : forall x, is_digit x = false -> x <> "."%char -> ~ In x (dotted xs ys zs)).
  { intros x. now apply dotted_excludes. }
  unfold exactMatchRegex.
  rewrite (Contains_absent _ "*" "") by (apply A; [reflexivity|discriminate]).
  assert (G : isGoModuleVersion (dotted xs ys zs) = false).
  { destruct xs as [|c xs']; [congruence|]. apply all_digits_cons in Hx as [Hc _].
    now apply isGoModuleVersion_digit. }
  rewrite G.
  assert (C : isCSharpVersion (dotted xs ys zs) = false).
  { unfold isCSharpVersion, containsCSharpPreRelease. rewrite Split_dotted by assumption.
    rewrite !(Contains_absent _ "-") by (apply A; [reflexivity|discriminate]).
    reflexivity. }
  rewrite C. cbv zeta.
  rewrite (Index_absent _ "+") by (apply A; [reflexivity|discriminate]).
  change (negb (-1 =? -1)) with false. cbv iota.
  rewrite (Index_absent _ "-") by (apply A; [reflexivity|discriminate]).
  change (negb (-1 =? -1)) with false. cbv iota.
  rewrite Split_dotted by assumption.
  change (enumerate [xs; ys; zs]) with [(0, xs); (1, ys); (2, zs)].
  cbn [fold_left isnil negb]. unfold quote_part. cbn [fst snd Z.ltb Z.compare].
  rewrite !QuoteMeta_digits by assumption.
  rewrite version_pattern_unfold. unfold VERSION_DOT, PRE_RELEASE_PATTERN, BUILD_META_PATTERN.
  rewrite <- !app_assoc. reflexivity.
Qed.

(** ** The clauses of the other bounded operators *)

(** The clauses [<=] and [<] share: a smaller major, or the same major and
    a smaller minor; each is there only when such a number exists. *)
Definition lower_strings (major minor : Z) : list gostring :=
  (if 0 <? major
   then [NumLessOrEqual (major - 1) ++ VERSION_DOT ++ VERSION_DIGITS ++ VERSION_DOT
           ++ VERSION_DIGITS]
   else [])
  ++ (if 0 <? minor
      then [Itoa major ++ VERSION_DOT ++ NumLessOrEqual (minor - 1) ++ VERSION_DOT
              ++ VERSION_DIGITS]
      else []).

Definition lower_clauses (major minor : Z) : list (list regex) :=
  (if 0 <? major then [clause (le_items (major - 1)) [Digits] [Digits]] else [])
  ++ (if 0 <? minor then [clause (map Chr (Itoa major)) (le_items (minor - 1)) [Digits]]
      else []).

Definition le_strings (major minor patch : Z) : list gostring :=
  lower_strings major minor
  ++ [Itoa major ++ VERSION_DOT ++ Itoa minor ++ VERSION_DOT ++ NumLessOrEqual patch].

Definition le_clauses (major minor patch : Z) : list (list regex) :=
  lower_clauses major minor
  ++ [clause (map Chr (Itoa major)) (map Chr (Itoa minor)) (le_items patch)].

Definition lt_strings (major minor patch : Z) : list gostring :=
  lower_strings major minor
  ++ (if 0 <? patch
      then [Itoa major ++ VERSION_DOT ++ Itoa minor ++ VERSION_DOT
              ++ NumLessOrEqual (patch - 1)]
      else []).

Definition lt_clauses (major minor patch : Z) : list (list regex) :=
  lower_clauses major minor
  ++ (if 0 <? patch
      then [clause (map Chr (Itoa major)) (map Chr (Itoa minor)) (le_items (patch - 1))]
      else []).

Lemma pushes_lower_clauses la major minor :
  in_range major -> in_range minor ->
  Forall2 (pushes la) (lower_strings major minor) (lower_clauses major minor).
Proof.
  unfold in_range, MAX_THRESHOLD. intros H1 H2. unfold lower_strings, lower_clauses.
  apply Forall2_app.
  - destruct (Z.ltb_spec 0 major) as [L|L]; constructor; [|constructor].
    apply pushes_clause; try apply pushes_VERSION_DIGITS.
    apply pushes_NumLessOrEqual. lia.
  - destruct (Z.ltb_spec 0 minor) as [L|L]; constructor; [|constructor].
    apply pushes_clause; try apply pushes_VERSION_DIGITS.
    + apply numeral_fragment. lia.
    + apply pushes_NumLessOrEqual. lia.
Qed.

Lemma pure_Digits : Forall pure [Digits].
Proof. constructor; [exact I|constructor]. Qed.

Lemma pure_lower_clauses major minor : Forall (Forall pure) (lower_clauses major minor).
Proof.
  unfold lower_clauses. apply Forall_app. split.
  - destruct (0 <? major); constructor; [|constructor].
    apply pure_clause; [apply pure_le_items|apply pure_Digits|apply pure_Digits].
  - destruct (0 <? minor); constructor; [|constructor].
    apply pure_clause; [apply pure_literal|apply pure_le_items|apply pure_Digits].
Qed.

Lemma pushes_le_clauses la major minor patch :
  in_range major -> in_range minor -> in_range patch ->
  Forall2 (pushes la) (le_strings major minor patch) (le_clauses major minor patch).
Proof.
  intros H1 H2 H3. unfold le_strings, le_clauses. apply Forall2_app.
  - now apply pushes_lower_clauses.
  - unfold in_range, MAX_THRESHOLD in *. constructor; [|constructor].
    apply pushes_clause; try (apply numeral_fragment; lia).
    apply pushes_NumLessOrEqual. lia.
Qed.

Lemma pure_le_clauses major minor patch : Forall (Forall pure) (le_clauses major minor patch).
Proof.
  unfold le_clauses. apply Forall_app. split; [apply pure_lower_clauses|].
  constructor; [|constructor].
  apply pure_clause; try apply pure_le_items; apply pure_literal.
Qed.

Lemma pushes_lt_clauses la major minor patch :
  in_range major -> in_range minor -> in_range patch ->
  Forall2 (pushes la) (lt_strings major minor patch) (lt_clauses major minor patch).
Proof.
  intros H1 H2 H3. unfold lt_strings, lt_clauses. apply Forall2_app.
  - now apply pushes_lower_clauses.
  - unfold in_range, MAX_THRESHOLD in *.
    destruct (Z.ltb_spec 0 patch) as [L|L]; constructor; [|constructor].
    apply pushes_clause; try (apply numeral_fragment; lia).
    apply pushes_NumLessOrEqual. lia.
Qed.

Lemma pure_lt_clauses major minor patch : Forall (Forall pure) (lt_clauses major minor patch).
Proof.
  unfold lt_clauses. apply Forall_app. split; [apply pure_lower_clauses|].
  destruct (0 <? patch); constructor; [|constructor].
  apply pure_clause; try apply pure_le_items; apply pure_literal.
Qed.

Lemma lt_strings_nil major minor patch :
  in_range major -> in_range minor -> in_range patch ->
  lt_strings major minor patch = [] <-> major = 0 /\ minor = 0 /\ patch = 0.
Proof.
  unfold in_range. intros H1 H2 H3. unfold lt_strings, lower_strings.
  destruct (Z.ltb_spec 0 major) as [L1|L1], (Z.ltb_spec 0 minor) as [L2|L2],
    (Z.ltb_spec 0 patch) as [L3|L3]; cbn [app];
    (split; [intros E; try discriminate E; lia | intros E; try reflexivity; lia]).
Qed.

Lemma le_strings_cons major minor patch : le_strings major minor patch <> [].
Proof. unfold le_strings. intros E. apply app_eq_nil in E as [_ E]. discriminate E. Qed.

Lemma lessThan_patterns_ver major minor patch :
  in_range major -> in_range minor -> in_range patch ->
  lessThan_patterns major minor patch = lt_strings major minor patch.
Proof.
  unfold in_range, MAX_THRESHOLD. intros H1 H2 H3.
  unfold lessThan_patterns, lt_strings, lower_strings. rewrite !dec_Itoa.
  rewrite !wrap64_small by (unfold MinInt64, MaxInt64; lia).
  destruct (0 <? major), (0 <? minor), (0 <? patch); reflexivity.
Qed.

Lemma lessThanRegex_ver major minor patch :
  in_range major -> in_range minor -> in_range patch ->
  lessThanRegex (ver major minor patch)
  = Ok (if (length (lt_strings major minor patch) =? 0)%nat then EMPTY_MATCH_PATTERN
        else bounded (lt_strings major minor patch)).
Proof.
  intros H1 H2 H3. unfold lessThanRegex.
  rewrite parseVersionParts_ver by (now apply in_range_fits). cbv zeta.
  rewrite lessThan_patterns_ver by assumption.
  now destruct (length (lt_strings major minor patch) =? 0)%nat.
Qed.

Lemma lessThanEqualRegex_ver major minor patch :
  in_range major -> in_range minor -> in_range patch ->
  lessThanEqualRegex (ver major minor patch) = Ok (bounded (le_strings major minor patch)).
Proof.
  intros H1 H2 H3. unfold lessThanEqualRegex.
  rewrite parseVersionParts_ver by (now apply in_range_fits).
  unfold in_range, MAX_THRESHOLD in *. unfold le_strings, lower_strings.
  rewrite !dec_Itoa. rewrite !wrap64_small by (unfold MinInt64, MaxInt64; lia).
  destruct (0 <? major), (0 <? minor); reflexivity.
Qed.

Lemma greaterThanRegex_ver major minor patch :
  in_range major -> in_range minor -> in_range patch ->
  greaterThanRegex (ver major minor patch) = Ok (bounded (ge_strings major minor (patch + 1))).
Proof.
  intros H1 H2 H3. unfold greaterThanRegex.
  rewrite parseVersionParts_ver by (now apply in_range_fits).
  unfold in_range, MAX_THRESHOLD in *.
  cbn [app]. rewrite !dec_Itoa.
  rewrite !wrap64_small by (unfold MinInt64, MaxInt64; lia). reflexivity.
Qed.

Lemma pushes_gt_clauses la major minor patch :
  in_range major -> in_range minor -> in_range patch ->
  Forall2 (pushes la)
    (ge_strings major minor (patch + 1)) (ge_clauses major minor (patch + 1)).
Proof.
  unfold in_range, MAX_THRESHOLD. intros H1 H2 H3.
  repeat constructor; apply pushes_clause;
    try apply pushes_VERSION_DIGITS;
    try (apply pushes_NumGreaterOrEqual; lia);
    apply pushes_digits; apply Itoa_all_digits; lia.
Qed.

Lemma tildeRangeRegex_ver major minor patch :
  fits_int major -> fits_int minor -> fits_int patch ->
  tildeRangeRegex (ver major minor patch)
  = Ok (version_pattern (Itoa major) (Itoa minor) VERSION_DIGITS).
Proof.
  intros H1 H2 H3. unfold tildeRangeRegex.
  rewrite parseVersionParts_ver by assumption. now rewrite tilde_template.
Qed.

Lemma exactMatchRegex_ver major minor patch :
  fits_int major -> fits_int minor -> fits_int patch ->
  exactMatchRegex (ver major minor patch)
  = version_pattern (Itoa major) (Itoa minor) (Itoa patch).
Proof.
  intros H1 H2 H3. unfold ver.
  apply exactMatchRegex_dotted; try (apply Itoa_all_digits; apply H1 || apply H2 || apply H3).
  apply Itoa_nonempty. now apply fits_small.
Qed.

(** ** Which patterns Go's [regexp] compiles *)

Lemma lookahead_rejected rest : Compile ("^(?!" ++ rest) = inl ErrInvalidPerlOp.
Proof. unfold Compile, compile_with, parse. rewrite feed_app. reflexivity. Qed.

Lemma notEqualRegex_shape v : exists rest, notEqualRegex v = Ok ("^(?!" ++ rest).
Proof. unfold notEqualRegex. eexists. cbn. reflexivity. Qed.

Lemma version_pattern_compiles FA FB FC A B C :
  pushes false FA A -> pushes false FB B -> pushes false FC C ->
  Forall pure A -> Forall pure B -> Forall pure C ->
  exists re, Compile (version_pattern FA FB FC) = inr re.
Proof.
  intros H1 H2 H3 P1 P2 P3.
  destruct (version_pattern_match false FA FB FC A B C H1 H2 H3 P1 P2 P3) as (re & C' & _).
  now exists re.
Qed.

Lemma bounded_compiles ps cls :
  Forall2 (pushes false) ps cls -> ps <> [] -> Forall (Forall pure) cls ->
  exists re, Compile (bounded ps) = inr re.
Proof.
  intros H N P. destruct (bounded_match false ps cls H N P) as (re & C & _). now exists re.
Qed.

Lemma numeric_pattern_compiles op major minor patch :
  In op numeric_operators ->
  in_range major -> in_range minor -> in_range patch ->
  ~ (op = OP_LESS /\ major = 0 /\ minor = 0 /\ patch = 0) ->
  exists pattern re,
    constraintToRegex (mkConstraint op (ver major minor patch)) = Ok pattern
    /\ Compile pattern = inr re.
Proof.
  intros Hop H1 H2 H3 Hz.
  pose proof (in_range_fits _ H1) as F1. pose proof (in_range_fits _ H2) as F2.
  pose proof (in_range_fits _ H3) as F3.
  assert (N1 : pushes false (Itoa major) (map Chr (Itoa major)))
    by (apply numeral_fragment; apply H1).
  assert (N2 : pushes false (Itoa minor) (map Chr (Itoa minor)))
    by (apply numeral_fragment; apply H2).
  assert (N3 : pushes false (Itoa patch) (map Chr (Itoa patch)))
    by (apply numeral_fragment; apply H3).
  assert (EX : exists re,
             Compile (version_pattern (Itoa major) (Itoa minor) (Itoa patch)) = inr re).
  { apply (version_pattern_compiles _ _ _ _ _ _ N1 N2 N3); apply pure_literal. }
  assert (TI : exists re,
             Compile (version_pattern (Itoa major) (Itoa minor) VERSION_DIGITS) = inr re).
  { apply (version_pattern_compiles _ _ _ _ _ _ N1 N2 (pushes_VERSION_DIGITS false));
      try apply pure_literal. apply pure_Digits. }
  cbv [numeric_operators In] in Hop.
  destruct Hop as [<-|[<-|[<-|[<-|[<-|[<-|[<-|[<-|[<-|[<-|[]]]]]]]]]]].
  - destruct EX as [re C]. exists (version_pattern (Itoa major) (Itoa minor) (Itoa patch)), re.
    split; [|exact C].
    change (constraintToRegex (mkConstraint OP_EQUAL_EQUAL (ver major minor patch)))
      with (Ok (exactMatchRegex (ver major minor patch))).
    now rewrite exactMatchRegex_ver.
  - destruct EX as [re C]. exists (version_pattern (Itoa major) (Itoa minor) (Itoa patch)), re.
    split; [|exact C].
    change (constraintToRegex (mkConstraint OP_EQUAL (ver major minor patch)))
      with (Ok (exactMatchRegex (ver major minor patch))).
    now rewrite exactMatchRegex_ver.
  - destruct (bounded_compiles _ _ (pushes_ge_clauses false major minor patch H1 H2 H3)
                ltac:(discriminate) (pure_ge_clauses major minor patch)) as [re C].
    exists (bounded (ge_strings major minor patch)), re. split; [|exact C].
    change (constraintToRegex (mkConstraint OP_GREATER_EQUAL (ver major minor patch)))
      with (greaterThanEqualRegex (ver major minor patch)).
    now apply greaterThanEqualRegex_ver.
  - destruct (bounded_compiles _ _ (pushes_le_clauses false major minor patch H1 H2 H3)
                (le_strings_cons major minor patch) (pure_le_clauses major minor patch))
      as [re C].
    exists (bounded (le_strings major minor patch)), re. split; [|exact C].
    change (constraintToRegex (mkConstraint OP_LESS_EQUAL (ver major minor patch)))
      with (lessThanEqualRegex (ver major minor patch)).
    now apply lessThanEqualRegex_ver.
  - destruct (bounded_compiles _ _ (pushes_gt_clauses false major minor patch H1 H2 H3)
                ltac:(discriminate) (pure_ge_clauses major minor (patch + 1))) as [re C].
    exists (bounded (ge_strings major minor (patch + 1))), re. split; [|exact C].
    change (constraintToRegex (mkConstraint OP_GREATER (ver major minor patch)))
      with (greaterThanRegex (ver major minor patch)).
    now apply greaterThanRegex_ver.
  - assert (N : lt_strings major minor patch <> []).
    { intros E. apply lt_strings_nil in E; [|assumption..]. apply Hz. tauto. }
    destruct (bounded_compiles _ _ (pushes_lt_clauses false major minor patch H1 H2 H3)
                N (pure_lt_clauses major minor patch)) as [re C].
    exists (bounded (lt_strings major minor patch)), re. split; [|exact C].
    change (constraintToRegex (mkConstraint OP_LESS (ver major minor patch)))
      with (lessThanRegex (ver major minor patch)).
    rewrite lessThanRegex_ver by assumption.
    destruct (lt_strings major minor patch); [congruence|reflexivity].
  - change (constraintToRegex (mkConstraint OP_CARET (ver major minor patch)))
      with (caretRangeRegex (ver major minor patch)).
    rewrite caretRangeRegex_ver by assumption.
    assert (CA : exists re,
               Compile (if major =? 0
                        then version_pattern (Itoa 0) (Itoa minor) VERSION_DIGITS
                        else version_pattern (Itoa major) VERSION_DIGITS VERSION_DIGITS)
               = inr re).
    { destruct (major =? 0).
      - apply (version_pattern_compiles _ _ _ _ _ _ (numeral_fragment false 0 ltac:(lia)) N2
                 (pushes_VERSION_DIGITS false)); try apply pure_literal. apply pure_Digits.
      - apply (version_pattern_compiles _ _ _ _ _ _ N1 (pushes_VERSION_DIGITS false)
                 (pushes_VERSION_DIGITS false)); try apply pure_literal; apply pure_Digits. }
    destruct CA as [re C]. eexists; exists re. split; [reflexivity|exact C].
  - destruct TI as [re C]. eexists; exists re. split; [|exact C].
    change (constraintToRegex (mkConstraint OP_TILDE (ver major minor patch)))
      with (tildeRangeRegex (ver major minor patch)).
    now apply tildeRangeRegex_ver.
  - destruct TI as [re C]. eexists; exists re. split; [|exact C].
    change (constraintToRegex (mkConstraint OP_PESSIMISTIC (ver major minor patch)))
      with (tildeRangeRegex (ver major minor patch)).
    now apply tildeRangeRegex_ver.
  - destruct TI as [re C]. eexists; exists re. split; [|exact C].
    change (constraintToRegex (mkConstraint OP_COMPATIBLE (ver major minor patch)))
      with (tildeRangeRegex (ver major minor patch)).
    now apply tildeRangeRegex_ver.
Qed.

(** C4, as the spec states it, fails at the constraint it names: for
    [<0.0.0] the compiler produces the contradiction fragment, Go's [regexp]
    rejects its lookahead, and [VersionToRegex] returns an error. *)
Lemma lessThan_zero_does_not_compile :
  In OP_LESS numeric_operators
  /\ constraintToRegex (mkConstraint OP_LESS (ver 0 0 0)) = Ok EMPTY_MATCH_PATTERN
  /\ Compile EMPTY_MATCH_PATTERN = inl ErrInvalidPerlOp
  /\ VersionToRegex "<0.0.0"
     = Err ("failed to compile regex: " ++ regexp.Error ErrInvalidPerlOp).
Proof.
  split; [simpl; tauto|]. split; [reflexivity|]. split; reflexivity.
Qed.

(** C4, amended. For each of the operators [==], [=], [>=], [<=], [>], [<],
    [^], [~], [~>], [~=] and every version [major.minor.patch] with
    components in 0..9999999999, the constraint [<0.0.0] excepted, the
    compiler produces a pattern that Go's [regexp.Compile] accepts, and
    [VersionToRegex] returns the compiled expression and no error. The
    pattern of the not-equal operator for the same version is produced
    without error, and [regexp.Compile] rejects it for its lookahead. *)
Theorem numeric_constraints_compile (op : gostring) (major minor patch : Z)
    (Hop : In op numeric_operators)
    (HM : in_range major) (Hm : in_range minor) (Hp : in_range patch)
    (Hz : ~ (op = OP_LESS /\ major = 0 /\ minor = 0 /\ patch = 0)) :
  (exists pattern re,
      constraintToRegex (mkConstraint op (ver major minor patch)) = Ok pattern
      /\ Compile pattern = inr re
      /\ VersionToRegex (op ++ ver major minor patch) = Ok re)
  /\ (exists pattern,
        constraintToRegex (mkConstraint OP_NOT_EQUAL (ver major minor patch)) = Ok pattern
        /\ Compile pattern = inl ErrInvalidPerlOp).
Proof.
  split.
  - destruct (numeric_pattern_compiles op major minor patch Hop HM Hm Hp Hz)
      as (pattern & re & E & C).
    exists pattern, re. split; [exact E|]. split; [exact C|].
    apply (VersionToRegex_numeric op (ver major minor patch) pattern re Hop); [|exact E|exact C].
    now apply numeric_literal_in_range.
  - destruct (notEqualRegex_shape (ver major minor patch)) as [rest E].
    exists ("^(?!" ++ rest). split.
    + change (constraintToRegex (mkConstraint OP_NOT_EQUAL (ver major minor patch)))
        with (notEqualRegex (ver major minor patch)).
      exact E.
    + apply lookahead_rejected.
Qed.

Lemma numeric_constraints_compile_witness :
  (exists pattern re,
      constraintToRegex (mkConstraint OP_LESS (ver 0 0 1)) = Ok pattern
      /\ Compile pattern = inr re
      /\ VersionToRegex (OP_LESS ++ ver 0 0 1) = Ok re)
  /\ (exists pattern,
        constraintToRegex (mkConstraint OP_NOT_EQUAL (ver 0 0 1)) = Ok pattern
        /\ Compile pattern = inl ErrInvalidPerlOp).
Proof.
  apply (numeric_constraints_compile OP_LESS 0 0 1).
  - simpl. tauto.
  - unfold in_range, MAX_THRESHOLD. lia.
  - unfold in_range, MAX_THRESHOLD. lia.
  - unfold in_range, MAX_THRESHOLD. lia.
  - intros (_ & _ & _ & H). discriminate H.
Defined.

(** ** Strict less-than *)

(** The order the [<] operator is to decide: major below, or major equal
    and minor below, or both equal and patch below. *)
Definition version_ltb (x y z major minor patch : Z) : bool :=
  (x <? major) || ((x =? major) && (y <? minor))
  || ((x =? major) && (y =? minor) && (z <? patch)).

Lemma le_fragment n xs :
  0 <= n <= MAX_THRESHOLD -> is_canonical xs = true ->
  lang (mkCat (le_items n)) xs = (decimal_value xs <=? n).
Proof.
  unfold MAX_THRESHOLD. intros Hn Hx. apply le_items_spec; [|exact Hx].
  change (10 ^ 10) with 10000000000. lia.
Qed.

Lemma lower_clauses_match major minor xs ys zs sfx :
  in_range major -> in_range minor ->
  is_canonical xs = true -> is_canonical ys = true -> is_canonical zs = true ->
  is_suffix sfx = true ->
  existsb (fun cl => lang (mkCat (cl ++ suffix_items)) (dotted xs ys zs ++ sfx))
    (lower_clauses major minor)
  = (decimal_value xs <? major)
    || ((decimal_value xs =? major) && (decimal_value ys <? minor)).
Proof.
  intros H1 H2 Hx Hy Hz Hs.
  pose proof (is_canonical_digits _ Hx) as Dx.
  pose proof (is_canonical_digits _ Hy) as Dy.
  pose proof (is_canonical_digits _ Hz) as Dz.
  pose proof (is_suffix_head _ Hs) as Ns.
  pose proof (decimal_value_bound xs Dx) as Bx.
  pose proof (decimal_value_bound ys Dy) as By.
  assert (SM : small major) by (now apply fits_small, in_range_fits).
  unfold in_range, MAX_THRESHOLD in *.
  unfold lower_clauses. rewrite existsb_app. f_equal.
  - destruct (Z.ltb_spec 0 major) as [L|L]; cbn [existsb].
    + rewrite lang_clause_suffix; try assumption;
        try apply pure_le_items; try apply pure_Digits; try apply digits_only_Digits;
        try (apply digits_only_le; change (10 ^ 10) with 10000000000; lia).
      rewrite Hs, !lang_Digits_canonical by assumption.
      rewrite le_fragment by (unfold MAX_THRESHOLD; lia || assumption).
      rewrite !andb_true_r, orb_false_r.
      destruct (Z.leb_spec (decimal_value xs) (major - 1)),
        (Z.ltb_spec (decimal_value xs) major); try reflexivity; lia.
    + destruct (Z.ltb_spec (decimal_value xs) major); [lia|reflexivity].
  - destruct (Z.ltb_spec 0 minor) as [L|L]; cbn [existsb].
    + rewrite lang_clause_suffix; try assumption;
        try apply pure_le_items; try apply pure_Digits; try apply digits_only_Digits;
        try apply pure_literal;
        try (apply digits_only_le; change (10 ^ 10) with 10000000000; lia);
        try (apply digits_only_literal; apply Itoa_all_digits; lia).
      rewrite Hs, !lang_Digits_canonical by assumption.
      rewrite lang_numeral by assumption.
      rewrite le_fragment by (unfold MAX_THRESHOLD; lia || assumption).
      rewrite !andb_true_r, orb_false_r.
      destruct (Z.leb_spec (decimal_value ys) (minor - 1)),
        (Z.ltb_spec (decimal_value ys) minor); try reflexivity; lia.
    + destruct (Z.ltb_spec (decimal_value ys) minor); [lia|now rewrite andb_false_r].
Qed.

Lemma bounded_not_EMPTY_MATCH_PATTERN ps : bounded ps <> EMPTY_MATCH_PATTERN.
Proof. unfold bounded, EMPTY_MATCH_PATTERN, REGEX_START. cbn [app]. discriminate. Qed.

Lemma lessThanRegex_empty major minor patch :
  in_range major -> in_range minor -> in_range patch ->
  lessThanRegex (ver major minor patch) = Ok EMPTY_MATCH_PATTERN
  <-> major = 0 /\ minor = 0 /\ patch = 0.
Proof.
  intros H1 H2 H3. rewrite lessThanRegex_ver by assumption.
  rewrite <- (lt_strings_nil major minor patch H1 H2 H3).
  destruct (lt_strings major minor patch) as [|q qs] eqn:E; cbn [length Nat.eqb].
  - tauto.
  - split; [|discriminate]. intros H. exfalso.
    apply (bounded_not_EMPTY_MATCH_PATTERN (q :: qs)). congruence.
Qed.

Lemma VersionMatches_lt major minor patch s :
  in_range major -> in_range minor -> in_range patch ->
  ~ (major = 0 /\ minor = 0 /\ patch = 0) ->
  VersionMatches s (OP_LESS ++ ver major minor patch)
  = Ok (existsb (fun cl => lang (mkCat (cl ++ suffix_items)) s)
          (lt_clauses major minor patch)).
Proof.
  intros H1 H2 H3 Hz.
  assert (N : lt_strings major minor patch <> []).
  { intros E. apply lt_strings_nil in E; [|assumption..]. now apply Hz. }
  destruct (bounded_match false _ _ (pushes_lt_clauses false major minor patch H1 H2 H3)
              N (pure_lt_clauses major minor patch)) as (re & C & M).
  rewrite (VersionMatches_numeric OP_LESS (ver major minor patch)
             (bounded (lt_strings major minor patch)) re s).
  - now rewrite M.
  - unfold numeric_operators. simpl. tauto.
  - now apply numeric_literal_in_range.
  - change (constraintToRegex (mkConstraint OP_LESS (ver major minor patch)))
      with (lessThanRegex (ver major minor patch)).
    rewrite lessThanRegex_ver by assumption.
    destruct (lt_strings major minor patch); [congruence|reflexivity].
  - exact C.
Qed.

(** C5. For the version 0.0.0 the strict less-than builder yields the
    contradiction fragment [EMPTY_MATCH_PATTERN], which matches no string at
    all: in a dialect with negative lookahead it compiles to an expression
    that rejects every text, and Go's RE2 refuses to compile it. For a
    version [major.minor.patch] with components in range, the builder yields
    the contradiction fragment exactly when all three are 0; with [patch = 0]
    it collects the clauses for a smaller major and a smaller minor only,
    with no clause for the patch; and in every case but 0.0.0 the pattern it
    yields matches a version string [x.y.z] (with an optional tail) exactly
    when [(x, y, z)] is below [(major, minor, patch)]. *)
Theorem lessThan_zero (major minor patch : Z) (xs ys zs sfx : gostring)
    (HM : in_range major) (Hm : in_range minor) (Hp : in_range patch)
    (Hx : is_canonical xs = true) (Hy : is_canonical ys = true) (Hz : is_canonical zs = true)
    (Hs : is_suffix sfx = true) :
  lessThanRegex "0.0.0" = Ok EMPTY_MATCH_PATTERN
  /\ (exists re, compile_with true EMPTY_MATCH_PATTERN = inr re
        /\ forall s, MatchString re s = false)
  /\ Compile EMPTY_MATCH_PATTERN = inl ErrInvalidPerlOp
  /\ (lessThanRegex (ver major minor patch) = Ok EMPTY_MATCH_PATTERN
      <-> major = 0 /\ minor = 0 /\ patch = 0)
  /\ lessThan_patterns major minor 0 = lower_strings major minor
  /\ (~ (major = 0 /\ minor = 0 /\ patch = 0) ->
      VersionMatches (dotted xs ys zs ++ sfx) (OP_LESS ++ ver major minor patch)
      = Ok (version_ltb (decimal_value xs) (decimal_value ys) (decimal_value zs)
              major minor patch)).
Proof.
  split; [reflexivity|]. split; [|split; [reflexivity|split; [|split]]].
  - destruct (compile_with true EMPTY_MATCH_PATTERN) as [e|re] eqn:C; [discriminate C|].
    exists re. split; [reflexivity|]. intros s.
    now apply EMPTY_MATCH_PATTERN_matches_nothing.
  - now apply lessThanRegex_empty.
  - rewrite lessThan_patterns_ver by (assumption || (unfold in_range, MAX_THRESHOLD; lia)).
    unfold lt_strings. cbn [Z.ltb Z.compare]. apply app_nil_r.
  - intros Hne. rewrite VersionMatches_lt by assumption. f_equal.
    unfold lt_clauses. rewrite existsb_app.
    rewrite lower_clauses_match by assumption. unfold version_ltb. f_equal.
    pose proof (is_canonical_digits _ Hx) as Dx.
    pose proof (is_canonical_digits _ Hy) as Dy.
    pose proof (is_canonical_digits _ Hz) as Dz.
    pose proof (decimal_value_bound zs Dz) as Bz.
    assert (SM : small major) by (now apply fits_small, in_range_fits).
    assert (Sm : small minor) by (now apply fits_small, in_range_fits).
    unfold in_range, MAX_THRESHOLD in *.
    destruct (Z.ltb_spec 0 patch) as [L|L]; cbn [existsb].
    + rewrite lang_clause_suffix; try assumption;
        try apply pure_le_items; try apply pure_literal;
        try (apply digits_only_le; change (10 ^ 10) with 10000000000; lia);
        try (apply digits_only_literal; apply Itoa_all_digits; lia);
        try (now apply is_suffix_head).
      rewrite Hs, !lang_numeral by assumption.
      rewrite le_fragment by (unfold MAX_THRESHOLD; lia || assumption).
      rewrite !andb_true_r, orb_false_r. f_equal.
      destruct (Z.leb_spec (decimal_value zs) (patch - 1)),
        (Z.ltb_spec (decimal_value zs) patch); try reflexivity; lia.
    + destruct (Z.ltb_spec (decimal_value zs) patch); [lia|now rewrite andb_false_r].
Qed.

Lemma lessThan_zero_witness :
  lessThanRegex "0.0.0" = Ok EMPTY_MATCH_PATTERN
  /\ (exists re, compile_with true EMPTY_MATCH_PATTERN = inr re
        /\ forall s, MatchString re s = false)
  /\ Compile EMPTY_MATCH_PATTERN = inl ErrInvalidPerlOp
  /\ (lessThanRegex (ver 1 2 0) = Ok EMPTY_MATCH_PATTERN <-> 1 = 0 /\ 2 = 0 /\ 0 = 0)
  /\ lessThan_patterns 1 2 0 = lower_strings 1 2
  /\ (~ (1 = 0 /\ 2 = 0 /\ 0 = 0) ->
      VersionMatches (dotted "1" "1" "9" ++ "") (OP_LESS ++ ver 1 2 0)
      = Ok (version_ltb (decimal_value "1") (decimal_value "1") (decimal_value "9") 1 2 0)).
Proof.
  apply (lessThan_zero 1 2 0 "1" "1" "9" "");
    try (unfold in_range, MAX_THRESHOLD; lia); reflexivity.
Defined.

(** ** Version literals that are not numbers *)

(** The operators whose builders read the version with [parseVersionParts]. *)
Definition range_operators : list gostring :=
  [OP_GREATER_EQUAL; OP_LESS_EQUAL; OP_GREATER; OP_LESS; OP_CARET; OP_TILDE;
   OP_PESSIMISTIC; OP_COMPATIBLE].

(** The name an error message gives to the component at an index. *)
Definition component_name (i : nat) : gostring :=
  match i with
  | O => "major"
  | S O => "minor"
  | _ => "patch"
  end.

Lemma Errorf_invalid_component (A : Type) (i : nat) (part : gostring) :
  (i < 3)%nat ->
  @fmt.Errorf A ("invalid " ++ component_name i ++ " version: %s") [fmt.Str part]
  = Err ("invalid " ++ component_name i ++ " version: " ++ part).
Proof.
  intros Hi. unfold fmt.Errorf. f_equal.
  destruct i as [|[|[|i]]]; [| | |lia]; cbn; now rewrite app_nil_r.
Qed.

Lemma parseVersionParts_invalid v i :
  (i < 3)%nat -> (i < length (version_parts v))%nat ->
  snd (Atoi (nth i (version_parts v) [])) = false ->
  (forall j, (j < i)%nat -> snd (Atoi (nth j (version_parts v) [])) = true) ->
  parseVersionParts v
  = Err ("invalid " ++ component_name i ++ " version: " ++ nth i (version_parts v) []).
Proof.
  intros Hi Hlen Hbad Hgood. rewrite <- (Errorf_invalid_component _ i _ Hi).
  unfold parseVersionParts. cbv zeta.
  destruct i as [|[|[|i]]]; [| | |lia].
  - destruct (Nat.leb_spec 1 (length (version_parts v))) as [L|L]; [|lia].
    destruct (Atoi (nth 0 (version_parts v) [])) as [major ok1]. cbn [snd] in Hbad.
    subst ok1. reflexivity.
  - pose proof (Hgood O ltac:(lia)) as G0.
    destruct (Nat.leb_spec 1 (length (version_parts v))) as [L1|L1]; [|lia].
    destruct (Atoi (nth 0 (version_parts v) [])) as [major ok1]. cbn [snd] in G0.
    subst ok1. cbn [negb].
    destruct (Nat.leb_spec 2 (length (version_parts v))) as [L2|L2]; [|lia].
    destruct (Atoi (nth 1 (version_parts v) [])) as [minor ok2]. cbn [snd] in Hbad.
    subst ok2. reflexivity.
  - pose proof (Hgood O ltac:(lia)) as G0. pose proof (Hgood 1%nat ltac:(lia)) as G1.
    destruct (Nat.leb_spec 1 (length (version_parts v))) as [L1|L1]; [|lia].
    destruct (Atoi (nth 0 (version_parts v) [])) as [major ok1]. cbn [snd] in G0.
    subst ok1. cbn [negb].
    destruct (Nat.leb_spec 2 (length (version_parts v))) as [L2|L2]; [|lia].
    destruct (Atoi (nth 1 (version_parts v) [])) as [minor ok2]. cbn [snd] in G1.
    subst ok2. cbn [negb].
    destruct (Nat.leb_spec 3 (length (version_parts v))) as [L3|L3]; [|lia].
    destruct (Atoi (nth 2 (version_parts v) [])) as [patch ok3]. cbn [snd] in Hbad.
    subst ok3. reflexivity.
Qed.

Lemma range_operator_reads_parts op v e :
  In op range_operators -> parseVersionParts v = Err e ->
  constraintToRegex (mkConstraint op v) = Err e.
Proof.
  intros Hop E. cbv [range_operators In] in Hop.
  destruct Hop as [<-|[<-|[<-|[<-|[<-|[<-|[<-|[<-|[]]]]]]]]].
  - change (constraintToRegex (mkConstraint OP_GREATER_EQUAL v))
      with (greaterThanEqualRegex v).
    unfold greaterThanEqualRegex. now rewrite E.
  - change (constraintToRegex (mkConstraint OP_LESS_EQUAL v)) with (lessThanEqualRegex v).
    unfold lessThanEqualRegex. now rewrite E.
  - change (constraintToRegex (mkConstraint OP_GREATER v)) with (greaterThanRegex v).
    unfold greaterThanRegex. now rewrite E.
  - change (constraintToRegex (mkConstraint OP_LESS v)) with (lessThanRegex v).
    unfold lessThanRegex. now rewrite E.
  - change (constraintToRegex (mkConstraint OP_CARET v)) with (caretRangeRegex v).
    unfold caretRangeRegex. now rewrite E.
  - change (constraintToRegex (mkConstraint OP_TILDE v)) with (tildeRangeRegex v).
    unfold tildeRangeRegex. now rewrite E.
  - change (constraintToRegex (mkConstraint OP_PESSIMISTIC v)) with (tildeRangeRegex v).
    unfold tildeRangeRegex. now rewrite E.
  - change (constraintToRegex (mkConstraint OP_COMPATIBLE v)) with (tildeRangeRegex v).
    unfold tildeRangeRegex. now rewrite E.
Qed.

Lemma forallb_firstn_nth {A} (f : A -> bool) (l : list A) (d : A) (i j : nat) :
  forallb f (firstn i l) = true -> (j < i)%nat -> (j < length l)%nat ->
  f (nth j l d) = true.
Proof.
  revert i j. induction l as [|x l IH]; intros i j H Hj Hl; [simpl in Hl; lia|].
  destruct i as [|i]; [lia|]. cbn [firstn forallb] in H.
  apply andb_true_iff in H as [Hx H]. destruct j as [|j]; [exact Hx|].
  cbn [nth]. apply (IH i j H); [lia|simpl in Hl; lia].
Qed.

(** C7, as the spec states it, fails for the operator its example names:
    the exact-match builder never reads the components as numbers, so
    ["a.b.c"] is quoted into a pattern, and the pattern compiles. *)
Lemma exact_match_accepts_non_numeric :
  snd (Atoi "a") = false
  /\ constraintToRegex (mkConstraint OP_EQUAL_EQUAL "a.b.c")
     = Ok "^a\.b\.c(?:-[a-zA-Z0-9\-\.]+)?(?:\+[a-zA-Z0-9\-\.]+)?$"
  /\ exists re, VersionToRegex "==a.b.c" = Ok re /\ MatchString re "a.b.c" = true.
Proof.
  split; [reflexivity|]. split; [reflexivity|].
  eexists. split; [vm_compute; reflexivity|vm_compute; reflexivity].
Qed.

(** C7, amended. For the operators [>=], [<=], [>], [<], [^], [~], [~>]
    and [~=]: when one of the first three dot-separated components of the
    version (its pre-release and build tags cut off) is not a base-10
    integer, the compiler returns no pattern but the error that names the
    first such component, [invalid major version], [invalid minor version]
    or [invalid patch version], followed by the component's text. *)
Theorem invalid_component_rejected (op v : gostring) (i : nat)
    (Hop : In op range_operators)
    (Hi : (i < 3)%nat) (Hlen : (i < length (version_parts v))%nat)
    (Hbad : snd (Atoi (nth i (version_parts v) [])) = false)
    (Hgood : forallb (fun part => snd (Atoi part)) (firstn i (version_parts v)) = true) :
  constraintToRegex (mkConstraint op v)
  = Err ("invalid " ++ component_name i ++ " version: " ++ nth i (version_parts v) []).
Proof.
  apply range_operator_reads_parts; [exact Hop|].
  apply parseVersionParts_invalid; [exact Hi|exact Hlen|exact Hbad|].
  intros j Hj. apply (forallb_firstn_nth _ _ _ i j Hgood Hj). lia.
Qed.

Lemma invalid_component_rejected_witness :
  constraintToRegex (mkConstraint OP_GREATER_EQUAL "1.b.3")
  = Err ("invalid " ++ component_name 1 ++ " version: " ++ nth 1 (version_parts "1.b.3") []).
Proof.
  apply (invalid_component_rejected OP_GREATER_EQUAL "1.b.3" 1).
  - simpl. tauto.
  - lia.
  - vm_compute. lia.
  - reflexivity.
  - reflexivity.
Defined.

(** ** The constraint parser outside Maven ranges *)

Lemma parseVersionConstraint_total s :
  strings.HasPrefix (strings.TrimSpace s) "[" = false ->
  strings.HasPrefix (strings.TrimSpace s) "(" = false ->
  exists c, parseVersionConstraint s = Ok c.
Proof.
  intros Hb Hp. unfold parseVersionConstraint. cbv zeta. rewrite Hb, Hp. cbn [orb].
  destruct (find (strings.HasPrefix (strings.TrimSpace s)) operators); eexists; reflexivity.
Qed.

Lemma parseVersionConstraint_default s :
  strings.HasPrefix (strings.TrimSpace s) "[" = false ->
  strings.HasPrefix (strings.TrimSpace s) "(" = false ->
  (forall op, In op operators -> strings.HasPrefix (strings.TrimSpace s) op = false) ->
  parseVersionConstraint s = Ok (mkConstraint OP_EQUAL_EQUAL (strings.TrimSpace s)).
Proof.
  intros Hb Hp Hop. unfold parseVersionConstraint. cbv zeta. rewrite Hb, Hp. cbn [orb].
  now rewrite (find_none_intro _ _ Hop).
Qed.

Lemma VersionToRegex_letters :
  exists re, VersionToRegex "a.b.c" = Ok re /\ MatchString re "a.b.c" = true.
Proof. eexists. split; [vm_compute; reflexivity|vm_compute; reflexivity]. Qed.

Lemma VersionToRegex_empty :
  exists re, VersionToRegex "" = Ok re /\ MatchString re "" = true.
Proof. eexists. split; [vm_compute; reflexivity|vm_compute; reflexivity]. Qed.

(** C10, as the spec states it, fails on padded input: the parser trims
    white space before it looks at the first byte, so [" ["], which begins
    with a space, is read as a Maven range and rejected. *)
Lemma padded_bracket_rejected :
  strings.HasPrefix " [" "[" = false
  /\ strings.HasPrefix " [" "(" = false
  /\ parseVersionConstraint " [" = Err "invalid Maven range format: ["
  /\ is_ok (VersionToRegex " [") = false.
Proof. split; [reflexivity|]. split; [reflexivity|]. split; reflexivity. Qed.

(** C10, amended. When the input with its surrounding white space trimmed
    does not begin with ['['] or ['('], the constraint parser succeeds. If
    moreover the trimmed input begins with none of the operators, the
    constraint is the exact-match one whose version is the trimmed input,
    whatever it is, and the compiler answers with the pattern of
    [exactMatchRegex], which never reads the version as numbers. So
    [VersionToRegex "a.b.c"] and [VersionToRegex ""] return a compiled
    pattern and no error. *)
Theorem parser_succeeds_outside_maven (s : gostring)
    (Hb : strings.HasPrefix (strings.TrimSpace s) "[" = false)
    (Hp : strings.HasPrefix (strings.TrimSpace s) "(" = false) :
  (exists c, parseVersionConstraint s = Ok c)
  /\ ((forall op, In op operators -> strings.HasPrefix (strings.TrimSpace s) op = false) ->
      parseVersionConstraint s = Ok (mkConstraint OP_EQUAL_EQUAL (strings.TrimSpace s))
      /\ constraintToRegex (mkConstraint OP_EQUAL_EQUAL (strings.TrimSpace s))
         = Ok (exactMatchRegex (strings.TrimSpace s)))
  /\ (exists re, VersionToRegex "a.b.c" = Ok re /\ MatchString re "a.b.c" = true)
  /\ (exists re, VersionToRegex "" = Ok re /\ MatchString re "" = true).
Proof.
  split; [now apply parseVersionConstraint_total|]. split; [|split].
  - intros Hop. split; [now apply parseVersionConstraint_default|reflexivity].
  - exact VersionToRegex_letters.
  - exact VersionToRegex_empty.
Qed.

Lemma parser_succeeds_outside_maven_witness :
  (exists c, parseVersionConstraint " a.b.c " = Ok c)
  /\ ((forall op, In op operators -> strings.HasPrefix (strings.TrimSpace " a.b.c ") op = false) ->
      parseVersionConstraint " a.b.c "
      = Ok (mkConstraint OP_EQUAL_EQUAL (strings.TrimSpace " a.b.c "))
      /\ constraintToRegex (mkConstraint OP_EQUAL_EQUAL (strings.TrimSpace " a.b.c "))
         = Ok (exactMatchRegex (strings.TrimSpace " a.b.c ")))
  /\ (exists re, VersionToRegex "a.b.c" = Ok re /\ MatchString re "a.b.c" = true)
  /\ (exists re, VersionToRegex "" = Ok re /\ MatchString re "" = true).
Proof.
  apply (parser_succeeds_outside_maven " a.b.c "); reflexivity.
Defined.

(** * Further properties of the package *)

(** ** The other comparison operators *)

Definition version_leb (x y z major minor patch : Z) : bool :=
  (x <? major) || ((x =? major) && (y <? minor))
  || ((x =? major) && (y =? minor) && (z <=? patch)).

Definition version_gtb (x y z major minor patch : Z) : bool :=
  (major <? x) || ((x =? major) && (minor <? y))
  || ((x =? major) && (y =? minor) && (patch <? z)).

Lemma VersionMatches_bounded op major minor patch ps cls s :
  In op numeric_operators ->
  in_range major -> in_range minor -> in_range patch ->
  constraintToRegex (mkConstraint op (ver major minor patch)) = Ok (bounded ps) ->
  Forall2 (pushes false) ps cls -> ps <> [] -> Forall (Forall pure) cls ->
  VersionMatches s (op ++ ver major minor patch)
  = Ok (existsb (fun cl => lang (mkCat (cl ++ suffix_items)) s) cls).
Proof.
  intros Hop H1 H2 H3 E F N P.
  destruct (bounded_match false ps cls F N P) as (re & C & M).
  rewrite (VersionMatches_numeric op (ver major minor patch) (bounded ps) re s Hop
             (numeric_literal_in_range major minor patch H1 H2 H3) E C).
  now rewrite M.
Qed.

(** The [<=] operator decides the order of version triples, whatever the
    length of the candidate's components. *)
Theorem lessOrEqual_correct (major minor patch : Z) (xs ys zs sfx : gostring)
    (HM : in_range major) (Hm : in_range minor) (Hp : in_range patch)
    (Hx : is_canonical xs = true) (Hy : is_canonical ys = true) (Hz : is_canonical zs = true)
    (Hs : is_suffix sfx = true) :
  VersionMatches (dotted xs ys zs ++ sfx) (OP_LESS_EQUAL ++ ver major minor patch)
  = Ok (version_leb (decimal_value xs) (decimal_value ys) (decimal_value zs)
          major minor patch).
Proof.
  rewrite (VersionMatches_bounded OP_LESS_EQUAL major minor patch
             (le_strings major minor patch) (le_clauses major minor patch));
    try assumption.
  - f_equal. unfold le_clauses. rewrite existsb_app.
    rewrite lower_clauses_match by assumption. unfold version_leb. f_equal.
    pose proof (is_canonical_digits _ Hx) as Dx.
    pose proof (is_canonical_digits _ Hy) as Dy.
    pose proof (is_canonical_digits _ Hz) as Dz.
    assert (SM : small major) by (now apply fits_small, in_range_fits).
    assert (Sm : small minor) by (now apply fits_small, in_range_fits).
    unfold in_range, MAX_THRESHOLD in *. cbn [existsb].
    rewrite lang_clause_suffix; try assumption;
      try apply pure_le_items; try apply pure_literal;
      try (apply digits_only_le; change (10 ^ 10) with 10000000000; lia);
      try (apply digits_only_literal; apply Itoa_all_digits; lia);
      try (now apply is_suffix_head).
    rewrite Hs, !lang_numeral by assumption.
    rewrite le_fragment by (unfold MAX_THRESHOLD; lia || assumption).
    now rewrite !andb_true_r, orb_false_r.
  - simpl. tauto.
  - change (constraintToRegex (mkConstraint OP_LESS_EQUAL (ver major minor patch)))
      with (lessThanEqualRegex (ver major minor patch)).
    now apply lessThanEqualRegex_ver.
  - now apply pushes_le_clauses.
  - apply le_strings_cons.
  - apply pure_le_clauses.
Qed.

Lemma lessOrEqual_correct_witness :
  VersionMatches (dotted "1" "2" "3" ++ "-rc.1") (OP_LESS_EQUAL ++ ver 1 2 3)
  = Ok (version_leb (decimal_value "1") (decimal_value "2") (decimal_value "3") 1 2 3).
Proof.
  apply (lessOrEqual_correct 1 2 3 "1" "2" "3" "-rc.1");
    try (unfold in_range, MAX_THRESHOLD; lia); reflexivity.
Defined.

(** The [>] operator decides the strict order on candidates whose
    components have at most ten digits. *)
Theorem greaterThan_correct (major minor patch : Z) (xs ys zs sfx : gostring)
    (HM : in_range major) (Hm : in_range minor) (Hp : in_range patch)
    (Hx : is_canonical xs = true) (Hy : is_canonical ys = true) (Hz : is_canonical zs = true)
    (Lx : (length xs <= 10)%nat) (Ly : (length ys <= 10)%nat) (Lz : (length zs <= 10)%nat)
    (Hs : is_suffix sfx = true) :
  VersionMatches (dotted xs ys zs ++ sfx) (OP_GREATER ++ ver major minor patch)
  = Ok (version_gtb (decimal_value xs) (decimal_value ys) (decimal_value zs)
          major minor patch).
Proof.
  rewrite (VersionMatches_bounded OP_GREATER major minor patch
             (ge_strings major minor (patch + 1)) (ge_clauses major minor (patch + 1)));
    try assumption.
  - f_equal.
    pose proof (is_canonical_digits _ Hx) as Dx.
    pose proof (is_canonical_digits _ Hy) as Dy.
    pose proof (is_canonical_digits _ Hz) as Dz.
    pose proof (is_suffix_head _ Hs) as Ns.
    assert (SM : small major) by (now apply fits_small, in_range_fits).
    assert (Sm : small minor) by (now apply fits_small, in_range_fits).
    unfold in_range, MAX_THRESHOLD in *.
    unfold ge_clauses. cbn [existsb].
    rewrite !lang_clause_suffix; try assumption;
      try apply pure_ge_items; try apply pure_literal; try apply pure_Digits;
      try apply digits_only_Digits;
      try (apply digits_only_ge; change (10 ^ 10) with 10000000000; lia);
      try (apply digits_only_literal; apply Itoa_all_digits; lia).
    rewrite Hs, !(lang_Digits_canonical) by assumption.
    rewrite !lang_numeral by assumption.
    rewrite (ge_fragment (major + 1) xs), (ge_fragment (minor + 1) ys),
      (ge_fragment (patch + 1) zs)
      by first [change (10 ^ 10) with 10000000000; lia | assumption].
    unfold version_gtb. rewrite !andb_true_r, orb_false_r.
    replace (major + 1 <=? decimal_value xs) with (major <? decimal_value xs)
      by (destruct (Z.ltb_spec major (decimal_value xs)),
            (Z.leb_spec (major + 1) (decimal_value xs)); try reflexivity; lia).
    replace (minor + 1 <=? decimal_value ys) with (minor <? decimal_value ys)
      by (destruct (Z.ltb_spec minor (decimal_value ys)),
            (Z.leb_spec (minor + 1) (decimal_value ys)); try reflexivity; lia).
    replace (patch + 1 <=? decimal_value zs) with (patch <? decimal_value zs)
      by (destruct (Z.ltb_spec patch (decimal_value zs)),
            (Z.leb_spec (patch + 1) (decimal_value zs)); try reflexivity; lia).
    now rewrite orb_assoc.
  - simpl. tauto.
  - change (constraintToRegex (mkConstraint OP_GREATER (ver major minor patch)))
      with (greaterThanRegex (ver major minor patch)).
    now apply greaterThanRegex_ver.
  - now apply pushes_gt_clauses.
  - discriminate.
  - apply pure_ge_clauses.
Qed.

Lemma greaterThan_correct_witness :
  VersionMatches (dotted "1" "2" "3" ++ "") (OP_GREATER ++ ver 1 2 3)
  = Ok (version_gtb (decimal_value "1") (decimal_value "2") (decimal_value "3") 1 2 3).
Proof.
  apply (greaterThan_correct 1 2 3 "1" "2" "3" "");
    try (unfold in_range, MAX_THRESHOLD; lia); try reflexivity; simpl; lia.
Defined.

(** ** The tilde operators and the exact match *)

Lemma VersionMatches_version_pattern op major minor patch FA FB FC A B C s :
  In op numeric_operators ->
  fits_int major -> fits_int minor -> fits_int patch ->
  constraintToRegex (mkConstraint op (ver major minor patch))
  = Ok (version_pattern FA FB FC) ->
  pushes false FA A -> pushes false FB B -> pushes false FC C ->
  Forall pure A -> Forall pure B -> Forall pure C ->
  VersionMatches s (op ++ ver major minor patch)
  = Ok (lang (mkCat (clause A B C ++ suffix_items)) s).
Proof.
  intros Hop H1 H2 H3 E FA' FB' FC' PA PB PC.
  destruct (version_pattern_match false FA FB FC A B C FA' FB' FC' PA PB PC) as (re & C' & M).
  rewrite (VersionMatches_numeric op (ver major minor patch) (version_pattern FA FB FC) re s
             Hop (numeric_literal_fits major minor patch H1 H2 H3) E C').
  now rewrite M.
Qed.

(** The operators [~], [~>] and [~=] compile to the same pattern: it fixes
    the major and the minor component and leaves the patch open, also below
    the patch of the constraint. *)
Theorem tilde_correct (op : gostring) (major minor patch : Z) (xs ys zs sfx : gostring)
    (Hop : In op [OP_TILDE; OP_PESSIMISTIC; OP_COMPATIBLE])
    (HM : fits_int major) (Hm : fits_int minor) (Hp : fits_int patch)
    (Hx : is_canonical xs = true) (Hy : is_canonical ys = true) (Hz : is_canonical zs = true)
    (Hs : is_suffix sfx = true) :
  VersionMatches (dotted xs ys zs ++ sfx) (op ++ ver major minor patch)
  = Ok ((decimal_value xs =? major) && (decimal_value ys =? minor)).
Proof.
  assert (Hop' : In op numeric_operators).
  { cbn [In] in Hop. unfold numeric_operators. cbn [In]. tauto. }
  rewrite (VersionMatches_version_pattern op major minor patch
             (Itoa major) (Itoa minor) VERSION_DIGITS
             (map Chr (Itoa major)) (map Chr (Itoa minor)) [Digits]);
    try assumption;
    try (apply numeral_fragment; apply HM || apply Hm);
    try apply pure_literal; try apply pure_Digits; try apply pushes_VERSION_DIGITS.
  - f_equal.
    pose proof (is_canonical_digits _ Hx) as Dx.
    pose proof (is_canonical_digits _ Hy) as Dy.
    pose proof (is_canonical_digits _ Hz) as Dz.
    pose proof (is_suffix_head _ Hs) as Ns.
    rewrite lang_clause_suffix; try assumption;
      try apply pure_literal; try apply pure_Digits; try apply digits_only_Digits;
      try (apply digits_only_literal; apply Itoa_all_digits; apply HM || apply Hm).
    rewrite Hs, lang_Digits_canonical by assumption.
    rewrite !lang_numeral by (assumption || now apply fits_small).
    now rewrite !andb_true_r.
  - cbn [In] in Hop. destruct Hop as [<-|[<-|[<-|[]]]].
    + change (constraintToRegex (mkConstraint OP_TILDE (ver major minor patch)))
        with (tildeRangeRegex (ver major minor patch)).
      now apply tildeRangeRegex_ver.
    + change (constraintToRegex (mkConstraint OP_PESSIMISTIC (ver major minor patch)))
        with (tildeRangeRegex (ver major minor patch)).
      now apply tildeRangeRegex_ver.
    + change (constraintToRegex (mkConstraint OP_COMPATIBLE (ver major minor patch)))
        with (tildeRangeRegex (ver major minor patch)).
      now apply tildeRangeRegex_ver.
Qed.

Lemma tilde_correct_witness :
  VersionMatches (dotted "1" "2" "0" ++ "") (OP_PESSIMISTIC ++ ver 1 2 3)
  = Ok ((decimal_value "1" =? 1) && (decimal_value "2" =? 2)).
Proof.
  apply (tilde_correct OP_PESSIMISTIC 1 2 3 "1" "2" "0" "");
    try (unfold fits_int, MaxInt64; lia); try reflexivity.
  simpl. tauto.
Defined.

Lemma digit_not_operator c r op :
  is_digit c = true -> In op operators -> strings.HasPrefix (c :: r) op = false.
Proof.
  intros Hc Hop. apply digit_cases in Hc. cbn [In] in Hc.
  unfold operators in Hop. cbn [In] in Hop.
  repeat (destruct Hop as [<-|Hop];
          [repeat (destruct Hc as [<-|Hc]; [reflexivity|]); destruct Hc|]).
  destruct Hop.
Qed.

(** A numeric literal without an operator is an exact-match constraint. *)
Lemma parseVersionConstraint_bare v :
  numeric_literal v -> parseVersionConstraint v = Ok (mkConstraint OP_EQUAL_EQUAL v).
Proof.
  intros Hv. pose proof (TrimSpace_numeric v Hv) as Tv.
  apply numeric_literal_shape in Hv as (c & a & zs & E & Hc & Hz & Nz).
  unfold parseVersionConstraint. cbv zeta. rewrite Tv. subst v.
  assert (B : strings.HasPrefix (c :: a ++ zs) "[" || strings.HasPrefix (c :: a ++ zs) "("
              = false).
  { rewrite !HasPrefix_char. apply digit_cases in Hc. cbn [In] in Hc.
    repeat (destruct Hc as [<-|Hc]; [reflexivity|]). destruct Hc. }
  rewrite B.
  rewrite (find_none_intro _ _ (fun op H => digit_not_operator c (a ++ zs) op Hc H)).
  reflexivity.
Qed.

Definition exact_clause (major minor patch : Z) : list regex :=
  clause (map Chr (Itoa major)) (map Chr (Itoa minor)) (map Chr (Itoa patch)).

Lemma VersionMatches_exact op major minor patch s :
  In op [OP_EQUAL_EQUAL; OP_EQUAL; []] ->
  fits_int major -> fits_int minor -> fits_int patch ->
  VersionMatches s (op ++ ver major minor patch)
  = Ok (lang (mkCat (exact_clause major minor patch ++ suffix_items)) s).
Proof.
  intros Hop H1 H2 H3.
  assert (N1 : pushes false (Itoa major) (map Chr (Itoa major)))
    by (apply numeral_fragment; apply H1).
  assert (N2 : pushes false (Itoa minor) (map Chr (Itoa minor)))
    by (apply numeral_fragment; apply H2).
  assert (N3 : pushes false (Itoa patch) (map Chr (Itoa patch)))
    by (apply numeral_fragment; apply H3).
  cbn [In] in Hop. destruct Hop as [<-|[<-|[<-|[]]]].
  - apply (VersionMatches_version_pattern OP_EQUAL_EQUAL major minor patch
             (Itoa major) (Itoa minor) (Itoa patch)); try assumption; try apply pure_literal.
    + unfold numeric_operators. cbn [In]. tauto.
    + change (constraintToRegex (mkConstraint OP_EQUAL_EQUAL (ver major minor patch)))
        with (Ok (exactMatchRegex (ver major minor patch))).
      now rewrite exactMatchRegex_ver.
  - apply (VersionMatches_version_pattern OP_EQUAL major minor patch
             (Itoa major) (Itoa minor) (Itoa patch)); try assumption; try apply pure_literal.
    + unfold numeric_operators. cbn [In]. tauto.
    + change (constraintToRegex (mkConstraint OP_EQUAL (ver major minor patch)))
        with (Ok (exactMatchRegex (ver major minor patch))).
      now rewrite exactMatchRegex_ver.
  - cbn [app]. unfold VersionMatches, VersionToRegex.
    rewrite parseVersionConstraint_bare by (now apply numeric_literal_fits).
    change (constraintToRegex (mkConstraint OP_EQUAL_EQUAL (ver major minor patch)))
      with (Ok (exactMatchRegex (ver major minor patch))).
    rewrite exactMatchRegex_ver by assumption.
    destruct (version_pattern_match false _ _ _ _ _ _ N1 N2 N3
                (pure_literal _) (pure_literal _) (pure_literal _)) as (re & C & M).
    unfold Compile. rewrite C. now rewrite M.
Qed.

(** An exact-match constraint on a numeric version, written with [==],
    with [=] or with no operator, matches the candidates with the same
    three numbers, whatever their tail; and what it matches is the
    version's own text followed by a tail. *)
Theorem exact_correct (op : gostring) (major minor patch : Z) (xs ys zs sfx : gostring)
    (Hop : In op [OP_EQUAL_EQUAL; OP_EQUAL; []])
    (HM : fits_int major) (Hm : fits_int minor) (Hp : fits_int patch)
    (Hx : is_canonical xs = true) (Hy : is_canonical ys = true) (Hz : is_canonical zs = true)
    (Hs : is_suffix sfx = true) :
  VersionMatches (dotted xs ys zs ++ sfx) (op ++ ver major minor patch)
  = Ok ((decimal_value xs =? major) && (decimal_value ys =? minor)
        && (decimal_value zs =? patch))
  /\ forall s,
       VersionMatches s (op ++ ver major minor patch) = Ok true ->
       exists t, s = ver major minor patch ++ t /\ is_suffix t = true.
Proof.
  split.
  - rewrite VersionMatches_exact by assumption. f_equal. unfold exact_clause.
    pose proof (is_canonical_digits _ Hx) as Dx.
    pose proof (is_canonical_digits _ Hy) as Dy.
    pose proof (is_canonical_digits _ Hz) as Dz.
    pose proof (is_suffix_head _ Hs) as Ns.
    rewrite lang_clause_suffix; try assumption; try apply pure_literal;
      try (apply digits_only_literal; apply Itoa_all_digits; apply HM || apply Hm || apply Hp).
    rewrite Hs, !lang_numeral by (assumption || now apply fits_small).
    now rewrite andb_true_r.
  - intros s H. rewrite VersionMatches_exact in H by assumption.
    assert (H' : lang (mkCat (exact_clause major minor patch ++ suffix_items)) s = true)
      by congruence.
    apply lang_clause_suffix_inv in H' as (a & b & c & t & -> & Ha & Hb & Hc & Ht);
      try apply pure_literal.
    apply lang_literal in Ha, Hb, Hc. subst. now exists t.
Qed.

Lemma exact_correct_witness :
  VersionMatches (dotted "1" "2" "3" ++ "+build.7") ([] ++ ver 1 2 3)
  = Ok ((decimal_value "1" =? 1) && (decimal_value "2" =? 2) && (decimal_value "3" =? 3))
  /\ forall s,
       VersionMatches s ([] ++ ver 1 2 3) = Ok true ->
       exists t, s = ver 1 2 3 ++ t /\ is_suffix t = true.
Proof.
  apply (exact_correct [] 1 2 3 "1" "2" "3" "+build.7");
    try (unfold fits_int, MaxInt64; lia); try reflexivity.
  simpl. tauto.
Defined.

(** ** The digit-range synthesizer on arbitrary texts *)

(** The fragment of [NumGreaterOrEqual] accepts digit strings only, and it
    goes by length first: a string with more digits than [n] is accepted
    whatever its value (also when it is all zeros), provided [n] has fewer
    than ten digits; a string as long as [n] is accepted when its value is
    at least [n]; a shorter one is rejected. *)
Theorem NumGreaterOrEqual_language (n : Z) (Hn : 1 <= n <= MAX_THRESHOLD) :
  exists re, Compile (anchored (NumGreaterOrEqual n)) = inr re
    /\ forall w, MatchString re w = true <->
         all_digits w
         /\ (((length (Itoa n) < 10)%nat /\ (length (Itoa n) < length w)%nat)
             \/ (length w = length (Itoa n) /\ n <= decimal_value w)).
Proof.
  unfold MAX_THRESHOLD in Hn.
  assert (Sn : small n) by (unfold small; lia).
  destruct (NumGreaterOrEqual_anchored n) as (re & C & M);
    [change (10 ^ 10) with 10000000000; lia|].
  exists re. split; [exact C|]. intros w. rewrite M, lang_ge_items. unfold ge_alts.
  destruct (Z.leb_spec n 0) as [H0|H0]; [lia|]. cbv zeta.
  rewrite accepts_app, orb_true_iff.
  rewrite pos_alts_spec by (first [apply Itoa_all_digits; lia | now apply Itoa_nonempty]).
  rewrite Itoa_value by exact Sn. split.
  - intros [H|H].
    + destruct (Z.ltb_spec (Z.of_nat (length (Itoa n))) 10) as [L|L]; [|discriminate H].
      rewrite accepts_one, lang_mkCat_single in H by exact I.
      apply lang_Rep_Digit in H as (H1 & _ & H3). split; [exact H3|]. left. lia.
    + destruct H as (xs & -> & Hxs & Hlen & Hv). cbn [app]. split; [exact Hxs|].
      right. split; [exact Hlen|exact Hv].
  - intros [Hw [[L1 L2]|[L V]]].
    + left. destruct (Z.ltb_spec (Z.of_nat (length (Itoa n))) 10) as [L|L]; [|lia].
      rewrite accepts_one, lang_mkCat_single by exact I.
      apply lang_Rep_Digit. split; [lia|]. split; [exact I|exact Hw].
    + right. exists w. repeat split; assumption.
Qed.

Lemma NumGreaterOrEqual_language_witness :
  exists re, Compile (anchored (NumGreaterOrEqual 15)) = inr re
    /\ forall w, MatchString re w = true <->
         all_digits w
         /\ (((length (Itoa 15) < 10)%nat /\ (length (Itoa 15) < length w)%nat)
             \/ (length w = length (Itoa 15) /\ 15 <= decimal_value w)).
Proof. apply (NumGreaterOrEqual_language 15). unfold MAX_THRESHOLD. lia. Defined.

(** The fragment of [NumLessOrEqual] accepts digit strings only: those
    shorter than [n], whatever their value, and those as long as [n] whose
    value is at most [n] (leading zeros included); a longer string is
    rejected, also when its value is small. *)
Theorem NumLessOrEqual_language (n : Z) (Hn : 0 <= n <= MAX_THRESHOLD) :
  exists re, Compile (anchored (NumLessOrEqual n)) = inr re
    /\ forall w, MatchString re w = true <->
         all_digits w
         /\ ((1 <= length w < length (Itoa n))%nat
             \/ (length w = length (Itoa n) /\ decimal_value w <= n)).
Proof.
  unfold MAX_THRESHOLD in Hn.
  assert (Sn : small n) by (unfold small; lia).
  destruct (NumLessOrEqual_anchored n) as (re & C & M);
    [change (10 ^ 10) with 10000000000; lia|].
  exists re. split; [exact C|]. intros w. rewrite M, lang_le_items. unfold le_alts.
  cbv zeta. rewrite accepts_app, orb_true_iff, accepts_fewer.
  rewrite pos_alts_spec by (first [apply Itoa_all_digits; lia | now apply Itoa_nonempty]).
  rewrite Itoa_value by exact Sn. split.
  - intros [[Hw L]|(xs & -> & Hxs & Hlen & Hv)].
    + split; [exact Hw|]. left. lia.
    + cbn [app]. split; [exact Hxs|]. right. split; [exact Hlen|exact Hv].
  - intros [Hw [L|[L V]]].
    + left. split; [exact Hw|lia].
    + right. exists w. repeat split; assumption.
Qed.

Lemma NumLessOrEqual_language_witness :
  exists re, Compile (anchored (NumLessOrEqual 100)) = inr re
    /\ forall w, MatchString re w = true <->
         all_digits w
         /\ ((1 <= length w < length (Itoa 100))%nat
             \/ (length w = length (Itoa 100) /\ decimal_value w <= 100)).
Proof. apply (NumLessOrEqual_language 100). unfold MAX_THRESHOLD. lia. Defined.

(** For [n <= 0], negative numbers included, [NumGreaterOrEqual] returns
    the pattern of any number, which accepts the non-empty digit strings. *)
Theorem NumGreaterOrEqual_nonpositive (n : Z) (Hn : n <= 0) :
  NumGreaterOrEqual n = VERSION_DIGITS
  /\ exists re, Compile (anchored (NumGreaterOrEqual n)) = inr re
       /\ forall w, MatchString re w = true <-> all_digits w /\ w <> [].
Proof.
  assert (E : NumGreaterOrEqual n = VERSION_DIGITS).
  { unfold NumGreaterOrEqual. destruct (Z.leb_spec n 0); [reflexivity|lia]. }
  split; [exact E|]. rewrite E.
  destruct (MatchString_anchored false VERSION_DIGITS [Digits]
              (pushes_VERSION_DIGITS false) pure_Digits) as (re & C & M).
  exists re. split; [exact C|]. intros w. rewrite M. apply lang_Digits.
Qed.

Lemma NumGreaterOrEqual_nonpositive_witness :
  NumGreaterOrEqual (-5) = VERSION_DIGITS
  /\ exists re, Compile (anchored (NumGreaterOrEqual (-5))) = inr re
       /\ forall w, MatchString re w = true <-> all_digits w /\ w <> [].
Proof. apply (NumGreaterOrEqual_nonpositive (-5)). lia. Defined.

(** ** Reading the three numbers of a version *)

(** [s] cut before the first [x], as [parseVersionParts] cuts the version
    before its tags. *)
Definition cut_at (x : ascii) (s : gostring) : gostring :=
  let idx := strings.Index s [x] in
  if negb (idx =? -1) then strings.slice_to s idx else s.

(** Where the rest of a version begins: at its end, or at a tag or a
    further component. *)
Definition starts_tail (t : gostring) : bool :=
  match t with
  | [] => true
  | c :: _ => existsb (Ascii.eqb c) "-+."
  end.

Lemma version_parts_cut v :
  version_parts v = strings.Split (cut_at "+" (cut_at "-" v)) ".".
Proof. reflexivity. Qed.

Lemma Index_range s sub : strings.Index s sub = -1 \/ 0 <= strings.Index s sub.
Proof.
  induction s as [|c s IH]; cbn [strings.Index].
  - destruct (strings.HasPrefix [] sub); [right; lia|now left].
  - destruct (strings.HasPrefix (c :: s) sub); [right; lia|]. cbv zeta.
    destruct (Z.ltb_spec (strings.Index s sub) 0); [now left|right; lia].
Qed.

Lemma cut_at_nil x : cut_at x [] = [].
Proof. reflexivity. Qed.

Lemma cut_at_head x r : cut_at x (x :: r) = [].
Proof.
  unfold cut_at. cbn [strings.Index]. rewrite HasPrefix_char, Ascii.eqb_refl. reflexivity.
Qed.

Lemma cut_at_skip x c s : c <> x -> cut_at x (c :: s) = c :: cut_at x s.
Proof.
  intros N. unfold cut_at. cbn [strings.Index]. rewrite HasPrefix_char.
  destruct (Ascii.eqb_spec c x) as [E|_]; [congruence|]. cbv zeta.
  destruct (Index_range s [x]) as [E|G].
  - rewrite E. reflexivity.
  - destruct (Z.ltb_spec (strings.Index s [x]) 0) as [L|L]; [lia|].
    destruct (Z.eqb_spec (strings.Index s [x] + 1) (-1)) as [E1|_]; [lia|].
    destruct (Z.eqb_spec (strings.Index s [x]) (-1)) as [E2|_]; [lia|].
    cbn [negb]. unfold strings.slice_to.
    replace (Z.to_nat (strings.Index s [x] + 1)) with (S (Z.to_nat (strings.Index s [x])))
      by lia.
    reflexivity.
Qed.

Lemma cut_at_app x a b : ~ In x a -> cut_at x (a ++ b) = a ++ cut_at x b.
Proof.
  induction a as [|c a IH]; intros H; [reflexivity|]. cbn [app].
  rewrite cut_at_skip by (intros ->; apply H; now left).
  rewrite IH by (intros Hin; apply H; now right). reflexivity.
Qed.

Lemma cut_at_absent x a : ~ In x a -> cut_at x a = a.
Proof.
  intros H. rewrite <- (app_nil_r a) at 1. rewrite cut_at_app by exact H.
  now rewrite cut_at_nil, app_nil_r.
Qed.

(** The parts of a numeric version followed by a tail: the three numerals,
    then whatever the tail adds. *)
Lemma version_parts_tail xs ys zs t :
  all_digits xs -> all_digits ys -> all_digits zs -> starts_tail t = true ->
  exists rest, version_parts (dotted xs ys zs ++ t) = xs :: ys :: zs :: rest.
Proof.
  intros Hx Hy Hz Ht. rewrite version_parts_cut.
  assert (A : forall x, is_digit x = false -> x <> "."%char -> ~ In x (dotted xs ys zs)).
  { intros x. now apply dotted_excludes. }
  assert (S3 : forall r, strings.Split (dotted xs ys zs ++ "."%char :: r) "."
                         = xs :: ys :: zs :: strings.split_byte "." r).
  { intros r. unfold strings.Split, dotted. rewrite <- !app_assoc. cbn [app].
    rewrite !split_byte_app by (now apply digits_exclude). reflexivity. }
  destruct t as [|c r].
  - exists []. rewrite app_nil_r.
    rewrite (cut_at_absent "-") by (apply A; [reflexivity|discriminate]).
    rewrite (cut_at_absent "+") by (apply A; [reflexivity|discriminate]).
    now apply Split_dotted.
  - cbn [starts_tail existsb] in Ht. rewrite orb_false_r in Ht.
    apply orb_true_iff in Ht as [Ht|Ht]; [|apply orb_true_iff in Ht as [Ht|Ht]];
      apply Ascii.eqb_eq in Ht; subst c.
    + exists []. rewrite (cut_at_app "-") by (apply A; [reflexivity|discriminate]).
      rewrite cut_at_head, app_nil_r.
      rewrite (cut_at_absent "+") by (apply A; [reflexivity|discriminate]).
      now apply Split_dotted.
    + exists []. rewrite (cut_at_app "-") by (apply A; [reflexivity|discriminate]).
      rewrite cut_at_skip by discriminate.
      rewrite (cut_at_app "+") by (apply A; [reflexivity|discriminate]).
      rewrite cut_at_head, app_nil_r. now apply Split_dotted.
    + eexists. rewrite (cut_at_app "-") by (apply A; [reflexivity|discriminate]).
      rewrite cut_at_skip by discriminate.
      rewrite (cut_at_app "+") by (apply A; [reflexivity|discriminate]).
      rewrite cut_at_skip by discriminate. apply S3.
Qed.

Lemma parseVersionParts_three v major minor patch rest :
  fits_int major -> fits_int minor -> fits_int patch ->
  version_parts v = Itoa major :: Itoa minor :: Itoa patch :: rest ->
  parseVersionParts v = Ok (major, minor, patch).
Proof.
  intros H1 H2 H3 E. unfold parseVersionParts. rewrite E.
  cbn [length Nat.leb nth]. rewrite !Atoi_Itoa by assumption. reflexivity.
Qed.

(** What the range builders make of a version depends on the result of
    [parseVersionParts] only. *)
Lemma range_operator_by_parts op v v' :
  In op range_operators -> parseVersionParts v = parseVersionParts v' ->
  constraintToRegex (mkConstraint op v) = constraintToRegex (mkConstraint op v').
Proof.
  intros Hop E. cbv [range_operators In] in Hop.
  destruct Hop as [<-|[<-|[<-|[<-|[<-|[<-|[<-|[<-|[]]]]]]]]].
  - change (greaterThanEqualRegex v = greaterThanEqualRegex v').
    unfold greaterThanEqualRegex. now rewrite E.
  - change (lessThanEqualRegex v = lessThanEqualRegex v').
    unfold lessThanEqualRegex. now rewrite E.
  - change (greaterThanRegex v = greaterThanRegex v').
    unfold greaterThanRegex. now rewrite E.
  - change (lessThanRegex v = lessThanRegex v'). unfold lessThanRegex. now rewrite E.
  - change (caretRangeRegex v = caretRangeRegex v'). unfold caretRangeRegex. now rewrite E.
  - change (tildeRangeRegex v = tildeRangeRegex v'). unfold tildeRangeRegex. now rewrite E.
  - change (tildeRangeRegex v = tildeRangeRegex v'). unfold tildeRangeRegex. now rewrite E.
  - change (tildeRangeRegex v = tildeRangeRegex v'). unfold tildeRangeRegex. now rewrite E.
Qed.

(** The range builders read the three numbers of a version and nothing
    else: a pre-release tag, a build tag or a fourth component after them
    changes neither the numbers read nor the pattern built. *)
Theorem range_operators_ignore_tail (op : gostring) (major minor patch : Z) (t : gostring)
    (Hop : In op range_operators)
    (HM : fits_int major) (Hm : fits_int minor) (Hp : fits_int patch)
    (Ht : starts_tail t = true) :
  parseVersionParts (ver major minor patch ++ t) = Ok (major, minor, patch)
  /\ constraintToRegex (mkConstraint op (ver major minor patch ++ t))
     = constraintToRegex (mkConstraint op (ver major minor patch)).
Proof.
  assert (E : parseVersionParts (ver major minor patch ++ t) = Ok (major, minor, patch)).
  { destruct (version_parts_tail (Itoa major) (Itoa minor) (Itoa patch) t) as [rest R];
      try (apply Itoa_all_digits; apply HM || apply Hm || apply Hp); [exact Ht|].
    now apply (parseVersionParts_three _ major minor patch rest). }
  split; [exact E|]. apply range_operator_by_parts; [exact Hop|].
  rewrite E. symmetry. now apply parseVersionParts_ver.
Qed.

Lemma range_operators_ignore_tail_witness :
  parseVersionParts (ver 1 2 3 ++ "-beta.1+build") = Ok (1, 2, 3)
  /\ constraintToRegex (mkConstraint OP_GREATER_EQUAL (ver 1 2 3 ++ "-beta.1+build"))
     = constraintToRegex (mkConstraint OP_GREATER_EQUAL (ver 1 2 3)).
Proof.
  apply (range_operators_ignore_tail OP_GREATER_EQUAL 1 2 3 "-beta.1+build");
    try (unfold fits_int, MaxInt64; lia); try reflexivity.
  simpl. tauto.
Defined.

Lemma version_parts_plain s :
  all_digits s -> version_parts s = [s].
Proof.
  intros H. rewrite version_parts_cut.
  rewrite (cut_at_absent "-") by (now apply digits_exclude).
  rewrite (cut_at_absent "+") by (now apply digits_exclude).
  unfold strings.Split. now apply split_byte_absent, digits_exclude.
Qed.

Lemma version_parts_pair xs ys :
  all_digits xs -> all_digits ys -> version_parts (xs ++ "." ++ ys) = [xs; ys].
Proof.
  intros Hx Hy. rewrite version_parts_cut.
  assert (A : forall x, is_digit x = false -> x <> "."%char -> ~ In x (xs ++ "." ++ ys)).
  { intros x Hd Hdot Hin. apply in_app_or in Hin as [Hin|Hin];
      [now apply (digits_exclude xs x)|].
    cbn [app In] in Hin. destruct Hin as [E|Hin]; [congruence|].
    now apply (digits_exclude ys x). }
  rewrite (cut_at_absent "-") by (apply A; [reflexivity|discriminate]).
  rewrite (cut_at_absent "+") by (apply A; [reflexivity|discriminate]).
  unfold strings.Split. cbn [app].
  rewrite split_byte_app by (now apply digits_exclude).
  rewrite split_byte_absent by (now apply digits_exclude). reflexivity.
Qed.

(** A version with fewer than three components is read with 0 for the
    missing ones, so a range constraint on [major] or [major.minor] builds
    the pattern of [major.0.0] or [major.minor.0]. *)
Theorem missing_components_are_zero (op : gostring) (major minor : Z)
    (Hop : In op range_operators) (HM : fits_int major) (Hm : fits_int minor) :
  parseVersionParts (Itoa major) = Ok (major, 0, 0)
  /\ parseVersionParts (Itoa major ++ "." ++ Itoa minor) = Ok (major, minor, 0)
  /\ constraintToRegex (mkConstraint op (Itoa major))
     = constraintToRegex (mkConstraint op (ver major 0 0))
  /\ constraintToRegex (mkConstraint op (Itoa major ++ "." ++ Itoa minor))
     = constraintToRegex (mkConstraint op (ver major minor 0)).
Proof.
  assert (Z0 : fits_int 0) by (unfold fits_int, MaxInt64; lia).
  assert (E1 : parseVersionParts (Itoa major) = Ok (major, 0, 0)).
  { unfold parseVersionParts.
    rewrite version_parts_plain by (apply Itoa_all_digits; apply HM).
    cbn [length Nat.leb nth]. rewrite Atoi_Itoa by assumption. reflexivity. }
  assert (E2 : parseVersionParts (Itoa major ++ "." ++ Itoa minor) = Ok (major, minor, 0)).
  { unfold parseVersionParts.
    rewrite version_parts_pair by (apply Itoa_all_digits; apply HM || apply Hm).
    cbn [length Nat.leb nth]. rewrite !Atoi_Itoa by assumption. reflexivity. }
  split; [exact E1|]. split; [exact E2|]. split.
  - apply range_operator_by_parts; [exact Hop|].
    rewrite E1. symmetry. now apply parseVersionParts_ver.
  - apply range_operator_by_parts; [exact Hop|].
    rewrite E2. symmetry. now apply parseVersionParts_ver.
Qed.

Lemma missing_components_are_zero_witness :
  parseVersionParts (Itoa 2) = Ok (2, 0, 0)
  /\ parseVersionParts (Itoa 2 ++ "." ++ Itoa 5) = Ok (2, 5, 0)
  /\ constraintToRegex (mkConstraint OP_CARET (Itoa 2))
     = constraintToRegex (mkConstraint OP_CARET (ver 2 0 0))
  /\ constraintToRegex (mkConstraint OP_CARET (Itoa 2 ++ "." ++ Itoa 5))
     = constraintToRegex (mkConstraint OP_CARET (ver 2 5 0)).
Proof.
  apply (missing_components_are_zero OP_CARET 2 5);
    try (unfold fits_int, MaxInt64; lia).
  simpl. tauto.
Defined.

Lemma Atoi_out_of_range s :
  all_digits s -> s <> [] -> MaxInt64 < decimal_value s -> snd (Atoi s) = false.
Proof.
  intros Hd Hne Hv. destruct s as [|c r]; [congruence|].
  assert (Hc : is_digit c = true) by (now apply all_digits_cons in Hd).
  rewrite Atoi_unsigned by exact Hc. unfold all_digits in Hd. rewrite Hd. cbn [snd].
  unfold in_int64. apply andb_false_iff. right. apply Z.leb_gt. exact Hv.
Qed.

Lemma Atoi_in_range s :
  all_digits s -> s <> [] -> decimal_value s <= MaxInt64 -> snd (Atoi s) = true.
Proof.
  intros Hd Hne Hv. rewrite Atoi_digits; [reflexivity|assumption..|].
  split; [|exact Hv]. now apply decimal_value_bound.
Qed.

(** The numbers of a version are Go [int]s: a range constraint on a
    version with a component above the largest 64-bit integer is refused,
    with the error of the first such component, while the exact-match
    builder, which never reads the numbers, quotes the same version into a
    pattern. *)
Theorem component_out_of_range (op xs ys zs : gostring)
    (Hop : In op range_operators)
    (Hx : all_digits xs) (Hy : all_digits ys) (Hz : all_digits zs)
    (Nx : xs <> []) (Ny : ys <> []) (Nz : zs <> [])
    (Hbig : MaxInt64 < decimal_value xs \/ MaxInt64 < decimal_value ys
            \/ MaxInt64 < decimal_value zs) :
  constraintToRegex (mkConstraint op (dotted xs ys zs))
  = Err (if MaxInt64 <? decimal_value xs then "invalid major version: " ++ xs
         else if MaxInt64 <? decimal_value ys then "invalid minor version: " ++ ys
         else "invalid patch version: " ++ zs)
  /\ constraintToRegex (mkConstraint OP_EQUAL_EQUAL (dotted xs ys zs))
     = Ok (version_pattern xs ys zs).
Proof.
  split.
  - apply range_operator_reads_parts; [exact Hop|].
    pose proof (version_parts_dotted xs ys zs Hx Hy Hz) as E.
    destruct (Z.ltb_spec MaxInt64 (decimal_value xs)) as [B1|B1].
    + rewrite (parseVersionParts_invalid _ 0); rewrite ?E; cbn [length nth];
        [reflexivity|lia|lia|now apply Atoi_out_of_range|intros j Hj; lia].
    + destruct (Z.ltb_spec MaxInt64 (decimal_value ys)) as [B2|B2].
      * rewrite (parseVersionParts_invalid _ 1); rewrite ?E; cbn [length nth];
          [reflexivity|lia|lia|now apply Atoi_out_of_range|].
        intros j Hj. destruct j as [|j]; [|lia]. cbn [nth]. now apply Atoi_in_range.
      * assert (B3 : MaxInt64 < decimal_value zs) by lia.
        rewrite (parseVersionParts_invalid _ 2); rewrite ?E; cbn [length nth];
          [reflexivity|lia|lia|now apply Atoi_out_of_range|].
        intros j Hj. destruct j as [|[|j]]; [| |lia]; cbn [nth]; now apply Atoi_in_range.
  - change (constraintToRegex (mkConstraint OP_EQUAL_EQUAL (dotted xs ys zs)))
      with (Ok (exactMatchRegex (dotted xs ys zs))).
    now rewrite exactMatchRegex_dotted.
Qed.

Lemma component_out_of_range_witness :
  constraintToRegex (mkConstraint OP_LESS (dotted "1" "9223372036854775808" "0"))
  = Err (if MaxInt64 <? decimal_value "1" then "invalid major version: " ++ "1"
         else if MaxInt64 <? decimal_value "9223372036854775808"
              then "invalid minor version: " ++ "9223372036854775808"
         else "invalid patch version: " ++ "0")
  /\ constraintToRegex (mkConstraint OP_EQUAL_EQUAL (dotted "1" "9223372036854775808" "0"))
     = Ok (version_pattern "1" "9223372036854775808" "0").
Proof.
  apply (component_out_of_range OP_LESS "1" "9223372036854775808" "0");
    try reflexivity; try discriminate.
  - simpl. tauto.
  - right. left. vm_compute. reflexivity.
Defined.

(** A version that is empty or begins with a hyphen, a plus or a dot has
    an empty major component, which is no number: the range builders
    refuse it, so a negative version cannot be written. *)
Theorem empty_major_rejected (op v : gostring)
    (Hop : In op range_operators) (Hv : starts_tail v = true) :
  constraintToRegex (mkConstraint op v) = Err "invalid major version: ".
Proof.
  apply range_operator_reads_parts; [exact Hop|].
  assert (E : exists rest, version_parts v = [] :: rest).
  { rewrite version_parts_cut. destruct v as [|c r]; [now exists []|].
    cbn [starts_tail existsb] in Hv. rewrite orb_false_r in Hv.
    apply orb_true_iff in Hv as [Hv|Hv]; [|apply orb_true_iff in Hv as [Hv|Hv]];
      apply Ascii.eqb_eq in Hv; subst c.
    - exists []. now rewrite cut_at_head.
    - exists []. rewrite cut_at_skip by discriminate. now rewrite cut_at_head.
    - eexists. rewrite !cut_at_skip by discriminate. unfold strings.Split.
      cbn [strings.split_byte]. rewrite Ascii.eqb_refl. reflexivity. }
  destruct E as [rest E].
  rewrite (parseVersionParts_invalid v 0); rewrite ?E; cbn [length nth];
    [reflexivity|lia|lia|reflexivity|intros j Hj; lia].
Qed.

Lemma empty_major_rejected_witness :
  constraintToRegex (mkConstraint OP_GREATER_EQUAL "-1.2.3")
  = Err "invalid major version: ".
Proof.
  apply (empty_major_rejected OP_GREATER_EQUAL "-1.2.3"); [simpl; tauto|reflexivity].
Defined.

(** ** Operators *)

Lemma gs_eqb_eq a b : gs_eqb a b = true <-> a = b.
Proof.
  revert b. induction a as [|x a IH]; intros [|y b]; cbn [gs_eqb];
    try (split; [discriminate|discriminate]); [tauto|].
  rewrite andb_true_iff, Ascii.eqb_eq, IH. split; [intros [-> ->]; reflexivity|].
  intros E. injection E as -> ->. tauto.
Qed.

Lemma gs_eqb_neq a b : a <> b -> gs_eqb a b = false.
Proof.
  intros N. destruct (gs_eqb a b) eqn:E; [|reflexivity]. apply gs_eqb_eq in E. congruence.
Qed.

(** The operators [constraintToRegex] has a builder for. *)
Definition known_operators : list gostring := operators ++ [OP_MAVEN_RANGE].

(** A constraint with any other operator, the empty one included, is
    refused with the operator's text in the error. *)
Theorem unsupported_operator (op v : gostring) (Hop : ~ In op known_operators) :
  constraintToRegex (mkConstraint op v) = Err ("unsupported operator: " ++ op).
Proof.
  unfold known_operators, operators in Hop. cbn [app In] in Hop.
  unfold constraintToRegex. cbn [Operator Version].
  rewrite !gs_eqb_neq by (intros E; apply Hop; rewrite E; tauto).
  cbn [orb]. unfold fmt.Errorf. f_equal. cbn. now rewrite app_nil_r.
Qed.

Lemma unsupported_operator_witness :
  constraintToRegex (mkConstraint ">>" "1.2.3") = Err ("unsupported operator: " ++ ">>").
Proof.
  apply (unsupported_operator ">>" "1.2.3").
  unfold known_operators, operators. cbn [app In].
  intros H. repeat (destruct H as [H|H]; [discriminate H|]). exact H.
Defined.

Lemma parseVersionParts_error v e :
  parseVersionParts v = Err e -> exists r, e = "invalid " ++ r.
Proof.
  unfold parseVersionParts.
  destruct (if (1 <=? length (version_parts v))%nat
            then Atoi (nth 0 (version_parts v) []) else (0, true)) as [major [|]];
    cbn [negb].
  - destruct (if (2 <=? length (version_parts v))%nat
              then Atoi (nth 1 (version_parts v) []) else (0, true)) as [minor [|]];
      cbn [negb].
    + destruct (if (3 <=? length (version_parts v))%nat
                then Atoi (nth 2 (version_parts v) []) else (0, true)) as [patch [|]];
        cbn [negb]; [discriminate|].
      intros H. injection H as <-. eexists. cbn. reflexivity.
    + intros H. injection H as <-. eexists. cbn. reflexivity.
  - intros H. injection H as <-. eexists. cbn. reflexivity.
Qed.

Lemma range_builder_outcome op v :
  In op range_operators ->
  (exists pattern, constraintToRegex (mkConstraint op v) = Ok pattern)
  \/ (exists r, constraintToRegex (mkConstraint op v) = Err ("invalid " ++ r)).
Proof.
  intros Hop. destruct (parseVersionParts v) as [[[major minor] patch]|e] eqn:E.
  - left. cbv [range_operators In] in Hop.
    destruct Hop as [<-|[<-|[<-|[<-|[<-|[<-|[<-|[<-|[]]]]]]]]];
      match goal with |- exists p, constraintToRegex (mkConstraint ?o v) = _ =>
        unfold constraintToRegex; cbn [Operator Version gs_eqb Ascii.eqb Bool.eqb andb orb]
      end;
      unfold greaterThanEqualRegex, lessThanEqualRegex, greaterThanRegex, lessThanRegex,
        caretRangeRegex, compatibleReleaseRegex, tildeRangeRegex; rewrite E;
      try (eexists; reflexivity).
    cbv zeta. destruct (length (lessThan_patterns major minor patch) =? 0)%nat;
      eexists; reflexivity.
  - right. destruct (parseVersionParts_error v e E) as [r ->]. exists r.
    now apply range_operator_reads_parts.
Qed.

Lemma mavenRangeRegex_outcome v :
  (exists pattern, mavenRangeRegex v = Ok pattern)
  \/ (exists r, mavenRangeRegex v = Err ("invalid " ++ r)).
Proof.
  unfold mavenRangeRegex, parseMavenRangeBounds.
  destruct (negb (length (strings.Split v ",") =? 2)%nat).
  - right. eexists. unfold fmt.Errorf. cbn. reflexivity.
  - left.
    destruct (negb (isnil (strings.TrimSpace (nth 0 (strings.Split v ",") [])))
              && negb (isnil (strings.TrimSpace (nth 1 (strings.Split v ",") []))));
      [eexists; reflexivity|].
    destruct (negb (isnil (strings.TrimSpace (nth 0 (strings.Split v ",") []))));
      [eexists; reflexivity|].
    destruct (negb (isnil (strings.TrimSpace (nth 1 (strings.Split v ",") []))));
      eexists; reflexivity.
Qed.

Lemma known_operator_outcome op v :
  In op known_operators ->
  (exists pattern, constraintToRegex (mkConstraint op v) = Ok pattern)
  \/ (exists r, constraintToRegex (mkConstraint op v) = Err ("invalid " ++ r)).
Proof.
  intros Hop. unfold known_operators, operators in Hop. cbn [app In] in Hop.
  assert (R : In op range_operators -> 
              (exists pattern, constraintToRegex (mkConstraint op v) = Ok pattern)
              \/ (exists r, constraintToRegex (mkConstraint op v) = Err ("invalid " ++ r)))
    by apply range_builder_outcome.
  unfold range_operators in R. cbn [In] in R.
  destruct Hop as [E|[E|[E|[E|[E|[E|[E|[E|[E|[E|[E|[E|[]]]]]]]]]]]]];
    try (apply R; rewrite E; tauto); subst op.
  - left. eexists. unfold notEqualRegex. reflexivity.
  - left. eexists. reflexivity.
  - left. eexists. reflexivity.
  - apply mavenRangeRegex_outcome.
Qed.

(** The parser only yields operators the compiler has a builder for, so a
    parsed constraint is never refused as unsupported: the compiler answers
    with a pattern or with an [invalid ...] error about the version. *)
Theorem parsed_operator_is_known (s : gostring) (c : VersionConstraint)
    (H : parseVersionConstraint s = Ok c) :
  In (Operator c) known_operators
  /\ ((exists pattern, constraintToRegex c = Ok pattern)
      \/ (exists r, constraintToRegex c = Err ("invalid " ++ r))).
Proof.
  assert (K : In (Operator c) known_operators).
  { unfold parseVersionConstraint in H. cbv zeta in H.
    destruct (strings.HasPrefix (strings.TrimSpace s) "["
              || strings.HasPrefix (strings.TrimSpace s) "(").
    - unfold parseMavenRange in H.
      destruct (length (strings.TrimSpace s) <? 3)%nat; [discriminate H|].
      match type of H with (if ?b then _ else _) = _ => destruct b end;
        [discriminate H|].
      injection H as <-. unfold known_operators. apply in_or_app. right. now left.
    - destruct (find (strings.HasPrefix (strings.TrimSpace s)) operators) as [op|] eqn:F.
      + injection H as <-. apply find_some in F as [F _].
        unfold known_operators. apply in_or_app. now left.
      + injection H as <-. unfold known_operators, operators. cbn. tauto. }
  split; [exact K|]. destruct c as [op v]. now apply known_operator_outcome.
Qed.

Lemma parsed_operator_is_known_witness :
  In (Operator (mkConstraint OP_PESSIMISTIC "1.2")) known_operators
  /\ ((exists pattern, constraintToRegex (mkConstraint OP_PESSIMISTIC "1.2") = Ok pattern)
      \/ (exists r,
            constraintToRegex (mkConstraint OP_PESSIMISTIC "1.2") = Err ("invalid " ++ r))).
Proof. apply (parsed_operator_is_known " ~> 1.2 "). reflexivity. Defined.

(** ** The not-equal operator *)

Lemma parseVersionConstraint_not_equal v :
  numeric_literal v ->
  parseVersionConstraint (OP_NOT_EQUAL ++ v) = Ok (mkConstraint OP_NOT_EQUAL v).
Proof.
  intros Hv. pose proof (TrimSpace_numeric v Hv) as Tv.
  apply numeric_literal_shape in Hv as (c & a & zs & E & Hc & Hz & Nz).
  unfold parseVersionConstraint.
  assert (T : strings.TrimSpace (OP_NOT_EQUAL ++ v) = OP_NOT_EQUAL ++ v).
  { subst v. refine (TrimSpace_operator _ _ (c :: a) zs _ Hz Nz). reflexivity. }
  rewrite T. clear T.
  assert (F : strings.HasPrefix (OP_NOT_EQUAL ++ v) "["
              || strings.HasPrefix (OP_NOT_EQUAL ++ v) "(" = false
              /\ find (strings.HasPrefix (OP_NOT_EQUAL ++ v)) operators = Some OP_NOT_EQUAL
              /\ skipn (length OP_NOT_EQUAL) (OP_NOT_EQUAL ++ v) = v).
  { rewrite E. repeat split; reflexivity. }
  destruct F as (F1 & F2 & F3). rewrite F1, F2, F3, Tv. reflexivity.
Qed.

(** The pattern of the not-equal operator opens with a negative
    lookahead, whatever the version, and Go's [regexp] has none: the
    builder succeeds, [regexp.Compile] refuses its pattern, and a
    constraint [!=major.minor.patch] always ends in an error. *)
Theorem notEqual_never_compiles (v : gostring) (major minor patch : Z)
    (HM : fits_int major) (Hm : fits_int minor) (Hp : fits_int patch) :
  (exists pattern,
      constraintToRegex (mkConstraint OP_NOT_EQUAL v) = Ok pattern
      /\ Compile pattern = inl ErrInvalidPerlOp)
  /\ VersionToRegex (OP_NOT_EQUAL ++ ver major minor patch)
     = Err ("failed to compile regex: " ++ regexp.Error ErrInvalidPerlOp)
  /\ forall s,
       VersionMatches s (OP_NOT_EQUAL ++ ver major minor patch)
       = Err ("failed to compile regex: " ++ regexp.Error ErrInvalidPerlOp).
Proof.
  assert (A : forall w, exists pattern,
               constraintToRegex (mkConstraint OP_NOT_EQUAL w) = Ok pattern
               /\ Compile pattern = inl ErrInvalidPerlOp).
  { intros w. destruct (notEqualRegex_shape w) as [rest E]. exists ("^(?!" ++ rest).
    split; [exact E|apply lookahead_rejected]. }
  split; [apply A|].
  assert (B : VersionToRegex (OP_NOT_EQUAL ++ ver major minor patch)
              = Err ("failed to compile regex: " ++ regexp.Error ErrInvalidPerlOp)).
  { unfold VersionToRegex.
    rewrite parseVersionConstraint_not_equal by (now apply numeric_literal_fits).
    destruct (A (ver major minor patch)) as (pattern & E & C). rewrite E, C. reflexivity. }
  split; [exact B|]. intros s. unfold VersionMatches. now rewrite B.
Qed.

Lemma notEqual_never_compiles_witness :
  (exists pattern,
      constraintToRegex (mkConstraint OP_NOT_EQUAL "v1.0.0") = Ok pattern
      /\ Compile pattern = inl ErrInvalidPerlOp)
  /\ VersionToRegex (OP_NOT_EQUAL ++ ver 1 2 3)
     = Err ("failed to compile regex: " ++ regexp.Error ErrInvalidPerlOp)
  /\ forall s,
       VersionMatches s (OP_NOT_EQUAL ++ ver 1 2 3)
       = Err ("failed to compile regex: " ++ regexp.Error ErrInvalidPerlOp).
Proof.
  apply (notEqual_never_compiles "v1.0.0" 1 2 3); unfold fits_int, MaxInt64; lia.
Defined.

(** ** Maven ranges *)

Definition is_open (c : ascii) : bool := Ascii.eqb c "[" || Ascii.eqb c "(".
Definition is_close (c : ascii) : bool := Ascii.eqb c "]" || Ascii.eqb c ")".

Lemma Errorf_maven_format (A : Type) (x : gostring) :
  @fmt.Errorf A "invalid Maven range format: %s" [fmt.Str x]
  = Err ("invalid Maven range format: " ++ x).
Proof. unfold fmt.Errorf. f_equal. cbn. now rewrite app_nil_r. Qed.

Lemma Errorf_maven_brackets (A : Type) (x : gostring) :
  @fmt.Errorf A "invalid Maven range brackets: %s" [fmt.Str x]
  = Err ("invalid Maven range brackets: " ++ x).
Proof. unfold fmt.Errorf. f_equal. cbn. now rewrite app_nil_r. Qed.

Lemma parseMavenRange_enclosed o d c :
  is_open o = true ->
  parseMavenRange (o :: c ++ [d])
  = if isnil c then Err ("invalid Maven range format: " ++ [o; d])
    else if is_close d then Ok (mkConstraint OP_MAVEN_RANGE c)
    else Err ("invalid Maven range brackets: " ++ o :: c ++ [d]).
Proof.
  intros Ho. unfold parseMavenRange. rewrite Errorf_maven_format, Errorf_maven_brackets.
  destruct c as [|x c]; [reflexivity|]. cbn [isnil].
  assert (L : length (o :: (x :: c) ++ [d]) = S (S (S (length c)))).
  { cbn [length app]. rewrite length_app. cbn [length]. lia. }
  rewrite L. cbn [Nat.ltb Nat.leb].
  assert (B0 : byte_at (o :: (x :: c) ++ [d]) 0 = o) by reflexivity.
  assert (B1 : byte_at (o :: (x :: c) ++ [d]) (Z.of_nat (S (S (S (length c)))) - 1) = d).
  { unfold byte_at.
    replace (Z.to_nat (Z.of_nat (S (S (S (length c)))) - 1)) with (S (length (x :: c)))
      by (cbn [length]; lia).
    cbn [nth]. rewrite app_nth2 by lia. now rewrite Nat.sub_diag. }
  rewrite B0, B1.
  assert (Ho' : negb (Ascii.eqb o "[") && negb (Ascii.eqb o "(") = false).
  { unfold is_open in Ho. destruct (Ascii.eqb o "["), (Ascii.eqb o "("); try reflexivity.
    discriminate Ho. }
  rewrite Ho'. cbn [orb].
  assert (Hd' : negb (Ascii.eqb d "]") && negb (Ascii.eqb d ")") = negb (is_close d)).
  { unfold is_close. now destruct (Ascii.eqb d "]"), (Ascii.eqb d ")"). }
  rewrite Hd'. destruct (is_close d); [|reflexivity]. cbn [negb].
  unfold strings.slice_from, strings.slice_to.
  replace (Z.to_nat (Z.of_nat (S (S (S (length c)))) - 2)) with (length (x :: c))
    by (cbn [length]; lia).
  change (skipn (Z.to_nat 1) (o :: (x :: c) ++ [d])) with ((x :: c) ++ [d]).
  rewrite firstn_app, Nat.sub_diag, firstn_all. cbn [firstn]. now rewrite app_nil_r.
Qed.

(** A constraint that opens with a bracket is a Maven range: with a closing
    bracket at its end, the parser keeps what is between the brackets and
    forgets which brackets they were, inclusive or exclusive; with nothing
    between them, or with another last character, it is refused. *)
Theorem maven_range_parsing (o d : ascii) (c : gostring)
    (Ho : is_open o = true) (Hd : plain d = true) :
  parseVersionConstraint (o :: c ++ [d])
  = if isnil c then Err ("invalid Maven range format: " ++ [o; d])
    else if is_close d then Ok (mkConstraint OP_MAVEN_RANGE c)
    else Err ("invalid Maven range brackets: " ++ o :: c ++ [d]).
Proof.
  unfold parseVersionConstraint. cbv zeta.
  assert (Po : plain o = true).
  { unfold is_open in Ho. apply orb_true_iff in Ho as [E|E]; apply Ascii.eqb_eq in E;
      subst o; reflexivity. }
  rewrite (TrimSpace_plain o (c ++ [d]) (o :: c) d eq_refl Po Hd).
  assert (B : strings.HasPrefix (o :: c ++ [d]) "[" || strings.HasPrefix (o :: c ++ [d]) "("
              = true).
  { rewrite !HasPrefix_char. exact Ho. }
  rewrite B. now apply parseMavenRange_enclosed.
Qed.

Lemma maven_range_parsing_witness :
  parseVersionConstraint ("["%char :: "1.0,2.0" ++ [")"%char])
  = if isnil "1.0,2.0" then Err ("invalid Maven range format: " ++ ["["%char; ")"%char])
    else if is_close ")" then Ok (mkConstraint OP_MAVEN_RANGE "1.0,2.0")
    else Err ("invalid Maven range brackets: " ++ "["%char :: "1.0,2.0" ++ [")"%char]).
Proof. apply (maven_range_parsing "[" ")" "1.0,2.0"); reflexivity. Defined.

Lemma split_byte_length sep s :
  length (strings.split_byte sep s) = S (count_occ ascii_dec s sep).
Proof.
  induction s as [|c s IH]; [reflexivity|]. cbn [strings.split_byte]. cbv zeta.
  destruct (Ascii.eqb_spec c sep) as [->|N].
  - rewrite count_occ_cons_eq by reflexivity. cbn [length]. now rewrite IH.
  - rewrite count_occ_cons_neq by exact N.
    destruct (strings.split_byte sep s) as [|p ps]; [discriminate IH|exact IH].
Qed.

(** What stands between the brackets of a Maven range must hold exactly
    one comma: then the builder returns a pattern, otherwise the error
    that names the text. *)
Theorem maven_range_needs_one_comma (c : gostring) :
  if (count_occ ascii_dec c ","%char =? 1)%nat
  then exists pattern, mavenRangeRegex c = Ok pattern
  else mavenRangeRegex c = Err ("invalid Maven range format: " ++ c).
Proof.
  unfold mavenRangeRegex, parseMavenRangeBounds. rewrite Errorf_maven_format.
  change (strings.Split c ",") with (strings.split_byte "," c).
  rewrite split_byte_length. cbn [Nat.eqb].
  destruct (count_occ ascii_dec c ","%char =? 1)%nat; cbn [negb]; [|reflexivity].
  destruct (negb (isnil (strings.TrimSpace (nth 0 (strings.split_byte "," c) [])))
            && negb (isnil (strings.TrimSpace (nth 1 (strings.split_byte "," c) []))));
    [eexists; reflexivity|].
  destruct (negb (isnil (strings.TrimSpace (nth 0 (strings.split_byte "," c) []))));
    [eexists; reflexivity|].
  destruct (negb (isnil (strings.TrimSpace (nth 1 (strings.split_byte "," c) []))));
    eexists; reflexivity.
Qed.

Lemma is_close_plain d : is_close d = true -> plain d = true.
Proof.
  unfold is_close. intros H. apply orb_true_iff in H as [E|E]; apply Ascii.eqb_eq in E;
    subst d; reflexivity.
Qed.

Lemma parseMavenRangeBounds_pair lo hi :
  ~ In ","%char lo -> ~ In ","%char hi ->
  strings.TrimSpace lo = lo -> strings.TrimSpace hi = hi ->
  parseMavenRangeBounds (lo ++ "," ++ hi) = Ok (lo, hi).
Proof.
  intros Nl Nh Tl Th. unfold parseMavenRangeBounds, strings.Split. cbn [app].
  rewrite split_byte_app by exact Nl. rewrite split_byte_absent by exact Nh.
  cbn [length Nat.eqb negb nth]. now rewrite Tl, Th.
Qed.

Lemma ver_no_comma major minor patch :
  fits_int major -> fits_int minor -> fits_int patch ->
  ~ In ","%char (ver major minor patch).
Proof.
  intros H1 H2 H3. apply dotted_excludes;
    try (apply Itoa_all_digits; apply H1 || apply H2 || apply H3);
    [reflexivity|discriminate].
Qed.

Lemma extractMajorVersion_ver major minor patch :
  fits_int major -> fits_int minor -> fits_int patch ->
  extractMajorVersion (ver major minor patch) = major.
Proof.
  intros H1 H2 H3. unfold extractMajorVersion, ver.
  rewrite Split_dotted by (apply Itoa_all_digits; apply H1 || apply H2 || apply H3).
  cbn [nth]. now rewrite Atoi_Itoa.
Qed.

Ltac normalise_app := repeat first [rewrite <- app_assoc | progress cbn [app]].

(** The patterns of the Maven builders, as version patterns. *)
Lemma maven_same_major_pattern a :
  fmt.Sprintf
    (REGEX_START ++ "%d" ++ VERSION_DOT ++ VERSION_DIGITS ++ VERSION_DOT ++ VERSION_DIGITS
     ++ VERSION_SUFFIX_PATTERN ++ REGEX_END) [fmt.Int a]
  = version_pattern (Itoa a) VERSION_DIGITS VERSION_DIGITS.
Proof. rewrite version_pattern_unfold. reflexivity. Qed.

Lemma maven_major_range_pattern a b :
  fmt.Sprintf
    (REGEX_START ++ "[%d-%d]" ++ VERSION_DOT ++ VERSION_DIGITS ++ VERSION_DOT
     ++ VERSION_DIGITS ++ VERSION_SUFFIX_PATTERN ++ REGEX_END) [fmt.Int a; fmt.Int b]
  = version_pattern ("[" ++ Itoa a ++ "-" ++ Itoa b ++ "]") VERSION_DIGITS VERSION_DIGITS.
Proof.
  rewrite version_pattern_unfold. cbn. normalise_app. reflexivity.
Qed.

Lemma mavenLowerBoundPattern_ver major minor patch :
  fits_int major -> fits_int minor -> fits_int patch ->
  mavenLowerBoundPattern (ver major minor patch)
  = version_pattern ("(?:[" ++ Itoa major ++ "-9]|\d{2,})") VERSION_DIGITS VERSION_DIGITS.
Proof.
  intros H1 H2 H3. unfold mavenLowerBoundPattern. cbv zeta.
  rewrite extractMajorVersion_ver by assumption.
  rewrite version_pattern_unfold. cbn. normalise_app. reflexivity.
Qed.

Lemma mavenUpperBoundPattern_ver major minor patch :
  fits_int major -> fits_int minor -> fits_int patch ->
  mavenUpperBoundPattern (ver major minor patch)
  = if 0 <? major
    then version_pattern ("[0-" ++ Itoa major ++ "]") VERSION_DIGITS VERSION_DIGITS
    else version_pattern "0" VERSION_DIGITS VERSION_DIGITS.
Proof.
  intros H1 H2 H3. unfold mavenUpperBoundPattern. cbv zeta.
  rewrite extractMajorVersion_ver by assumption. destruct (0 <? major).
  - rewrite version_pattern_unfold. cbn. normalise_app. reflexivity.
  - rewrite version_pattern_unfold. reflexivity.
Qed.

Lemma mavenBothBoundsPattern_ver a a1 a2 b b1 b2 :
  fits_int a -> fits_int a1 -> fits_int a2 -> fits_int b -> fits_int b1 -> fits_int b2 ->
  mavenBothBoundsPattern (ver a a1 a2) (ver b b1 b2)
  = if a =? b then version_pattern (Itoa a) VERSION_DIGITS VERSION_DIGITS
    else version_pattern ("[" ++ Itoa a ++ "-" ++ Itoa b ++ "]") VERSION_DIGITS
           VERSION_DIGITS.
Proof.
  intros. unfold mavenBothBoundsPattern. cbv zeta.
  rewrite !extractMajorVersion_ver by assumption.
  now rewrite maven_same_major_pattern, maven_major_range_pattern.
Qed.

(** A class of digits [[a-b]] as the Maven builders write it. *)
Definition major_class (a b : Z) : list regex := [Cls false [(digit_char a, digit_char b)]].

Definition lower_bound_group (a : Z) : list regex :=
  [mkAlt [mkCat [Cls false [(digit_char a, "9"%char)]]; mkCat [Rep Digit 2 None]]].

Lemma pushes_major_class la a b :
  0 <= a <= b -> b <= 9 ->
  pushes la ("[" ++ Itoa a ++ "-" ++ Itoa b ++ "]") (major_class a b).
Proof.
  intros H1 H2. assert (Ha : 0 <= a <= 9) by lia. assert (Hb : 0 <= b <= 9) by lia.
  apply digit_range_cases in Ha, Hb.
  repeat (destruct Ha as [->|Ha]); subst; repeat (destruct Hb as [->|Hb]); subst;
    try lia; by_reading.
Qed.

Lemma pushes_lower_bound_group la a :
  0 <= a <= 9 -> pushes la ("(?:[" ++ Itoa a ++ "-9]|\d{2,})") (lower_bound_group a).
Proof.
  intros H. apply digit_range_cases in H.
  repeat (destruct H as [->|H]; [by_reading|]). subst. by_reading.
Qed.

Lemma inverted_major_class_rejected a b :
  0 <= b < a -> a <= 9 ->
  Compile (version_pattern ("[" ++ Itoa a ++ "-" ++ Itoa b ++ "]") VERSION_DIGITS
             VERSION_DIGITS)
  = inl ErrInvalidCharRange.
Proof.
  intros H1 H2. assert (Ha : 0 <= a <= 9) by lia. assert (Hb : 0 <= b <= 9) by lia.
  apply digit_range_cases in Ha, Hb.
  repeat (destruct Ha as [->|Ha]); subst; repeat (destruct Hb as [->|Hb]); subst;
    try lia; vm_compute; reflexivity.
Qed.

Lemma pure_major_class a b : Forall pure (major_class a b).
Proof. constructor; [exact I|constructor]. Qed.

Lemma pure_lower_bound_group a : Forall pure (lower_bound_group a).
Proof. constructor; [|constructor]. cbn. tauto. Qed.

Lemma one_digit_between a b xs :
  0 <= a <= b -> b <= 9 -> is_canonical xs = true ->
  (exists x, xs = [x] /\ a <= byte_val x - 48 <= b) <-> a <= decimal_value xs <= b.
Proof.
  intros H1 H2 Hx. split.
  - intros (x & -> & Hv). rewrite decimal_value_cons. cbn [length]. cbn. lia.
  - intros Hv. destruct xs as [|x [|y r]]; [discriminate Hx| |].
    + exists x. split; [reflexivity|]. rewrite decimal_value_cons in Hv.
      cbn [length] in Hv. cbn in Hv. lia.
    + pose proof (canonical_lower_bound (x :: y :: r) Hx ltac:(cbn [length]; lia)) as L.
      cbn [length] in L.
      assert (P : 10 ^ 1 <= 10 ^ (Z.of_nat (S (S (length r))) - 1))
        by (apply Z.pow_le_mono_r; lia).
      change (10 ^ 1) with 10 in P. lia.
Qed.

Lemma lang_major_class a b xs :
  0 <= a <= b -> b <= 9 -> is_canonical xs = true ->
  lang (mkCat (major_class a b)) xs
  = (a <=? decimal_value xs) && (decimal_value xs <=? b).
Proof.
  intros H1 H2 Hx. apply eq_true_iff_eq.
  rewrite andb_true_iff, !Z.leb_le, <- (one_digit_between a b xs H1 H2 Hx).
  unfold major_class. rewrite lang_mkCat_single by exact I.
  rewrite lang_Cls. unfold in_class. cbn [existsb fst snd xorb].
  rewrite !digit_char_val by lia. split.
  - intros (x & -> & Hv). exists x. split; [reflexivity|].
    rewrite orb_false_r in Hv. apply andb_true_iff in Hv as [Ha Hb].
    apply Z.leb_le in Ha, Hb. lia.
  - intros (x & -> & Hv). exists x. split; [reflexivity|].
    rewrite orb_false_r. apply andb_true_iff. rewrite !Z.leb_le. lia.
Qed.

Lemma digits_only_major_class a b : 0 <= a <= b -> b <= 9 -> digits_only (major_class a b).
Proof.
  intros H1 H2 w H. unfold major_class in H. rewrite lang_mkCat_single in H by exact I.
  apply lang_Cls in H as (x & -> & Hv). unfold in_class in Hv.
  cbn [existsb fst snd xorb] in Hv. rewrite !digit_char_val in Hv by lia.
  rewrite orb_false_r in Hv. apply andb_true_iff in Hv as [Ha Hb].
  apply Z.leb_le in Ha, Hb. apply all_digits_cons. split; [|reflexivity].
  apply is_digit_spec. lia.
Qed.

Lemma lang_lower_bound_group_iff a w :
  0 <= a <= 9 ->
  lang (mkCat (lower_bound_group a)) w = true <->
  lang (mkCat (major_class a 9)) w = true \/ ((2 <= length w)%nat /\ all_digits w).
Proof.
  intros H. unfold lower_bound_group.
  rewrite lang_mkCat_single by (cbn; tauto).
  rewrite lang_mkAlt. cbn [existsb]. rewrite orb_false_r, orb_true_iff.
  change (Cls false [(digit_char a, "9"%char)] :: nil) with (major_class a 9).
  rewrite (lang_mkCat_single (Rep Digit 2 None)) by exact I.
  rewrite lang_Rep_Digit. cbn [le_opt]. tauto.
Qed.

Lemma digits_only_lower_bound_group a : 0 <= a <= 9 -> digits_only (lower_bound_group a).
Proof.
  intros H w Hw. apply lang_lower_bound_group_iff in Hw as [Hw|[_ Hw]]; [|exact Hw|exact H].
  revert Hw. apply digits_only_major_class; lia.
Qed.

Lemma lang_lower_bound_group a xs :
  0 <= a <= 9 -> is_canonical xs = true ->
  lang (mkCat (lower_bound_group a)) xs = (a <=? decimal_value xs).
Proof.
  intros H Hx. apply eq_true_iff_eq. rewrite lang_lower_bound_group_iff by exact H.
  rewrite lang_major_class by (lia || assumption).
  rewrite andb_true_iff, !Z.leb_le.
  pose proof (is_canonical_digits xs Hx) as Dx.
  pose proof (decimal_value_bound xs Dx) as B.
  destruct (Nat.le_gt_cases 2 (length xs)) as [L|L].
  - pose proof (canonical_lower_bound xs Hx L) as Lo.
    assert (P : 10 ^ 1 <= 10 ^ (Z.of_nat (length xs) - 1)) by (apply Z.pow_le_mono_r; lia).
    change (10 ^ 1) with 10 in P. split; [lia|]. intros _. right. now split.
  - assert (E : length xs = 1%nat).
    { pose proof (is_canonical_nonempty xs Hx) as N. destruct xs; [congruence|].
      cbn [length] in *. lia. }
    rewrite E in B. change (10 ^ Z.of_nat 1) with 10 in B. split.
    + intros [[Ha _]|[L2 _]]; lia.
    + intros Ha. left. lia.
Qed.

(** From a Maven range to its compiled pattern. *)
Lemma VersionMatches_maven o d c FA A s :
  is_open o = true -> is_close d = true -> c <> [] ->
  mavenRangeRegex c = Ok (version_pattern FA VERSION_DIGITS VERSION_DIGITS) ->
  pushes false FA A -> Forall pure A ->
  VersionMatches s (o :: c ++ [d])
  = Ok (lang (mkCat (clause A [Digits] [Digits] ++ suffix_items)) s).
Proof.
  intros Ho Hd Nc E FA' PA. unfold VersionMatches, VersionToRegex.
  rewrite (maven_range_parsing o d c Ho (is_close_plain d Hd)), Hd.
  destruct c as [|x c]; [congruence|]. cbn [isnil].
  change (constraintToRegex (mkConstraint OP_MAVEN_RANGE (x :: c)))
    with (mavenRangeRegex (x :: c)).
  rewrite E.
  destruct (version_pattern_match false FA VERSION_DIGITS VERSION_DIGITS A [Digits] [Digits]
              FA' (pushes_VERSION_DIGITS false) (pushes_VERSION_DIGITS false)
              PA pure_Digits pure_Digits) as (re & C & M).
  unfold Compile. rewrite C. now rewrite M.
Qed.

Lemma lang_major_clause A xs ys zs sfx :
  Forall pure A -> digits_only A ->
  is_canonical xs = true -> is_canonical ys = true -> is_canonical zs = true ->
  is_suffix sfx = true ->
  lang (mkCat (clause A [Digits] [Digits] ++ suffix_items)) (dotted xs ys zs ++ sfx)
  = lang (mkCat A) xs.
Proof.
  intros PA DA Hx Hy Hz Hs.
  pose proof (is_canonical_digits _ Hx) as Dx.
  pose proof (is_canonical_digits _ Hy) as Dy.
  pose proof (is_canonical_digits _ Hz) as Dz.
  pose proof (is_suffix_head _ Hs) as Ns.
  rewrite lang_clause_suffix; try assumption;
    try apply pure_Digits; try apply digits_only_Digits.
  rewrite Hs, !lang_Digits_canonical by assumption. now rewrite !andb_true_r.
Qed.

Lemma isnil_ver major minor patch : isnil (ver major minor patch) = false.
Proof.
  unfold ver, dotted. destruct (Itoa major); reflexivity.
Qed.

Lemma ver_nonempty_content lo hi : lo ++ "," ++ hi <> [].
Proof. destruct lo; discriminate. Qed.

Lemma mavenRangeRegex_both a a1 a2 b b1 b2 :
  fits_int a -> fits_int a1 -> fits_int a2 -> fits_int b -> fits_int b1 -> fits_int b2 ->
  mavenRangeRegex (ver a a1 a2 ++ "," ++ ver b b1 b2)
  = Ok (if a =? b then version_pattern (Itoa a) VERSION_DIGITS VERSION_DIGITS
        else version_pattern ("[" ++ Itoa a ++ "-" ++ Itoa b ++ "]") VERSION_DIGITS
               VERSION_DIGITS).
Proof.
  intros Ha Ha1 Ha2 Hb Hb1 Hb2. unfold mavenRangeRegex.
  rewrite parseMavenRangeBounds_pair;
    try (now apply ver_no_comma);
    try (apply TrimSpace_numeric; now apply numeric_literal_fits).
  rewrite !isnil_ver. cbn [negb andb].
  now rewrite mavenBothBoundsPattern_ver.
Qed.

(** A Maven range with both bounds compares major versions only, and both
    ends count as included: the minor and patch numbers of the bounds and
    the kind of the brackets play no part. With equal majors, or with
    one-digit majors in increasing order, a version matches exactly when
    its major lies between the two. *)
Theorem maven_both_bounds (o d : ascii) (a a1 a2 b b1 b2 : Z) (xs ys zs sfx : gostring)
    (Ho : is_open o = true) (Hd : is_close d = true)
    (Ha : fits_int a) (Ha1 : fits_int a1) (Ha2 : fits_int a2)
    (Hb : fits_int b) (Hb1 : fits_int b1) (Hb2 : fits_int b2)
    (Hab : a = b \/ (a < b /\ b <= 9))
    (Hx : is_canonical xs = true) (Hy : is_canonical ys = true) (Hz : is_canonical zs = true)
    (Hs : is_suffix sfx = true) :
  VersionMatches (dotted xs ys zs ++ sfx) (o :: (ver a a1 a2 ++ "," ++ ver b b1 b2) ++ [d])
  = Ok ((a <=? decimal_value xs) && (decimal_value xs <=? b)).
Proof.
  pose proof (mavenRangeRegex_both a a1 a2 b b1 b2 Ha Ha1 Ha2 Hb Hb1 Hb2) as E.
  destruct Hab as [<-|[L1 L2]].
  - rewrite Z.eqb_refl in E.
    rewrite (VersionMatches_maven o d _ (Itoa a) (map Chr (Itoa a)) _ Ho Hd
               (ver_nonempty_content _ _) E (numeral_fragment false a (proj1 Ha))
               (pure_literal _)).
    f_equal. rewrite lang_major_clause; try assumption;
      [|apply pure_literal|apply digits_only_literal, Itoa_all_digits, Ha].
    rewrite lang_numeral by (assumption || now apply fits_small).
    destruct (Z.eqb_spec (decimal_value xs) a) as [->|N].
    + now rewrite Z.leb_refl.
    + destruct (Z.leb_spec a (decimal_value xs)), (Z.leb_spec (decimal_value xs) a);
        try reflexivity; lia.
  - destruct (Z.eqb_spec a b) as [Eab|_]; [lia|].
    assert (A0 : 0 <= a <= b) by (split; [apply Ha|lia]).
    rewrite (VersionMatches_maven o d _ _ (major_class a b) _ Ho Hd
               (ver_nonempty_content _ _) E (pushes_major_class false a b A0 L2)
               (pure_major_class a b)).
    f_equal. rewrite lang_major_clause; try assumption;
      [|apply pure_major_class|now apply digits_only_major_class].
    now apply lang_major_class.
Qed.

Lemma maven_both_bounds_witness :
  VersionMatches (dotted "2" "9" "9" ++ "") ("["%char :: (ver 1 5 0 ++ "," ++ ver 2 0 0) ++ [")"%char])
  = Ok ((1 <=? decimal_value "2") && (decimal_value "2" <=? 2)).
Proof.
  apply (maven_both_bounds "[" ")" 1 5 0 2 0 0 "2" "9" "9" "");
    try (unfold fits_int, MaxInt64; lia); reflexivity.
Defined.

(** With one-digit majors in decreasing order the pattern holds the class
    of an empty range, which Go's [regexp] refuses: the constraint ends in
    a compile error. *)
Theorem maven_inverted_bounds (o d : ascii) (a a1 a2 b b1 b2 : Z)
    (Ho : is_open o = true) (Hd : is_close d = true)
    (Ha1 : fits_int a1) (Ha2 : fits_int a2) (Hb1 : fits_int b1) (Hb2 : fits_int b2)
    (Hab : 0 <= b < a) (H9 : a <= 9) :
  VersionToRegex (o :: (ver a a1 a2 ++ "," ++ ver b b1 b2) ++ [d])
  = Err ("failed to compile regex: " ++ regexp.Error ErrInvalidCharRange).
Proof.
  assert (Ha : fits_int a) by (unfold fits_int, MaxInt64; lia).
  assert (Hb : fits_int b) by (unfold fits_int, MaxInt64; lia).
  pose proof (mavenRangeRegex_both a a1 a2 b b1 b2 Ha Ha1 Ha2 Hb Hb1 Hb2) as E.
  destruct (Z.eqb_spec a b) as [Eab|_]; [lia|].
  unfold VersionToRegex.
  rewrite (maven_range_parsing o d _ Ho (is_close_plain d Hd)), Hd.
  destruct (ver a a1 a2 ++ "," ++ ver b b1 b2) as [|x c] eqn:Ec;
    [now apply ver_nonempty_content in Ec|].
  cbn [isnil].
  change (constraintToRegex (mkConstraint OP_MAVEN_RANGE (x :: c)))
    with (mavenRangeRegex (x :: c)).
  rewrite E, (inverted_major_class_rejected a b Hab H9). reflexivity.
Qed.

Lemma maven_inverted_bounds_witness :
  VersionToRegex ("["%char :: (ver 3 0 0 ++ "," ++ ver 1 0 0) ++ ["]"%char])
  = Err ("failed to compile regex: " ++ regexp.Error ErrInvalidCharRange).
Proof.
  apply (maven_inverted_bounds "[" "]" 3 0 0 1 0 0);
    try (unfold fits_int, MaxInt64; lia); reflexivity.
Defined.

Lemma TrimSpace_empty : strings.TrimSpace [] = [].
Proof. reflexivity. Qed.

Lemma mavenRangeRegex_lower a a1 a2 :
  fits_int a -> fits_int a1 -> fits_int a2 ->
  mavenRangeRegex (ver a a1 a2 ++ ",")
  = Ok (version_pattern ("(?:[" ++ Itoa a ++ "-9]|\d{2,})") VERSION_DIGITS VERSION_DIGITS).
Proof.
  intros Ha Ha1 Ha2. unfold mavenRangeRegex.
  change (ver a a1 a2 ++ ",") with (ver a a1 a2 ++ "," ++ []).
  rewrite parseMavenRangeBounds_pair;
    try (now apply ver_no_comma); try (intros []); try reflexivity;
    try (apply TrimSpace_numeric; now apply numeric_literal_fits).
  rewrite isnil_ver. cbn [negb andb isnil].
  now rewrite mavenLowerBoundPattern_ver.
Qed.

Lemma mavenRangeRegex_upper b b1 b2 :
  fits_int b -> fits_int b1 -> fits_int b2 ->
  mavenRangeRegex ("," ++ ver b b1 b2)
  = Ok (if 0 <? b
        then version_pattern ("[0-" ++ Itoa b ++ "]") VERSION_DIGITS VERSION_DIGITS
        else version_pattern "0" VERSION_DIGITS VERSION_DIGITS).
Proof.
  intros Hb Hb1 Hb2. unfold mavenRangeRegex.
  change ("," ++ ver b b1 b2) with ([] ++ "," ++ ver b b1 b2).
  rewrite parseMavenRangeBounds_pair;
    try (now apply ver_no_comma); try (intros []); try reflexivity;
    try (apply TrimSpace_numeric; now apply numeric_literal_fits).
  rewrite isnil_ver. cbn [negb andb isnil].
  now rewrite mavenUpperBoundPattern_ver.
Qed.

Lemma mavenRangeRegex_open :
  mavenRangeRegex "," = Ok (version_pattern VERSION_DIGITS VERSION_DIGITS VERSION_DIGITS).
Proof. rewrite version_pattern_unfold. reflexivity. Qed.

(** A Maven range with one bound, whose major has one digit, matches the
    versions with a major on the right side of it, the bound's own major
    included; with no bound at all it matches every version. *)
Theorem maven_open_bounds (o d : ascii) (a a1 a2 : Z) (xs ys zs sfx : gostring)
    (Ho : is_open o = true) (Hd : is_close d = true)
    (Ha : 0 <= a <= 9) (Ha1 : fits_int a1) (Ha2 : fits_int a2)
    (Hx : is_canonical xs = true) (Hy : is_canonical ys = true) (Hz : is_canonical zs = true)
    (Hs : is_suffix sfx = true) :
  VersionMatches (dotted xs ys zs ++ sfx) (o :: (ver a a1 a2 ++ ",") ++ [d])
  = Ok (a <=? decimal_value xs)
  /\ VersionMatches (dotted xs ys zs ++ sfx) (o :: ("," ++ ver a a1 a2) ++ [d])
     = Ok (decimal_value xs <=? a)
  /\ VersionMatches (dotted xs ys zs ++ sfx) (o :: "," ++ [d]) = Ok true.
Proof.
  assert (Fa : fits_int a) by (unfold fits_int, MaxInt64; lia).
  pose proof (is_canonical_digits xs Hx) as Dx.
  pose proof (decimal_value_bound xs Dx) as Bx.
  split; [|split].
  - assert (N : ver a a1 a2 ++ "," <> []) by (destruct (ver a a1 a2); discriminate).
    rewrite (VersionMatches_maven o d _ _ (lower_bound_group a) _ Ho Hd N
               (mavenRangeRegex_lower a a1 a2 Fa Ha1 Ha2)
               (pushes_lower_bound_group false a Ha) (pure_lower_bound_group a)).
    f_equal. rewrite lang_major_clause; try assumption;
      [|apply pure_lower_bound_group|now apply digits_only_lower_bound_group].
    now apply lang_lower_bound_group.
  - assert (N : "," ++ ver a a1 a2 <> []) by discriminate.
    pose proof (mavenRangeRegex_upper a a1 a2 Fa Ha1 Ha2) as E.
    destruct (Z.ltb_spec 0 a) as [L|L].
    + rewrite (VersionMatches_maven o d _ _ (major_class 0 a) _ Ho Hd N E
                 (pushes_major_class false 0 a ltac:(lia) ltac:(lia))
                 (pure_major_class 0 a)).
      f_equal. rewrite lang_major_clause; try assumption;
        [|apply pure_major_class|apply digits_only_major_class; lia].
      rewrite lang_major_class by (lia || assumption).
      destruct (Z.leb_spec 0 (decimal_value xs)); [reflexivity|lia].
    + assert (a = 0) by lia. subst a.
      rewrite (VersionMatches_maven o d _ "0" (map Chr (Itoa 0)) _ Ho Hd N E
                 (numeral_fragment false 0 ltac:(lia)) (pure_literal _)).
      f_equal. rewrite lang_major_clause; try assumption;
        [|apply pure_literal|apply digits_only_literal; reflexivity].
      rewrite lang_numeral by (assumption || (unfold small; lia)).
      destruct (Z.eqb_spec (decimal_value xs) 0), (Z.leb_spec (decimal_value xs) 0);
        try reflexivity; lia.
  - assert (N : "," <> @nil ascii) by discriminate.
    rewrite (VersionMatches_maven o d "," VERSION_DIGITS [Digits] _ Ho Hd N
               mavenRangeRegex_open (pushes_VERSION_DIGITS false) pure_Digits).
    f_equal. rewrite lang_major_clause; try assumption;
      [|apply pure_Digits|apply digits_only_Digits].
    now apply lang_Digits_canonical.
Qed.

Lemma maven_open_bounds_witness :
  VersionMatches (dotted "12" "0" "1" ++ "") ("["%char :: (ver 2 0 0 ++ ",") ++ [")"%char])
  = Ok (2 <=? decimal_value "12")
  /\ VersionMatches (dotted "12" "0" "1" ++ "") ("["%char :: ("," ++ ver 2 0 0) ++ [")"%char])
     = Ok (decimal_value "12" <=? 2)
  /\ VersionMatches (dotted "12" "0" "1" ++ "") ("["%char :: "," ++ [")"%char]) = Ok true.
Proof.
  apply (maven_open_bounds "[" ")" 2 0 0 "12" "0" "1" "");
    try (unfold fits_int, MaxInt64; lia); reflexivity.
Defined.

(** ** Wildcards *)

Lemma Index_found s x : In x s -> 0 <= strings.Index s [x].
Proof.
  induction s as [|c s IH]; intros H; [destruct H|].
  cbn [strings.Index]. rewrite HasPrefix_char.
  destruct (Ascii.eqb_spec c x) as [E|N]; [lia|].
  destruct H as [H|H]; [congruence|]. specialize (IH H). cbv zeta.
  destruct (Z.ltb_spec (strings.Index s [x]) 0); lia.
Qed.

Lemma Contains_found s x : In x s -> strings.Contains s [x] = true.
Proof. intros H. unfold strings.Contains. apply Z.leb_le. now apply Index_found. Qed.

Lemma digits_not_star xs : all_digits xs -> gs_eqb xs "*" = false.
Proof.
  intros H. apply gs_eqb_neq. intros ->. discriminate H.
Qed.

Lemma wildcardToRegex_major xs :
  all_digits xs ->
  wildcardToRegex (xs ++ ".*") = version_pattern xs VERSION_DIGITS VERSION_DIGITS.
Proof.
  intros Hx. unfold wildcardToRegex. cbv zeta. unfold strings.Split.
  change (xs ++ ".*") with (xs ++ "."%char :: "*").
  rewrite split_byte_app by (now apply digits_exclude).
  change (strings.split_byte "." "*") with ["*" : gostring].
  unfold convertWildcardParts. cbn [map]. rewrite digits_not_star by exact Hx.
  rewrite QuoteMeta_digits by exact Hx.
  change (gs_eqb "*" "*") with true. cbv iota.
  unfold padToSemanticVersion. cbn [length Nat.eqb Nat.sub nth].
  change (gs_eqb "*" "*") with true. cbn [negb pad_loop length Nat.ltb Nat.leb app].
  rewrite version_pattern_unfold. cbn [strings.Join]. unfold REGEX_START, REGEX_END.
  normalise_app. reflexivity.
Qed.

Lemma wildcardToRegex_minor xs ys :
  all_digits xs -> all_digits ys ->
  wildcardToRegex (xs ++ "." ++ ys ++ ".*") = version_pattern xs ys VERSION_DIGITS.
Proof.
  intros Hx Hy. unfold wildcardToRegex. cbv zeta. unfold strings.Split.
  change (xs ++ "." ++ ys ++ ".*") with (xs ++ "."%char :: ys ++ "."%char :: "*").
  rewrite !split_byte_app by (now apply digits_exclude).
  change (strings.split_byte "." "*") with ["*" : gostring].
  unfold convertWildcardParts. cbn [map]. rewrite !digits_not_star by assumption.
  rewrite !QuoteMeta_digits by assumption.
  change (gs_eqb "*" "*") with true. cbv iota.
  unfold padToSemanticVersion. cbn [length Nat.eqb Nat.sub nth].
  change (gs_eqb "*" "*") with true. cbn [negb pad_loop length Nat.ltb Nat.leb app].
  rewrite version_pattern_unfold. cbn [strings.Join]. unfold REGEX_START, REGEX_END.
  normalise_app. reflexivity.
Qed.

Lemma parseVersionConstraint_digit_first c r r' d :
  c :: r = r' ++ [d] -> is_digit c = true -> plain d = true ->
  parseVersionConstraint (c :: r) = Ok (mkConstraint OP_EQUAL_EQUAL (c :: r)).
Proof.
  intros E Hc Hd. unfold parseVersionConstraint. cbv zeta.
  rewrite (TrimSpace_plain c r r' d E (digit_plain c Hc) Hd).
  assert (B : strings.HasPrefix (c :: r) "[" || strings.HasPrefix (c :: r) "(" = false).
  { rewrite !HasPrefix_char. apply digit_cases in Hc. cbn [In] in Hc.
    repeat (destruct Hc as [<-|Hc]; [reflexivity|]). destruct Hc. }
  rewrite B.
  rewrite (find_none_intro _ _ (fun op H => digit_not_operator c r op Hc H)).
  reflexivity.
Qed.

Lemma VersionMatches_exact_pattern v FA FB FC A B C s :
  parseVersionConstraint v = Ok (mkConstraint OP_EQUAL_EQUAL v) ->
  exactMatchRegex v = version_pattern FA FB FC ->
  pushes false FA A -> pushes false FB B -> pushes false FC C ->
  Forall pure A -> Forall pure B -> Forall pure C ->
  VersionMatches s v = Ok (lang (mkCat (clause A B C ++ suffix_items)) s).
Proof.
  intros P E FA' FB' FC' PA PB PC. unfold VersionMatches, VersionToRegex. rewrite P.
  change (constraintToRegex (mkConstraint OP_EQUAL_EQUAL v)) with (Ok (exactMatchRegex v)).
  rewrite E.
  destruct (version_pattern_match false FA FB FC A B C FA' FB' FC' PA PB PC) as (re & C' & M).
  unfold Compile. rewrite C'. now rewrite M.
Qed.

Lemma wildcard_parsed xs w :
  all_digits xs -> xs <> [] ->
  parseVersionConstraint (xs ++ w ++ "*") = Ok (mkConstraint OP_EQUAL_EQUAL (xs ++ w ++ "*")).
Proof.
  intros Hx Nx. destruct xs as [|c xs']; [congruence|].
  apply all_digits_cons in Hx as [Hc _]. cbn [app].
  apply (parseVersionConstraint_digit_first c _ (c :: xs' ++ w) "*"); [|exact Hc|reflexivity].
  cbn [app]. now rewrite <- app_assoc.
Qed.

Lemma exactMatchRegex_wildcard v : In "*"%char v -> exactMatchRegex v = wildcardToRegex v.
Proof. intros H. unfold exactMatchRegex. now rewrite Contains_found. Qed.

(** A star stands for any number, and a version that ends in a star is
    filled up to three components: [*] matches every version, [major.*]
    those with that major, [major.minor.*] those with that major and
    minor. *)
Theorem wildcard_correct (major minor : Z) (xs ys zs sfx : gostring)
    (HM : fits_int major) (Hm : fits_int minor)
    (Hx : is_canonical xs = true) (Hy : is_canonical ys = true) (Hz : is_canonical zs = true)
    (Hs : is_suffix sfx = true) :
  VersionMatches (dotted xs ys zs ++ sfx) "*" = Ok true
  /\ VersionMatches (dotted xs ys zs ++ sfx) (Itoa major ++ ".*")
     = Ok (decimal_value xs =? major)
  /\ VersionMatches (dotted xs ys zs ++ sfx) (Itoa major ++ "." ++ Itoa minor ++ ".*")
     = Ok ((decimal_value xs =? major) && (decimal_value ys =? minor)).
Proof.
  pose proof (is_canonical_digits _ Hx) as Dx.
  pose proof (is_canonical_digits _ Hy) as Dy.
  pose proof (is_canonical_digits _ Hz) as Dz.
  pose proof (is_suffix_head _ Hs) as Ns.
  assert (AM : all_digits (Itoa major)) by (apply Itoa_all_digits, HM).
  assert (Am : all_digits (Itoa minor)) by (apply Itoa_all_digits, Hm).
  assert (NM : Itoa major <> []) by (now apply Itoa_nonempty, fits_small).
  split; [|split].
  - rewrite (VersionMatches_exact_pattern "*" VERSION_DIGITS VERSION_DIGITS VERSION_DIGITS
               [Digits] [Digits] [Digits]);
      try apply pushes_VERSION_DIGITS; try apply pure_Digits;
      [|reflexivity|rewrite version_pattern_unfold; reflexivity].
    f_equal. rewrite lang_major_clause; try assumption;
      [|apply pure_Digits|apply digits_only_Digits].
    now apply lang_Digits_canonical.
  - rewrite (VersionMatches_exact_pattern (Itoa major ++ ".*") (Itoa major) VERSION_DIGITS
               VERSION_DIGITS (map Chr (Itoa major)) [Digits] [Digits]);
      try apply pushes_VERSION_DIGITS; try apply pure_Digits; try apply pure_literal;
      try (apply numeral_fragment, HM).
    + f_equal. rewrite lang_major_clause; try assumption;
        [|apply pure_literal|now apply digits_only_literal].
      apply lang_numeral; [now apply fits_small|assumption].
    + exact (wildcard_parsed (Itoa major) "." AM NM).
    + rewrite exactMatchRegex_wildcard by (apply in_or_app; right; cbn; tauto).
      now apply wildcardToRegex_major.
  - rewrite (VersionMatches_exact_pattern (Itoa major ++ "." ++ Itoa minor ++ ".*")
               (Itoa major) (Itoa minor) VERSION_DIGITS
               (map Chr (Itoa major)) (map Chr (Itoa minor)) [Digits]);
      try apply pushes_VERSION_DIGITS; try apply pure_Digits; try apply pure_literal;
      try (apply numeral_fragment, HM); try (apply numeral_fragment, Hm).
    + f_equal. rewrite lang_clause_suffix; try assumption;
        try apply pure_literal; try apply pure_Digits; try apply digits_only_Digits;
        try (now apply digits_only_literal).
      rewrite Hs, lang_Digits_canonical by assumption.
      rewrite !lang_numeral by (assumption || now apply fits_small).
      now rewrite !andb_true_r.
    + pose proof (wildcard_parsed (Itoa major) ("." ++ Itoa minor ++ ".") AM NM) as P.
      rewrite <- !app_assoc in P. exact P.
    + rewrite exactMatchRegex_wildcard
        by (apply in_or_app; right; apply in_or_app; right; apply in_or_app; right;
            cbn; tauto).
      now apply wildcardToRegex_minor.
Qed.

Lemma wildcard_correct_witness :
  VersionMatches (dotted "1" "7" "0" ++ "-rc.1") "*" = Ok true
  /\ VersionMatches (dotted "1" "7" "0" ++ "-rc.1") (Itoa 1 ++ ".*")
     = Ok (decimal_value "1" =? 1)
  /\ VersionMatches (dotted "1" "7" "0" ++ "-rc.1") (Itoa 1 ++ "." ++ Itoa 2 ++ ".*")
     = Ok ((decimal_value "1" =? 1) && (decimal_value "7" =? 2)).
Proof.
  apply (wildcard_correct 1 2 "1" "7" "0" "-rc.1");
    try (unfold fits_int, MaxInt64; lia); reflexivity.
Defined.

(** ** Go module versions *)

Lemma pushes_PRE_RELEASE_PATTERN la : pushes la PRE_RELEASE_PATTERN [optional_tag "-"].
Proof. by_reading. Qed.

Lemma go_part_digits pattern i part :
  all_digits part ->
  go_part pattern (i, part)
  = (if 0 <? i then pattern ++ VERSION_DOT else pattern) ++ part.
Proof.
  intros H. unfold go_part. cbn [fst snd].
  rewrite (Contains_absent part "-" "") by (now apply digits_exclude).
  now rewrite QuoteMeta_digits.
Qed.

Lemma exactMatchRegex_go_module major minor patch :
  fits_int major -> fits_int minor -> fits_int patch ->
  exactMatchRegex ("v" ++ ver major minor patch)
  = anchored ("v" ++ Itoa major ++ VERSION_DOT ++ Itoa minor ++ VERSION_DOT ++ Itoa patch
              ++ PRE_RELEASE_PATTERN).
Proof.
  intros H1 H2 H3.
  assert (A1 : all_digits (Itoa major)) by (apply Itoa_all_digits, H1).
  assert (A2 : all_digits (Itoa minor)) by (apply Itoa_all_digits, H2).
  assert (A3 : all_digits (Itoa patch)) by (apply Itoa_all_digits, H3).
  assert (A : forall x, is_digit x = false -> x <> "."%char -> ~ In x (ver major minor patch)).
  { intros x. now apply dotted_excludes. }
  unfold exactMatchRegex.
  assert (C : strings.Contains ("v" ++ ver major minor patch) "*" = false).
  { apply Contains_absent. cbn [app In]. intros [E|E]; [discriminate E|].
    revert E. apply A; [reflexivity|discriminate]. }
  rewrite C.
  assert (G : isGoModuleVersion ("v" ++ ver major minor patch) = true).
  { unfold isGoModuleVersion. cbn [app]. rewrite HasPrefix_char.
    pose proof (isnil_ver major minor patch) as N.
    destruct (ver major minor patch); [discriminate N|reflexivity]. }
  rewrite G. unfold goModuleVersionRegex. cbv zeta.
  change (skipn 1 ("v" ++ ver major minor patch)) with (ver major minor patch).
  rewrite (Contains_absent (ver major minor patch) "-" "")
    by (apply A; [reflexivity|discriminate]).
  cbn [andb negb]. unfold ver at 1. rewrite Split_dotted by assumption.
  change (enumerate [Itoa major; Itoa minor; Itoa patch])
    with [(0, Itoa major); (1, Itoa minor); (2, Itoa patch)].
  cbn [fold_left]. rewrite !go_part_digits by assumption.
  cbn [Z.ltb Z.compare]. unfold anchored, REGEX_START, REGEX_END.
  normalise_app. reflexivity.
Qed.

Lemma parseVersionConstraint_go_module major minor patch :
  fits_int major -> fits_int minor -> fits_int patch ->
  parseVersionConstraint ("v" ++ ver major minor patch)
  = Ok (mkConstraint OP_EQUAL_EQUAL ("v" ++ ver major minor patch)).
Proof.
  intros H1 H2 H3.
  destruct (numeric_literal_shape _ (numeric_literal_fits major minor patch H1 H2 H3))
    as (c & a & zs & E & Hc & Hz & Nz).
  rewrite E. unfold parseVersionConstraint. cbv zeta.
  change ("v" ++ c :: a ++ zs) with ("v"%char :: (c :: a) ++ zs).
  rewrite (TrimSpace_ends_digits "v" (c :: a) zs eq_refl Hz Nz).
  change (strings.HasPrefix ("v"%char :: (c :: a) ++ zs) "["
          || strings.HasPrefix ("v"%char :: (c :: a) ++ zs) "(") with false.
  rewrite find_none_intro; [reflexivity|].
  intros op Hop. unfold operators in Hop. cbn [In] in Hop.
  repeat (destruct Hop as [<-|Hop]; [reflexivity|]). destruct Hop.
Qed.

(** A version with the [v] prefix of Go modules is matched with its prefix:
    the pattern accepts the version's own text, alone or followed by a
    pre-release tag, and nothing else; a build tag is not accepted, nor the
    version without its [v]. *)
Theorem go_module_exact (major minor patch : Z)
    (HM : fits_int major) (Hm : fits_int minor) (Hp : fits_int patch) :
  exists re,
    VersionToRegex ("v" ++ ver major minor patch) = Ok re
    /\ forall s,
         MatchString re s = true <->
         exists t, s = "v" ++ ver major minor patch ++ t
                   /\ isnil t || is_tag "-" t = true.
Proof.
  assert (F : pushes false
                ("v" ++ Itoa major ++ VERSION_DOT ++ Itoa minor ++ VERSION_DOT ++ Itoa patch
                 ++ PRE_RELEASE_PATTERN)
                (map Chr ("v" ++ ver major minor patch) ++ [optional_tag "-"])).
  { unfold ver, dotted. rewrite !map_app.
    change (map Chr "v") with [Chr "v"]. change (map Chr ".") with [Chr "."].
    rewrite <- !app_assoc.
    apply pushes_app; [by_reading|].
    apply pushes_app; [apply numeral_fragment, HM|].
    apply pushes_app; [apply pushes_VERSION_DOT|].
    apply pushes_app; [apply numeral_fragment, Hm|].
    apply pushes_app; [apply pushes_VERSION_DOT|].
    apply pushes_app; [apply numeral_fragment, Hp|].
    apply pushes_PRE_RELEASE_PATTERN. }
  assert (PO : Forall pure [optional_tag "-"])
    by (constructor; [apply pure_optional_tag|constructor]).
  assert (P : Forall pure (map Chr ("v" ++ ver major minor patch) ++ [optional_tag "-"])).
  { apply Forall_app. split; [apply pure_literal|exact PO]. }
  destruct (MatchString_anchored false _ _ F P) as (re & C & M).
  exists re. split.
  - unfold VersionToRegex. rewrite parseVersionConstraint_go_module by assumption.
    change (constraintToRegex (mkConstraint OP_EQUAL_EQUAL ("v" ++ ver major minor patch)))
      with (Ok (exactMatchRegex ("v" ++ ver major minor patch))).
    rewrite exactMatchRegex_go_module by assumption.
    unfold Compile, anchored. now rewrite C.
  - intros s. rewrite M. rewrite lang_mkCat_app by (apply pure_literal || exact PO). split.
    + intros (w1 & w2 & -> & H1 & H2). apply lang_literal in H1. subst w1.
      rewrite lang_mkCat_single in H2 by apply pure_optional_tag.
      rewrite lang_optional_tag in H2. exists w2. split; [|exact H2].
      now rewrite <- app_assoc.
    + intros (t & -> & Ht). exists ("v" ++ ver major minor patch), t.
      split; [now rewrite <- app_assoc|]. split; [now apply lang_literal|].
      rewrite lang_mkCat_single by apply pure_optional_tag.
      now rewrite lang_optional_tag.
Qed.

Lemma go_module_exact_witness :
  exists re,
    VersionToRegex ("v" ++ ver 1 2 3) = Ok re
    /\ forall s,
         MatchString re s = true <->
         exists t, s = "v" ++ ver 1 2 3 ++ t /\ isnil t || is_tag "-" t = true.
Proof. apply (go_module_exact 1 2 3); unfold fits_int, MaxInt64; lia. Defined.

(** ** White space around a constraint *)

(** The white space of ASCII: tab, line feed, vertical tab, form feed,
    carriage return and the space. *)
Definition is_ascii_space (c : ascii) : bool :=
  let v := byte_val c in ((9 <=? v) && (v <=? 13)) || (v =? 32).

Lemma ascii_space_cases c :
  is_ascii_space c = true ->
  In c (map byte_of_Z [9; 10; 11; 12; 13; 32]).
Proof.
  unfold is_ascii_space. cbv zeta. intros H. rewrite <- (byte_of_Z_val c).
  apply in_map. cbn [In].
  apply orb_true_iff in H as [H|H].
  - apply andb_true_iff in H as [H1 H2]. apply Z.leb_le in H1, H2. lia.
  - apply Z.eqb_eq in H. lia.
Qed.

Lemma leading_space_ascii c s :
  is_ascii_space c = true -> strings.leading_space (c :: s) = 1%nat.
Proof.
  intros H. apply ascii_space_cases in H. cbn [map In] in H.
  repeat (destruct H as [<-|H]; [reflexivity|]). destruct H.
Qed.

Lemma trailing_space_ascii s c :
  is_ascii_space c = true -> strings.trailing_space (s ++ [c]) = 1%nat.
Proof.
  intros H. unfold strings.trailing_space, strings.HasSuffix. rewrite rev_unit.
  generalize (rev s) as t. intros t.
  apply ascii_space_cases in H. cbn [map In] in H.
  repeat (destruct H as [<-|H]; [reflexivity|]). destruct H.
Qed.

Lemma trim_left_plain n c r : plain c = true -> strings.trim_left n (c :: r) = c :: r.
Proof.
  intros H. destruct n as [|n]; [reflexivity|].
  cbn [strings.trim_left]. now rewrite leading_space_plain.
Qed.

Lemma trim_left_pad pad body n :
  forallb is_ascii_space pad = true -> (length pad <= n)%nat ->
  strings.trim_left n (pad ++ body) = strings.trim_left (n - length pad) body.
Proof.
  revert n. induction pad as [|c pad IH]; intros n H L.
  - cbn [app length]. now rewrite Nat.sub_0_r.
  - cbn [forallb] in H. apply andb_true_iff in H as [Hc H].
    cbn [length] in L. destruct n as [|n]; [lia|].
    cbn [app strings.trim_left]. rewrite leading_space_ascii by exact Hc.
    cbn [skipn length Nat.sub]. apply IH; [exact H|lia].
Qed.

Lemma trim_right_plain n r d : plain d = true -> strings.trim_right n (r ++ [d]) = r ++ [d].
Proof.
  intros H. destruct n as [|n]; [reflexivity|].
  cbn [strings.trim_right]. now rewrite trailing_space_plain.
Qed.

Lemma trim_right_pad pad body n :
  forallb is_ascii_space pad = true -> (length pad <= n)%nat ->
  strings.trim_right n (body ++ pad) = strings.trim_right (n - length pad) body.
Proof.
  revert n. induction pad as [|c pad IH] using rev_ind; intros n H L.
  - rewrite app_nil_r. cbn [length]. now rewrite Nat.sub_0_r.
  - rewrite forallb_app in H. apply andb_true_iff in H as [H Hc].
    cbn [forallb] in Hc. rewrite andb_true_r in Hc.
    rewrite length_app in L |- *. cbn [length] in L |- *.
    destruct n as [|n]; [lia|].
    rewrite app_assoc. cbn [strings.trim_right].
    rewrite trailing_space_ascii by exact Hc.
    rewrite length_app. cbn [length].
    replace (length (body ++ pad) + 1 - 1)%nat with (length (body ++ pad)) by lia.
    rewrite firstn_app, Nat.sub_diag, firstn_all. cbn [firstn]. rewrite app_nil_r.
    rewrite IH by (assumption || lia). f_equal. lia.
Qed.

(** [TrimSpace] removes ASCII white space on both sides of a text that
    begins and ends with a printable character. *)
Lemma TrimSpace_padded pad1 pad2 c r r' d :
  c :: r = r' ++ [d] -> plain c = true -> plain d = true ->
  forallb is_ascii_space pad1 = true -> forallb is_ascii_space pad2 = true ->
  strings.TrimSpace (pad1 ++ (c :: r) ++ pad2) = c :: r.
Proof.
  intros E Hc Hd H1 H2. unfold strings.TrimSpace. cbv zeta.
  rewrite trim_left_pad by (exact H1 || (rewrite length_app; lia)).
  cbn [app]. rewrite trim_left_plain by exact Hc.
  change (c :: r ++ pad2) with ((c :: r) ++ pad2).
  rewrite trim_right_pad by (exact H2 || (rewrite length_app; lia)).
  rewrite E. now apply trim_right_plain.
Qed.

Lemma operator_found op x w :
  In op operators -> Ascii.eqb x "=" = false -> Ascii.eqb x ">" = false ->
  strings.HasPrefix (op ++ x :: w) "[" || strings.HasPrefix (op ++ x :: w) "(" = false
  /\ find (strings.HasPrefix (op ++ x :: w)) operators = Some op
  /\ skipn (length op) (op ++ x :: w) = x :: w.
Proof.
  intros Hop E1 E2. unfold operators in Hop. cbn [In] in Hop.
  repeat (destruct Hop as [<-|Hop];
          [split; [reflexivity|]; split; [|reflexivity];
           cbv [operators OP_GREATER_EQUAL OP_LESS_EQUAL OP_NOT_EQUAL OP_EQUAL_EQUAL
                OP_PESSIMISTIC OP_COMPATIBLE OP_GREATER OP_LESS OP_EQUAL OP_CARET OP_TILDE
                app find strings.HasPrefix];
           cbn [Ascii.eqb Bool.eqb andb]; rewrite ?E1, ?E2; cbn [andb]; reflexivity|]).
  destruct Hop.
Qed.

Lemma operator_plain op : In op operators -> exists o r, op = o :: r /\ plain o = true.
Proof.
  intros Hop. unfold operators in Hop. cbn [In] in Hop.
  repeat (destruct Hop as [<-|Hop]; [eexists; eexists; split; reflexivity|]).
  destruct Hop.
Qed.

Lemma space_or_digit_follows x :
  is_ascii_space x || is_digit x = true ->
  Ascii.eqb x "=" = false /\ Ascii.eqb x ">" = false.
Proof.
  intros H. apply orb_true_iff in H as [H|H].
  - apply ascii_space_cases in H. cbn [map In] in H.
    repeat (destruct H as [<-|H]; [split; reflexivity|]). destruct H.
  - apply digit_cases in H. cbn [In] in H.
    repeat (destruct H as [<-|H]; [split; reflexivity|]). destruct H.
Qed.

Lemma parseVersionConstraint_padded op v pad1 pad2 pad3 :
  In op operators -> numeric_literal v ->
  forallb is_ascii_space pad1 = true -> forallb is_ascii_space pad2 = true ->
  forallb is_ascii_space pad3 = true ->
  parseVersionConstraint (pad1 ++ op ++ pad2 ++ v ++ pad3) = Ok (mkConstraint op v).
Proof.
  intros Hop Hv H1 H2 H3.
  destruct (numeric_literal_shape v Hv) as (c & a & zs & E & Hc & Hz & Nz).
  destruct (operator_plain op Hop) as (o & r & Eo & Po).
  assert (Z : exists zs0 d, zs = zs0 ++ [d] /\ plain d = true).
  { exists (removelast zs), (last zs zero). split; [now apply app_removelast_last|].
    apply digit_plain. now apply last_digit. }
  destruct Z as (zs0 & d & -> & Pd). subst v. clear Hv Hz Nz.
  unfold parseVersionConstraint. cbv zeta.
  assert (T : strings.TrimSpace (pad1 ++ op ++ pad2 ++ (c :: a ++ zs0 ++ [d]) ++ pad3)
              = op ++ pad2 ++ c :: a ++ zs0 ++ [d]).
  { replace (pad1 ++ op ++ pad2 ++ (c :: a ++ zs0 ++ [d]) ++ pad3)
      with (pad1 ++ (o :: r ++ pad2 ++ c :: a ++ zs0 ++ [d]) ++ pad3)
      by (rewrite Eo; normalise_app; reflexivity).
    rewrite Eo. cbn [app].
    apply (TrimSpace_padded pad1 pad3 o (r ++ pad2 ++ c :: a ++ zs0 ++ [d])
             (o :: r ++ pad2 ++ c :: a ++ zs0) d); try assumption.
    normalise_app. reflexivity. }
  rewrite T.
  assert (X : exists x w, pad2 ++ c :: a ++ zs0 ++ [d] = x :: w
                          /\ is_ascii_space x || is_digit x = true).
  { destruct pad2 as [|x p2].
    - exists c, (a ++ zs0 ++ [d]). split; [reflexivity|]. rewrite Hc. apply orb_true_r.
    - exists x, (p2 ++ c :: a ++ zs0 ++ [d]). split; [reflexivity|].
      cbn [forallb] in H2. apply andb_true_iff in H2 as [H2 _]. now rewrite H2. }
  destruct X as (x & w & Ex & Hx). rewrite Ex.
  destruct (space_or_digit_follows x Hx) as [E1 E2].
  destruct (operator_found op x w Hop E1 E2) as (F1 & F2 & F3).
  rewrite F1, F2, F3, <- Ex.
  replace (pad2 ++ c :: a ++ zs0 ++ [d]) with (pad2 ++ (c :: a ++ zs0 ++ [d]) ++ [])
    by (now rewrite app_nil_r).
  rewrite (TrimSpace_padded pad2 [] c (a ++ zs0 ++ [d]) (c :: a ++ zs0) d);
    try assumption; try reflexivity; try (now apply digit_plain).
  normalise_app. reflexivity.
Qed.

(** ASCII white space before the operator, between the operator and the
    version, and after the version is dropped by the parser: the padded
    constraint is read, and compiled, as the constraint without it. *)
Theorem whitespace_ignored (op pad1 pad2 pad3 : gostring) (major minor patch : Z)
    (Hop : In op operators)
    (HM : fits_int major) (Hm : fits_int minor) (Hp : fits_int patch)
    (H1 : forallb is_ascii_space pad1 = true) (H2 : forallb is_ascii_space pad2 = true)
    (H3 : forallb is_ascii_space pad3 = true) :
  parseVersionConstraint (pad1 ++ op ++ pad2 ++ ver major minor patch ++ pad3)
  = Ok (mkConstraint op (ver major minor patch))
  /\ VersionToRegex (pad1 ++ op ++ pad2 ++ ver major minor patch ++ pad3)
     = VersionToRegex (op ++ ver major minor patch)
  /\ forall s,
       VersionMatches s (pad1 ++ op ++ pad2 ++ ver major minor patch ++ pad3)
       = VersionMatches s (op ++ ver major minor patch).
Proof.
  pose proof (numeric_literal_fits major minor patch HM Hm Hp) as Hv.
  pose proof (parseVersionConstraint_padded op _ pad1 pad2 pad3 Hop Hv H1 H2 H3) as P.
  pose proof (parseVersionConstraint_padded op _ [] [] [] Hop Hv eq_refl eq_refl eq_refl)
    as P0.
  cbn [app] in P0. rewrite app_nil_r in P0.
  assert (V : VersionToRegex (pad1 ++ op ++ pad2 ++ ver major minor patch ++ pad3)
              = VersionToRegex (op ++ ver major minor patch)).
  { unfold VersionToRegex. now rewrite P, P0. }
  split; [exact P|]. split; [exact V|]. intros s. unfold VersionMatches. now rewrite V.
Qed.

Lemma whitespace_ignored_witness :
  parseVersionConstraint (" " ++ OP_GREATER_EQUAL ++ "  " ++ ver 1 2 3 ++ " ")
  = Ok (mkConstraint OP_GREATER_EQUAL (ver 1 2 3))
  /\ VersionToRegex (" " ++ OP_GREATER_EQUAL ++ "  " ++ ver 1 2 3 ++ " ")
     = VersionToRegex (OP_GREATER_EQUAL ++ ver 1 2 3)
  /\ forall s,
       VersionMatches s (" " ++ OP_GREATER_EQUAL ++ "  " ++ ver 1 2 3 ++ " ")
       = VersionMatches s (OP_GREATER_EQUAL ++ ver 1 2 3).
Proof.
  apply (whitespace_ignored OP_GREATER_EQUAL " " "  " " " 1 2 3);
    try (unfold fits_int, MaxInt64; lia); try reflexivity.
  simpl. tauto.
Defined.

(** ** Quoted text *)

(** Text of ASCII bytes. *)
Definition is_ascii (s : gostring) : bool := forallb (fun c => byte_val c <? 128) s.

Lemma pushes_quoted_char la c :
  (byte_val c <? 128) = true -> pushes la (QuoteMeta [c]) [Chr c].
Proof.
  destruct c as [[|] [|] [|] [|] [|] [|] [|] [|]]; intros H;
    first [discriminate H | by_reading].
Qed.

Lemma QuoteMeta_app a b : QuoteMeta (a ++ b) = QuoteMeta a ++ QuoteMeta b.
Proof. unfold QuoteMeta. apply flat_map_app. Qed.

Lemma pushes_QuoteMeta la s : is_ascii s = true -> pushes la (QuoteMeta s) (map Chr s).
Proof.
  induction s as [|c s IH]; intros H; [apply pushes_nil|].
  cbn [is_ascii forallb] in H. apply andb_true_iff in H as [Hc Hs].
  change (c :: s) with ([c] ++ s). rewrite QuoteMeta_app, map_app.
  apply pushes_app; [now apply pushes_quoted_char|now apply IH].
Qed.

(** The parts written one after the other, each after an escaped dot. *)
Definition dot_quoted (parts : list gostring) : gostring :=
  flat_map (fun q => VERSION_DOT ++ QuoteMeta q) parts.

Lemma quote_fold_later lo parts p :
  1 <= lo ->
  fold_left quote_part (combine (indices lo (lo + Z.of_nat (length parts))) parts) p
  = p ++ dot_quoted parts.
Proof.
  revert lo p. induction parts as [|q parts IH]; intros lo p H.
  - cbn [length]. rewrite indices_nil by lia. cbn. now rewrite app_nil_r.
  - cbn [length]. rewrite indices_cons by lia. cbn [combine fold_left].
    replace (lo + Z.of_nat (S (length parts))) with ((lo + 1) + Z.of_nat (length parts))
      by lia.
    rewrite IH by lia. unfold quote_part. cbn [fst snd].
    destruct (Z.ltb_spec 0 lo) as [L|L]; [|lia].
    cbn [dot_quoted flat_map]. now rewrite <- !app_assoc.
Qed.

Lemma quote_fold parts p :
  parts <> [] ->
  fold_left quote_part (enumerate parts) p
  = p ++ QuoteMeta (hd [] parts) ++ dot_quoted (tl parts).
Proof.
  intros H. destruct parts as [|q parts]; [congruence|].
  unfold enumerate. cbn [length hd tl]. rewrite indices_cons by lia.
  cbn [combine fold_left].
  replace (Z.of_nat (S (length parts))) with ((0 + 1) + Z.of_nat (length parts)) by lia.
  rewrite quote_fold_later by lia. unfold quote_part. cbn [fst snd Z.ltb Z.compare].
  now rewrite <- app_assoc.
Qed.

Lemma split_byte_cons sep s : exists p ps, strings.split_byte sep s = p :: ps.
Proof.
  pose proof (split_byte_length sep s) as L.
  destruct (strings.split_byte sep s) as [|p ps]; [discriminate L|now exists p, ps].
Qed.

(** Quoting a text is quoting its dot-separated parts and writing an
    escaped dot between them. *)
Lemma QuoteMeta_split v :
  QuoteMeta (hd [] (strings.split_byte "." v)) ++ dot_quoted (tl (strings.split_byte "." v))
  = QuoteMeta v.
Proof.
  induction v as [|c v IH]; [reflexivity|].
  cbn [strings.split_byte]. cbv zeta.
  destruct (split_byte_cons "." v) as (p & ps & E). rewrite E in IH |- *.
  cbn [hd tl] in IH. destruct (Ascii.eqb_spec c ".") as [->|N].
  - cbn [hd tl dot_quoted flat_map]. change ("."%char :: v) with (["."%char] ++ v).
    rewrite QuoteMeta_app, <- IH. reflexivity.
  - cbn [hd tl]. change (c :: p) with ([c] ++ p). change (c :: v) with ([c] ++ v).
    rewrite !QuoteMeta_app, <- IH. now rewrite <- app_assoc.
Qed.

Lemma quote_parts v p :
  fold_left quote_part (enumerate (strings.Split v ".")) p = p ++ QuoteMeta v.
Proof.
  change (strings.Split v ".") with (strings.split_byte "." v).
  rewrite quote_fold.
  - now rewrite QuoteMeta_split.
  - destruct (split_byte_cons "." v) as (q & qs & E). rewrite E. discriminate.
Qed.

(** ** The exact match of any version text *)

(** [s] from its first [x] on, or nothing when it has none: the tag
    [exactMatchRegex] cuts off the version. *)
Definition rest_at (x : ascii) (s : gostring) : gostring :=
  let idx := strings.Index s [x] in
  if negb (idx =? -1) then strings.slice_from s idx else [].

Lemma rest_at_nil x : rest_at x [] = [].
Proof. reflexivity. Qed.

Lemma rest_at_head x r : rest_at x (x :: r) = x :: r.
Proof.
  unfold rest_at. cbn [strings.Index]. rewrite HasPrefix_char, Ascii.eqb_refl. reflexivity.
Qed.

Lemma rest_at_skip x c s : c <> x -> rest_at x (c :: s) = rest_at x s.
Proof.
  intros N. unfold rest_at. cbn [strings.Index]. rewrite HasPrefix_char.
  destruct (Ascii.eqb_spec c x) as [E|_]; [congruence|]. cbv zeta.
  destruct (Index_range s [x]) as [E|G].
  - rewrite E. reflexivity.
  - destruct (Z.ltb_spec (strings.Index s [x]) 0) as [L|L]; [lia|].
    destruct (Z.eqb_spec (strings.Index s [x] + 1) (-1)) as [E1|_]; [lia|].
    destruct (Z.eqb_spec (strings.Index s [x]) (-1)) as [E2|_]; [lia|].
    cbn [negb]. unfold strings.slice_from.
    replace (Z.to_nat (strings.Index s [x] + 1)) with (S (Z.to_nat (strings.Index s [x])))
      by lia.
    reflexivity.
Qed.

Lemma rest_at_app x a b : ~ In x a -> rest_at x (a ++ b) = rest_at x b.
Proof.
  induction a as [|c a IH]; intros H; [reflexivity|]. cbn [app].
  rewrite rest_at_skip by (intros ->; apply H; now left).
  apply IH. intros Hin. apply H. now right.
Qed.

(** A version text in three pieces: the dotted part, free of hyphens and
    pluses; a pre-release tag, absent or led by a hyphen and free of
    pluses; a build tag, absent or led by a plus. *)
Definition is_main (s : gostring) : bool :=
  forallb (fun c => negb (Ascii.eqb c "-") && negb (Ascii.eqb c "+")) s.

Definition is_pre (s : gostring) : bool :=
  match s with
  | [] => true
  | c :: r => Ascii.eqb c "-" && forallb (fun c => negb (Ascii.eqb c "+")) r
  end.

Definition is_build (s : gostring) : bool :=
  match s with
  | [] => true
  | c :: _ => Ascii.eqb c "+"
  end.

Lemma forallb_excludes (f : ascii -> bool) s x : forallb f s = true -> f x = false -> ~ In x s.
Proof.
  intros H Hx Hin. rewrite forallb_forall in H. specialize (H x Hin). congruence.
Qed.

Lemma is_main_excludes main x :
  is_main main = true -> x = "-"%char \/ x = "+"%char -> ~ In x main.
Proof.
  intros H [->| ->]; apply (forallb_excludes _ _ _ H); reflexivity.
Qed.

Lemma is_pre_no_plus pre : is_pre pre = true -> ~ In "+"%char pre.
Proof.
  destruct pre as [|c r]; [intros _ []|]. cbn [is_pre]. intros H.
  apply andb_true_iff in H as [Hc Hr]. apply Ascii.eqb_eq in Hc. subst c.
  intros [E|Hin]; [discriminate E|]. revert Hin. now apply (forallb_excludes _ _ _ Hr).
Qed.

Lemma pieces_cut main pre build :
  is_main main = true -> is_pre pre = true -> is_build build = true ->
  rest_at "+" (main ++ pre ++ build) = build
  /\ cut_at "+" (main ++ pre ++ build) = main ++ pre
  /\ rest_at "-" (main ++ pre) = pre
  /\ cut_at "-" (main ++ pre) = main.
Proof.
  intros Hm Hp Hb.
  pose proof (is_main_excludes main "+" Hm (or_intror eq_refl)) as M1.
  pose proof (is_main_excludes main "-" Hm (or_introl eq_refl)) as M2.
  pose proof (is_pre_no_plus pre Hp) as P1.
  assert (B1 : rest_at "+" build = build /\ cut_at "+" build = []).
  { destruct build as [|c b]; [now split|]. cbn [is_build] in Hb.
    apply Ascii.eqb_eq in Hb. subst c. now rewrite rest_at_head, cut_at_head. }
  assert (P2 : rest_at "-" pre = pre /\ cut_at "-" pre = []).
  { destruct pre as [|c p]; [now split|]. cbn [is_pre] in Hp.
    apply andb_true_iff in Hp as [Hc _]. apply Ascii.eqb_eq in Hc. subst c.
    now rewrite rest_at_head, cut_at_head. }
  destruct B1 as [B1 B2]. destruct P2 as [P2 P3].
  rewrite !rest_at_app, !cut_at_app by assumption.
  rewrite B1, B2, P2, P3. now rewrite !app_nil_r.
Qed.

Lemma exactMatchRegex_pieces main pre build :
  is_main main = true -> is_pre pre = true -> is_build build = true ->
  strings.Contains (main ++ pre ++ build) "*" = false ->
  isGoModuleVersion (main ++ pre ++ build) = false ->
  isCSharpVersion (main ++ pre ++ build) = false ->
  exactMatchRegex (main ++ pre ++ build)
  = anchored (QuoteMeta main
              ++ (if isnil pre then PRE_RELEASE_PATTERN else QuoteMeta pre)
              ++ (if isnil build then BUILD_META_PATTERN else QuoteMeta build)).
Proof.
  intros Hm Hp Hb W G C. destruct (pieces_cut main pre build Hm Hp Hb) as (E1 & E2 & E3 & E4).
  unfold exactMatchRegex. rewrite W, G, C. cbv zeta.
  change (if negb (strings.Index (main ++ pre ++ build) "+" =? -1)
          then strings.slice_from (main ++ pre ++ build)
                 (strings.Index (main ++ pre ++ build) "+")
          else []) with (rest_at "+" (main ++ pre ++ build)).
  change (if negb (strings.Index (main ++ pre ++ build) "+" =? -1)
          then strings.slice_to (main ++ pre ++ build)
                 (strings.Index (main ++ pre ++ build) "+")
          else main ++ pre ++ build) with (cut_at "+" (main ++ pre ++ build)).
  rewrite E1, E2.
  change (if negb (strings.Index (main ++ pre) "-" =? -1)
          then strings.slice_from (main ++ pre) (strings.Index (main ++ pre) "-")
          else []) with (rest_at "-" (main ++ pre)).
  change (if negb (strings.Index (main ++ pre) "-" =? -1)
          then strings.slice_to (main ++ pre) (strings.Index (main ++ pre) "-")
          else main ++ pre) with (cut_at "-" (main ++ pre)).
  rewrite E3, E4, quote_parts. unfold anchored.
  destruct (isnil pre), (isnil build); cbn [negb]; normalise_app; reflexivity.
Qed.

Lemma pushes_BUILD_META_PATTERN la : pushes la BUILD_META_PATTERN [optional_tag "+"].
Proof. by_reading. Qed.

(** What stands for a tag in the pattern: the tag itself when the version
    has one, any tag or none otherwise. *)
Definition tag_items (lead : ascii) (tag : gostring) : list regex :=
  if isnil tag then [optional_tag lead] else map Chr tag.

Definition tag_matches (lead : ascii) (tag w : gostring) : Prop :=
  if isnil tag then isnil w || is_tag lead w = true else w = tag.

Lemma pure_tag_items lead tag : Forall pure (tag_items lead tag).
Proof.
  unfold tag_items. destruct (isnil tag); [|apply pure_literal].
  constructor; [apply pure_optional_tag|constructor].
Qed.

Lemma lang_tag_items lead tag w :
  lang (mkCat (tag_items lead tag)) w = true <-> tag_matches lead tag w.
Proof.
  unfold tag_items, tag_matches. destruct (isnil tag); [|apply lang_literal].
  rewrite lang_mkCat_single by apply pure_optional_tag. now rewrite lang_optional_tag.
Qed.

(** The exact-match builder on a version that is no wildcard, no Go module
    version and no NuGet version quotes the dotted part literally, whatever
    it holds; a pre-release or build tag of the version must be matched as
    it is, and where the version has none, any tag of that kind or none is
    accepted. *)
Theorem exact_match_is_literal (main pre build : gostring)
    (Hm : is_main main = true) (Hp : is_pre pre = true) (Hb : is_build build = true)
    (Ha : is_ascii (main ++ pre ++ build) = true)
    (W : strings.Contains (main ++ pre ++ build) "*" = false)
    (G : isGoModuleVersion (main ++ pre ++ build) = false)
    (C : isCSharpVersion (main ++ pre ++ build) = false) :
  exists re,
    regexp.Compile (exactMatchRegex (main ++ pre ++ build)) = inr re
    /\ forall s,
         MatchString re s = true <->
         exists p b, s = main ++ p ++ b /\ tag_matches "-" pre p /\ tag_matches "+" build b.
Proof.
  unfold is_ascii in Ha. rewrite !forallb_app in Ha.
  apply andb_true_iff in Ha as [A1 Ha]. apply andb_true_iff in Ha as [A2 A3].
  assert (F : pushes false
                (QuoteMeta main
                 ++ (if isnil pre then PRE_RELEASE_PATTERN else QuoteMeta pre)
                 ++ (if isnil build then BUILD_META_PATTERN else QuoteMeta build))
                (map Chr main ++ tag_items "-" pre ++ tag_items "+" build)).
  { apply pushes_app; [now apply pushes_QuoteMeta|]. unfold tag_items.
    apply pushes_app.
    - destruct (isnil pre); [apply pushes_PRE_RELEASE_PATTERN|now apply pushes_QuoteMeta].
    - destruct (isnil build); [apply pushes_BUILD_META_PATTERN|now apply pushes_QuoteMeta]. }
  assert (P2 : Forall pure (tag_items "-" pre ++ tag_items "+" build))
    by (apply Forall_app; split; apply pure_tag_items).
  assert (P : Forall pure (map Chr main ++ tag_items "-" pre ++ tag_items "+" build))
    by (apply Forall_app; split; [apply pure_literal|exact P2]).
  destruct (MatchString_anchored false _ _ F P) as (re & Cr & M).
  exists re. split.
  - rewrite exactMatchRegex_pieces by assumption. exact Cr.
  - intros s. rewrite M, lang_mkCat_app by (apply pure_literal || exact P2). split.
    + intros (w1 & w2 & -> & H1 & H2). apply lang_literal in H1. subst w1.
      apply lang_mkCat_app in H2 as (p & b & -> & H2 & H3); try apply pure_tag_items.
      exists p, b. split; [reflexivity|]. split; now apply lang_tag_items.
    + intros (p & b & -> & H2 & H3). exists main, (p ++ b). split; [reflexivity|].
      split; [now apply lang_literal|].
      apply lang_mkCat_app; try apply pure_tag_items.
      exists p, b. split; [reflexivity|]. split; now apply lang_tag_items.
Qed.

Lemma exact_match_is_literal_witness :
  exists re,
    regexp.Compile (exactMatchRegex ("a.b.c" ++ "-dev" ++ "")) = inr re
    /\ forall s,
         MatchString re s = true <->
         exists p b, s = "a.b.c" ++ p ++ b /\ tag_matches "-" "-dev" p /\ tag_matches "+" "" b.
Proof. apply (exact_match_is_literal "a.b.c" "-dev" ""); reflexivity. Defined.

(** ** Versions matched by their text alone *)

Lemma cut_rest x s : cut_at x s ++ rest_at x s = s.
Proof.
  unfold cut_at, rest_at. cbv zeta. destruct (negb (strings.Index s [x] =? -1)).
  - apply firstn_skipn.
  - apply app_nil_r.
Qed.

Lemma rest_at_found x s : In x s -> isnil (rest_at x s) = false.
Proof.
  induction s as [|c s IH]; intros H; [destruct H|].
  destruct (Ascii.eqb_spec c x) as [->|N].
  - now rewrite rest_at_head.
  - rewrite rest_at_skip by exact N. apply IH. destruct H as [H|H]; [congruence|exact H].
Qed.

Lemma Contains_In s x : strings.Contains s [x] = true -> In x s.
Proof.
  intros H. destruct (in_dec ascii_dec x s) as [Hin|Hn]; [exact Hin|].
  rewrite Contains_absent in H by exact Hn. discriminate H.
Qed.

Lemma literal_pattern_match v :
  is_ascii v = true ->
  exists re, Compile (REGEX_START ++ QuoteMeta v ++ REGEX_END) = inr re
    /\ forall s, MatchString re s = true <-> s = v.
Proof.
  intros Ha.
  destruct (MatchString_anchored false (QuoteMeta v) (map Chr v)
              (pushes_QuoteMeta false v Ha) (pure_literal v)) as (re & C & M).
  exists re. split; [exact C|]. intros s. rewrite M. apply lang_literal.
Qed.

Lemma csharpVersionRegex_tagged v :
  In "-"%char v -> csharpVersionRegex v = REGEX_START ++ QuoteMeta v ++ REGEX_END.
Proof.
  intros H. unfold csharpVersionRegex. cbv zeta.
  change (if negb (strings.Index v "-" =? -1)
          then strings.slice_from v (strings.Index v "-") else [])
    with (rest_at "-" v).
  change (if negb (strings.Index v "-" =? -1)
          then strings.slice_to v (strings.Index v "-") else v)
    with (cut_at "-" v).
  rewrite quote_parts, (rest_at_found "-" v H). cbn [negb].
  rewrite <- (cut_rest "-" v) at 3. rewrite QuoteMeta_app.
  normalise_app. reflexivity.
Qed.

(** A version the package takes for a NuGet version and that has a
    pre-release part is matched by its own text and by nothing else: no
    other pre-release, and no build tag after it. *)
Theorem nuget_prerelease_exact (v : gostring)
    (Ha : is_ascii v = true)
    (W : strings.Contains v "*" = false)
    (G : isGoModuleVersion v = false)
    (C : isCSharpVersion v = true)
    (T : strings.Contains v "-" = true) :
  exactMatchRegex v = REGEX_START ++ QuoteMeta v ++ REGEX_END
  /\ exists re,
       Compile (exactMatchRegex v) = inr re
       /\ forall s, MatchString re s = true <-> s = v.
Proof.
  assert (E : exactMatchRegex v = REGEX_START ++ QuoteMeta v ++ REGEX_END).
  { unfold exactMatchRegex. rewrite W, G, C.
    apply csharpVersionRegex_tagged. now apply Contains_In. }
  split; [exact E|]. rewrite E. now apply literal_pattern_match.
Qed.

Lemma nuget_prerelease_exact_witness :
  exactMatchRegex "1.0.0-beta001" = REGEX_START ++ QuoteMeta "1.0.0-beta001" ++ REGEX_END
  /\ exists re,
       Compile (exactMatchRegex "1.0.0-beta001") = inr re
       /\ forall s, MatchString re s = true <-> s = "1.0.0-beta001".
Proof. apply (nuget_prerelease_exact "1.0.0-beta001"); reflexivity. Defined.

(** The test [goModuleVersionRegex] makes for a pseudo-version: after the
    [v], three or more hyphen-separated pieces, [0.0.0] first, then a piece
    of 14 bytes and one of 12. *)
Definition is_pseudo_version (version : gostring) : bool :=
  let cleanVersion := skipn 1 version in
  let parts := strings.Split cleanVersion "-" in
  strings.Contains cleanVersion "-" && (3 <=? length parts)%nat
  && ((3 <=? length parts)%nat && gs_eqb (nth 0 parts []) "0.0.0"
      && (length (nth 1 parts []) =? 14)%nat && (length (nth 2 parts []) =? 12)%nat).

(** A Go pseudo-version is matched by its own text and by nothing else. *)
Theorem go_pseudo_version_exact (v : gostring)
    (Ha : is_ascii v = true)
    (W : strings.Contains v "*" = false)
    (G : isGoModuleVersion v = true)
    (P : is_pseudo_version v = true) :
  exactMatchRegex v = REGEX_START ++ QuoteMeta v ++ REGEX_END
  /\ exists re,
       Compile (exactMatchRegex v) = inr re
       /\ forall s, MatchString re s = true <-> s = v.
Proof.
  assert (E : exactMatchRegex v = REGEX_START ++ QuoteMeta v ++ REGEX_END).
  { unfold exactMatchRegex. rewrite W, G. unfold goModuleVersionRegex. cbv zeta.
    unfold is_pseudo_version in P. cbv zeta in P. now rewrite P. }
  split; [exact E|]. rewrite E. now apply literal_pattern_match.
Qed.

Lemma go_pseudo_version_exact_witness :
  exactMatchRegex "v0.0.0-20210101000000-abcdef123456"
  = REGEX_START ++ QuoteMeta "v0.0.0-20210101000000-abcdef123456" ++ REGEX_END
  /\ exists re,
       Compile (exactMatchRegex "v0.0.0-20210101000000-abcdef123456") = inr re
       /\ forall s, MatchString re s = true <-> s = "v0.0.0-20210101000000-abcdef123456".
Proof.
  apply (go_pseudo_version_exact "v0.0.0-20210101000000-abcdef123456"); reflexivity.
Defined.

(** ** Go module versions with a pre-release *)

Lemma pushes_optional_group la ps itemss :
  Forall2 (pushes la) ps itemss -> ps <> [] ->
  pushes la ("(?:" ++ strings.Join ps "|" ++ ")?")
    [Rep (mkAlt (map mkCat itemss)) 0 (Some 1%nat)].
Proof.
  intros H Hne last0 alts cur stack.
  destruct (feed_alternatives la ps itemss H Hne LNone [] ((GNonCapture, Frame alts cur) :: stack))
    as [l E].
  exists LRepeat.
  rewrite feed_open_group, feed_app, E.
  assert (Hi : itemss <> []).
  { intros ->. inversion H. congruence. }
  cbn [feed step st_mode st_top st_stack step_normal Ascii.eqb Bool.eqb push_item
       apply_repeat regexp.cur regexp.alts].
  unfold frame_regex. cbn [regexp.alts regexp.cur].
  rewrite app_nil_r, rev_involutive.
  change (mkCat (last itemss []) :: rev (map mkCat (removelast itemss)))
    with (rev [mkCat (last itemss [])] ++ rev (map mkCat (removelast itemss))).
  rewrite <- rev_app_distr, rev_involutive, removelast_last_map by exact Hi.
  reflexivity.
Qed.

Definition no_newline (u : gostring) : bool := forallb (fun c => negb (Ascii.eqb c "010")) u.

Lemma in_class_not_newline c :
  in_class true [("010"%char, "010"%char)] c = negb (Ascii.eqb c "010").
Proof.
  unfold in_class. cbn [existsb fst snd]. rewrite orb_false_r, eqb_byte_val.
  change (byte_val "010") with 10.
  destruct (Z.eqb_spec (byte_val c) 10) as [->|N]; [reflexivity|].
  destruct (Z.leb_spec 10 (byte_val c)), (Z.leb_spec (byte_val c) 10);
    try reflexivity; lia.
Qed.

Lemma lang_Rep_Any w : lang (Rep Any 0 None) w = no_newline w.
Proof.
  assert (A : lang (Rep Any 0 None) w
              = lang (Rep (Cls true [("010"%char, "010"%char)]) 0 None) w).
  { unfold lang.
    change (iter (matches Any) (length w + 0) 0 None false w []
            = iter (matches (Cls true [("010"%char, "010"%char)])) (length w + 0) 0 None
                false w []).
    apply iter_ext. intros b1 w1 r1 b2 r2. cbn [matches].
    destruct w1 as [|x [|y w1]]; try reflexivity. now rewrite in_class_not_newline. }
  rewrite A. apply eq_true_iff_eq. rewrite lang_Rep_class. unfold no_newline, le_opt.
  rewrite (forallb_same _ _ w in_class_not_newline). split.
  - now intros (_ & _ & H).
  - intros H. split; [lia|]. split; [exact I|exact H].
Qed.

Lemma Join_split_byte sep s : strings.Join (strings.split_byte sep s) [sep] = s.
Proof.
  induction s as [|c s IH]; [reflexivity|].
  cbn [strings.split_byte]. destruct (split_byte_cons sep s) as (p & ps & E).
  rewrite E in IH |- *. destruct (Ascii.eqb_spec c sep) as [->|N].
  - change (strings.Join ([] :: p :: ps) [sep]) with ([sep] ++ strings.Join (p :: ps) [sep]).
    now rewrite IH.
  - destruct ps as [|q ps].
    + cbn [strings.Join] in IH |- *. now rewrite IH.
    + change (strings.Join ((c :: p) :: q :: ps) [sep])
        with (c :: strings.Join (p :: q :: ps) [sep]).
      now rewrite IH.
Qed.

(** The last dot-separated part of a Go module version, when it carries a
    pre-release: the digits, then the optional group of the tag. *)
Lemma go_part_tagged pattern i zs tag :
  all_digits zs ->
  go_part pattern (i, zs ++ "-" ++ tag)
  = (if 0 <? i then pattern ++ VERSION_DOT else pattern)
    ++ zs ++ "(?:-" ++ QuoteMeta tag ++ ".*)?".
Proof.
  intros Hz. unfold go_part. cbn [fst snd].
  rewrite (Contains_found (zs ++ "-" ++ tag) "-")
    by (apply in_or_app; right; now left).
  unfold strings.Split. cbn [app].
  rewrite split_byte_app by (now apply digits_exclude).
  destruct (split_byte_cons "-" tag) as (p & ps & E).
  pose proof (Join_split_byte "-" tag) as J. rewrite E in J |- *.
  cbn [nth length Nat.ltb Nat.leb skipn]. rewrite J, QuoteMeta_digits by exact Hz.
  normalise_app. reflexivity.
Qed.

Lemma goModuleVersionRegex_tagged xs ys zs tag :
  all_digits xs -> all_digits ys -> all_digits zs ->
  strings.Contains tag "." = false ->
  is_pseudo_version ("v" ++ dotted xs ys zs ++ "-" ++ tag) = false ->
  goModuleVersionRegex ("v" ++ dotted xs ys zs ++ "-" ++ tag)
  = anchored ("v" ++ xs ++ VERSION_DOT ++ ys ++ VERSION_DOT ++ zs
              ++ "(?:-" ++ QuoteMeta tag ++ ".*)?").
Proof.
  intros Hx Hy Hz Hd P. unfold goModuleVersionRegex. cbv zeta.
  unfold is_pseudo_version in P. cbv zeta in P. rewrite P.
  change (skipn 1 ("v" ++ dotted xs ys zs ++ "-" ++ tag))
    with (dotted xs ys zs ++ "-" ++ tag).
  rewrite (Contains_found (dotted xs ys zs ++ "-" ++ tag) "-")
    by (apply in_or_app; right; now left).
  cbn [negb].
  assert (S : strings.Split (dotted xs ys zs ++ "-" ++ tag) "."
              = [xs; ys; zs ++ "-" ++ tag]).
  { unfold strings.Split, dotted. normalise_app.
    rewrite split_byte_app by (now apply digits_exclude).
    rewrite split_byte_app by (now apply digits_exclude).
    rewrite split_byte_absent; [reflexivity|].
    intros Hin. apply in_app_or in Hin as [Hin|Hin].
    - revert Hin. now apply digits_exclude.
    - cbn [app In] in Hin. destruct Hin as [Hin|Hin]; [discriminate Hin|].
      apply (Contains_found tag) in Hin. congruence. }
  rewrite S.
  change (enumerate [xs; ys; zs ++ "-" ++ tag])
    with [(0, xs); (1, ys); (2, zs ++ "-" ++ tag)].
  cbn [fold_left]. rewrite go_part_tagged by assumption.
  rewrite (go_part_digits _ 1 ys), (go_part_digits _ 0 xs) by assumption.
  cbn [Z.ltb Z.compare]. unfold anchored, REGEX_START, REGEX_END.
  normalise_app. reflexivity.
Qed.

(** The optional group of a Go pre-release: the hyphen and the tag, then
    anything up to the end of the line. *)
Definition go_tag_group (tag : gostring) : regex :=
  Rep (mkAlt (map mkCat [[Chr "-"] ++ map Chr tag ++ [Rep Any 0 None]])) 0 (Some 1%nat).

Lemma pushes_any_run la : pushes la ".*" [Rep Any 0 None].
Proof. by_reading. Qed.

Lemma pushes_hyphen la : pushes la "-" [Chr "-"].
Proof. by_reading. Qed.

Lemma pushes_v la : pushes la "v" [Chr "v"].
Proof. by_reading. Qed.

Lemma pushes_go_tag_group la tag :
  is_ascii tag = true ->
  pushes la ("(?:-" ++ QuoteMeta tag ++ ".*)?") [go_tag_group tag].
Proof.
  intros Ha.
  replace ("(?:-" ++ QuoteMeta tag ++ ".*)?")
    with ("(?:" ++ strings.Join ["-" ++ QuoteMeta tag ++ ".*"] "|" ++ ")?")
    by (cbn [strings.Join]; normalise_app; reflexivity).
  apply pushes_optional_group; [|discriminate].
  constructor; [|constructor].
  apply pushes_app; [apply pushes_hyphen|].
  apply pushes_app; [now apply pushes_QuoteMeta|apply pushes_any_run].
Qed.

Lemma pure_go_tag_items tag : Forall pure ([Chr "-"] ++ map Chr tag ++ [Rep Any 0 None]).
Proof.
  apply Forall_app. split; [repeat constructor|].
  apply Forall_app. split; [apply pure_literal|repeat constructor].
Qed.

Lemma pure_go_tag_group tag : pure (go_tag_group tag).
Proof.
  unfold go_tag_group. cbn [pure]. apply pure_mkAlt. constructor; [|constructor].
  apply pure_mkCat, pure_go_tag_items.
Qed.

Lemma lang_go_tag_group tag w :
  lang (go_tag_group tag) w = true <->
  w = [] \/ exists u, w = "-" ++ tag ++ u /\ no_newline u = true.
Proof.
  unfold go_tag_group. rewrite lang_optional, lang_mkAlt. cbn [map existsb].
  rewrite orb_false_r.
  change ([Chr "-"] ++ map Chr tag ++ [Rep Any 0 None])
    with (map Chr ("-" ++ tag) ++ [Rep Any 0 None]).
  rewrite lang_mkCat_app by (apply pure_literal || (constructor; [exact I|constructor])).
  split; (intros [H|H]; [now left|right]).
  - destruct H as (w1 & w2 & -> & H1 & H2). apply lang_literal in H1. subst w1.
    rewrite lang_mkCat_single, lang_Rep_Any in H2 by exact I.
    exists w2. split; [now rewrite <- app_assoc|exact H2].
  - destruct H as (u & -> & Hu). exists ("-" ++ tag), u.
    split; [now rewrite <- app_assoc|]. split; [now apply lang_literal|].
    now rewrite lang_mkCat_single, lang_Rep_Any by exact I.
Qed.

(** A Go module version [vX.Y.Z-tag] (the tag without dot or star, the
    whole not a pseudo-version) compiles to a pattern that matches the
    release [vX.Y.Z] itself and every text that starts with [vX.Y.Z-tag]
    and goes on without a line break, and nothing else. *)
Theorem go_module_prerelease (xs ys zs tag : gostring)
    (Hx : all_digits xs) (Hy : all_digits ys) (Hz : all_digits zs)
    (Ha : is_ascii tag = true)
    (Hd : strings.Contains tag "." = false)
    (Hw : strings.Contains tag "*" = false)
    (P : is_pseudo_version ("v" ++ dotted xs ys zs ++ "-" ++ tag) = false) :
  exists re,
    Compile (exactMatchRegex ("v" ++ dotted xs ys zs ++ "-" ++ tag)) = inr re
    /\ forall s,
         MatchString re s = true <->
         s = "v" ++ dotted xs ys zs
         \/ exists u, s = "v" ++ dotted xs ys zs ++ "-" ++ tag ++ u /\ no_newline u = true.
Proof.
  assert (E : exactMatchRegex ("v" ++ dotted xs ys zs ++ "-" ++ tag)
              = anchored ("v" ++ xs ++ VERSION_DOT ++ ys ++ VERSION_DOT ++ zs
                          ++ "(?:-" ++ QuoteMeta tag ++ ".*)?")).
  { unfold exactMatchRegex.
    assert (W : strings.Contains ("v" ++ dotted xs ys zs ++ "-" ++ tag) "*" = false).
    { apply Contains_absent. cbn [app In]. intros [H|H]; [discriminate H|].
      apply in_app_or in H as [H|H].
      - revert H. apply dotted_excludes; try assumption; [reflexivity|discriminate].
      - cbn [app In] in H. destruct H as [H|H]; [discriminate H|].
        apply (Contains_found tag) in H. congruence. }
    rewrite W.
    assert (G : isGoModuleVersion ("v" ++ dotted xs ys zs ++ "-" ++ tag) = true).
    { unfold isGoModuleVersion. cbn [app]. rewrite HasPrefix_char.
      unfold dotted. destruct xs; reflexivity. }
    rewrite G. now apply goModuleVersionRegex_tagged. }
  assert (F : pushes false
                ("v" ++ xs ++ VERSION_DOT ++ ys ++ VERSION_DOT ++ zs
                 ++ "(?:-" ++ QuoteMeta tag ++ ".*)?")
                (map Chr ("v" ++ dotted xs ys zs) ++ [go_tag_group tag])).
  { replace (map Chr ("v" ++ dotted xs ys zs) ++ [go_tag_group tag])
      with ([Chr "v"] ++ map Chr xs ++ [Chr "."] ++ map Chr ys ++ [Chr "."] ++ map Chr zs
            ++ [go_tag_group tag])
      by (unfold dotted; rewrite !map_app; cbn [map]; normalise_app; reflexivity).
    apply pushes_app; [apply pushes_v|].
    apply pushes_app; [now apply pushes_digits|].
    apply pushes_app; [apply pushes_VERSION_DOT|].
    apply pushes_app; [now apply pushes_digits|].
    apply pushes_app; [apply pushes_VERSION_DOT|].
    apply pushes_app; [now apply pushes_digits|].
    now apply pushes_go_tag_group. }
  assert (Pg : Forall pure [go_tag_group tag])
    by (constructor; [apply pure_go_tag_group|constructor]).
  assert (Pu : Forall pure (map Chr ("v" ++ dotted xs ys zs) ++ [go_tag_group tag]))
    by (apply Forall_app; split; [apply pure_literal|exact Pg]).
  destruct (MatchString_anchored false _ _ F Pu) as (re & Cr & M).
  exists re. split.
  - rewrite E. exact Cr.
  - intros s. rewrite M, lang_mkCat_app by (apply pure_literal || exact Pg). split.
    + intros (w1 & w2 & -> & H1 & H2). apply lang_literal in H1. subst w1.
      rewrite lang_mkCat_single in H2 by apply pure_go_tag_group.
      apply lang_go_tag_group in H2 as [->|(u & -> & Hu)].
      * left. apply app_nil_r.
      * right. exists u. split; [normalise_app; reflexivity|exact Hu].
    + intros [->|(u & -> & Hu)].
      * exists ("v" ++ dotted xs ys zs), []. split; [now rewrite app_nil_r|].
        split; [now apply lang_literal|].
        rewrite lang_mkCat_single by apply pure_go_tag_group.
        apply lang_go_tag_group. now left.
      * exists ("v" ++ dotted xs ys zs), ("-" ++ tag ++ u).
        split; [normalise_app; reflexivity|]. split; [now apply lang_literal|].
        rewrite lang_mkCat_single by apply pure_go_tag_group.
        apply lang_go_tag_group. right. now exists u.
Qed.

Lemma go_module_prerelease_witness :
  exists re,
    Compile (exactMatchRegex ("v" ++ dotted "1" "2" "3" ++ "-" ++ "rc1")) = inr re
    /\ forall s,
         MatchString re s = true <->
         s = "v" ++ dotted "1" "2" "3"
         \/ exists u, s = "v" ++ dotted "1" "2" "3" ++ "-" ++ "rc1" ++ u
                      /\ no_newline u = true.
Proof. apply (go_module_prerelease "1" "2" "3" "rc1"); reflexivity. Defined.

(** ** NuGet versions without a pre-release *)

Definition nuget_names : list gostring := ["alpha"; "beta"; "rc"; "preview"].

(** The pre-release that [csharpVersionRegex] allows after a version that
    has none: a hyphen and one of the four names, then an optional number
    and an optional dot and number. *)
Definition nuget_tag_items : list regex :=
  [Chr "-"; mkAlt (map mkCat (map (map Chr) nuget_names));
   Rep (mkAlt (map mkCat [[Digits]])) 0 (Some 1%nat);
   Rep (mkAlt (map mkCat [[Chr "."; Digits]])) 0 (Some 1%nat)].

Definition nuget_tag_group : regex :=
  Rep (mkAlt (map mkCat [nuget_tag_items])) 0 (Some 1%nat).

Lemma pushes_nuget_tag_group la :
  pushes la "(?:-(?:alpha|beta|rc|preview)(?:\d+)?(?:\.\d+)?)?" [nuget_tag_group].
Proof. by_reading. Qed.

Definition number (k : gostring) : Prop := k <> [] /\ all_digits k.

Definition is_nuget_tag (t : gostring) : Prop :=
  t = []
  \/ exists name n d,
       t = "-" ++ name ++ n ++ d
       /\ In name nuget_names
       /\ (n = [] \/ number n)
       /\ (d = [] \/ exists k, d = "." ++ k /\ number k).

Lemma lang_number w : lang Digits w = true <-> number w.
Proof.
  unfold Digits, number. rewrite lang_Rep_Digit. unfold le_opt. split.
  - intros (L & _ & H). split; [|exact H]. intros ->. simpl in L. lia.
  - intros (N & H). split; [|split; [exact I|exact H]].
    destruct w; [congruence|simpl; lia].
Qed.

Lemma lang_nuget_name w :
  lang (mkAlt (map mkCat (map (map Chr) nuget_names))) w = true <-> In w nuget_names.
Proof.
  rewrite lang_mkAlt, existsb_exists. split.
  - intros (r & Hr & H). apply in_map_iff in Hr as (items & <- & Hi).
    apply in_map_iff in Hi as (name & <- & Hn). apply lang_literal in H. now subst.
  - intros H. exists (mkCat (map Chr w)). split; [|now apply lang_literal].
    apply in_map, in_map. exact H.
Qed.

Lemma pure_nuget_tag_items : Forall pure nuget_tag_items.
Proof.
  unfold nuget_tag_items.
  repeat first [exact I | apply Forall_cons | apply Forall_nil | split].
Qed.

Lemma lang_nuget_tag_group t : lang nuget_tag_group t = true <-> is_nuget_tag t.
Proof.
  pose proof pure_nuget_tag_items as P. unfold nuget_tag_items in P.
  inversion P as [|r1 l1 P1 Q1]; subst. inversion Q1 as [|r2 l2 P2 Q2]; subst.
  inversion Q2 as [|r3 l3 P3 Q3]; subst. inversion Q3 as [|r4 l4 P4 Q4]; subst.
  unfold nuget_tag_group, is_nuget_tag. rewrite lang_optional, lang_mkAlt.
  cbn [map existsb]. rewrite orb_false_r. unfold nuget_tag_items.
  split; (intros [H|H]; [now left|right]).
  - apply lang_mkCat_cons in H as (w1 & t1 & -> & H1 & H); [|assumption..].
    apply lang_Chr in H1. subst w1.
    apply lang_mkCat_cons in H as (name & t2 & -> & H2 & H); [|assumption..].
    apply lang_nuget_name in H2.
    apply lang_mkCat_cons in H as (n & d & -> & H3 & H); [|assumption..].
    rewrite lang_mkCat_single in H by exact P4.
    apply lang_optional in H3. apply lang_optional in H.
    exists name, n, d. split; [reflexivity|]. split; [exact H2|]. split.
    + destruct H3 as [H3|H3]; [now left|right].
      rewrite lang_mkAlt in H3. cbn [map existsb] in H3. rewrite orb_false_r in H3.
      rewrite lang_mkCat_single in H3 by exact I. now apply lang_number.
    + destruct H as [H|H]; [now left|right].
      rewrite lang_mkAlt in H. cbn [map existsb] in H. rewrite orb_false_r in H.
      apply lang_mkCat_cons in H as (w1 & k & -> & H1 & H);
        [|exact I|constructor; [exact I|constructor]].
      apply lang_Chr in H1. subst w1. rewrite lang_mkCat_single in H by exact I.
      exists k. split; [reflexivity|]. now apply lang_number.
  - destruct H as (name & n & d & -> & H2 & H3 & H4).
    apply lang_mkCat_cons; [assumption..|].
    exists "-", (name ++ n ++ d). split; [reflexivity|]. split; [now apply lang_Chr|].
    apply lang_mkCat_cons; [assumption..|].
    exists name, (n ++ d). split; [reflexivity|]. split; [now apply lang_nuget_name|].
    apply lang_mkCat_cons; [assumption..|].
    exists n, d. split; [reflexivity|]. split.
    + apply lang_optional. destruct H3 as [H3|H3]; [now left|right].
      rewrite lang_mkAlt. cbn [map existsb]. rewrite orb_false_r.
      rewrite lang_mkCat_single by exact I. now apply lang_number.
    + rewrite lang_mkCat_single by exact P4.
      apply lang_optional. destruct H4 as [H4|(k & -> & H4)]; [now left|right].
      rewrite lang_mkAlt. cbn [map existsb]. rewrite orb_false_r.
      apply lang_mkCat_cons; [exact I|constructor; [exact I|constructor]|].
      exists ".", k. split; [reflexivity|]. split; [now apply lang_Chr|].
      rewrite lang_mkCat_single by exact I. now apply lang_number.
Qed.

Lemma rest_at_absent x s : ~ In x s -> rest_at x s = [].
Proof.
  intros H. rewrite <- (app_nil_r s). rewrite rest_at_app by exact H. apply rest_at_nil.
Qed.

Lemma csharpVersionRegex_plain v :
  ~ In "-"%char v ->
  csharpVersionRegex v
  = anchored (QuoteMeta v ++ "(?:-(?:alpha|beta|rc|preview)(?:\d+)?(?:\.\d+)?)?").
Proof.
  intros H. unfold csharpVersionRegex. cbv zeta.
  change (if negb (strings.Index v "-" =? -1)
          then strings.slice_from v (strings.Index v "-") else [])
    with (rest_at "-" v).
  change (if negb (strings.Index v "-" =? -1)
          then strings.slice_to v (strings.Index v "-") else v)
    with (cut_at "-" v).
  rewrite quote_parts, (rest_at_absent "-" v H), (cut_at_absent "-" v H).
  cbn [isnil negb]. unfold anchored, REGEX_START, REGEX_END.
  normalise_app. reflexivity.
Qed.

(** A NuGet version without hyphen (four dot-separated parts) is matched
    by its own text, alone or followed by a pre-release made of one of the
    names alpha, beta, rc and preview, an optional number and an optional
    dot and number; by nothing else, and no build tag is allowed. *)
Theorem nuget_four_parts (v : gostring)
    (Ha : is_ascii v = true)
    (W : strings.Contains v "*" = false)
    (G : isGoModuleVersion v = false)
    (C : isCSharpVersion v = true)
    (T : strings.Contains v "-" = false) :
  exists re,
    Compile (exactMatchRegex v) = inr re
    /\ forall s, MatchString re s = true <-> exists t, s = v ++ t /\ is_nuget_tag t.
Proof.
  assert (N : ~ In "-"%char v).
  { intros Hin. apply (Contains_found v) in Hin. congruence. }
  assert (E : exactMatchRegex v
              = anchored (QuoteMeta v
                          ++ "(?:-(?:alpha|beta|rc|preview)(?:\d+)?(?:\.\d+)?)?")).
  { unfold exactMatchRegex. rewrite W, G, C. now apply csharpVersionRegex_plain. }
  assert (F : pushes false
                (QuoteMeta v ++ "(?:-(?:alpha|beta|rc|preview)(?:\d+)?(?:\.\d+)?)?")
                (map Chr v ++ [nuget_tag_group])).
  { apply pushes_app; [now apply pushes_QuoteMeta|apply pushes_nuget_tag_group]. }
  assert (Pg : pure nuget_tag_group).
  { unfold nuget_tag_group. cbn [pure]. apply pure_mkAlt. constructor; [|constructor].
    apply pure_mkCat, pure_nuget_tag_items. }
  assert (Pl : Forall pure [nuget_tag_group]) by (constructor; [exact Pg|constructor]).
  assert (Pu : Forall pure (map Chr v ++ [nuget_tag_group]))
    by (apply Forall_app; split; [apply pure_literal|exact Pl]).
  destruct (MatchString_anchored false _ _ F Pu) as (re & Cr & M).
  exists re. split.
  - rewrite E. exact Cr.
  - intros s. rewrite M, lang_mkCat_app by (apply pure_literal || exact Pl). split.
    + intros (w1 & t & -> & H1 & H2). apply lang_literal in H1. subst w1.
      rewrite lang_mkCat_single in H2 by exact Pg.
      exists t. split; [reflexivity|]. now apply lang_nuget_tag_group.
    + intros (t & -> & H). exists v, t. split; [reflexivity|].
      split; [now apply lang_literal|].
      rewrite lang_mkCat_single by exact Pg. now apply lang_nuget_tag_group.
Qed.

Lemma nuget_four_parts_witness :
  exists re,
    Compile (exactMatchRegex "1.2.3.4567") = inr re
    /\ forall s,
         MatchString re s = true <-> exists t, s = "1.2.3.4567" ++ t /\ is_nuget_tag t.
Proof. apply (nuget_four_parts "1.2.3.4567"); reflexivity. Defined.

(** * Anchors *)

(** ** Pattern text that the parser reads as a unit *)

(** [reads_as_unit F]: wherever the pattern text [F] stands in a
    concatenation, Go's parser either rejects it or comes out of it in the
    group and the alternative it was in, with items added after those that
    were there. *)
Definition reads_as_unit (F : gostring) : Prop :=
  forall last alts cur stack,
    match feed false (PState (MNormal last) (Frame alts cur) stack) F with
    | inl _ => True
    | inr st =>
        exists last' items, st = PState (MNormal last') (Frame alts (items ++ cur)) stack
    end.

Lemma unit_nil : reads_as_unit [].
Proof. intros l a c s. now exists l, []. Qed.

Lemma unit_app F1 F2 : reads_as_unit F1 -> reads_as_unit F2 -> reads_as_unit (F1 ++ F2).
Proof.
  intros H1 H2 l a c s. rewrite feed_app. specialize (H1 l a c s).
  destruct (feed false (PState (MNormal l) (Frame a c) s) F1) as [e|st]; [exact I|].
  destruct H1 as (l1 & i1 & ->). specialize (H2 l1 a (i1 ++ c) s).
  destruct (feed false (PState (MNormal l1) (Frame a (i1 ++ c)) s) F2) as [e|st]; [exact I|].
  destruct H2 as (l2 & i2 & ->). exists l2, (i2 ++ i1). now rewrite app_assoc.
Qed.

Lemma unit_pushes F items : pushes false F items -> reads_as_unit F.
Proof.
  intros H l a c s. destruct (H l a c s) as [l' E]. rewrite E. now exists l', (rev items).
Qed.

(** RE2 has no lookahead: the text is rejected where it opens one. *)
Lemma unit_lookahead rest : reads_as_unit ("(?!" ++ rest).
Proof. intros l a c s. exact I. Qed.

Lemma unit_quoted_char c : reads_as_unit (QuoteMeta [c]).
Proof.
  destruct (byte_val c <? 128) eqn:E.
  - apply (unit_pushes _ [Chr c]). now apply pushes_quoted_char.
  - destruct c as [[|] [|] [|] [|] [|] [|] [|] [|]];
      first [discriminate E | intros l a cu s; exact I].
Qed.

Lemma unit_QuoteMeta s : reads_as_unit (QuoteMeta s).
Proof.
  induction s as [|c s IH]; [apply unit_nil|].
  change (c :: s) with ([c] ++ s). rewrite QuoteMeta_app.
  apply unit_app; [apply unit_quoted_char|exact IH].
Qed.

(** The text of numbers: digits and the minus sign. *)
Definition number_text (w : gostring) : bool :=
  forallb (fun c => is_digit c || Ascii.eqb c "-") w.

Lemma number_text_app a b : number_text (a ++ b) = number_text a && number_text b.
Proof. apply forallb_app. Qed.

Lemma number_text_digits s : all_digits s -> number_text s = true.
Proof.
  intros H. unfold number_text. apply forallb_forall. intros c Hc.
  unfold all_digits in H. rewrite forallb_forall in H. now rewrite (H c Hc).
Qed.

Lemma Itoa_number_text n : number_text (Itoa n) = true.
Proof.
  unfold Itoa. destruct (Z.ltb_spec n 0).
  - change (number_text (utoa 20 (- n)) = true). apply number_text_digits, utoa_all_digits. lia.
  - apply number_text_digits, utoa_all_digits. lia.
Qed.

Lemma number_char_cases c :
  (is_digit c || Ascii.eqb c "-") = true ->
  In c ["0"; "1"; "2"; "3"; "4"; "5"; "6"; "7"; "8"; "9"; "-"]%char.
Proof.
  intros H. apply orb_true_iff in H as [H|H].
  - apply digit_cases in H. cbn [In] in H |- *. tauto.
  - apply Ascii.eqb_eq in H. subst. cbn [In]. tauto.
Qed.

Lemma QuoteMeta_number_text w : number_text w = true -> QuoteMeta w = w.
Proof.
  induction w as [|c w IH]; intros H; [reflexivity|].
  cbn [number_text forallb] in H. apply andb_true_iff in H as [Hc Hw].
  change (c :: w) with ([c] ++ w). rewrite QuoteMeta_app, (IH Hw). f_equal.
  apply number_char_cases in Hc. cbn [In] in Hc.
  repeat (destruct Hc as [<-|Hc]; [reflexivity|]). contradiction.
Qed.

Lemma unit_number_text w : number_text w = true -> reads_as_unit w.
Proof. intros H. rewrite <- (QuoteMeta_number_text w H). apply unit_QuoteMeta. Qed.

Lemma unit_Itoa n : reads_as_unit (Itoa n).
Proof. apply unit_number_text, Itoa_number_text. Qed.

Lemma unit_dec n : reads_as_unit (dec n).
Proof. rewrite dec_Itoa. apply unit_Itoa. Qed.

(** *** Character classes written with numbers *)

Definition open_pos (p : cpos) : Prop :=
  match p with PNext | PLo _ | PDash _ => True | _ => False end.

Definition item_pos (p : cpos) : Prop :=
  match p with PEsc | PDashEsc _ => False | _ => True end.

Lemma open_item_pos p : open_pos p -> item_pos p.
Proof. destruct p; simpl; tauto. Qed.

Lemma step_class_number c neg ranges pos top stack :
  (is_digit c || Ascii.eqb c "-") = true -> item_pos pos ->
  match step false (PState (MClass neg ranges pos) top stack) c with
  | inl _ => True
  | inr st =>
      exists ranges' pos', st = PState (MClass neg ranges' pos') top stack /\ open_pos pos'
  end.
Proof.
  intros H P. apply number_char_cases in H. cbn [In] in H.
  repeat (destruct H as [<-|H];
          [destruct pos; try (destruct P; fail); cbn;
           try match goal with |- context [if ?b then _ else _] => destruct b end;
           first [exact I | (eexists; eexists; split; [reflexivity|exact I])]|]).
  contradiction.
Qed.

Lemma feed_class_number w :
  number_text w = true ->
  forall neg ranges pos top stack, item_pos pos ->
  match feed false (PState (MClass neg ranges pos) top stack) w with
  | inl _ => True
  | inr st =>
      exists ranges' pos',
        st = PState (MClass neg ranges' pos') top stack
        /\ (open_pos pos' \/ (w = [] /\ pos' = pos))
  end.
Proof.
  induction w as [|c w IH]; intros H neg ranges pos top stack P.
  - exists ranges, pos. split; [reflexivity|]. now right.
  - cbn [number_text forallb] in H. apply andb_true_iff in H as [Hc Hw].
    cbn [feed]. pose proof (step_class_number c neg ranges pos top stack Hc P) as S.
    destruct (step false (PState (MClass neg ranges pos) top stack) c) as [e|st]; [exact I|].
    destruct S as (r1 & p1 & -> & O1).
    pose proof (IH Hw neg r1 p1 top stack (open_item_pos _ O1)) as R.
    destruct (feed false (PState (MClass neg r1 p1) top stack) w) as [e|st]; [exact I|].
    destruct R as (r2 & p2 & -> & O2). exists r2, p2. split; [reflexivity|]. left.
    destruct O2 as [O2|[_ E]]; [exact O2|now rewrite E].
Qed.

Lemma unit_class w :
  w <> [] -> number_text w = true -> reads_as_unit ("[" ++ w ++ "]").
Proof.
  intros N H l a c s.
  change (feed false (PState (MNormal l) (Frame a c) s) ("[" ++ w ++ "]"))
    with (feed false (PState (MClass false [] PStart) (Frame a c) s) (w ++ "]")).
  rewrite feed_app.
  pose proof (feed_class_number w H false [] PStart (Frame a c) s I) as R.
  destruct (feed false (PState (MClass false [] PStart) (Frame a c) s) w) as [e|st];
    [exact I|].
  destruct R as (r & p & -> & [O|[E _]]); [|congruence].
  destruct p; try (destruct O; fail); cbn; eexists; eexists [_]; reflexivity.
Qed.

(** *** Counted repetitions of a digit *)

Lemma feed_count_number w :
  number_text w = true ->
  forall last digits top stack,
  match feed false (PState (MRepMin last digits) top stack) w with
  | inl _ => True
  | inr st => exists digits', st = PState (MRepMin last digits') top stack
  end.
Proof.
  induction w as [|c w IH]; intros H last digits top stack.
  - now exists digits.
  - cbn [number_text forallb] in H. apply andb_true_iff in H as [Hc Hw].
    cbn [feed step st_mode st_top st_stack].
    destruct (is_digit c) eqn:D.
    + destruct (add_digit digits c) as [e|n]; [exact I|]. apply (IH Hw).
    + cbn [orb] in Hc. apply Ascii.eqb_eq in Hc. subst c.
      destruct digits; exact I.
Qed.

Lemma unit_count w sfx :
  number_text w = true -> In sfx ["}"; ",}"] -> reads_as_unit ("\d{" ++ w ++ sfx).
Proof.
  intros H Hs l a c s.
  change (feed false (PState (MNormal l) (Frame a c) s) ("\d{" ++ w ++ sfx))
    with (feed false (PState (MRepMin LAtom None) (Frame a (Digit :: c)) s) (w ++ sfx)).
  rewrite feed_app.
  pose proof (feed_count_number w H LAtom None (Frame a (Digit :: c)) s) as R.
  destruct (feed false (PState (MRepMin LAtom None) (Frame a (Digit :: c)) s) w) as [e|st];
    [exact I|].
  destruct R as (d & ->). cbn [In] in Hs.
  destruct Hs as [<-|[<-|[]]]; destruct d as [mn|]; cbn; try exact I;
    eexists; eexists [_]; reflexivity.
Qed.

Lemma unit_exactly k : reads_as_unit (fmt.Sprintf "\d{%d}" [fmt.Int k]).
Proof.
  change (fmt.Sprintf "\d{%d}" [fmt.Int k]) with ("\d{" ++ Itoa k ++ "}").
  apply unit_count; [apply Itoa_number_text|simpl; tauto].
Qed.

Lemma unit_at_least k : reads_as_unit (fmt.Sprintf "\d{%d,}" [fmt.Int k]).
Proof.
  change (fmt.Sprintf "\d{%d,}" [fmt.Int k]) with ("\d{" ++ Itoa k ++ ",}").
  apply unit_count; [apply Itoa_number_text|simpl; tauto].
Qed.

(** *** Groups *)

Lemma feed_alternatives_unit ps :
  Forall reads_as_unit ps ->
  forall l a c stack,
  match feed false (PState (MNormal l) (Frame a c) stack) (strings.Join ps "|") with
  | inl _ => True
  | inr st => exists l' a' c', st = PState (MNormal l') (Frame a' c') stack
  end.
Proof.
  induction 1 as [|p ps Hp Hps IH]; intros l a c stack.
  - now exists l, a, c.
  - destruct ps as [|p' ps'].
    + cbn [strings.Join]. specialize (Hp l a c stack).
      destruct (feed false (PState (MNormal l) (Frame a c) stack) p) as [e|st]; [exact I|].
      destruct Hp as (l' & items & ->). now exists l', a, (items ++ c).
    + change (strings.Join (p :: p' :: ps') "|")
        with (p ++ "|" ++ strings.Join (p' :: ps') "|").
      rewrite feed_app. specialize (Hp l a c stack).
      destruct (feed false (PState (MNormal l) (Frame a c) stack) p) as [e|st]; [exact I|].
      destruct Hp as (l' & items & ->).
      change (feed false (PState (MNormal l') (Frame a (items ++ c)) stack)
                ("|" ++ strings.Join (p' :: ps') "|"))
        with (feed false
                (PState (MNormal LNone) (Frame (mkCat (rev (items ++ c)) :: a) []) stack)
                (strings.Join (p' :: ps') "|")).
      apply IH.
Qed.

Lemma unit_group ps :
  Forall reads_as_unit ps -> reads_as_unit ("(?:" ++ strings.Join ps "|" ++ ")").
Proof.
  intros H l a c s. rewrite feed_open_group, feed_app.
  pose proof (feed_alternatives_unit ps H LNone [] [] ((GNonCapture, Frame a c) :: s)) as R.
  destruct (feed false (PState (MNormal LNone) (Frame [] []) ((GNonCapture, Frame a c) :: s))
              (strings.Join ps "|")) as [e|st]; [exact I|].
  destruct R as (l' & a' & c' & ->). rewrite feed_close_group.
  eexists; eexists [_]; reflexivity.
Qed.

Lemma unit_optional_group F : reads_as_unit F -> reads_as_unit ("(?:" ++ F ++ ")?").
Proof.
  intros H l a c s. rewrite feed_open_group, feed_app.
  specialize (H LNone [] [] ((GNonCapture, Frame a c) :: s)).
  destruct (feed false (PState (MNormal LNone) (Frame [] []) ((GNonCapture, Frame a c) :: s)) F)
    as [e|st]; [exact I|].
  destruct H as (l' & items & ->). cbn. eexists; eexists [_]; reflexivity.
Qed.

Lemma unit_joinPatterns ps : Forall reads_as_unit ps -> reads_as_unit (joinPatterns ps).
Proof.
  intros H. unfold joinPatterns, REGEX_OR. destruct (length ps =? 1)%nat eqn:E.
  - destruct ps as [|p [|q ps]]; try discriminate E. now inversion H.
  - now apply unit_group.
Qed.

Lemma unit_Join ps sep :
  Forall reads_as_unit ps -> reads_as_unit sep -> reads_as_unit (strings.Join ps sep).
Proof.
  intros H Hs. induction H as [|p ps Hp Hps IH]; [apply unit_nil|].
  destruct ps as [|p' ps']; [exact Hp|].
  change (strings.Join (p :: p' :: ps') sep) with (p ++ sep ++ strings.Join (p' :: ps') sep).
  apply unit_app; [exact Hp|]. apply unit_app; [exact Hs|exact IH].
Qed.

(** ** The fragments of the synthesizer *)

Lemma unit_VERSION_DOT : reads_as_unit VERSION_DOT.
Proof. exact (unit_pushes _ _ (pushes_VERSION_DOT false)). Qed.

Lemma unit_VERSION_DIGITS : reads_as_unit VERSION_DIGITS.
Proof. exact (unit_pushes _ _ (pushes_VERSION_DIGITS false)). Qed.

Lemma unit_PRE_RELEASE_PATTERN : reads_as_unit PRE_RELEASE_PATTERN.
Proof. exact (unit_pushes _ _ (pushes_PRE_RELEASE_PATTERN false)). Qed.

Lemma unit_BUILD_META_PATTERN : reads_as_unit BUILD_META_PATTERN.
Proof. exact (unit_pushes _ _ (pushes_BUILD_META_PATTERN false)). Qed.

Lemma unit_VERSION_SUFFIX_PATTERN : reads_as_unit VERSION_SUFFIX_PATTERN.
Proof. exact (unit_pushes _ _ (pushes_VERSION_SUFFIX_PATTERN false)). Qed.

Lemma unit_one_digit : reads_as_unit "\d".
Proof. exact (unit_pushes _ _ (pushes_one_digit false)). Qed.

Lemma unit_EMPTY_MATCH_PATTERN : reads_as_unit EMPTY_MATCH_PATTERN.
Proof. intros l a c s. exact I. Qed.

Lemma unit_rangeStr up d : reads_as_unit (rangeStr up d).
Proof.
  destruct up; unfold rangeStr, digitRangeUp, digitRangeDown.
  - destruct (d =? 9); [now apply unit_number_text|].
    replace (fmt.Sprintf "[%d-9]" [fmt.Int d]) with ("[" ++ (Itoa d ++ "-9") ++ "]")
      by (cbn; now rewrite <- app_assoc).
    apply unit_class.
    + intros E. apply app_eq_nil in E as [_ E]. discriminate E.
    + now rewrite number_text_app, Itoa_number_text.
  - destruct (d =? 0); [now apply unit_number_text|].
    change (fmt.Sprintf "[0-%d]" [fmt.Int d]) with ("[" ++ ("0-" ++ Itoa d) ++ "]").
    apply unit_class; [discriminate|].
    now rewrite number_text_app, Itoa_number_text.
Qed.

Lemma unit_pos_strs up p ds :
  number_text p = true -> number_text ds = true ->
  Forall reads_as_unit (pos_strs up p ds).
Proof.
  revert p. induction ds as [|c t IH]; intros p Hp Hd; [constructor|].
  cbn [number_text forallb] in Hd. apply andb_true_iff in Hd as [Hc Ht].
  cbn [pos_strs]. apply Forall_app. split.
  - destruct (isnil t).
    + constructor; [|constructor].
      apply unit_app; [now apply unit_number_text|apply unit_rangeStr].
    + destruct (mid_ok up (digit_of c)); constructor; [|constructor].
      apply unit_app; [now apply unit_number_text|].
      apply unit_app; [apply unit_rangeStr|apply unit_exactly].
  - apply IH; [|exact Ht]. rewrite number_text_app, Hp. cbn [number_text forallb].
    now rewrite Hc.
Qed.

(** Whatever the number, the fragment [NumGreaterOrEqual] writes for it
    reads as a unit; so does the one of [NumLessOrEqual]. *)
Lemma unit_NumGreaterOrEqual n : reads_as_unit (NumGreaterOrEqual n).
Proof.
  destruct (Z.leb_spec n 0) as [Hn|Hn].
  - unfold NumGreaterOrEqual. destruct (Z.leb_spec n 0); [|lia]. apply unit_VERSION_DIGITS.
  - rewrite NumGreaterOrEqual_patterns by exact Hn. apply unit_joinPatterns.
    unfold ge_patterns. cbv zeta. apply Forall_app. split.
    + destruct (Z.of_nat (length (Itoa n)) <? 10); constructor; [|constructor].
      apply unit_at_least.
    + apply unit_pos_strs; [reflexivity|apply Itoa_number_text].
Qed.

Lemma unit_NumLessOrEqual n : reads_as_unit (NumLessOrEqual n).
Proof.
  destruct (Z.ltb_spec n 0) as [Hn|Hn].
  - unfold NumLessOrEqual. destruct (Z.ltb_spec n 0); [|lia]. apply unit_EMPTY_MATCH_PATTERN.
  - rewrite NumLessOrEqual_patterns by exact Hn. apply unit_joinPatterns.
    unfold le_patterns. cbv zeta. apply Forall_app. split.
    + apply Forall_forall. intros p Hp. apply in_map_iff in Hp as (d & <- & _).
      unfold fewer_str. destruct (d =? 1); [apply unit_one_digit|apply unit_exactly].
    + apply unit_pos_strs; [reflexivity|apply Itoa_number_text].
Qed.

Create HintDb units.
#[local] Hint Resolve unit_nil unit_app unit_VERSION_DOT unit_VERSION_DIGITS
  unit_PRE_RELEASE_PATTERN unit_BUILD_META_PATTERN unit_VERSION_SUFFIX_PATTERN
  unit_NumGreaterOrEqual unit_NumLessOrEqual unit_dec unit_Itoa unit_QuoteMeta
  unit_optional_group : units.

(** ** Anchored patterns *)

(** A pattern that is [^], a body that reads as a unit, and [$]. *)
Definition anchored_unit (pattern : gostring) : Prop :=
  exists body, pattern = REGEX_START ++ body ++ REGEX_END /\ reads_as_unit body.

Lemma anchored_unit_anchored F : reads_as_unit F -> anchored_unit (anchored F).
Proof. intros H. now exists F. Qed.

Lemma bounded_unit ps : Forall reads_as_unit ps -> anchored_unit (bounded ps).
Proof.
  intros H. rewrite bounded_shape. apply anchored_unit_anchored.
  replace ("(?:" ++ strings.Join ps "|" ++ ")" ++ VERSION_SUFFIX_PATTERN)
    with (("(?:" ++ strings.Join ps "|" ++ ")") ++ VERSION_SUFFIX_PATTERN)
    by (normalise_app; reflexivity).
  apply unit_app; [now apply unit_group|apply unit_VERSION_SUFFIX_PATTERN].
Qed.

Lemma version_pattern_unit FA FB FC :
  reads_as_unit FA -> reads_as_unit FB -> reads_as_unit FC ->
  anchored_unit (version_pattern FA FB FC).
Proof. intros HA HB HC. apply anchored_unit_anchored. auto 10 with units. Qed.

Lemma EMPTY_MATCH_PATTERN_unit : anchored_unit EMPTY_MATCH_PATTERN.
Proof. exists "(?!.*)". split; [reflexivity|apply (unit_lookahead ".*)")]. Qed.

Lemma Ok_inj {A} (a b : A) : Ok a = Ok b -> a = b.
Proof. congruence. Qed.

Ltac unit_clauses :=
  cbv zeta; cbn [app];
  repeat first [apply Forall_cons | apply Forall_nil];
  auto 12 with units.

Lemma greaterThanEqualRegex_unit v pattern :
  greaterThanEqualRegex v = Ok pattern -> anchored_unit pattern.
Proof.
  unfold greaterThanEqualRegex.
  destruct (parseVersionParts v) as [[[major minor] patch]|e]; [|discriminate].
  intros H. apply Ok_inj in H. subst pattern. apply bounded_unit. unit_clauses.
Qed.

Lemma lessThanEqualRegex_unit v pattern :
  lessThanEqualRegex v = Ok pattern -> anchored_unit pattern.
Proof.
  unfold lessThanEqualRegex.
  destruct (parseVersionParts v) as [[[major minor] patch]|e]; [|discriminate].
  intros H. apply Ok_inj in H. subst pattern. apply bounded_unit.
  destruct (0 <? major), (0 <? minor); unit_clauses.
Qed.

Lemma greaterThanRegex_unit v pattern :
  greaterThanRegex v = Ok pattern -> anchored_unit pattern.
Proof.
  unfold greaterThanRegex.
  destruct (parseVersionParts v) as [[[major minor] patch]|e]; [|discriminate].
  intros H. apply Ok_inj in H. subst pattern. apply bounded_unit. unit_clauses.
Qed.

Lemma lessThanRegex_unit v pattern :
  lessThanRegex v = Ok pattern -> anchored_unit pattern.
Proof.
  unfold lessThanRegex.
  destruct (parseVersionParts v) as [[[major minor] patch]|e]; [|discriminate].
  cbv zeta. destruct (length (lessThan_patterns major minor patch) =? 0)%nat;
    intros H; apply Ok_inj in H; subst pattern; [apply EMPTY_MATCH_PATTERN_unit|].
  apply bounded_unit. unfold lessThan_patterns.
  destruct (0 <? major), (0 <? minor), (0 <? patch); unit_clauses.
Qed.

Lemma caretRangeRegex_unit v pattern :
  caretRangeRegex v = Ok pattern -> anchored_unit pattern.
Proof.
  unfold caretRangeRegex. destruct (parseVersionParts v) as [[[major minor] patch]|e];
    [|discriminate].
  cbv zeta. rewrite caret_template, caret_zero_template. intros H. apply Ok_inj in H. subst pattern.
  destruct (major =? 0); apply version_pattern_unit; auto with units.
  now apply unit_number_text.
Qed.

Lemma tildeRangeRegex_unit v pattern :
  tildeRangeRegex v = Ok pattern -> anchored_unit pattern.
Proof.
  unfold tildeRangeRegex. destruct (parseVersionParts v) as [[[major minor] patch]|e];
    [|discriminate].
  rewrite tilde_template. intros H. apply Ok_inj in H. subst pattern.
  apply version_pattern_unit; auto with units.
Qed.

(** *** The exact match *)

Lemma anchored_unit_eq pattern F :
  pattern = REGEX_START ++ F ++ REGEX_END -> reads_as_unit F -> anchored_unit pattern.
Proof. intros E U. now exists F. Qed.

Lemma anchored_unit_two t A :
  reads_as_unit t -> reads_as_unit A -> anchored_unit (((REGEX_START ++ t) ++ A) ++ REGEX_END).
Proof.
  intros Ut UA. apply (anchored_unit_eq _ (t ++ A)); [now rewrite <- !app_assoc|].
  now apply unit_app.
Qed.

Lemma anchored_unit_three t A B :
  reads_as_unit t -> reads_as_unit A -> reads_as_unit B ->
  anchored_unit ((((REGEX_START ++ t) ++ A) ++ B) ++ REGEX_END).
Proof.
  intros Ut UA UB. apply (anchored_unit_eq _ (t ++ A ++ B)); [now rewrite <- !app_assoc|].
  apply unit_app; [exact Ut|now apply unit_app].
Qed.

Lemma pad_loop_unit turns parts :
  Forall reads_as_unit parts -> Forall reads_as_unit (pad_loop turns parts).
Proof.
  revert parts. induction turns as [|turns IH]; intros parts H; [exact H|].
  cbn [pad_loop]. destruct (length parts <? 3)%nat; [|exact H].
  apply IH, Forall_app. split; [exact H|]. constructor; [apply unit_VERSION_DIGITS|constructor].
Qed.

Lemma wildcardToRegex_unit v : anchored_unit (wildcardToRegex v).
Proof.
  unfold wildcardToRegex. cbv zeta.
  match goal with |- anchored_unit (_ ++ ?J ++ _ ++ _) =>
    apply (anchored_unit_eq _ (J ++ VERSION_SUFFIX_PATTERN)); [now rewrite <- app_assoc|] end.
  apply unit_app; [|apply unit_VERSION_SUFFIX_PATTERN].
  apply unit_Join; [|apply unit_VERSION_DOT].
  assert (C : Forall reads_as_unit (convertWildcardParts (strings.Split v "."))).
  { unfold convertWildcardParts. apply Forall_forall. intros p Hp.
    apply in_map_iff in Hp as (part & <- & _).
    destruct (gs_eqb part "*"); [apply unit_VERSION_DIGITS|apply unit_QuoteMeta]. }
  unfold padToSemanticVersion.
  destruct (length (strings.Split v ".") =? 0)%nat; [exact C|]. cbv zeta.
  destruct (negb (gs_eqb (nth (length (strings.Split v ".") - 1) (strings.Split v ".") []) "*"));
    [exact C|now apply pad_loop_unit].
Qed.

(** A loop that only appends units to the pattern it builds. *)
Lemma fold_left_adds {A} (f : gostring -> A -> gostring) (l : list A) (p : gostring) :
  (forall q x, exists t, f q x = q ++ t /\ reads_as_unit t) ->
  exists t, fold_left f l p = p ++ t /\ reads_as_unit t.
Proof.
  intros H. revert p. induction l as [|x l IH]; intros p.
  - exists []. split; [now rewrite app_nil_r|apply unit_nil].
  - cbn [fold_left]. destruct (H p x) as (t1 & E1 & U1).
    destruct (IH (f p x)) as (t2 & E2 & U2).
    exists (t1 ++ t2). split; [now rewrite E2, E1, app_assoc|now apply unit_app].
Qed.

Lemma quote_part_adds q ip : exists t, quote_part q ip = q ++ t /\ reads_as_unit t.
Proof.
  unfold quote_part. destruct (0 <? fst ip).
  - exists (VERSION_DOT ++ QuoteMeta (snd ip)). split; [now rewrite <- app_assoc|].
    auto with units.
  - exists (QuoteMeta (snd ip)). split; [reflexivity|apply unit_QuoteMeta].
Qed.

Lemma unit_go_tag y : reads_as_unit ("(?:-" ++ QuoteMeta y ++ ".*)?").
Proof.
  replace ("(?:-" ++ QuoteMeta y ++ ".*)?") with ("(?:" ++ ("-" ++ QuoteMeta y ++ ".*") ++ ")?")
    by (normalise_app; reflexivity).
  apply unit_optional_group.
  apply unit_app; [now apply unit_number_text|].
  apply unit_app; [apply unit_QuoteMeta|exact (unit_pushes _ _ (pushes_any_run false))].
Qed.

Lemma go_part_adds q ip : exists t, go_part q ip = q ++ t /\ reads_as_unit t.
Proof.
  unfold go_part. cbv zeta.
  assert (E : exists t0, (if 0 <? fst ip then q ++ VERSION_DOT else q) = q ++ t0
                         /\ reads_as_unit t0).
  { destruct (0 <? fst ip).
    - exists VERSION_DOT. split; [reflexivity|apply unit_VERSION_DOT].
    - exists []. split; [now rewrite app_nil_r|apply unit_nil]. }
  destruct E as (t0 & -> & U0).
  destruct (strings.Contains (snd ip) "-").
  - destruct (1 <? length (strings.Split (snd ip) "-"))%nat.
    + eexists. split; [rewrite <- !app_assoc; reflexivity|].
      apply unit_app; [exact U0|]. apply unit_app; [apply unit_QuoteMeta|].
      apply unit_go_tag.
    + eexists. split; [rewrite <- !app_assoc; reflexivity|].
      apply unit_app; [exact U0|apply unit_QuoteMeta].
  - eexists. split; [rewrite <- !app_assoc; reflexivity|].
    apply unit_app; [exact U0|apply unit_QuoteMeta].
Qed.

Lemma goModuleVersionRegex_unit v : anchored_unit (goModuleVersionRegex v).
Proof.
  unfold goModuleVersionRegex. cbv zeta.
  match goal with |- context [if ?c then REGEX_START ++ _ else _] => destruct c end.
  - eexists. split; [reflexivity|apply unit_QuoteMeta].
  - destruct (fold_left_adds go_part
                (enumerate (strings.Split (skipn 1 v) ".")) (REGEX_START ++ "v")
                go_part_adds) as (t & -> & U).
    assert (Uv : reads_as_unit "v") by (now apply (unit_pushes _ [Chr "v"]), pushes_v).
    destruct (negb (strings.Contains (skipn 1 v) "-")).
    + exists ("v" ++ t ++ PRE_RELEASE_PATTERN).
      split; [unfold REGEX_START; normalise_app; reflexivity|]. auto with units.
    + exists ("v" ++ t). split; [unfold REGEX_START; normalise_app; reflexivity|].
      auto with units.
Qed.

Lemma csharpVersionRegex_unit v : anchored_unit (csharpVersionRegex v).
Proof.
  unfold csharpVersionRegex. cbv zeta.
  repeat match goal with |- context [if ?c then _ else _] => destruct c end;
    match goal with |- context [fold_left quote_part ?l ?p] =>
      destruct (fold_left_adds quote_part l p quote_part_adds) as (t & -> & U) end;
    apply anchored_unit_two; auto with units;
    exact (unit_pushes _ _ (pushes_nuget_tag_group false)).
Qed.

Lemma exactMatchRegex_unit v : anchored_unit (exactMatchRegex v).
Proof.
  unfold exactMatchRegex.
  destruct (strings.Contains v "*"); [apply wildcardToRegex_unit|].
  destruct (isGoModuleVersion v); [apply goModuleVersionRegex_unit|].
  destruct (isCSharpVersion v); [apply csharpVersionRegex_unit|].
  cbv zeta.
  repeat match goal with |- context [if ?c then _ else _] => destruct c end;
    match goal with |- context [fold_left quote_part ?l ?p] =>
      destruct (fold_left_adds quote_part l p quote_part_adds) as (t & -> & U) end;
    apply (anchored_unit_three t); auto with units.
Qed.

(** *** Not equal *)

Lemma notEqualRegex_unit v pattern : notEqualRegex v = Ok pattern -> anchored_unit pattern.
Proof.
  unfold notEqualRegex. cbv zeta. intros H. apply Ok_inj in H. subst pattern.
  match goal with |- anchored_unit (fmt.Sprintf _ [fmt.Str ?core]) => set (c := core) end.
  exists ("(?!" ++ c ++ "$)\d+(?:\.\d+)?(?:\.\d+)?"
          ++ "(?:-[a-zA-Z0-9\\-\\.]+)?(?:\\+[a-zA-Z0-9\\-\\.]+)?").
  split; [cbn; rewrite <- !app_assoc; reflexivity|apply unit_lookahead].
Qed.

(** *** Maven ranges *)

Lemma mavenRangeRegex_unit v pattern : mavenRangeRegex v = Ok pattern -> anchored_unit pattern.
Proof.
  unfold mavenRangeRegex. destruct (parseMavenRangeBounds v) as [[lo hi]|e]; [|discriminate].
  destruct (negb (isnil lo) && negb (isnil hi)).
  { intros H. apply Ok_inj in H. subst pattern. unfold mavenBothBoundsPattern. cbv zeta.
    generalize (extractMajorVersion lo) as a, (extractMajorVersion hi) as b. intros a b.
    destruct (a =? b).
    - change (anchored_unit (fmt.Sprintf CARET_RANGE_TEMPLATE [fmt.Int a])).
      rewrite caret_template. apply version_pattern_unit; auto with units.
    - exists (("[" ++ (Itoa a ++ "-" ++ Itoa b) ++ "]") ++ VERSION_DOT ++ VERSION_DIGITS
              ++ VERSION_DOT ++ VERSION_DIGITS ++ VERSION_SUFFIX_PATTERN).
      split; [cbn; normalise_app; reflexivity|].
      apply unit_app; [|auto 8 with units]. apply unit_class.
      + intros E. apply app_eq_nil in E as [_ E]. discriminate E.
      + rewrite !number_text_app, !Itoa_number_text. reflexivity. }
  destruct (negb (isnil lo)).
  { intros H. apply Ok_inj in H. subst pattern. unfold mavenLowerBoundPattern. cbv zeta.
    generalize (extractMajorVersion lo) as a. intros a.
    exists (("(?:" ++ strings.Join ["[" ++ (Itoa a ++ "-9") ++ "]"; "\d{2,}"] "|" ++ ")")
            ++ VERSION_DOT ++ VERSION_DIGITS ++ VERSION_DOT ++ VERSION_DIGITS
            ++ VERSION_SUFFIX_PATTERN).
    split; [cbn; normalise_app; reflexivity|].
    apply unit_app; [|auto 8 with units]. apply unit_group.
    constructor; [|constructor; [apply (unit_at_least 2)|constructor]].
    apply unit_class.
    - intros E. apply app_eq_nil in E as [_ E]. discriminate E.
    - now rewrite number_text_app, Itoa_number_text. }
  destruct (negb (isnil hi)).
  { intros H. apply Ok_inj in H. subst pattern. unfold mavenUpperBoundPattern. cbv zeta.
    generalize (extractMajorVersion hi) as b. intros b.
    destruct (0 <? b).
    - exists (("[" ++ ("0-" ++ Itoa b) ++ "]") ++ VERSION_DOT ++ VERSION_DIGITS
              ++ VERSION_DOT ++ VERSION_DIGITS ++ VERSION_SUFFIX_PATTERN).
      split; [cbn; normalise_app; reflexivity|].
      apply unit_app; [|auto 8 with units]. apply unit_class; [discriminate|].
      now rewrite number_text_app, Itoa_number_text.
    - exists ("0" ++ VERSION_DOT ++ VERSION_DIGITS ++ VERSION_DOT ++ VERSION_DIGITS
              ++ VERSION_SUFFIX_PATTERN).
      split; [reflexivity|]. apply unit_app; [now apply unit_number_text|auto 8 with units]. }
  intros H. apply Ok_inj in H. subst pattern.
  exists (SEMANTIC_VERSION_CORE ++ VERSION_SUFFIX_PATTERN). split; [reflexivity|].
  unfold SEMANTIC_VERSION_CORE. rewrite <- !app_assoc. auto 10 with units.
Qed.

(** *** Every pattern of the compiler *)

Lemma constraintToRegex_unit constraint pattern :
  constraintToRegex constraint = Ok pattern -> anchored_unit pattern.
Proof.
  unfold constraintToRegex. cbv zeta.
  set (v := Version constraint). set (op := Operator constraint).
  destruct (gs_eqb op OP_EQUAL_EQUAL || gs_eqb op OP_EQUAL).
  { intros H. apply Ok_inj in H. subst pattern. apply exactMatchRegex_unit. }
  destruct (gs_eqb op OP_GREATER_EQUAL); [apply greaterThanEqualRegex_unit|].
  destruct (gs_eqb op OP_LESS_EQUAL); [apply lessThanEqualRegex_unit|].
  destruct (gs_eqb op OP_GREATER); [apply greaterThanRegex_unit|].
  destruct (gs_eqb op OP_LESS); [apply lessThanRegex_unit|].
  destruct (gs_eqb op OP_NOT_EQUAL); [apply notEqualRegex_unit|].
  destruct (gs_eqb op OP_CARET); [apply caretRangeRegex_unit|].
  destruct (gs_eqb op OP_TILDE || gs_eqb op OP_PESSIMISTIC); [apply tildeRangeRegex_unit|].
  destruct (gs_eqb op OP_COMPATIBLE); [apply tildeRangeRegex_unit|].
  destruct (gs_eqb op OP_MAVEN_RANGE); [apply mavenRangeRegex_unit|].
  discriminate.
Qed.

(** ** What the anchors mean for matching *)

(** An anchored pattern whose body reads as a unit compiles, when it does,
    to one concatenation that begins with the start anchor and ends with the
    end anchor: no alternative of the body escapes the anchors. *)
Lemma unit_parse F r :
  reads_as_unit F -> parse false (REGEX_START ++ F ++ REGEX_END) = inr r ->
  exists items, r = mkAlt [mkCat (Bol :: items ++ [Eol])].
Proof.
  intros U. unfold parse.
  change (feed false initial (REGEX_START ++ F ++ REGEX_END))
    with (feed false (PState (MNormal LAtom) (Frame [] [Bol]) []) (F ++ "$")).
  rewrite feed_app. specialize (U LAtom [] [Bol] []).
  destruct (feed false (PState (MNormal LAtom) (Frame [] [Bol]) []) F) as [e|st];
    [discriminate|].
  destruct U as (l' & items & ->). cbn. intros E. injection E as <-.
  exists (rev items). unfold frame_regex. cbn [regexp.alts regexp.cur rev app].
  now rewrite rev_app_distr.
Qed.

Lemma ends_with_Eol items b w rest :
  matches (mkCat (items ++ [Eol])) b w rest = true -> rest = [].
Proof.
  revert b w. induction items as [|r items IH]; intros b w.
  - cbn [app mkCat fold_right]. rewrite matches_Cat.
    intros (w1 & w2 & _ & H1 & _). simpl in H1.
    apply andb_true_iff in H1 as [_ H1]. apply isnil_true in H1.
    now apply app_eq_nil in H1.
  - cbn [app mkCat fold_right]. fold (mkCat (items ++ [Eol])). rewrite matches_Cat.
    intros (w1 & w2 & _ & _ & H2). now apply IH in H2.
Qed.

Lemma whole_text items b w rest :
  matches (mkAlt [mkCat (Bol :: items ++ [Eol])]) b w rest = true -> b = true /\ rest = [].
Proof.
  cbn [mkAlt fold_right]. rewrite matches_Alt. simpl (matches Fail _ _ _).
  rewrite orb_false_r. cbn [mkCat fold_right]. fold (mkCat (items ++ [Eol])).
  rewrite matches_Cat. intros (w1 & w2 & _ & H1 & H2). simpl in H1.
  apply andb_true_iff in H1 as [Hb _]. split; [exact Hb|].
  now apply ends_with_Eol in H2.
Qed.


